(** * The SOF block-map memory allocator ([src/lib/alloc.c])

    A shallow embedding of the allocator of the Sound Open Firmware DSP
    image: the block maps, the heaps, the memory map, the single-block and
    contiguous allocation policies, the free path, realloc and the locked
    public entry points, followed by the properties of the specification.

    Conventions of the embedding.
    - Addresses and the unsigned 32-bit quantities of the C code are [Z];
      every C arithmetic operation that can leave the 32-bit range is
      written with its wrap-around ([wrap32]).  [NULL] is address 0.
    - A C array is a [list]; an access outside it, and a division by zero,
      are undefined behaviour in C and end the run with [Fault].
    - [panic()] does not return: it ends the run with [Panic].
    - C functions that mutate the heap they are handed return the new heap
      (explicit state passing); the memory map is threaded the same way.
    - The contents of the allocated memory are not part of the model:
      [bzero] and [memcpy_s] leave the allocator state alone and only show
      up as events of the public entry points.  Trace output is left out,
      and the image is the default one ([CONFIG_DEBUG_BLOCK_FREE] and
      [CONFIG_DEBUG_HEAP] off). *)

From Stdlib Require Import ZArith Lia Bool.
From stdpp Require Import base tactics option list.

Local Open Scope Z_scope.

(** ** Machine integers and run outcomes *)

Definition wrap32 (x : Z) : Z := x mod 2 ^ 32.
Definition wrap16 (x : Z) : Z := x mod 2 ^ 16.

(** Conversion of an unsigned 32-bit value to [int]. *)
Definition to_int (x : Z) : Z := if x <? 2 ^ 31 then x else x - 2 ^ 32.

Definition NULL : Z := 0.

(** Modelled from the spec: the panic codes come from [ipc/trace.h], which
    is not among the sources; the allocator only ever raises
    "the memory panic code". *)
Inductive panic_code : Type := SOF_IPC_PANIC_MEM.

Inductive fault : Type := DivideByZero | OutOfBounds.

Inductive outcome (A : Type) : Type :=
| Done (a : A)
| Panic (c : panic_code)
| Fault (f : fault).
Arguments Done {A} a.
Arguments Panic {A} c.
Arguments Fault {A} f.

Definition obind {A B} (c : outcome A) (k : A -> outcome B) : outcome B :=
  match c with
  | Done a => k a
  | Panic c => Panic c
  | Fault f => Fault f
  end.

Notation "'let*' p := c 'in' k" := (obind c (fun p => k))
  (at level 10, p pattern, c at level 100, k at level 200,
   format "'[v' 'let*'  p  :=  c  'in' '/' k ']'").

(** [a / b] and [a % b] on unsigned operands. *)
Definition udiv (a b : Z) : outcome Z :=
  if b =? 0 then Fault DivideByZero else Done (a / b).
Definition umod (a b : Z) : outcome Z :=
  if b =? 0 then Fault DivideByZero else Done (a mod b).

(** [a[i]]: reading or writing through an index outside the array faults. *)
Definition zlookup {A} (l : list A) (i : Z) : option A :=
  if i <? 0 then None else l !! Z.to_nat i.
Definition zinsert {A} (i : Z) (x : A) (l : list A) : list A :=
  <[Z.to_nat i := x]> l.
Definition at_index {A} (l : list A) (i : Z) : outcome A :=
  match zlookup l i with
  | Some x => Done x
  | None => Fault OutOfBounds
  end.

(** ** Data model

    Modelled from the spec: [struct block_hdr], [struct block_map],
    [struct mm_info], [struct mm_heap] and [struct mm] are declared in
    [sof/lib/mm_heap.h], which is not among the sources.  The fields are
    the ones [alloc.c] uses, with the widths of the specification's data
    model: [u32] for [block_size], [count], [first_free], [free_count],
    the heap size, capabilities and counters, [u16] for the run length
    [size] of a header, a boolean [used].  Field names are the C ones,
    prefixed where two structures share a name: [hdr_size], [hdr_used] for
    [block_hdr.size], [.used]; [info_used], [info_free] for [mm_info];
    [maps] and [heap_size] for [mm_heap.map] and [.size]. *)

Record block_hdr : Type := mk_hdr {
  hdr_size : Z;
  hdr_used : bool;
  unaligned_ptr : Z
}.

Record block_map : Type := mk_map {
  block_size : Z;
  count : Z;
  free_count : Z;
  first_free : Z;
  block : list block_hdr;
  base : Z
}.

Record mm_info : Type := mk_info {
  info_used : Z;
  info_free : Z
}.

Record mm_heap : Type := mk_heap {
  blocks : Z;
  maps : list block_map;
  heap : Z;
  heap_size : Z;
  caps : Z;
  info : mm_info
}.

Record mm : Type := mk_mm {
  system : list mm_heap;
  system_runtime : list mm_heap;
  runtime : list mm_heap;
  buffer : list mm_heap;
  heap_trace_updated : Z;
  lock : bool
}.

(** Modelled from the spec: [enum mem_zone] is declared in
    [sof/lib/alloc.h], which is not among the sources. *)
Inductive mem_zone : Type :=
| SOF_MEM_ZONE_SYS
| SOF_MEM_ZONE_SYS_RUNTIME
| SOF_MEM_ZONE_RUNTIME
| SOF_MEM_ZONE_BUFFER.

Definition set_hdr_unaligned (hdr : block_hdr) (p : Z) : block_hdr :=
  mk_hdr (hdr_size hdr) (hdr_used hdr) p.
Definition set_hdr_size (hdr : block_hdr) (n : Z) : block_hdr :=
  mk_hdr n (hdr_used hdr) (unaligned_ptr hdr).
Definition set_hdr_used (hdr : block_hdr) (u : bool) : block_hdr :=
  mk_hdr (hdr_size hdr) u (unaligned_ptr hdr).

Definition set_map (h : mm_heap) (level : Z) (m : block_map) (i : mm_info)
  : mm_heap :=
  mk_heap (blocks h) (zinsert level m (maps h)) (heap h) (heap_size h)
          (caps h) i.

(** ** Single-block and contiguous allocation *)

(** [align_ptr]: saves the unaligned pointer in the header and returns the
    pointer moved up to the next multiple of [alignment]. *)
Definition align_ptr (alignment : Z) (ptr : Z) (hdr : block_hdr)
  : Z * block_hdr :=
  let hdr := set_hdr_unaligned hdr ptr in
  let mod_align :=
    if alignment =? 0 then 0
    else if ptr mod alignment =? 0 then 0
    else alignment - ptr mod alignment in
  (wrap32 (ptr + mod_align), hdr).

(** The "find next free" loop of [alloc_block]: [n] headers from [i] on are
    inspected; [first_free] keeps its value [dflt] when none is free. *)
Fixpoint next_free (blk : list block_hdr) (i : Z) (n : nat) (dflt : Z)
  : outcome Z :=
  match n with
  | O => Done dflt
  | S n' =>
      let* hdr := at_index blk i in
      if hdr_used hdr then next_free blk (i + 1) n' dflt else Done i
  end.

Definition alloc_block (h : mm_heap) (level : Z) (caps_ alignment : Z)
  : outcome (Z * mm_heap) :=
  let* map := at_index (maps h) level in
  let* hdr := at_index (block map) (first_free map) in
  let free_count' := wrap32 (free_count map - 1) in
  let ptr := wrap32 (base map + wrap32 (first_free map * block_size map)) in
  let '(ptr, hdr) := align_ptr alignment ptr hdr in
  let hdr := set_hdr_used (set_hdr_size hdr 1) true in
  let blk := zinsert (first_free map) hdr (block map) in
  let info' :=
    mk_info (wrap32 (info_used (info h) + block_size map))
            (wrap32 (info_free (info h) - block_size map)) in
  let* ff := next_free blk (first_free map)
          (Z.to_nat (count map - first_free map)) (first_free map) in
  let map' := mk_map (block_size map) (count map) free_count' ff blk
                     (base map) in
  Done (ptr, set_map h level map' info').

(** The search loop of [alloc_cont_blocks]: [(remaining, start)] after at
    most [n] headers from [current] on, stopping once [remaining] reaches
    [cnt]. *)
Fixpoint scan_run (blk : list block_hdr) (current : Z) (n : nat) (cnt : Z)
         (remaining start : Z) : outcome (Z * Z) :=
  match n with
  | O => Done (remaining, start)
  | S n' =>
      if remaining <? cnt then
        let* hdr := at_index blk current in
        if hdr_used hdr then scan_run blk (current + 1) n' cnt 0 start
        else scan_run blk (current + 1) n' cnt (remaining + 1)
                      (if remaining =? 0 then current else start)
      else Done (remaining, start)
  end.

(** The "find first available free block" loop of [alloc_cont_blocks]:
    [first_free] advances over used headers and stops at [i + n]. *)
Fixpoint skip_used (blk : list block_hdr) (i : Z) (n : nat) : outcome Z :=
  match n with
  | O => Done i
  | S n' =>
      let* hdr := at_index blk i in
      if hdr_used hdr then skip_used blk (i + 1) n' else Done i
  end.

(** The "update each block" loop of [alloc_cont_blocks]. *)
Fixpoint mark_used (blk : list block_hdr) (current : Z) (n : nat)
         (unaligned : Z) : outcome (list block_hdr) :=
  match n with
  | O => Done blk
  | S n' =>
      let* hdr := at_index blk current in
      let hdr := set_hdr_unaligned (set_hdr_used hdr true) unaligned in
      mark_used (zinsert current hdr blk) (current + 1) n' unaligned
  end.

Definition alloc_cont_blocks (h : mm_heap) (level : Z) (caps_ bytes : Z)
           (alignment : Z) : outcome (Z * mm_heap) :=
  let* map := at_index (maps h) level in
  let* q := udiv bytes (block_size map) in
  let* r := umod bytes (block_size map) in
  let cnt := if r =? 0 then q else wrap32 (q + 1) in
  let* (remaining, start) :=
      scan_run (block map) (first_free map)
               (Z.to_nat (count map - first_free map)) cnt 0
               (first_free map) in
  if (count map <? cnt) || (remaining <? cnt) then Done (NULL, h)
  else
    let free_count' := wrap32 (free_count map - cnt) in
    let unaligned := wrap32 (base map + wrap32 (start * block_size map)) in
    let* hdr := at_index (block map) start in
    let hdr := set_hdr_size hdr (wrap16 cnt) in
    let '(ptr, hdr) := align_ptr alignment unaligned hdr in
    let blk := zinsert start hdr (block map) in
    let info' :=
      mk_info (wrap32 (info_used (info h) + wrap32 (cnt * block_size map)))
              (wrap32 (info_free (info h) - wrap32 (cnt * block_size map))) in
    let* ff := (if first_free map =? start then
             let ff0 := wrap32 (first_free map + cnt) in
             skip_used blk ff0 (Z.to_nat (count map - ff0))
           else Done (first_free map)) in
    let* blk := mark_used blk start (Z.to_nat (wrap32 (start + cnt) - start))
             unaligned in
    let map' := mk_map (block_size map) (count map) free_count' ff blk
                       (base map) in
    Done (ptr, set_map h level map' info').

(** ** Heap lookup *)

(** A [struct mm_heap *] into the memory map, as [get_heap_from_ptr] and
    [get_heap_from_caps] return it. *)
Inductive heap_ref : Type :=
| InSystemRuntime (i : nat)
| InRuntime (i : nat)
| InBuffer (i : nat).

#[global] Instance heap_ref_eq_dec : EqDecision heap_ref.
Proof. solve_decision. Defined.

Definition heap_at (s : mm) (r : heap_ref) : option mm_heap :=
  match r with
  | InSystemRuntime i => system_runtime s !! i
  | InRuntime i => runtime s !! i
  | InBuffer i => buffer s !! i
  end.

Definition heap_put (s : mm) (r : heap_ref) (h : mm_heap) : mm :=
  match r with
  | InSystemRuntime i =>
      mk_mm (system s) (<[i := h]> (system_runtime s)) (runtime s) (buffer s)
            (heap_trace_updated s) (lock s)
  | InRuntime i =>
      mk_mm (system s) (system_runtime s) (<[i := h]> (runtime s)) (buffer s)
            (heap_trace_updated s) (lock s)
  | InBuffer i =>
      mk_mm (system s) (system_runtime s) (runtime s) (<[i := h]> (buffer s))
            (heap_trace_updated s) (lock s)
  end.

Definition set_system (s : mm) (i : Z) (h : mm_heap) : mm :=
  mk_mm (zinsert i h (system s)) (system_runtime s) (runtime s) (buffer s)
        (heap_trace_updated s) (lock s).

Definition set_heap_trace_updated (s : mm) (v : Z) : mm :=
  mk_mm (system s) (system_runtime s) (runtime s) (buffer s) v (lock s).

Definition set_lock (s : mm) (b : bool) : mm :=
  mk_mm (system s) (system_runtime s) (runtime s) (buffer s)
        (heap_trace_updated s) b.

(** [(uint32_t)ptr >= heap->heap && (uint32_t)ptr < heap->heap + heap->size] *)
Definition ptr_in_heap (h : mm_heap) (ptr : Z) : bool :=
  (heap h <=? ptr) && (ptr <? wrap32 (heap h + heap_size h)).

(** The scan of one heap array in [get_heap_from_ptr]. *)
Fixpoint find_heap_from_ptr (hs : list mm_heap) (ptr : Z) : option nat :=
  match hs with
  | [] => None
  | h :: hs' =>
      if ptr_in_heap h ptr then Some O
      else S <$> find_heap_from_ptr hs' ptr
  end.

(** [get_heap_from_caps(heap, count, caps)]: [hs] is the array slice of
    [count] heaps starting at [heap]; the result is the index in the slice. *)
Fixpoint get_heap_from_caps (hs : list mm_heap) (caps_ : Z) : option nat :=
  match hs with
  | [] => None
  | h :: hs' =>
      if Z.land (caps h) caps_ =? caps_ then Some O
      else S <$> get_heap_from_caps hs' caps_
  end.

(** The block-map search loop of [free_block]. *)
Fixpoint find_block_map (ms : list block_map) (i : Z) (n : nat) (ptr : Z)
  : outcome (option Z) :=
  match n with
  | O => Done None
  | S n' =>
      let* m := at_index ms i in
      if ptr <? wrap32 (base m + wrap32 (block_size m * count m))
      then Done (Some i)
      else find_block_map ms (i + 1) n' ptr
  end.

(** The release loop of [free_block], over the headers, [free_count] and
    the heap counters. *)
Fixpoint free_loop (bs : Z) (i : Z) (n : nat)
         (st : list block_hdr * Z * mm_info)
  : outcome (list block_hdr * Z * mm_info) :=
  match n with
  | O => Done st
  | S n' =>
      let '(blk, fc, inf) := st in
      let* _ := at_index blk i in
      free_loop bs (i + 1) n'
        (zinsert i (mk_hdr 0 false NULL) blk,
         wrap32 (fc + 1),
         mk_info (wrap32 (info_used inf - bs)) (wrap32 (info_free inf + bs)))
  end.

(** Modelled from the spec: the platform hooks and constants of
    [sof/lib/cpu.h], [sof/lib/memory.h] and [sof/lib/alloc.h], which are not
    among the sources: the current core, the data-cache line size, the
    master core, the shared flag bit, the shared-memory translation and its
    reversal before a free. *)
Record platform : Type := mk_platform {
  cpu_get_id : Z;
  PLATFORM_DCACHE_ALIGN : Z;
  PLATFORM_MASTER_CORE_ID : Z;
  SOF_MEM_FLAG_SHARED : Z;
  platform_shared_get : Z -> Z -> Z;
  platform_rfree_prepare : Z -> Z
}.

Section Platform.

Variable P : platform.

Definition get_heap_from_ptr (ptr : Z) (s : mm) : outcome (option heap_ref) :=
  let* h := at_index (system_runtime s) (cpu_get_id P) in
  if ptr_in_heap h ptr
  then Done (Some (InSystemRuntime (Z.to_nat (cpu_get_id P))))
  else
    match find_heap_from_ptr (runtime s) ptr with
    | Some i => Done (Some (InRuntime i))
    | None =>
        match find_heap_from_ptr (buffer s) ptr with
        | Some i => Done (Some (InBuffer i))
        | None => Done None
        end
    end.

(** The single-block loop of [get_ptr_from_heap]; [temp_bytes] is the C
    variable, [i] the map index, [n] the number of maps left. *)
Fixpoint get_ptr_loop (h : mm_heap) (caps_ bytes alignment : Z)
         (i : Z) (n : nat) (temp_bytes : Z) : outcome (Z * mm_heap) :=
  match n with
  | O => Done (NULL, h)
  | S n' =>
      let* map := at_index (maps h) i in
      let temp_bytes :=
        if alignment =? 0 then temp_bytes
        else if wrap32 (base map + wrap32 (block_size map * first_free map))
                  mod alignment =? 0
             then temp_bytes
             else wrap32 (temp_bytes + alignment) in
      if block_size map <? temp_bytes then
        get_ptr_loop h caps_ bytes alignment (i + 1) n' bytes
      else if free_count map =? 0 then
        get_ptr_loop h caps_ bytes alignment (i + 1) n' bytes
      else alloc_block h i caps_ alignment
  end.

Definition get_ptr_from_heap (h : mm_heap) (flags caps_ bytes alignment : Z)
  : outcome (Z * mm_heap) :=
  if Z.land alignment (wrap32 (alignment - 1)) =? 0 then
    let* (ptr, h) :=
      get_ptr_loop h caps_ bytes alignment 0 (Z.to_nat (blocks h)) bytes in
    if negb (ptr =? NULL) && negb (Z.land flags (SOF_MEM_FLAG_SHARED P) =? 0)
    then Done (platform_shared_get P ptr bytes, h)
    else Done (ptr, h)
  else Panic SOF_IPC_PANIC_MEM.

(** ** Free path *)

(** [free_block], from the block-map search on, once [get_heap_from_ptr]
    has found the heap [h] that owns [ptr]; [None] is the "invalid ptr"
    return, which changes nothing. *)
Definition free_block_in_heap (ptr : Z) (h : mm_heap)
  : outcome (option mm_heap) :=
  let* mi := find_block_map (maps h) 0 (Z.to_nat (blocks h)) ptr in
  match mi with
  | None => Done None
  | Some i =>
      let* m := at_index (maps h) i in
      let* q := udiv (wrap32 (ptr - base m)) (block_size m) in
      let blk_i := to_int q in
      let* hdr := at_index (block m) blk_i in
      let* (ptr, blk_i, hdr) :=
        (if negb (unaligned_ptr hdr =? ptr)
            && negb (unaligned_ptr hdr =? NULL)
         then
           let ptr := unaligned_ptr hdr in
           let* q := udiv (wrap32 (ptr - base m)) (block_size m) in
           let blk_i := to_int q in
           let* hdr := at_index (block m) blk_i in
           Done (ptr, blk_i, hdr)
         else Done (ptr, blk_i, hdr)) in
      if wrap32 (base m + wrap32 (block_size m * blk_i)) =? ptr then
        let heap_is_full := free_count m =? 0 in
        let used_blocks := blk_i + hdr_size hdr in
        let* (blk, fc, inf) :=
          free_loop (block_size m) blk_i (Z.to_nat (used_blocks - blk_i))
                    (block m, free_count m, info h) in
        let ff :=
          if (wrap32 blk_i <? first_free m) || heap_is_full
          then wrap32 blk_i else first_free m in
        let m' := mk_map (block_size m) (count m) fc ff blk (base m) in
        Done (Some (set_map h i m' inf))
      else Panic SOF_IPC_PANIC_MEM
  end.

Definition free_block (ptr : Z) (s : mm) : outcome mm :=
  let* r := get_heap_from_ptr ptr s in
  match r with
  | None => Done s
  | Some ref =>
      match heap_at s ref with
      | None => Fault OutOfBounds
      | Some h =>
          let* r := free_block_in_heap ptr h in
          match r with
          | None => Done s
          | Some h' => Done (heap_put s ref h')
          end
      end
  end.

Definition _rfree_unlocked (ptr : Z) (s : mm) : outcome mm :=
  if ptr =? NULL then Done s
  else
    let ptr := platform_rfree_prepare P ptr in
    let* cpu_heap := at_index (system s) (cpu_get_id P) in
    if (heap cpu_heap <=? ptr)
       && (ptr <? wrap32 (heap cpu_heap + heap_size cpu_heap))
    then Panic SOF_IPC_PANIC_MEM
    else
      let* s := free_block ptr s in
      Done (set_heap_trace_updated s 1).

(** ** Allocation by zone *)

Definition rmalloc_sys (flags caps_ core bytes : Z) (s : mm)
  : outcome (Z * mm) :=
  let* cpu_heap := at_index (system s) core in
  if Z.land (caps cpu_heap) caps_ =? caps_ then
    let* r := umod (info_used (info cpu_heap)) (PLATFORM_DCACHE_ALIGN P) in
    let alignment := if r =? 0 then 0 else (PLATFORM_DCACHE_ALIGN P) - r in
    if info_free (info cpu_heap) <? wrap32 (alignment + bytes)
    then Panic SOF_IPC_PANIC_MEM
    else
      let used1 := wrap32 (info_used (info cpu_heap) + alignment) in
      let ptr := wrap32 (heap cpu_heap + used1) in
      let info' :=
        mk_info (wrap32 (used1 + bytes))
                (wrap32 (info_free (info cpu_heap)
                         - wrap32 (alignment + bytes))) in
      let cpu_heap' :=
        mk_heap (blocks cpu_heap) (maps cpu_heap) (heap cpu_heap)
                (heap_size cpu_heap) (caps cpu_heap) info' in
      let ptr :=
        if Z.land flags (SOF_MEM_FLAG_SHARED P) =? 0 then ptr
        else platform_shared_get P ptr bytes in
      Done (ptr, set_system s core cpu_heap')
  else Panic SOF_IPC_PANIC_MEM.

Definition rmalloc_sys_runtime (flags caps_ core bytes : Z) (s : mm)
  : outcome (Z * mm) :=
  let* cpu_heap := at_index (system_runtime s) core in
  if Z.land (caps cpu_heap) caps_ =? caps_ then
    let* (ptr, h) :=
      get_ptr_from_heap cpu_heap flags caps_ bytes (PLATFORM_DCACHE_ALIGN P) in
    Done (ptr, heap_put s (InSystemRuntime (Z.to_nat core)) h)
  else Panic SOF_IPC_PANIC_MEM.

Definition rmalloc_runtime (flags caps_ bytes : Z) (s : mm)
  : outcome (Z * mm) :=
  let found :=
    match get_heap_from_caps (runtime s) caps_ with
    | Some i => Some (InRuntime i)
    | None =>
        match get_heap_from_caps (buffer s) caps_ with
        | Some i => Some (InBuffer i)
        | None => None
        end
    end in
  match found with
  | None => Done (NULL, s)
  | Some ref =>
      match heap_at s ref with
      | None => Fault OutOfBounds
      | Some h =>
          let* (ptr, h) :=
            get_ptr_from_heap h flags caps_ bytes (PLATFORM_DCACHE_ALIGN P) in
          Done (ptr, heap_put s ref h)
      end
  end.

Definition _malloc_unlocked (zone : mem_zone) (flags caps_ bytes : Z)
           (s : mm) : outcome (Z * mm) :=
  let* (ptr, s) :=
    match zone with
    | SOF_MEM_ZONE_SYS => rmalloc_sys flags caps_ (cpu_get_id P) bytes s
    | SOF_MEM_ZONE_SYS_RUNTIME =>
        rmalloc_sys_runtime flags caps_ (cpu_get_id P) bytes s
    | SOF_MEM_ZONE_RUNTIME => rmalloc_runtime flags caps_ bytes s
    | _ => Panic SOF_IPC_PANIC_MEM
    end in
  Done (ptr, set_heap_trace_updated s 1).

(** ** Buffer allocation *)

(** The "will request fit in single block" loop of [alloc_heap_buffer]. *)
Fixpoint single_block_loop (h : mm_heap) (caps_ bytes alignment : Z)
         (i : Z) (n : nat) (temp_bytes : Z) : outcome (Z * mm_heap) :=
  match n with
  | O => Done (NULL, h)
  | S n' =>
      let* map := at_index (maps h) i in
      let* r := umod (wrap32 (base map
                              + wrap32 (block_size map * first_free map)))
                     alignment in
      let temp_bytes :=
        if r =? 0 then temp_bytes else wrap32 (temp_bytes + alignment) in
      if (temp_bytes <=? block_size map) && negb (free_count map =? 0)
      then alloc_block h i caps_ alignment
      else single_block_loop h caps_ bytes alignment (i + 1) n' bytes
  end.

(** The "request spans > 1 block" loop, from the last map down to map 0:
    [n] is the number of maps left, the current index is [n - 1]. *)
Fixpoint cont_blocks_loop (h : mm_heap) (caps_ bytes alignment : Z)
         (n : nat) : outcome (Z * mm_heap) :=
  match n with
  | O => Done (NULL, h)
  | S n' =>
      let i := Z.of_nat n' in
      let* map := at_index (maps h) i in
      if (bytes <=? heap_size h) && (block_size map <? bytes) then
        let* (ptr, h) := alloc_cont_blocks h i caps_ bytes alignment in
        if ptr =? NULL then cont_blocks_loop h caps_ bytes alignment n'
        else Done (ptr, h)
      else cont_blocks_loop h caps_ bytes alignment n'
  end.

Definition alloc_heap_buffer (h : mm_heap) (flags caps_ bytes alignment : Z)
  : outcome (Z * mm_heap) :=
  if Z.land alignment (wrap32 (alignment - 1)) =? 0 then
    let* (ptr, h) :=
      single_block_loop h caps_ bytes alignment 0 (Z.to_nat (blocks h))
                        bytes in
    let bytes := wrap32 (bytes + alignment) in
    let* (ptr, h) :=
      (if ptr =? NULL
       then cont_blocks_loop h caps_ bytes alignment (Z.to_nat (blocks h))
       else Done (ptr, h)) in
    if negb (ptr =? NULL) && negb (Z.land flags (SOF_MEM_FLAG_SHARED P) =? 0)
    then Done (platform_shared_get P ptr bytes, h)
    else Done (ptr, h)
  else Panic SOF_IPC_PANIC_MEM.

(** The heap loop of [_balloc_unlocked]: [i] is the index of the first
    buffer heap still to be tried; every round moves it forward, so
    [length (buffer s)] rounds are enough ([balloc_loop_fuel]). *)
Fixpoint balloc_loop (fuel : nat) (flags caps_ bytes alignment : Z)
         (i : nat) (s : mm) : outcome (Z * mm) :=
  match fuel with
  | O => Done (NULL, s)
  | S fuel' =>
      if (i <? length (buffer s))%nat then
        match get_heap_from_caps (drop i (buffer s)) caps_ with
        | None => Done (NULL, s)
        | Some k =>
            let j := (i + k)%nat in
            match buffer s !! j with
            | None => Fault OutOfBounds
            | Some h =>
                let* (ptr, h) :=
                  alloc_heap_buffer h flags caps_ bytes alignment in
                let s := heap_put s (InBuffer j) h in
                if ptr =? NULL
                then balloc_loop fuel' flags caps_ bytes alignment (S j) s
                else Done (ptr, s)
            end
        end
      else Done (NULL, s)
  end.

Definition _balloc_unlocked (flags caps_ bytes alignment : Z) (s : mm)
  : outcome (Z * mm) :=
  balloc_loop (length (buffer s)) flags caps_ bytes alignment 0 s.

Definition free_heap_unlocked (zone : mem_zone) (s : mm) : outcome mm :=
  if ((cpu_get_id P) =? (PLATFORM_MASTER_CORE_ID P))
     || (match zone with SOF_MEM_ZONE_SYS => false | _ => true end)
  then Panic SOF_IPC_PANIC_MEM
  else
    let* cpu_heap := at_index (system s) (cpu_get_id P) in
    let cpu_heap' :=
      mk_heap (blocks cpu_heap) (maps cpu_heap) (heap cpu_heap)
              (heap_size cpu_heap) (caps cpu_heap)
              (mk_info 0 (heap_size cpu_heap)) in
    Done (set_system s (cpu_get_id P) cpu_heap').

(** ** Public entry points

    The entry points run on the memory map together with the record of
    what they did, in order: taking and releasing [memmap->lock], runs of
    the allocator's internal code over the memory map, and the accesses
    to the caller's memory ([bzero], [memcpy_s]). *)

Inductive event : Type :=
| EvLock
| EvUnlock
| EvAllocator
| EvBzero (ptr bytes : Z)
| EvMemcpy (dst src bytes : Z).

Record machine : Type := mk_machine {
  memmap : mm;
  events : list event
}.

Definition log (e : event) (w : machine) : machine :=
  mk_machine (memmap w) (events w ++ [e]).

Definition spin_lock_irq (w : machine) : machine :=
  log EvLock (mk_machine (set_lock (memmap w) true) (events w)).

Definition spin_unlock_irq (w : machine) : machine :=
  log EvUnlock (mk_machine (set_lock (memmap w) false) (events w)).

(** A call into the internal, unlocked code. *)
Definition internal {A} (f : mm -> outcome (A * mm)) (w : machine)
  : outcome (A * machine) :=
  let* (a, s) := f (memmap w) in
  Done (a, log EvAllocator (mk_machine s (events w))).

Definition internal_ (f : mm -> outcome mm) (w : machine)
  : outcome machine :=
  let* s := f (memmap w) in
  Done (log EvAllocator (mk_machine s (events w))).

Definition bzero (ptr bytes : Z) (w : machine) : machine :=
  log (EvBzero ptr bytes) w.

Definition memcpy_s (dst dst_bytes src bytes : Z) (w : machine) : machine :=
  log (EvMemcpy dst src bytes) w.

Definition rmalloc (zone : mem_zone) (flags caps_ bytes : Z) (w : machine)
  : outcome (Z * machine) :=
  let w := spin_lock_irq w in
  let* (ptr, w) := internal (_malloc_unlocked zone flags caps_ bytes) w in
  let w := spin_unlock_irq w in
  Done (ptr, w).

Definition rzalloc (zone : mem_zone) (flags caps_ bytes : Z) (w : machine)
  : outcome (Z * machine) :=
  let* (ptr, w) := rmalloc zone flags caps_ bytes w in
  let w := if ptr =? NULL then w else bzero ptr bytes w in
  Done (ptr, w).

Definition rzalloc_core_sys (core bytes : Z) (w : machine)
  : outcome (Z * machine) :=
  let w := spin_lock_irq w in
  let* (ptr, w) := internal (rmalloc_sys 0 0 core bytes) w in
  let w := if ptr =? NULL then w else bzero ptr bytes w in
  let w := spin_unlock_irq w in
  Done (ptr, w).

Definition rballoc_align (flags caps_ bytes alignment : Z) (w : machine)
  : outcome (Z * machine) :=
  let w := spin_lock_irq w in
  let* (ptr, w) :=
    internal (_balloc_unlocked flags caps_ bytes alignment) w in
  let w := spin_unlock_irq w in
  Done (ptr, w).

Definition rfree (ptr : Z) (w : machine) : outcome machine :=
  let w := spin_lock_irq w in
  let* w := internal_ (_rfree_unlocked ptr) w in
  Done (spin_unlock_irq w).

Definition rrealloc (ptr : Z) (zone : mem_zone) (flags caps_ bytes : Z)
           (w : machine) : outcome (Z * machine) :=
  if bytes =? 0 then Done (NULL, w)
  else
    let w := spin_lock_irq w in
    let* (new_ptr, w) :=
      internal (_malloc_unlocked zone flags caps_ bytes) w in
    let w :=
      if negb (new_ptr =? NULL) && negb (ptr =? NULL)
      then memcpy_s new_ptr bytes ptr bytes w else w in
    let* w :=
      (if new_ptr =? NULL then Done w
       else internal_ (_rfree_unlocked ptr) w) in
    let w := spin_unlock_irq w in
    Done (new_ptr, w).

Definition rbrealloc_align (ptr : Z) (flags caps_ bytes alignment : Z)
           (w : machine) : outcome (Z * machine) :=
  if bytes =? 0 then Done (NULL, w)
  else
    let w := spin_lock_irq w in
    let* (new_ptr, w) :=
      internal (_balloc_unlocked flags caps_ bytes alignment) w in
    let w :=
      if negb (new_ptr =? NULL) && negb (ptr =? NULL)
      then memcpy_s new_ptr bytes ptr bytes w else w in
    let* w :=
      (if new_ptr =? NULL then Done w
       else internal_ (_rfree_unlocked ptr) w) in
    let w := spin_unlock_irq w in
    Done (new_ptr, w).

Definition free_heap (zone : mem_zone) (w : machine) : outcome machine :=
  internal_ (free_heap_unlocked zone) w.

End Platform.

(** ** Initialisation *)

(** The inner loop of [init_heap_map]: the base of [map[j]] is calculated
    from [map[j - 1]], for the [n] maps from [j] on; [current] is
    [map[j - 1]] as the loop left it. *)
Fixpoint init_map_bases (ms : list block_map) (j : Z) (n : nat)
         (current : block_map) : outcome (list block_map) :=
  match n with
  | O => Done ms
  | S n' =>
      let* next_map := at_index ms j in
      let next_map :=
        mk_map (block_size next_map) (count next_map) (free_count next_map)
               (first_free next_map) (block next_map)
               (wrap32 (base current
                        + wrap32 (block_size current * count current))) in
      init_map_bases (zinsert j next_map ms) (j + 1) n' next_map
  end.

(** One round of the outer loop of [init_heap_map], on [heap[i]]. *)
Definition init_heap_map_one (h : mm_heap) : outcome mm_heap :=
  let* current_map := at_index (maps h) 0 in
  let current_map :=
    mk_map (block_size current_map) (count current_map)
           (free_count current_map) (first_free current_map)
           (block current_map) (heap h) in
  let* ms := init_map_bases (zinsert 0 current_map (maps h)) 1
                            (Z.to_nat (blocks h - 1)) current_map in
  Done (mk_heap (blocks h) ms (heap h) (heap_size h) (caps h) (info h)).

Fixpoint init_heap_map_loop (hs : list mm_heap) (i : Z) (n : nat)
  : outcome (list mm_heap) :=
  match n with
  | O => Done hs
  | S n' =>
      let* h := at_index hs i in
      let* h := init_heap_map_one h in
      init_heap_map_loop (zinsert i h hs) (i + 1) n'
  end.

Definition init_heap_map (hs : list mm_heap) (count_ : Z)
  : outcome (list mm_heap) :=
  init_heap_map_loop hs 0 (Z.to_nat count_).


(** * Specification-side definitions *)

(** ** Lock discipline

    [lock_held_throughout held tr]: along the record [tr], started with the
    lock [held] or not, every run of allocator code and every access to
    the caller's memory happens while the lock is held. *)
Fixpoint lock_held_throughout (held : bool) (tr : list event) : bool :=
  match tr with
  | [] => true
  | EvLock :: tr' => lock_held_throughout true tr'
  | EvUnlock :: tr' => lock_held_throughout false tr'
  | _ :: tr' => held && lock_held_throughout held tr'
  end.

(** ** Heap selection by capabilities *)

(** [i] is the first heap of [hs], in declaration order, whose capability
    mask covers the requested bits. *)
Definition first_capable (hs : list mm_heap) (caps_ : Z) (i : nat) : Prop :=
  (exists h, hs !! i = Some h /\ Z.land (caps h) caps_ = caps_) /\
  (forall j h, (j < i)%nat -> hs !! j = Some h ->
               Z.land (caps h) caps_ <> caps_).

Definition none_capable (hs : list mm_heap) (caps_ : Z) : Prop :=
  forall j h, hs !! j = Some h -> Z.land (caps h) caps_ <> caps_.

(** What [rmalloc] in the runtime zone does once heap [ref] is selected:
    one single-block attempt in that heap, aligned to the data-cache line,
    under the lock. *)
Definition served_from (P : platform) (ref : heap_ref)
           (flags caps_ bytes : Z) (w : machine) : outcome (Z * machine) :=
  match heap_at (memmap w) ref with
  | None => Fault OutOfBounds
  | Some h =>
      let* (ptr, h') :=
        get_ptr_from_heap P h flags caps_ bytes (PLATFORM_DCACHE_ALIGN P) in
      Done (ptr,
            mk_machine
              (set_lock
                 (set_heap_trace_updated
                    (heap_put (set_lock (memmap w) true) ref h') 1) false)
              (events w ++ [EvLock; EvAllocator; EvUnlock]))
  end.

(** ** Concrete platforms and states *)

(** A single-core platform: core 0 is the master core, 64-byte cache
    lines, no shared-memory translation. *)
Definition example_platform : platform :=
  mk_platform 0 64 0 1 (fun p _ => p) (fun p => p).

(** The same platform seen from the slave core 1. *)
Definition slave_platform : platform :=
  mk_platform 1 64 0 1 (fun p _ => p) (fun p => p).

Definition hdr_free : block_hdr := mk_hdr 0 false NULL.

(** A system (bump) heap of [sz] bytes at [b] with nothing allocated. *)
Definition fresh_sys_heap (b sz : Z) : mm_heap :=
  mk_heap 0 [] b sz 0 (mk_info 0 sz).

(** A freshly initialised heap with the block maps [(block_size, count)]
    of [layout], laid out from [b] on as [init_heap_map] does. *)
Fixpoint fresh_maps (b : Z) (layout : list (Z * Z)) : list block_map :=
  match layout with
  | [] => []
  | (bs, n) :: layout' =>
      mk_map bs n n 0 (replicate (Z.to_nat n) hdr_free) b
      :: fresh_maps (b + bs * n) layout'
  end.

Definition layout_size (layout : list (Z * Z)) : Z :=
  foldr (fun bn acc => fst bn * snd bn + acc) 0 layout.

Definition fresh_heap (b : Z) (caps_ : Z) (layout : list (Z * Z)) : mm_heap :=
  mk_heap (Z.of_nat (length layout)) (fresh_maps b layout) b
          (layout_size layout) caps_
          (mk_info 0 (layout_size layout)).

(** A two-core memory map: system heaps at 0x1000 and 0x2000, system
    runtime heaps at 0x3000 and 0x4000, one runtime heap at 0x5000 and one
    buffer heap at 0x6000; capability bit 1 everywhere, bit 2 on the
    buffer heap only. *)
Definition example_mm : mm :=
  mk_mm [fresh_sys_heap 4096 1024; fresh_sys_heap 8192 1024]
        [fresh_heap 12288 1 [(64, 4)]; fresh_heap 16384 1 [(64, 4)]]
        [fresh_heap 20480 1 [(64, 4); (256, 2)]]
        [fresh_heap 24576 3 [(64, 4); (256, 2)]]
        0 false.

Definition example_machine : machine := mk_machine example_mm [].

(** ** Well-formed block maps, heaps and memory maps *)

(** Number of headers with [used = false]. *)
Fixpoint count_free (blk : list block_hdr) : Z :=
  match blk with
  | [] => 0
  | hdr :: blk' => (if hdr_used hdr then 0 else 1) + count_free blk'
  end.

Definition is_used (blk : list block_hdr) (i : Z) : Prop :=
  exists hdr, zlookup blk i = Some hdr /\ hdr_used hdr = true.

Definition is_unused (blk : list block_hdr) (i : Z) : Prop :=
  exists hdr, zlookup blk i = Some hdr /\ hdr_used hdr = false.

(** What the "update each block" loop does to one header. *)
Definition mark_hdr (u : Z) (hdr : block_hdr) : block_hdr :=
  set_hdr_unaligned (set_hdr_used hdr true) u.

(** First address after the blocks of a map. *)
Definition map_end (m : block_map) : Z := base m + block_size m * count m.

(** The [first_free] invariant as the specification words it. *)
Definition first_free_inv_claimed (m : block_map) : Prop :=
  0 <= first_free m <= count m /\
  (first_free m < count m -> is_unused (block m) (first_free m)).

(** The [first_free] invariant the code maintains: [first_free] is only
    meaningful while [free_count] is not zero. *)
Definition first_free_inv (m : block_map) : Prop :=
  0 <= first_free m <= count m /\
  (0 < free_count m ->
   first_free m < count m /\ is_unused (block m) (first_free m)).

Record map_wf (m : block_map) : Prop := mk_map_wf {
  wf_block_size : 0 < block_size m;
  wf_count : 0 <= count m < 2 ^ 16;
  wf_length : Z.of_nat (length (block m)) = count m;
  wf_base : 0 < base m;
  wf_end : map_end m < 2 ^ 32;
  wf_first_free : first_free_inv m;
  wf_free_count : free_count m = count_free (block m);
  (** every header below [first_free] is in use *)
  wf_below : forall i, 0 <= i < first_free m -> is_used (block m) i;
  (** a header that is not in use is blank *)
  wf_unused : forall i hdr,
      zlookup (block m) i = Some hdr -> hdr_used hdr = false ->
      hdr = hdr_free;
  (** a header in use belongs to a run: it records the run's unaligned
      base, and only the first header of the run has a length *)
  wf_used : forall i hdr,
      zlookup (block m) i = Some hdr -> hdr_used hdr = true ->
      exists s hs,
        0 <= s <= i /\
        unaligned_ptr hdr = base m + s * block_size m /\
        zlookup (block m) s = Some hs /\
        i < s + hdr_size hs /\
        (i <> s -> hdr_size hdr = 0);
  (** the headers of a run are all in use and carry the run's base *)
  wf_run : forall s hs j,
      zlookup (block m) s = Some hs -> 0 < hdr_size hs ->
      s <= j < s + hdr_size hs ->
      exists hj, zlookup (block m) j = Some hj /\ hdr_used hj = true /\
                 unaligned_ptr hj = base m + s * block_size m
}.

(** The maps of a heap lie one after the other from the heap base on, as
    [init_heap_map] lays them out. *)
Fixpoint maps_chain (b : Z) (ms : list block_map) : Prop :=
  match ms with
  | [] => True
  | m :: ms' => base m = b /\ maps_chain (map_end m) ms'
  end.

Fixpoint maps_end (b : Z) (ms : list block_map) : Z :=
  match ms with
  | [] => b
  | m :: ms' => maps_end (map_end m) ms'
  end.

Record heap_wf (h : mm_heap) : Prop := mk_heap_wf {
  hwf_blocks : blocks h = Z.of_nat (length (maps h));
  hwf_heap : 0 < heap h;
  hwf_size : 0 <= heap_size h /\ heap h + heap_size h < 2 ^ 32;
  hwf_chain : maps_chain (heap h) (maps h);
  hwf_end : maps_end (heap h) (maps h) <= heap h + heap_size h;
  hwf_maps : Forall map_wf (maps h);
  hwf_info : 0 <= info_used (info h) < 2 ^ 32 /\
             0 <= info_free (info h) < 2 ^ 32
}.

(** The block-map heaps of a memory map are well formed, and the current
    core has its system runtime heap. *)
Definition mm_wf (P : platform) (s : mm) : Prop :=
  (exists h, zlookup (system_runtime s) (cpu_get_id P) = Some h) /\
  Forall heap_wf (system_runtime s) /\
  Forall heap_wf (runtime s) /\
  Forall heap_wf (buffer s).

(** Address of block [i] of a map, and the pointer [align_ptr] makes of an
    unaligned one. *)
Definition block_addr (m : block_map) (i : Z) : Z := base m + i * block_size m.

Definition align_up (alignment ptr : Z) : Z :=
  fst (align_ptr alignment ptr hdr_free).

(** The headers after the unused run [s, s + c) has been taken. *)
Definition run_taken (m : block_map) (s c : Z) (blk' : list block_hdr)
  : Prop :=
  length blk' = length (block m) /\
  forall j, zlookup blk' j
            = if (s <=? j) && (j <? s + c)
              then Some (mk_hdr (if j =? s then c else 0) true
                                (block_addr m s))
              else zlookup (block m) j.

(** The headers after the run [s, s + c) has been released, and the heap
    [free_block] leaves after releasing it from map [i]. *)
Definition run_freed (m : block_map) (s c : Z) (blk' : list block_hdr)
  : Prop :=
  length blk' = length (block m) /\
  forall j, zlookup blk' j
            = if (s <=? j) && (j <? s + c)
              then Some hdr_free else zlookup (block m) j.

Definition freed_heap (h : mm_heap) (i : Z) (m : block_map) (s c : Z)
           (blk' : list block_hdr) : mm_heap :=
  set_map h i
    (mk_map (block_size m) (count m) (free_count m + c)
            (if (s <? first_free m) || (free_count m =? 0)
             then s else first_free m)
            blk' (base m))
    (mk_info (wrap32 (info_used (info h) - c * block_size m))
             (wrap32 (info_free (info h) + c * block_size m))).

(** Block sizes and counts a block map can have. *)
Definition layout_ok (layout : list (Z * Z)) : Prop :=
  Forall (fun bn => 0 < fst bn /\ 0 <= snd bn < 2 ^ 16) layout.


(** A heap with a single block map of a single 64-byte block. *)
Definition last_block_heap : mm_heap := fresh_heap 24576 1 [(64, 1)].

(** ** Allocations that can be given back

    [raw_alloc_ok h h' q]: [h'] is [h] after an allocation that returned
    the (untranslated) address [q]: [q] is a non-null address of the heap,
    the heap kept its place, and freeing [q] gives [h] back. *)
Definition raw_alloc_ok (h h' : mm_heap) (q : Z) : Prop :=
  q <> NULL /\ ptr_in_heap h q = true /\
  free_block_in_heap q h' = Done (Some h) /\
  heap_wf h' /\ heap h' = heap h /\ heap_size h' = heap_size h.

(** The same for the pointer [p] handed to the caller, which
    [platform_rfree_prepare] translates back. *)
Definition alloc_ok (P : platform) (h h' : mm_heap) (p : Z) : Prop :=
  p <> NULL /\ raw_alloc_ok h h' (platform_rfree_prepare P p).

(** What the allocator relies on from the shared-memory hooks, for the
    addresses of heap [h]: the translation of a heap address is not null
    and [platform_rfree_prepare] undoes it, and leaves an untranslated
    heap address alone. *)
Definition heap_platform_ok (P : platform) (h : mm_heap) : Prop :=
  forall q, ptr_in_heap h q = true ->
    platform_rfree_prepare P q = q /\
    forall n, platform_shared_get P q n <> NULL /\
              platform_rfree_prepare P (platform_shared_get P q n) = q.

(** ** Memory-map level predicates *)

(** The four heap arrays of a memory map. *)
Definition heaps_of (s : mm)
  : list mm_heap * list mm_heap * list mm_heap * list mm_heap :=
  (system s, system_runtime s, runtime s, buffer s).

(** The heaps [get_heap_from_ptr] looks at on the current core. *)
Definition searched (P : platform) (ref : heap_ref) : Prop :=
  match ref with
  | InSystemRuntime i => i = Z.to_nat (cpu_get_id P)
  | _ => True
  end.

(** No address belongs to two block-map heaps, nor to a block-map heap and
    to the current core's system heap. *)
Definition mm_disjoint (P : platform) (s : mm) : Prop :=
  (forall r1 r2 h1 h2 q,
      heap_at s r1 = Some h1 -> heap_at s r2 = Some h2 ->
      ptr_in_heap h1 q = true -> ptr_in_heap h2 q = true -> r1 = r2) /\
  (exists hs,
      zlookup (system s) (cpu_get_id P) = Some hs /\
      forall r h q, heap_at s r = Some h -> ptr_in_heap h q = true ->
                    ptr_in_heap hs q = false).

Definition platform_ok (P : platform) (s : mm) : Prop :=
  forall ref h, heap_at s ref = Some h -> heap_platform_ok P h.


Definition omap {A B} (f : A -> B) (o : outcome A) : outcome B :=
  match o with
  | Done a => Done (f a)
  | Panic c => Panic c
  | Fault e => Fault e
  end.

(** What a realloc does once its allocation has returned [(p, s1)]. *)
Definition realloc_tail (P : platform) (ptr bytes : Z) (w : machine)
           (r : Z * mm) : outcome (Z * machine) :=
  let '(p, s1) := r in
  if p =? NULL
  then Done (NULL, mk_machine (set_lock s1 false)
                     (events w ++ [EvLock; EvAllocator; EvUnlock]))
  else
    omap (fun s2 =>
            (p, mk_machine (set_lock s2 false)
                  (events w ++ [EvLock; EvAllocator]
                     ++ (if ptr =? NULL then [] else [EvMemcpy p ptr bytes])
                     ++ [EvAllocator; EvUnlock])))
         (_rfree_unlocked P ptr s1).

(** ** Allocations that stay, and allocations that are given back

    [keeps_allocations h h1]: [h1] is the heap [h] at a later time, with
    every block that was in use in [h] still in use and its header as it
    was; the heap and its block maps have kept their place and shape. *)
Definition keeps_allocations (h h1 : mm_heap) : Prop :=
  heap_wf h1 /\ heap h1 = heap h /\ heap_size h1 = heap_size h /\
  forall level m,
    zlookup (maps h) level = Some m ->
    exists m1,
      zlookup (maps h1) level = Some m1 /\
      base m1 = base m /\ block_size m1 = block_size m /\
      count m1 = count m /\
      forall j hdr,
        zlookup (block m) j = Some hdr -> hdr_used hdr = true ->
        zlookup (block m1) j = Some hdr.

(** The same for a memory map: every block-map heap of [s] is found again
    in [s1] with its allocations, no heap has appeared, and the current
    core's system heap is where it was. *)
Definition allocations_kept (P : platform) (s s1 : mm) : Prop :=
  (forall ref h,
      heap_at s ref = Some h ->
      exists h1, heap_at s1 ref = Some h1 /\ keeps_allocations h h1) /\
  (forall ref, heap_at s ref = None -> heap_at s1 ref = None) /\
  (forall hs,
      zlookup (system s) (cpu_get_id P) = Some hs ->
      exists hs1,
        zlookup (system s1) (cpu_get_id P) = Some hs1 /\
        heap hs1 = heap hs /\ heap_size hs1 = heap_size hs).

(** [live_allocation P s ptr ref level start len]: the pointer [ptr], as
    the caller holds it, is not null and points into the run of [len]
    blocks that starts at block [start] of block map [level] of the heap
    [ref], a heap of the current core, and the run is in use: its first
    header is marked used and records the length [len]. *)
Definition live_allocation (P : platform) (s : mm) (ptr : Z)
           (ref : heap_ref) (level start len : Z) : Prop :=
  ptr <> NULL /\ searched P ref /\
  exists h m hs,
    heap_at s ref = Some h /\ zlookup (maps h) level = Some m /\
    zlookup (block m) start = Some hs /\ hdr_used hs = true /\
    hdr_size hs = len /\ 0 < len /\
    block_addr m start <= platform_rfree_prepare P ptr
      < block_addr m (start + len).

(** [old_run_released w1 w' ref level start len]: the memory map of [w']
    is the one of [w1] with the run of [len] blocks at [start] of block
    map [level] of heap [ref], in use in [w1], given back: its headers are
    blank again and the counters of the map and of the heap have moved
    back by the size of the run. *)
Definition old_run_released (w1 w' : machine) (ref : heap_ref)
           (level start len : Z) : Prop :=
  exists h1 m1 blk',
    heap_at (memmap w1) ref = Some h1 /\
    zlookup (maps h1) level = Some m1 /\
    (forall j, start <= j < start + len -> is_used (block m1) j) /\
    run_freed m1 start len blk' /\
    heaps_of (memmap w')
    = heaps_of (heap_put (memmap w1) ref
                         (freed_heap h1 level m1 start len blk')).

(** The example memory map once 200 bytes have been taken from its buffer
    heap: the first 256-byte block, at 24832, is in use. *)
Definition live_mm : mm :=
  mk_mm (system example_mm) (system_runtime example_mm) (runtime example_mm)
        [mk_heap 2
           [mk_map 64 4 4 0 (replicate 4 hdr_free) 24576;
            mk_map 256 2 1 1 [mk_hdr 1 true 24832; hdr_free] 24832]
           24576 768 3 (mk_info 256 512)]
        0 false.

Definition live_machine : machine := mk_machine live_mm [].

(** Number of blocks [alloc_cont_blocks] asks for. *)
Definition blocks_needed (bytes bs : Z) : Z :=
  if bytes mod bs =? 0 then bytes / bs else wrap32 (bytes / bs + 1).

(** ** The scenario of a heap with one block map of four 64-byte blocks *)

Definition scenario_heap (b hc : Z) : mm_heap := fresh_heap b hc [(64, 4)].

(** The memory map with heap [h] as its only buffer heap, no runtime
    heap, and empty system and system-runtime heaps for core 0; [t] is
    the [heap_trace_updated] flag. *)
Definition scenario_mm_of (h : mm_heap) (t : Z) : mm :=
  mk_mm [fresh_sys_heap 1 0] [fresh_heap 1 0 []] [] [h] t false.

Definition scenario_mm (b hc : Z) : mm :=
  scenario_mm_of (scenario_heap b hc) 0.

(** The heap once its four blocks are taken by one run that starts at the
    heap base. *)
Definition scenario_full_heap (b hc : Z) : mm_heap :=
  mk_heap 1
    [mk_map 64 4 0 4
       [mk_hdr 4 true b; mk_hdr 0 true b; mk_hdr 0 true b; mk_hdr 0 true b]
       b]
    b 256 hc (mk_info 256 0).

(** Every block map of the heap is full. *)
Definition heap_full (h : mm_heap) : Prop :=
  forall i m, zlookup (maps h) i = Some m -> free_count m = 0.

(** ** The system (bump) heaps *)

(** The padding [rmalloc_sys] puts before an allocation so that the bytes
    used so far become a multiple of the cache line size [d]. *)
Definition sys_pad (d used : Z) : Z :=
  if used mod d =? 0 then 0 else d - used mod d.

(** A system heap after [n] more bytes have been taken from it. *)
Definition sys_take (hs : mm_heap) (n : Z) : mm_heap :=
  mk_heap (blocks hs) (maps hs) (heap hs) (heap_size hs) (caps hs)
          (mk_info (info_used (info hs) + n) (info_free (info hs) - n)).

(** The counters of a system heap account for its size, and the heap lies
    in the address space. *)
Definition sys_heap_ok (hs : mm_heap) : Prop :=
  0 <= heap hs /\ heap hs + heap_size hs < 2 ^ 32 /\
  0 <= info_used (info hs) /\ 0 <= info_free (info hs) /\
  info_used (info hs) + info_free (info hs) <= heap_size hs.

(** ** Where an allocation is placed

    [placed h h' level s c q bytes al]: [h'] is [h] after the blocks
    [s, s + c) of block map [level], none of them in use in [h], were
    taken for [bytes] bytes at address [q]: the block lies inside the run
    and is aligned to [al], the blocks of the run are in use in [h'], no
    other header and no other block map has changed, and the counters of
    the map and of the heap have moved by the size of the run. *)
Definition placed (h h' : mm_heap) (level s c q bytes al : Z) : Prop :=
  exists m m',
    zlookup (maps h) level = Some m /\ zlookup (maps h') level = Some m' /\
    0 <= s /\ 1 <= c /\ s + c <= count m /\
    (forall j, s <= j < s + c -> is_unused (block m) j) /\
    (forall j, s <= j < s + c -> is_used (block m') j) /\
    (forall j, ~ s <= j < s + c ->
               zlookup (block m') j = zlookup (block m) j) /\
    base m' = base m /\ block_size m' = block_size m /\
    count m' = count m /\
    (forall k, k <> level -> zlookup (maps h') k = zlookup (maps h) k) /\
    block_addr m s <= q /\ q + bytes <= block_addr m (s + c) /\
    (0 < al -> q mod al = 0) /\
    free_count m' = free_count m - c /\
    info h' = mk_info (wrap32 (info_used (info h) + c * block_size m))
                      (wrap32 (info_free (info h) - c * block_size m)) /\
    heap h' = heap h /\ heap_size h' = heap_size h /\ caps h' = caps h /\
    blocks h' = blocks h /\
    heap_wf h'.

(** A successful allocation of [bytes] bytes aligned to [al] from the
    block maps of heap [h], by either policy, without the shared-memory
    translation of the result. *)
Definition allocates (P : platform) (h : mm_heap) (bytes al p : Z)
           (h' : mm_heap) : Prop :=
  p <> NULL /\
  exists flags caps_,
    Z.land flags (SOF_MEM_FLAG_SHARED P) = 0 /\
    (get_ptr_from_heap P h flags caps_ bytes al = Done (p, h') \/
     alloc_heap_buffer P h flags caps_ bytes al = Done (p, h')).

(** ** Initialisation *)

(** A block map moved to base [b], and the block maps of a list laid out
    one after the other from [b] on. *)
Definition with_base (m : block_map) (b : Z) : block_map :=
  mk_map (block_size m) (count m) (free_count m) (first_free m) (block m) b.

Fixpoint laid_out (b : Z) (ms : list block_map) : list block_map :=
  match ms with
  | [] => []
  | m :: ms' =>
      with_base m b :: laid_out (b + block_size m * count m) ms'
  end.

Definition laid_out_heap (h : mm_heap) : mm_heap :=
  mk_heap (blocks h) (laid_out (heap h) (maps h)) (heap h) (heap_size h)
          (caps h) (info h).

(** Bytes covered by the blocks of a list of block maps. *)
Definition maps_size (ms : list block_map) : Z :=
  foldr (fun m acc => block_size m * count m + acc) 0 ms.

(** What [init_heap_map] needs of a heap: at least one block map, as many
    as [blocks] says, and blocks that fit the address space from the heap
    base on. *)
Definition init_ready (h : mm_heap) : Prop :=
  maps h <> [] /\ blocks h = Z.of_nat (length (maps h)) /\
  0 <= heap h /\
  Forall (fun m => 0 <= block_size m /\ 0 <= count m) (maps h) /\
  heap h + maps_size (maps h) < 2 ^ 32.

(** Two block maps that differ at most in their base. *)
Definition same_but_base (m m' : block_map) : Prop :=
  block_size m' = block_size m /\ count m' = count m /\
  free_count m' = free_count m /\ first_free m' = first_free m /\
  block m' = block m.

(** The heap table of the image before [init_heap]: the block maps of
    [layout] with blank headers, their bases not yet set ([b0] stands for
    whatever the image holds there). *)
Definition static_heap (b0 b caps_ : Z) (layout : list (Z * Z)) : mm_heap :=
  mk_heap (Z.of_nat (length layout)) (fresh_maps b0 layout) b
          (layout_size layout) caps_ (mk_info 0 (layout_size layout)).




(** ** Heap counters *)

(** Bytes in the blocks that are in use, as the block maps count them. *)
Definition used_bytes (ms : list block_map) : Z :=
  foldr (fun m acc => (count m - free_count m) * block_size m + acc) 0 ms.

(** The heap counters agree with the block maps: [info.used] is the
    number of bytes in blocks in use, and [info.free] is the rest of the
    heap. *)
Definition counters_ok (h : mm_heap) : Prop :=
  info_used (info h) = used_bytes (maps h) /\
  info_used (info h) + info_free (info h) = heap_size h.

(** ** Runs without undefined behaviour *)

(** The run ends with a result or with a panic, not with an access
    outside an array or a division by zero. *)
Definition no_fault {A} (o : outcome A) : Prop :=
  match o with
  | Fault _ => False
  | _ => True
  end.

(** The current core has a system heap. *)
Definition has_system_heap (P : platform) (s : mm) : Prop :=
  exists hs, zlookup (system s) (cpu_get_id P) = Some hs.

(** * Properties *)

(** ** Tactics and basic facts *)

(** Case analysis on the integer comparisons of a goal. *)
Ltac split_cmp c :=
  lazymatch c with
  | Z.leb ?a ?b => destruct (Z.leb_spec a b)
  | Z.ltb ?a ?b => destruct (Z.ltb_spec a b)
  | Z.eqb ?a ?b => destruct (Z.eqb_spec a b)
  end.

Ltac case_range :=
  repeat match goal with
         | |- context [?c] =>
             lazymatch type of c with bool => split_cmp c end
         | H : context [?c] |- _ =>
             lazymatch type of c with bool => split_cmp c end
         end;
  simpl in *.

Lemma wrap32_small x : 0 <= x < 2 ^ 32 -> wrap32 x = x.
Proof. intros H. unfold wrap32. apply Z.mod_small. exact H. Qed.

Lemma wrap32_range x : 0 <= wrap32 x < 2 ^ 32.
Proof. unfold wrap32. apply Z.mod_pos_bound. lia. Qed.

Lemma zlookup_Some {A} (l : list A) i x :
  zlookup l i = Some x <-> 0 <= i /\ l !! Z.to_nat i = Some x.
Proof.
  unfold zlookup. destruct (Z.ltb_spec i 0); split.
  - discriminate.
  - intros [? _]. lia.
  - intros H'. split; [lia | exact H'].
  - intros [_ H']. exact H'.
Qed.

Lemma zlookup_of_nat {A} (l : list A) (i : nat) :
  zlookup l (Z.of_nat i) = l !! i.
Proof.
  unfold zlookup. destruct (Z.ltb_spec (Z.of_nat i) 0); [lia|].
  now rewrite Nat2Z.id.
Qed.

Lemma zlookup_lt {A} (l : list A) i x :
  zlookup l i = Some x -> 0 <= i < Z.of_nat (length l).
Proof.
  intros [H0 H]%zlookup_Some. apply lookup_lt_Some in H. lia.
Qed.

Lemma zlookup_is_Some {A} (l : list A) i :
  0 <= i < Z.of_nat (length l) -> exists x, zlookup l i = Some x.
Proof.
  intros H. destruct (lookup_lt_is_Some_2 l (Z.to_nat i)) as [x Hx]; [lia|].
  exists x. apply zlookup_Some. split; [lia | exact Hx].
Qed.

Lemma at_index_Some {A} (l : list A) i x :
  zlookup l i = Some x -> at_index l i = Done x.
Proof. unfold at_index. now intros ->. Qed.

Lemma at_index_Done {A} (l : list A) i x :
  at_index l i = Done x -> zlookup l i = Some x.
Proof. unfold at_index. destruct (zlookup l i); congruence. Qed.

Lemma at_index_not_div {A} (l : list A) i :
  at_index l i <> Fault DivideByZero.
Proof. unfold at_index. destruct (zlookup l i); congruence. Qed.

(** ** C10: realloc of zero bytes *)

(** C10: for every pointer, [rrealloc] and [rbrealloc_align] with a
    requested size of zero bytes return null at once and leave the whole
    state as it was: nothing is allocated, nothing is freed, the lock is
    not even taken. *)
Theorem realloc_zero_bytes :
  forall (P : platform) (ptr : Z) (zone : mem_zone)
         (flags caps_ alignment : Z) (w : machine),
    rrealloc P ptr zone flags caps_ 0 w = Done (NULL, w) /\
    rbrealloc_align P ptr flags caps_ 0 alignment w = Done (NULL, w).
Proof. intros. split; reflexivity. Qed.

(** ** C8: zones served by [rmalloc] *)

Lemma heap_put_frame s i h :
  system (heap_put s (InBuffer i) h) = system s /\
  system_runtime (heap_put s (InBuffer i) h) = system_runtime s /\
  runtime (heap_put s (InBuffer i) h) = runtime s.
Proof. now simpl. Qed.

Lemma balloc_loop_frame P fuel flags caps_ bytes alignment :
  forall i s p s',
    balloc_loop P fuel flags caps_ bytes alignment i s = Done (p, s') ->
    system s' = system s /\ system_runtime s' = system_runtime s /\
    runtime s' = runtime s.
Proof.
  induction fuel as [|fuel IH]; intros i s p s' H; simpl in H.
  - now inversion H.
  - destruct (i <? length (buffer s))%nat; [|now inversion H].
    destruct (get_heap_from_caps _ _) as [k|]; [|now inversion H].
    destruct (buffer s !! _) as [h|]; [|discriminate].
    destruct (alloc_heap_buffer P h flags caps_ bytes alignment)
      as [[q h']| |]; simpl in H; try discriminate.
    destruct (q =? NULL).
    + apply IH in H. simpl in H. exact H.
    + inversion H; subst. now simpl.
Qed.

(** C8: [rmalloc] with zone Buffer (any zone other than System,
    SystemRuntime and Runtime) panics with the memory panic code, whatever
    the flags, capabilities and size; buffers come from [rballoc_align],
    which draws on the buffer heaps only. *)
Theorem rmalloc_buffer_zone_panics :
  forall (P : platform),
    (forall zone flags caps_ bytes w,
        zone <> SOF_MEM_ZONE_SYS ->
        zone <> SOF_MEM_ZONE_SYS_RUNTIME ->
        zone <> SOF_MEM_ZONE_RUNTIME ->
        rmalloc P zone flags caps_ bytes w = Panic SOF_IPC_PANIC_MEM) /\
    (forall flags caps_ bytes alignment w p w',
        rballoc_align P flags caps_ bytes alignment w = Done (p, w') ->
        system (memmap w') = system (memmap w) /\
        system_runtime (memmap w') = system_runtime (memmap w) /\
        runtime (memmap w') = runtime (memmap w)).
Proof.
  intros P. split.
  - intros zone flags caps_ bytes w H1 H2 H3.
    destruct zone; try congruence. reflexivity.
  - intros flags caps_ bytes alignment w p w' H.
    unfold rballoc_align, internal, _balloc_unlocked in H. simpl in H.
    destruct (balloc_loop _ _ _ _ _ _ _ _) as [[q s1]| |] eqn:E;
      simpl in H; try discriminate.
    inversion H; subst. simpl.
    apply balloc_loop_frame in E. simpl in E. exact E.
Qed.

Lemma rmalloc_buffer_zone_panics_witness :
  SOF_MEM_ZONE_BUFFER <> SOF_MEM_ZONE_SYS /\
  rmalloc example_platform SOF_MEM_ZONE_BUFFER 0 1 40 example_machine
  = Panic SOF_IPC_PANIC_MEM.
Proof.
  split; [discriminate|].
  apply (proj1 (rmalloc_buffer_zone_panics example_platform));
    discriminate.
Defined.

(** ** C7: freeing system memory *)

(** C7: a non-null pointer that, after the free-prepare translation, lies
    in the address range of the current core's system heap makes [rfree]
    panic with the memory panic code (the range is one of the 32-bit
    address space). *)
Theorem rfree_system_heap_panics :
  forall (P : platform) (ptr : Z) (w : machine) (cpu_heap : mm_heap),
    ptr <> NULL ->
    zlookup (system (memmap w)) (cpu_get_id P) = Some cpu_heap ->
    0 <= heap cpu_heap ->
    heap cpu_heap + heap_size cpu_heap < 2 ^ 32 ->
    heap cpu_heap <= platform_rfree_prepare P ptr
                  < heap cpu_heap + heap_size cpu_heap ->
    rfree P ptr w = Panic SOF_IPC_PANIC_MEM.
Proof.
  intros P ptr w cpu_heap Hnull Hsys H0 Hfit Hin.
  unfold rfree, internal_, _rfree_unlocked. simpl.
  destruct (Z.eqb_spec ptr NULL) as [->|_]; [congruence|].
  rewrite (at_index_Some _ _ _ Hsys). simpl.
  rewrite wrap32_small by lia.
  destruct (Z.leb_spec (heap cpu_heap) (platform_rfree_prepare P ptr));
    [|lia].
  destruct (Z.ltb_spec (platform_rfree_prepare P ptr)
                       (heap cpu_heap + heap_size cpu_heap)); [|lia].
  reflexivity.
Qed.

Lemma rfree_system_heap_panics_witness :
  rfree example_platform 4100 example_machine = Panic SOF_IPC_PANIC_MEM.
Proof.
  apply (rfree_system_heap_panics example_platform 4100 example_machine
           (fresh_sys_heap 4096 1024)).
  - discriminate.
  - reflexivity.
  - simpl; lia.
  - simpl; lia.
  - simpl; lia.
Defined.

(** ** C6: zero alignment in [alloc_heap_buffer] *)

Lemma next_free_not_div blk : forall n i d,
  next_free blk i n d <> Fault DivideByZero.
Proof.
  induction n as [|n IH]; intros i d; simpl; [discriminate|].
  pose proof (at_index_not_div blk i) as Hi.
  destruct (at_index blk i) as [hdr| |]; simpl; try congruence.
  destruct (hdr_used hdr); [apply IH | discriminate].
Qed.

Lemma alloc_block_not_div h level caps_ alignment :
  alloc_block h level caps_ alignment <> Fault DivideByZero.
Proof.
  unfold alloc_block.
  pose proof (at_index_not_div (maps h) level) as Hm.
  destruct (at_index (maps h) level) as [m| |]; simpl; try congruence.
  pose proof (at_index_not_div (block m) (first_free m)) as Hb.
  destruct (at_index (block m) (first_free m)) as [hdr| |]; simpl;
    try congruence.
  match goal with
  | |- context [next_free ?b ?i ?n ?d] =>
      pose proof (next_free_not_div b n i d) as Hn;
      destruct (next_free b i n d); simpl; congruence
  end.
Qed.

Lemma get_ptr_loop_not_div h caps_ bytes : forall n i t,
  get_ptr_loop h caps_ bytes 0 i n t <> Fault DivideByZero.
Proof.
  induction n as [|n IH]; intros i t; simpl; [discriminate|].
  pose proof (at_index_not_div (maps h) i) as Hm.
  destruct (at_index (maps h) i) as [m| |]; simpl; try congruence.
  destruct (block_size m <? t); [apply IH|].
  destruct (free_count m =? 0); [apply IH|].
  apply alloc_block_not_div.
Qed.

(** C6: the power-of-two guard of [alloc_heap_buffer] lets [alignment = 0]
    through ([0 & (0 - 1) == 0]); on a heap with at least one block map
    the run then reaches [(base + block_size * first_free) % alignment]
    with a zero divisor.  [get_ptr_from_heap], whose modulo is guarded by
    [alignment &&], never divides by zero for [alignment = 0]. *)
Theorem alloc_heap_buffer_zero_alignment :
  Z.land 0 (wrap32 (0 - 1)) = 0 /\
  (forall (P : platform) (h : mm_heap) (flags caps_ bytes : Z)
          (m : block_map),
      0 < blocks h ->
      zlookup (maps h) 0 = Some m ->
      alloc_heap_buffer P h flags caps_ bytes 0 = Fault DivideByZero) /\
  (forall (P : platform) (h : mm_heap) (flags caps_ bytes : Z),
      get_ptr_from_heap P h flags caps_ bytes 0 <> Fault DivideByZero).
Proof.
  split; [reflexivity|]. split.
  - intros P h flags caps_ bytes m Hb Hm.
    unfold alloc_heap_buffer.
    change (Z.land 0 (wrap32 (0 - 1)) =? 0) with true. cbv iota.
    destruct (Z.to_nat (blocks h)) as [|n] eqn:En; [lia|].
    simpl. rewrite (at_index_Some _ _ _ Hm). reflexivity.
  - intros P h flags caps_ bytes.
    unfold get_ptr_from_heap.
    change (Z.land 0 (wrap32 (0 - 1)) =? 0) with true. cbv iota.
    pose proof (get_ptr_loop_not_div h caps_ bytes
                  (Z.to_nat (blocks h)) 0 bytes) as Hl.
    destruct (get_ptr_loop _ _ _ _ _ _ _) as [[p h']| |]; simpl;
      try congruence.
    destruct (_ && _); discriminate.
Qed.

Lemma alloc_heap_buffer_zero_alignment_witness :
  alloc_heap_buffer example_platform (fresh_heap 24576 3 [(64, 4); (256, 2)])
                    0 1 40 0 = Fault DivideByZero.
Proof.
  apply (proj1 (proj2 alloc_heap_buffer_zero_alignment) example_platform
           (fresh_heap 24576 3 [(64, 4); (256, 2)]) 0 1 40
           (mk_map 64 4 4 0 (replicate 4 hdr_free) 24576)).
  - simpl; lia.
  - reflexivity.
Defined.

(** ** C5: heap selection for the runtime zone *)

Lemma get_heap_from_caps_Some hs caps_ : forall i,
  get_heap_from_caps hs caps_ = Some i <-> first_capable hs caps_ i.
Proof.
  induction hs as [|h hs IH]; intros i; simpl.
  - split; [discriminate|]. intros [[h [Hh _]] _]. discriminate.
  - destruct (Z.eqb_spec (Z.land (caps h) caps_) caps_) as [Heq|Hne].
    + split.
      * intros [= <-]. split; [exists h; now split | intros j h' Hj; lia].
      * intros [[h' [Hh' Hc]] Hfirst]. destruct i as [|i]; [reflexivity|].
        exfalso. apply (Hfirst O h); [lia | reflexivity | exact Heq].
    + destruct (get_heap_from_caps hs caps_) as [k|] eqn:Ek; simpl.
      * split.
        -- intros [= <-]. destruct (proj1 (IH k) eq_refl) as [Hk Hfirst].
           split; [exact Hk|].
           intros [|j] h' Hj Hl; simpl in Hl.
           ++ now inversion Hl; subst.
           ++ apply (Hfirst j); [lia | exact Hl].
        -- intros [[h' [Hh' Hc]] Hfirst]. destruct i as [|i].
           ++ simpl in Hh'. inversion Hh'; subst. contradiction.
           ++ f_equal. assert (Hi : Some k = Some i); [|now inversion Hi].
              apply IH. split; [exists h'; now split|].
              intros j h'' Hj Hl. apply (Hfirst (S j)); [lia | exact Hl].
      * split; [discriminate|].
        intros [[h' [Hh' Hc]] Hfirst]. destruct i as [|i].
        -- simpl in Hh'. inversion Hh'; subst. contradiction.
        -- assert (Hi : None = Some i); [|discriminate].
           apply IH. split; [exists h'; now split|].
           intros j h'' Hj Hl. apply (Hfirst (S j)); [lia | exact Hl].
Qed.

Lemma get_heap_from_caps_None hs caps_ :
  get_heap_from_caps hs caps_ = None <-> none_capable hs caps_.
Proof.
  induction hs as [|h hs IH]; simpl.
  - split; [|reflexivity]. intros _ j h Hl. discriminate.
  - destruct (Z.eqb_spec (Z.land (caps h) caps_) caps_) as [Heq|Hne].
    + split; [discriminate|]. intros Hn. exfalso.
      apply (Hn O h); [reflexivity | exact Heq].
    + destruct (get_heap_from_caps hs caps_) as [k|] eqn:Ek; simpl.
      * split; [discriminate|]. intros Hn.
        assert (Hk : Some k = None); [|discriminate].
        apply IH. intros j h' Hl. apply (Hn (S j)). exact Hl.
      * split; [|reflexivity]. intros _ [|j] h' Hl; simpl in Hl.
        -- now inversion Hl; subst.
        -- apply (proj1 IH eq_refl j). exact Hl.
Qed.

(** C5: [rmalloc] in the runtime zone serves the request from the first
    heap of [runtime[]], in declaration order, whose capabilities cover
    the requested ones; when no runtime heap does, from the first such
    heap of [buffer[]]; when no heap of either array does, it returns
    null and leaves every heap as it was. *)
Theorem rmalloc_runtime_selection :
  forall (P : platform) (flags caps_ bytes : Z) (w : machine),
    (forall i,
        first_capable (runtime (memmap w)) caps_ i ->
        rmalloc P SOF_MEM_ZONE_RUNTIME flags caps_ bytes w
        = served_from P (InRuntime i) flags caps_ bytes w) /\
    (none_capable (runtime (memmap w)) caps_ ->
     forall i,
       first_capable (buffer (memmap w)) caps_ i ->
       rmalloc P SOF_MEM_ZONE_RUNTIME flags caps_ bytes w
       = served_from P (InBuffer i) flags caps_ bytes w) /\
    (none_capable (runtime (memmap w)) caps_ ->
     none_capable (buffer (memmap w)) caps_ ->
     rmalloc P SOF_MEM_ZONE_RUNTIME flags caps_ bytes w
     = Done (NULL,
             mk_machine
               (set_lock
                  (set_heap_trace_updated (set_lock (memmap w) true) 1)
                  false)
               (events w ++ [EvLock; EvAllocator; EvUnlock]))).
Proof.
  intros P flags caps_ bytes w.
  unfold rmalloc, internal, _malloc_unlocked, rmalloc_runtime, served_from,
    spin_unlock_irq, spin_lock_irq, log.
  simpl. repeat split.
  - intros i Hi. apply get_heap_from_caps_Some in Hi. rewrite Hi. simpl.
    destruct (runtime (memmap w) !! i) as [h|]; [|reflexivity].
    destruct (get_ptr_from_heap _ _ _ _ _ _) as [[p h']| |]; simpl;
      try reflexivity.
    unfold log; simpl. now rewrite <- !app_assoc.
  - intros Hn i Hi. apply get_heap_from_caps_None in Hn.
    apply get_heap_from_caps_Some in Hi. rewrite Hn, Hi. simpl.
    destruct (buffer (memmap w) !! i) as [h|]; [|reflexivity].
    destruct (get_ptr_from_heap _ _ _ _ _ _) as [[p h']| |]; simpl;
      try reflexivity.
    unfold log; simpl. now rewrite <- !app_assoc.
  - intros Hn Hb. apply get_heap_from_caps_None in Hn, Hb.
    rewrite Hn, Hb. simpl. unfold log; simpl. now rewrite <- !app_assoc.
Qed.

Lemma rmalloc_runtime_selection_witness :
  first_capable (buffer example_mm) 2 0 /\
  rmalloc example_platform SOF_MEM_ZONE_RUNTIME 0 2 40 example_machine
  = served_from example_platform (InBuffer 0) 0 2 40 example_machine.
Proof.
  assert (Hn : none_capable (runtime (memmap example_machine)) 2).
  { intros [|[|j]] h Hl; simpl in Hl; try discriminate.
    inversion Hl; subst. discriminate. }
  assert (Hb : first_capable (buffer (memmap example_machine)) 2 0).
  { split; [eexists; split; reflexivity | intros j h Hj; lia]. }
  split; [exact Hb|].
  exact (proj1 (proj2 (rmalloc_runtime_selection example_platform 0 2 40
                         example_machine)) Hn 0%nat Hb).
Defined.

(** ** C9: the lock around the public entry points *)

(** C9, the claim as stated, fails: [free_heap] resets the counters of the
    system heap without ever taking the lock, and [rzalloc] zeroes the
    returned memory after [rmalloc] has released it. *)
Lemma public_entry_points_unlocked :
  (exists w',
      free_heap slave_platform SOF_MEM_ZONE_SYS example_machine = Done w' /\
      events w' = [EvAllocator] /\
      lock_held_throughout false (events w') = false) /\
  (exists p w',
      rzalloc example_platform SOF_MEM_ZONE_RUNTIME 0 1 40 example_machine
      = Done (p, w') /\
      events w' = [EvLock; EvAllocator; EvUnlock; EvBzero p 40] /\
      lock_held_throughout false (events w') = false).
Proof.
  split.
  - eexists. split; [vm_compute; reflexivity|]. split; reflexivity.
  - eexists. eexists. split; [vm_compute; reflexivity|]. split; reflexivity.
Qed.

(** C9 (amended): [rmalloc], [rballoc_align], [rfree], [rrealloc],
    [rbrealloc_align] and [rzalloc_core_sys] touch the allocator state and
    the caller's memory only between taking and releasing the lock (the
    two reallocs return at once, without the lock and without touching
    anything, when asked for zero bytes); [rzalloc] holds the lock for the
    allocation only and zeroes the memory after releasing it; [free_heap]
    resets the counters without taking the lock. *)
Theorem lock_discipline :
  forall (P : platform) (w : machine),
    (forall zone flags caps_ bytes p w',
        rmalloc P zone flags caps_ bytes w = Done (p, w') ->
        exists tr, events w' = events w ++ EvLock :: tr /\
                   lock_held_throughout false (EvLock :: tr) = true) /\
    (forall flags caps_ bytes alignment p w',
        rballoc_align P flags caps_ bytes alignment w = Done (p, w') ->
        exists tr, events w' = events w ++ EvLock :: tr /\
                   lock_held_throughout false (EvLock :: tr) = true) /\
    (forall ptr w',
        rfree P ptr w = Done w' ->
        exists tr, events w' = events w ++ EvLock :: tr /\
                   lock_held_throughout false (EvLock :: tr) = true) /\
    (forall core bytes p w',
        rzalloc_core_sys P core bytes w = Done (p, w') ->
        exists tr, events w' = events w ++ EvLock :: tr /\
                   lock_held_throughout false (EvLock :: tr) = true) /\
    (forall ptr zone flags caps_ bytes p w',
        rrealloc P ptr zone flags caps_ bytes w = Done (p, w') ->
        (bytes = 0 /\ w' = w) \/
        exists tr, events w' = events w ++ EvLock :: tr /\
                   lock_held_throughout false (EvLock :: tr) = true) /\
    (forall ptr flags caps_ bytes alignment p w',
        rbrealloc_align P ptr flags caps_ bytes alignment w = Done (p, w') ->
        (bytes = 0 /\ w' = w) \/
        exists tr, events w' = events w ++ EvLock :: tr /\
                   lock_held_throughout false (EvLock :: tr) = true) /\
    (forall zone flags caps_ bytes p w',
        rzalloc P zone flags caps_ bytes w = Done (p, w') ->
        events w' = events w ++ [EvLock; EvAllocator; EvUnlock]
                      ++ (if p =? NULL then [] else [EvBzero p bytes])) /\
    (forall zone w',
        free_heap P zone w = Done w' ->
        events w' = events w ++ [EvAllocator]).
Proof.
  intros P w. repeat split.
  - intros zone flags caps_ bytes p w' H.
    unfold rmalloc, internal, spin_unlock_irq, spin_lock_irq, log in H.
    simpl in H.
    destruct (_malloc_unlocked _ _ _ _ _ _) as [[q s]| |]; simpl in H;
      try discriminate.
    inversion H; subst. simpl. exists [EvAllocator; EvUnlock].
    split; [now rewrite <- !app_assoc | reflexivity].
  - intros flags caps_ bytes alignment p w' H.
    unfold rballoc_align, internal, spin_unlock_irq, spin_lock_irq, log in H.
    simpl in H.
    destruct (_balloc_unlocked _ _ _ _ _ _) as [[q s]| |]; simpl in H;
      try discriminate.
    inversion H; subst. simpl. exists [EvAllocator; EvUnlock].
    split; [now rewrite <- !app_assoc | reflexivity].
  - intros ptr w' H.
    unfold rfree, internal_, spin_unlock_irq, spin_lock_irq, log in H.
    simpl in H.
    destruct (_rfree_unlocked _ _ _) as [s| |]; simpl in H;
      try discriminate.
    inversion H; subst. simpl. exists [EvAllocator; EvUnlock].
    split; [now rewrite <- !app_assoc | reflexivity].
  - intros core bytes p w' H.
    unfold rzalloc_core_sys, internal, spin_unlock_irq, spin_lock_irq, bzero,
      log in H.
    simpl in H.
    destruct (rmalloc_sys _ _ _ _ _ _) as [[q s]| |]; simpl in H;
      try discriminate.
    inversion H; subst. destruct (p =? NULL); simpl.
    + exists [EvAllocator; EvUnlock].
      split; [now rewrite <- !app_assoc | reflexivity].
    + exists [EvAllocator; EvBzero p bytes; EvUnlock].
      split; [now rewrite <- !app_assoc | reflexivity].
  - intros ptr zone flags caps_ bytes p w' H.
    unfold rrealloc in H.
    destruct (Z.eqb_spec bytes 0) as [->|Hb].
    { left. now inversion H. }
    right.
    unfold internal, internal_, spin_unlock_irq, spin_lock_irq, memcpy_s,
      log in H.
    simpl in H.
    destruct (_malloc_unlocked _ _ _ _ _ _) as [[q s]| |]; simpl in H;
      try discriminate.
    destruct (q =? NULL); simpl in H.
    + inversion H; subst. simpl. exists [EvAllocator; EvUnlock].
      split; [now rewrite <- !app_assoc | reflexivity].
    + destruct (ptr =? NULL); simpl in H;
        destruct (_rfree_unlocked _ _ _) as [s'| |]; simpl in H;
        try discriminate; inversion H; subst; simpl.
      * exists [EvAllocator; EvAllocator; EvUnlock].
        split; [now rewrite <- !app_assoc | reflexivity].
      * exists [EvAllocator; EvMemcpy p ptr bytes; EvAllocator; EvUnlock].
        split; [now rewrite <- !app_assoc | reflexivity].
  - intros ptr flags caps_ bytes alignment p w' H.
    unfold rbrealloc_align in H.
    destruct (Z.eqb_spec bytes 0) as [->|Hb].
    { left. now inversion H. }
    right.
    unfold internal, internal_, spin_unlock_irq, spin_lock_irq, memcpy_s,
      log in H.
    simpl in H.
    destruct (_balloc_unlocked _ _ _ _ _ _) as [[q s]| |]; simpl in H;
      try discriminate.
    destruct (q =? NULL); simpl in H.
    + inversion H; subst. simpl. exists [EvAllocator; EvUnlock].
      split; [now rewrite <- !app_assoc | reflexivity].
    + destruct (ptr =? NULL); simpl in H;
        destruct (_rfree_unlocked _ _ _) as [s'| |]; simpl in H;
        try discriminate; inversion H; subst; simpl.
      * exists [EvAllocator; EvAllocator; EvUnlock].
        split; [now rewrite <- !app_assoc | reflexivity].
      * exists [EvAllocator; EvMemcpy p ptr bytes; EvAllocator; EvUnlock].
        split; [now rewrite <- !app_assoc | reflexivity].
  - intros zone flags caps_ bytes p w' H.
    unfold rzalloc, rmalloc, internal, spin_unlock_irq, spin_lock_irq, bzero,
      log in H.
    simpl in H.
    destruct (_malloc_unlocked _ _ _ _ _ _) as [[q s]| |]; simpl in H;
      try discriminate.
    inversion H; subst. destruct (p =? NULL); simpl.
    + now rewrite <- !app_assoc.
    + now rewrite <- !app_assoc.
  - intros zone w' H.
    unfold free_heap, internal_, log in H.
    destruct (free_heap_unlocked _ _ _) as [s| |]; simpl in H;
      try discriminate.
    now inversion H; subst.
Qed.

Lemma lock_discipline_witness :
  exists p w',
    rmalloc example_platform SOF_MEM_ZONE_RUNTIME 0 1 40 example_machine
    = Done (p, w') /\
    exists tr, events w' = events example_machine ++ EvLock :: tr /\
               lock_held_throughout false (EvLock :: tr) = true.
Proof.
  eexists. eexists. split; [vm_compute; reflexivity|].
  eapply (proj1 (lock_discipline example_platform example_machine)
            SOF_MEM_ZONE_RUNTIME 0 1 40).
  vm_compute. reflexivity.
Defined.

(** ** Arrays, counters and the loops over block headers *)

Lemma wrap32_add_l a b : wrap32 (wrap32 a + b) = wrap32 (a + b).
Proof. unfold wrap32. apply Zplus_mod_idemp_l. Qed.

Lemma wrap32_sub_l a b : wrap32 (wrap32 a - b) = wrap32 (a - b).
Proof. unfold wrap32. apply Zminus_mod_idemp_l. Qed.

Lemma zlookup_neg {A} (l : list A) i : i < 0 -> zlookup l i = None.
Proof. intros H. unfold zlookup. destruct (Z.ltb_spec i 0); [easy | lia]. Qed.

Lemma zlookup_ge {A} (l : list A) i :
  Z.of_nat (length l) <= i -> zlookup l i = None.
Proof.
  intros H. unfold zlookup. destruct (Z.ltb_spec i 0); [easy|].
  apply lookup_ge_None. lia.
Qed.

Lemma zlookup_ext {A} (l1 l2 : list A) :
  (forall i, zlookup l1 i = zlookup l2 i) -> l1 = l2.
Proof.
  intros H. apply list_eq. intros i.
  rewrite <- !zlookup_of_nat. apply H.
Qed.

Lemma length_zinsert {A} (l : list A) i x :
  length (zinsert i x l) = length l.
Proof. unfold zinsert. apply length_insert. Qed.

Lemma zlookup_zinsert_eq {A} (l : list A) i x :
  0 <= i < Z.of_nat (length l) -> zlookup (zinsert i x l) i = Some x.
Proof.
  intros H. apply zlookup_Some. split; [lia|].
  unfold zinsert. apply list_lookup_insert_eq. lia.
Qed.

Lemma zlookup_zinsert_ne {A} (l : list A) i j x :
  0 <= i -> i <> j -> zlookup (zinsert i x l) j = zlookup l j.
Proof.
  intros Hi Hne. unfold zlookup, zinsert.
  destruct (Z.ltb_spec j 0); [reflexivity|].
  apply list_lookup_insert_ne. lia.
Qed.

Lemma zinsert_id {A} (l : list A) i x :
  zlookup l i = Some x -> zinsert i x l = l.
Proof.
  intros [_ H]%zlookup_Some. unfold zinsert. now apply list_insert_id.
Qed.

Lemma count_free_insert new : forall l (i : nat) old,
  l !! i = Some old ->
  count_free (<[i := new]> l)
  = count_free l - (if hdr_used old then 0 else 1)
    + (if hdr_used new then 0 else 1).
Proof.
  induction l as [|hdr l IH]; intros i old H; [discriminate|].
  destruct i as [|i]; simpl in *.
  - inversion H; subst. lia.
  - rewrite (IH i old H). lia.
Qed.

Lemma count_free_zinsert l i old new :
  zlookup l i = Some old ->
  count_free (zinsert i new l)
  = count_free l - (if hdr_used old then 0 else 1)
    + (if hdr_used new then 0 else 1).
Proof.
  intros [_ H]%zlookup_Some. unfold zinsert. now apply count_free_insert.
Qed.

Lemma count_free_range l : 0 <= count_free l <= Z.of_nat (length l).
Proof.
  induction l as [|hdr l IH]; simpl; [lia|].
  destruct (hdr_used hdr); lia.
Qed.

Lemma count_free_pos l i : is_unused l i -> 0 < count_free l.
Proof.
  intros [hdr [[_ H]%zlookup_Some Hu]].
  revert H. generalize (Z.to_nat i). clear i.
  induction l as [|hdr' l IH]; intros [|n] H; simpl in *; try discriminate.
  - inversion H; subst. rewrite Hu. pose proof (count_free_range l). lia.
  - specialize (IH n H). destruct (hdr_used hdr'); lia.
Qed.

Lemma count_free_all_used l :
  (forall i, 0 <= i < Z.of_nat (length l) -> is_used l i) ->
  count_free l = 0.
Proof.
  induction l as [|hdr l IH]; intros H; simpl; [reflexivity|].
  assert (Hh : hdr_used hdr = true).
  { destruct (H 0) as [h0 [H0 Hu]]; [simpl; lia|].
    apply zlookup_Some in H0 as [_ H0]. simpl in H0.
    now inversion H0; subst. }
  rewrite Hh, IH; [reflexivity|].
  intros i Hi. destruct (H (i + 1)) as [h1 [H1 Hu]]; [simpl; lia|].
  exists h1. split; [|exact Hu].
  apply zlookup_Some in H1 as [_ H1]. apply zlookup_Some. split; [lia|].
  replace (Z.to_nat (i + 1)) with (S (Z.to_nat i)) in H1 by lia.
  exact H1.
Qed.

Lemma used_or_unused l i :
  0 <= i < Z.of_nat (length l) -> is_used l i \/ is_unused l i.
Proof.
  intros H. destruct (zlookup_is_Some l i H) as [hdr Hh].
  destruct (hdr_used hdr) eqn:E; [left | right]; exists hdr; now split.
Qed.

Lemma used_not_unused l i : is_used l i -> is_unused l i -> False.
Proof. intros [h1 [H1 U1]] [h2 [H2 U2]]. congruence. Qed.

(** [next_free] returns the first unused header of the range, or the
    default when every header of the range is in use. *)
Lemma next_free_spec blk d : forall n i,
  0 <= i -> i + Z.of_nat n <= Z.of_nat (length blk) ->
  exists r, next_free blk i n d = Done r /\
    ((r = d /\ forall j, i <= j < i + Z.of_nat n -> is_used blk j) \/
     (i <= r < i + Z.of_nat n /\ is_unused blk r /\
      forall j, i <= j < r -> is_used blk j)).
Proof.
  induction n as [|n IH]; intros i Hi Hn; simpl.
  - exists d. split; [reflexivity|]. left. split; [reflexivity|]. lia.
  - destruct (zlookup_is_Some blk i) as [hdr Hh]; [lia|].
    rewrite (at_index_Some _ _ _ Hh). simpl.
    destruct (hdr_used hdr) eqn:Hu.
    + destruct (IH (i + 1)) as [r [Hr Hcase]]; [lia | lia |].
      exists r. split; [exact Hr|].
      assert (Hiu : is_used blk i) by (exists hdr; now split).
      destruct Hcase as [[-> Hall] | [Hrange [Hfree Hall]]].
      * left. split; [reflexivity|]. intros j Hj.
        destruct (Z.eq_dec j i) as [->|]; [exact Hiu | apply Hall; lia].
      * right. split; [lia|]. split; [exact Hfree|]. intros j Hj.
        destruct (Z.eq_dec j i) as [->|]; [exact Hiu | apply Hall; lia].
    + exists i. split; [reflexivity|]. right. split; [lia|].
      split; [exists hdr; now split | intros j Hj; lia].
Qed.

Lemma skip_used_spec blk : forall n i,
  0 <= i -> i + Z.of_nat n <= Z.of_nat (length blk) ->
  exists r, skip_used blk i n = Done r /\
    i <= r <= i + Z.of_nat n /\
    (forall j, i <= j < r -> is_used blk j) /\
    (r < i + Z.of_nat n -> is_unused blk r).
Proof.
  induction n as [|n IH]; intros i Hi Hn; simpl.
  - exists i. repeat split; lia.
  - destruct (zlookup_is_Some blk i) as [hdr Hh]; [lia|].
    rewrite (at_index_Some _ _ _ Hh). simpl.
    destruct (hdr_used hdr) eqn:Hu.
    + destruct (IH (i + 1)) as [r [Hr [Hrange [Hall Hfree]]]]; [lia|lia|].
      exists r. split; [exact Hr|]. split; [lia|]. split.
      * intros j Hj. destruct (Z.eq_dec j i) as [->|].
        -- exists hdr; now split.
        -- apply Hall; lia.
      * intros Hlt. apply Hfree. lia.
    + exists i. split; [reflexivity|]. split; [lia|]. split.
      * intros j Hj; lia.
      * intros _. exists hdr; now split.
Qed.

(** [scan_run] either finds [cnt] consecutive unused headers, the first of
    them at [start], or ends with [remaining < cnt]. *)
Lemma scan_run_spec blk cnt : forall n current remaining start,
  0 <= current -> current + Z.of_nat n <= Z.of_nat (length blk) ->
  0 <= remaining <= cnt -> remaining <= current ->
  (0 < remaining -> start = current - remaining) ->
  (forall j, current - remaining <= j < current -> is_unused blk j) ->
  exists rem' start',
    scan_run blk current n cnt remaining start = Done (rem', start') /\
    0 <= rem' <= cnt /\
    (rem' = cnt -> 0 < cnt ->
     current - remaining <= start' /\
     start' + cnt <= current + Z.of_nat n /\
     forall j, start' <= j < start' + cnt -> is_unused blk j) /\
    (rem' < cnt ->
     forall s, current - remaining <= s -> s + cnt <= current + Z.of_nat n ->
               exists j, s <= j < s + cnt /\ is_used blk j).
Proof.
  induction n as [|n IH]; intros current remaining start Hc Hn Hr Hrc Hs Hfree;
    simpl.
  - exists remaining, start. split; [reflexivity|]. split; [lia|]. split.
    + intros -> Hpos. specialize (Hs Hpos). subst start.
      split; [lia|]. split; [lia|]. intros j Hj. apply Hfree. lia.
    + intros Hlt s Hs1 Hs2. lia.
  - destruct (Z.ltb_spec remaining cnt) as [Hlt|Hge].
    + destruct (zlookup_is_Some blk current) as [hdr Hh]; [lia|].
      rewrite (at_index_Some _ _ _ Hh). simpl.
      destruct (hdr_used hdr) eqn:Hu.
      * destruct (IH (current + 1) 0 start)
          as [r [s' [Hrun [Hr' [Hfound Hnone]]]]]; try lia.
        exists r, s'. split; [exact Hrun|]. split; [exact Hr'|]. split.
        -- intros Hrc' Hpos. destruct (Hfound Hrc' Hpos) as [H1 [H2 H3]].
           split; [lia|]. split; [lia|]. exact H3.
        -- intros Hrlt s Hs1 Hs2.
           destruct (Z.le_gt_cases s current) as [Hle|Hgt].
           ++ exists current. split; [lia|]. exists hdr. now split.
           ++ apply (Hnone Hrlt s); lia.
      * destruct (IH (current + 1) (remaining + 1)
                    (if remaining =? 0 then current else start))
          as [r [s' [Hrun [Hr' [Hfound Hnone]]]]]; try lia.
        { intros _. destruct (Z.eqb_spec remaining 0); [lia|].
          rewrite Hs by lia. lia. }
        { intros j Hj. destruct (Z.eq_dec j current) as [->|].
          - exists hdr; now split.
          - apply Hfree. lia. }
        exists r, s'. split; [exact Hrun|]. split; [exact Hr'|]. split.
        -- intros Hrc' Hpos. destruct (Hfound Hrc' Hpos) as [H1 [H2 H3]].
           split; [lia|]. split; [lia|]. exact H3.
        -- intros Hrlt s Hs1 Hs2. apply (Hnone Hrlt s); lia.
    + exists remaining, start. split; [reflexivity|]. split; [lia|]. split.
      * intros -> Hpos. specialize (Hs Hpos). subst start.
        split; [lia|]. split; [lia|]. intros j Hj. apply Hfree. lia.
      * intros Hlt. lia.
Qed.

Lemma mark_used_spec u : forall n current blk,
  0 <= current -> current + Z.of_nat n <= Z.of_nat (length blk) ->
  (forall j, current <= j < current + Z.of_nat n -> is_unused blk j) ->
  exists blk',
    mark_used blk current n u = Done blk' /\
    length blk' = length blk /\
    count_free blk' = count_free blk - Z.of_nat n /\
    forall j, zlookup blk' j
              = if (current <=? j) && (j <? current + Z.of_nat n)
                then mark_hdr u <$> zlookup blk j
                else zlookup blk j.
Proof.
  induction n as [|n IH]; intros current blk Hc Hn Hfree; simpl.
  - exists blk. split; [reflexivity|]. split; [reflexivity|].
    split; [lia|]. intros j. case_range; try reflexivity; lia.
  - destruct (Hfree current) as [hdr [Hh Hu]]; [lia|].
    rewrite (at_index_Some _ _ _ Hh). simpl.
    set (blk1 := zinsert current _ blk).
    destruct (IH (current + 1) blk1) as [blk' [Hrun [Hlen [Hcnt Hlook]]]].
    + lia.
    + unfold blk1. rewrite length_zinsert. lia.
    + intros j Hj. unfold blk1, is_unused.
      rewrite zlookup_zinsert_ne by lia. apply Hfree. lia.
    + exists blk'. split; [exact Hrun|].
      split; [rewrite Hlen; apply length_zinsert|].
      split.
      * rewrite Hcnt. unfold blk1.
        rewrite (count_free_zinsert _ _ _ _ Hh), Hu. simpl. lia.
      * intros j. rewrite Hlook. unfold blk1.
        destruct (Z.eq_dec j current) as [->|Hne].
        -- rewrite zlookup_zinsert_eq by (apply zlookup_lt in Hh; lia).
           rewrite Hh. case_range; try reflexivity; lia.
        -- rewrite zlookup_zinsert_ne by lia.
           case_range; try reflexivity; lia.
Qed.

(** ** Well-formedness is kept by taking and releasing a run of blocks *)

Lemma free_loop_spec bs : forall n i blk fc inf,
  0 <= i -> i + Z.of_nat n <= Z.of_nat (length blk) ->
  0 <= fc < 2 ^ 32 ->
  0 <= info_used inf < 2 ^ 32 -> 0 <= info_free inf < 2 ^ 32 ->
  (forall j, i <= j < i + Z.of_nat n -> is_used blk j) ->
  exists blk',
    free_loop bs i n (blk, fc, inf)
    = Done (blk', wrap32 (fc + Z.of_nat n),
            mk_info (wrap32 (info_used inf - Z.of_nat n * bs))
                    (wrap32 (info_free inf + Z.of_nat n * bs))) /\
    length blk' = length blk /\
    count_free blk' = count_free blk + Z.of_nat n /\
    forall j, zlookup blk' j
              = if (i <=? j) && (j <? i + Z.of_nat n)
                then Some hdr_free else zlookup blk j.
Proof.
  induction n as [|n IH]; intros i blk fc inf Hi Hn Hfc Hu Hf Hused.
  - exists blk. change (Z.of_nat 0) with 0.
    rewrite Z.mul_0_l, !Z.add_0_r, Z.sub_0_r, !wrap32_small by lia.
    destruct inf. simpl. split; [reflexivity|]. split; [reflexivity|].
    split; [lia|]. intros j. case_range; try reflexivity; lia.
  - destruct (Hused i) as [hdr [Hh Hhu]]; [lia|].
    cbn [free_loop]. rewrite (at_index_Some _ _ _ Hh). cbn [obind].
    destruct (IH (i + 1) (zinsert i (mk_hdr 0 false NULL) blk)
                (wrap32 (fc + 1))
                (mk_info (wrap32 (info_used inf - bs))
                         (wrap32 (info_free inf + bs))))
      as [blk' [Hrun [Hlen [Hcnt Hlook]]]].
    + lia.
    + rewrite length_zinsert. lia.
    + apply wrap32_range.
    + apply wrap32_range.
    + apply wrap32_range.
    + intros j Hj. unfold is_used. rewrite zlookup_zinsert_ne by lia.
      apply Hused. lia.
    + exists blk'. rewrite Hrun. cbn [info_used info_free].
      rewrite wrap32_add_l, wrap32_sub_l, wrap32_add_l.
      split.
      { f_equal. f_equal; [f_equal; f_equal; lia|].
        f_equal; f_equal; lia. }
      split; [rewrite Hlen; apply length_zinsert|].
      split.
      { rewrite Hcnt, (count_free_zinsert _ _ _ _ Hh), Hhu. simpl. lia. }
      intros j. rewrite Hlook.
      destruct (Z.eq_dec j i) as [->|Hne].
      * rewrite zlookup_zinsert_eq by (apply zlookup_lt in Hh; lia).
        case_range; try reflexivity; lia.
      * rewrite zlookup_zinsert_ne by lia.
        case_range; try reflexivity; lia.
Qed.

Lemma count_free_zero_used l i :
  count_free l = 0 -> 0 <= i < Z.of_nat (length l) -> is_used l i.
Proof.
  intros H0 Hi. destruct (used_or_unused l i Hi) as [H|H]; [exact H|].
  apply count_free_pos in H. lia.
Qed.

Lemma unused_is_free m i :
  map_wf m -> is_unused (block m) i -> zlookup (block m) i = Some hdr_free.
Proof.
  intros Hwf [hdr [Hh Hu]]. now rewrite Hh, (wf_unused m Hwf i hdr Hh Hu).
Qed.

(** The first header of a run records its own address. *)
Lemma head_unaligned m s hs :
  map_wf m -> zlookup (block m) s = Some hs -> 0 < hdr_size hs ->
  hdr_used hs = true /\ unaligned_ptr hs = base m + s * block_size m.
Proof.
  intros Hwf Hs Hpos.
  destruct (wf_run m Hwf s hs s Hs Hpos) as [hj [Hj [Hu Hp]]]; [lia|].
  rewrite Hs in Hj. inversion Hj; subst. now split.
Qed.

Lemma base_inj m s1 s2 :
  map_wf m ->
  base m + s1 * block_size m = base m + s2 * block_size m -> s1 = s2.
Proof. intros Hwf H. pose proof (wf_block_size m Hwf). nia. Qed.

(** Taking the unused run [s, s + c). *)
Lemma map_wf_alloc_run m s c ff' blk' :
  map_wf m ->
  0 <= s -> 1 <= c -> s + c <= count m ->
  (forall j, s <= j < s + c -> is_unused (block m) j) ->
  length blk' = length (block m) ->
  count_free blk' = count_free (block m) - c ->
  (forall j, zlookup blk' j
             = if (s <=? j) && (j <? s + c)
               then Some (mk_hdr (if j =? s then c else 0) true
                                 (base m + s * block_size m))
               else zlookup (block m) j) ->
  0 <= ff' <= count m ->
  (forall j, 0 <= j < ff' -> is_used blk' j) ->
  (0 < free_count m - c -> ff' < count m /\ is_unused blk' ff') ->
  map_wf (mk_map (block_size m) (count m) (free_count m - c) ff' blk'
                 (base m)).
Proof.
  intros Hwf Hs Hc Hsc Hrun Hlen Hcnt Hlook Hff Hbelow Hfirst.
  destruct Hwf as [Hbs Hcount Hl Hbase Hend Hffi Hfc Hbel Hunused Hused Hr].
  constructor; cbn [block_size count free_count first_free block base].
  - exact Hbs.
  - exact Hcount.
  - now rewrite Hlen.
  - exact Hbase.
  - exact Hend.
  - split; [exact Hff | exact Hfirst].
  - rewrite Hcnt, Hfc. reflexivity.
  - exact Hbelow.
  - intros i hdr Hh Hu. rewrite Hlook in Hh.
    destruct ((s <=? i) && (i <? s + c)).
    + inversion Hh; subst. discriminate.
    + now apply (Hunused i).
  - intros i hdr Hh Hu. rewrite Hlook in Hh.
    destruct ((s <=? i) && (i <? s + c)) eqn:Ein.
    + apply andb_true_iff in Ein as [E1%Z.leb_le E2%Z.ltb_lt].
      inversion Hh; subst; clear Hh.
      exists s, (mk_hdr c true (base m + s * block_size m)). simpl.
      split; [lia|]. split; [reflexivity|]. split.
      * rewrite Hlook. case_range; try reflexivity; lia.
      * split; [lia|]. intros Hne. case_range; [lia | reflexivity].
    + destruct (Hused i hdr Hh Hu) as [s0 [hs0 [H1 [H2 [H3 [H4 H5]]]]]].
      exists s0, hs0. split; [exact H1|]. split; [exact H2|].
      split; [|split; [exact H4 | exact H5]].
      rewrite Hlook.
      destruct ((s <=? s0) && (s0 <? s + c)) eqn:Ein0; [|exact H3].
      exfalso. apply andb_true_iff in Ein0 as [E1%Z.leb_le E2%Z.ltb_lt].
      destruct (Hrun s0) as [hx [Hx Hxu]]; [lia|].
      rewrite H3 in Hx. inversion Hx; subst.
      rewrite (Hunused s0 hx H3 Hxu) in H4. simpl in H4. lia.
  - intros s1 hs1 j Hs1 Hpos Hj. rewrite Hlook in Hs1.
    destruct ((s <=? s1) && (s1 <? s + c)) eqn:Ein.
    + apply andb_true_iff in Ein as [E1%Z.leb_le E2%Z.ltb_lt].
      inversion Hs1; subst; clear Hs1. simpl in Hpos, Hj.
      destruct (Z.eqb_spec s1 s) as [->|Hne]; [|lia].
      exists (mk_hdr (if j =? s then c else 0) true
                     (base m + s * block_size m)).
      rewrite Hlook. split.
      * destruct (Z.leb_spec s j), (Z.ltb_spec j (s + c)); simpl;
          try reflexivity; lia.
      * now split.
    + destruct (Hr s1 hs1 j Hs1 Hpos Hj) as [hj [Hj1 [Hj2 Hj3]]].
      exists hj. split; [|now split]. rewrite Hlook.
      destruct ((s <=? j) && (j <? s + c)) eqn:Ein0; [|exact Hj1].
      exfalso. apply andb_true_iff in Ein0 as [E1%Z.leb_le E2%Z.ltb_lt].
      destruct (Hrun j) as [hx [Hx Hxu]]; [lia|]. congruence.
Qed.

(** Releasing the run that starts at header [s]. *)
Lemma map_wf_free_run m s hs blk' :
  map_wf m ->
  zlookup (block m) s = Some hs -> 0 < hdr_size hs ->
  length blk' = length (block m) ->
  count_free blk' = count_free (block m) + hdr_size hs ->
  (forall j, zlookup blk' j
             = if (s <=? j) && (j <? s + hdr_size hs)
               then Some hdr_free else zlookup (block m) j) ->
  map_wf (mk_map (block_size m) (count m) (free_count m + hdr_size hs)
                 (if (s <? first_free m) || (free_count m =? 0)
                  then s else first_free m)
                 blk' (base m)).
Proof.
  intros Hwf Hs Hpos Hlen Hcnt Hlook.
  pose proof Hwf as
    [Hbs Hcount Hl Hbase Hend Hffi Hfc Hbel Hunused Hused Hr].
  assert (Hsr : 0 <= s < count m) by (apply zlookup_lt in Hs; lia).
  assert (Hrun : forall j, s <= j < s + hdr_size hs ->
                           0 <= j < count m /\ is_used (block m) j).
  { intros j Hj. destruct (Hr s hs j Hs Hpos Hj) as [hj [Hj1 [Hj2 _]]].
    split; [apply zlookup_lt in Hj1; lia | exists hj; now split]. }
  constructor; cbn [block_size count free_count first_free block base].
  - exact Hbs.
  - exact Hcount.
  - now rewrite Hlen.
  - exact Hbase.
  - exact Hend.
  - unfold first_free_inv.
    cbn [block_size count free_count first_free block base]. split.
    + destruct ((s <? first_free m) || (free_count m =? 0));
        [lia | apply Hffi].
    + intros _.
      destruct ((s <? first_free m) || (free_count m =? 0)) eqn:E.
      * split; [lia|]. exists hdr_free. split; [|reflexivity].
        rewrite Hlook. case_range; try reflexivity; lia.
      * apply orb_false_iff in E as [E1%Z.ltb_ge E2%Z.eqb_neq].
        pose proof (count_free_range (block m)).
        destruct (proj2 Hffi) as [Hlt Hun]; [lia|].
        split; [exact Hlt|].
        destruct ((s <=? first_free m)
                  && (first_free m <? s + hdr_size hs)) eqn:Ein.
        -- exists hdr_free. split; [|reflexivity].
           now rewrite Hlook, Ein.
        -- destruct Hun as [hx [Hx Hxu]]. exists hx.
           split; [|exact Hxu]. now rewrite Hlook, Ein.
  - rewrite Hcnt, Hfc. reflexivity.
  - intros j Hj.
    assert (Hju : is_used (block m) j /\ j < s).
    { destruct ((s <? first_free m) || (free_count m =? 0)) eqn:E.
      - split; [|lia].
        apply orb_true_iff in E as [E1%Z.ltb_lt | E2%Z.eqb_eq].
        + apply Hbel. lia.
        + apply count_free_zero_used; [congruence | lia].
      - apply orb_false_iff in E as [E1%Z.ltb_ge _].
        split; [apply Hbel; lia | lia]. }
    destruct Hju as [[hj [Hj1 Hj2]] Hlt]. exists hj. split; [|exact Hj2].
    rewrite Hlook. case_range; try assumption; lia.
  - intros i hdr Hh Hu. rewrite Hlook in Hh.
    destruct ((s <=? i) && (i <? s + hdr_size hs)).
    + now inversion Hh.
    + now apply (Hunused i).
  - intros i hdr Hh Hu. rewrite Hlook in Hh.
    destruct ((s <=? i) && (i <? s + hdr_size hs)) eqn:Ein.
    { inversion Hh; subst. discriminate. }
    destruct (Hused i hdr Hh Hu) as [s0 [hs0 [H1 [H2 [H3 [H4 H5]]]]]].
    exists s0, hs0. split; [exact H1|]. split; [exact H2|].
    split; [|split; [exact H4 | exact H5]].
    rewrite Hlook.
    destruct ((s <=? s0) && (s0 <? s + hdr_size hs)) eqn:Ein0; [|exact H3].
    exfalso. apply andb_true_iff in Ein0 as [E1%Z.leb_le E2%Z.ltb_lt].
    destruct (Hr s hs s0 Hs Hpos) as [hx [Hx [_ Hxp]]]; [lia|].
    rewrite H3 in Hx. inversion Hx; subst hx.
    destruct (head_unaligned m s0 hs0 Hwf H3) as [_ Hp0]; [lia|].
    assert (s0 = s) by (apply (base_inj m); [exact Hwf | congruence]).
    subst s0. rewrite H3 in Hs. inversion Hs; subst hs0.
    apply andb_false_iff in Ein as [E%Z.leb_gt | E%Z.ltb_ge]; lia.
  - intros s1 hs1 j Hs1 Hpos1 Hj. rewrite Hlook in Hs1.
    destruct ((s <=? s1) && (s1 <? s + hdr_size hs)) eqn:Ein.
    { inversion Hs1; subst. simpl in Hpos1. lia. }
    destruct (Hr s1 hs1 j Hs1 Hpos1 Hj) as [hj [Hj1 [Hj2 Hj3]]].
    exists hj. split; [|now split]. rewrite Hlook.
    destruct ((s <=? j) && (j <? s + hdr_size hs)) eqn:Ein0; [|exact Hj1].
    exfalso. apply andb_true_iff in Ein0 as [E1%Z.leb_le E2%Z.ltb_lt].
    destruct (Hr s hs j Hs Hpos) as [hx [Hx [_ Hxp]]]; [lia|].
    rewrite Hj1 in Hx. inversion Hx; subst hx.
    assert (s1 = s) by (apply (base_inj m); [exact Hwf | congruence]).
    subst s1.
    apply andb_false_iff in Ein as [E%Z.leb_gt | E%Z.ltb_ge]; lia.
Qed.

(** ** The allocation functions on a well-formed heap *)

Lemma maps_chain_insert m m' : forall ms (i : nat) b,
  ms !! i = Some m -> base m' = base m -> map_end m' = map_end m ->
  (maps_chain b ms -> maps_chain b (<[i := m']> ms)) /\
  maps_end b (<[i := m']> ms) = maps_end b ms.
Proof.
  induction ms as [|m0 ms IH]; intros i b Hi Hb He; [discriminate|].
  destruct i as [|i]; simpl in *.
  - inversion Hi; subst m0. rewrite He, Hb. tauto.
  - destruct (IH i (map_end m0) Hi Hb He) as [H1 H2].
    split; [intros [? ?]; split; auto | exact H2].
Qed.

Lemma heap_wf_set_map h level m m' inf :
  heap_wf h -> zlookup (maps h) level = Some m -> map_wf m' ->
  base m' = base m -> block_size m' = block_size m -> count m' = count m ->
  0 <= info_used inf < 2 ^ 32 -> 0 <= info_free inf < 2 ^ 32 ->
  heap_wf (set_map h level m' inf).
Proof.
  intros [Hb Hh Hs Hc He Hm Hi] Hl Hwf Hbase Hbs Hcnt Hu Hf.
  apply zlookup_Some in Hl as [Hl0 Hl].
  assert (Hend : map_end m' = map_end m)
    by (unfold map_end; now rewrite Hbase, Hbs, Hcnt).
  destruct (maps_chain_insert m m' (maps h) (Z.to_nat level) (heap h)
              Hl Hbase Hend) as [Hc' He'].
  constructor; unfold set_map, zinsert; simpl.
  - now rewrite length_insert.
  - exact Hh.
  - exact Hs.
  - now apply Hc'.
  - now rewrite He'.
  - apply Forall_insert; assumption.
  - now split.
Qed.

Lemma block_addr_range m i :
  map_wf m -> 0 <= i < count m ->
  0 < block_addr m i /\ block_addr m i + block_size m <= map_end m.
Proof.
  intros Hwf Hi. pose proof (wf_block_size m Hwf).
  pose proof (wf_base m Hwf). unfold block_addr, map_end. nia.
Qed.

Lemma wrap32_block_addr m i :
  map_wf m -> 0 <= i < count m ->
  wrap32 (base m + wrap32 (i * block_size m)) = block_addr m i.
Proof.
  intros Hwf Hi. pose proof (block_addr_range m i Hwf Hi).
  pose proof (wf_block_size m Hwf). pose proof (wf_base m Hwf).
  pose proof (wf_end m Hwf). unfold block_addr, map_end in *.
  rewrite (wrap32_small (i * block_size m)) by nia.
  apply wrap32_small. nia.
Qed.

Lemma heap_wf_map h level m :
  heap_wf h -> zlookup (maps h) level = Some m -> map_wf m.
Proof.
  intros Hwf [_ Hl]%zlookup_Some.
  exact (proj1 (Forall_lookup _ _) (hwf_maps h Hwf) _ _ Hl).
Qed.

(** [alloc_block] on a map that still has a free block: it takes the block
    at [first_free]; [first_free] moves up to the next unused header, and
    stays where it is when the block was the last free one. *)
Lemma alloc_block_spec h level caps_ al m :
  heap_wf h -> zlookup (maps h) level = Some m -> 0 < free_count m ->
  exists ff' blk',
    alloc_block h level caps_ al
    = Done (align_up al (block_addr m (first_free m)),
            set_map h level
              (mk_map (block_size m) (count m) (free_count m - 1) ff' blk'
                      (base m))
              (mk_info (wrap32 (info_used (info h) + block_size m))
                       (wrap32 (info_free (info h) - block_size m)))) /\
    run_taken m (first_free m) 1 blk' /\
    ((free_count m = 1 /\ ff' = first_free m) \/
     (first_free m < ff' < count m /\ 1 < free_count m)) /\
    heap_wf (set_map h level
               (mk_map (block_size m) (count m) (free_count m - 1) ff' blk'
                       (base m))
               (mk_info (wrap32 (info_used (info h) + block_size m))
                        (wrap32 (info_free (info h) - block_size m)))).
Proof.
  intros Hh Hl Hfc. pose proof (heap_wf_map h level m Hh Hl) as Hwf.
  destruct (proj2 (wf_first_free m Hwf) Hfc) as [Hlt Hun].
  pose proof (proj1 (wf_first_free m Hwf)) as Hff.
  pose proof (unused_is_free m _ Hwf Hun) as Hfree.
  pose proof (count_free_range (block m)) as Hcr.
  pose proof (wf_length m Hwf) as Hlen.
  pose proof (wf_count m Hwf) as Hcount.
  pose proof (wf_free_count m Hwf) as Hfceq.
  set (raw := block_addr m (first_free m)).
  set (blk' := zinsert (first_free m) (mk_hdr 1 true raw) (block m)).
  assert (Htaken : run_taken m (first_free m) 1 blk').
  { split; [apply length_zinsert|]. intros j. unfold blk'.
    destruct (Z.eq_dec j (first_free m)) as [->|Hne].
    - rewrite zlookup_zinsert_eq by lia.
      case_range; try reflexivity; lia.
    - rewrite zlookup_zinsert_ne by lia.
      case_range; try reflexivity; lia. }
  assert (Hcf : count_free blk' = count_free (block m) - 1).
  { unfold blk'. rewrite (count_free_zinsert _ _ _ _ Hfree). simpl. lia. }
  assert (Hused_blk' : forall j, j <> first_free m ->
                                 is_used blk' j <-> is_used (block m) j).
  { intros j Hj. unfold is_used, blk'.
    now rewrite zlookup_zinsert_ne by lia. }
  assert (Hffu : is_used blk' (first_free m)).
  { exists (mk_hdr 1 true raw). split; [|reflexivity].
    unfold blk'. apply zlookup_zinsert_eq. lia. }
  destruct (next_free_spec blk' (first_free m)
              (Z.to_nat (count m - first_free m)) (first_free m))
    as [ff' [Hnext Hcase]]; [lia | unfold blk'; rewrite length_zinsert; lia|].
  rewrite Z2Nat.id in Hcase by lia.
  assert (Hbelow : forall j, 0 <= j < first_free m -> is_used blk' j).
  { intros j Hj. apply Hused_blk'; [lia|]. now apply (wf_below m Hwf). }
  assert (Hcase' : (free_count m = 1 /\ ff' = first_free m) \/
                   (first_free m < ff' < count m /\ 1 < free_count m)).
  { destruct Hcase as [[-> Hall] | [Hr [Hun' _]]].
    - left. split; [|reflexivity].
      assert (count_free blk' = 0); [|lia].
      apply count_free_all_used. intros j Hj.
      unfold blk' in Hj. rewrite length_zinsert in Hj.
      destruct (Z.lt_ge_cases j (first_free m));
        [apply Hbelow | apply Hall]; lia.
    - right. pose proof (count_free_pos _ _ Hun').
      destruct (Z.eq_dec ff' (first_free m)) as [->|];
        [exfalso; eapply used_not_unused; eassumption | lia]. }
  assert (Hmwf : map_wf (mk_map (block_size m) (count m) (free_count m - 1)
                                ff' blk' (base m))).
  { apply (map_wf_alloc_run m (first_free m) 1 ff' blk' Hwf); try lia.
    - intros j Hj. now replace j with (first_free m) by lia.
    - apply Htaken.
    - apply Htaken.
    - destruct Hcase as [[-> Hall] | [Hr [Hun' Hall]]]; [exact Hbelow|].
      intros j Hj. destruct (Z.lt_ge_cases j (first_free m)).
      + apply Hbelow. lia.
      + destruct (Z.eq_dec j (first_free m)) as [->|];
          [exact Hffu | apply Hall; lia].
    - intros Hpos. destruct Hcase as [[-> Hall] | [Hr [Hun' Hall]]].
      + destruct Hcase' as [[? _]|[? _]]; lia.
      + split; [lia | exact Hun']. }
  exists ff', blk'. split; [|split; [exact Htaken | split; [exact Hcase'|]]].
  - unfold alloc_block.
    rewrite (at_index_Some _ _ _ Hl). cbn [obind].
    rewrite (at_index_Some _ _ _ Hfree). cbn [obind].
    rewrite wrap32_block_addr by (exact Hwf || lia).
    unfold align_ptr. fold raw.
    change (set_hdr_used (set_hdr_size (set_hdr_unaligned hdr_free raw) 1)
                         true) with (mk_hdr 1 true raw).
    fold blk'. rewrite Hnext. cbn [obind].
    rewrite (wrap32_small (free_count m - 1)) by lia.
    reflexivity.
  - apply (heap_wf_set_map h level m); try assumption; try reflexivity;
      apply wrap32_range.
Qed.

Lemma wrap32_add_r a b : wrap32 (a + wrap32 b) = wrap32 (a + b).
Proof. unfold wrap32. apply Zplus_mod_idemp_r. Qed.

Lemma wrap32_sub_r a b : wrap32 (a - wrap32 b) = wrap32 (a - b).
Proof. unfold wrap32. apply Zminus_mod_idemp_r. Qed.

(** Number of blocks [alloc_cont_blocks] computes for [bytes]. *)
Lemma block_count_spec bytes bs :
  0 < bs -> 0 < bytes < 2 ^ 32 ->
  let cnt := if bytes mod bs =? 0 then bytes / bs
             else wrap32 (bytes / bs + 1) in
  1 <= cnt /\ bytes <= cnt * bs /\ (cnt - 1) * bs < bytes.
Proof.
  intros Hbs Hb. simpl.
  pose proof (Z.div_mod bytes bs ltac:(lia)) as Hdm.
  pose proof (Z.mod_pos_bound bytes bs Hbs) as Hm.
  assert (0 <= bytes / bs) by (apply Z.div_pos; lia).
  assert (bytes / bs <= bytes) by (apply Z.div_le_upper_bound; nia).
  destruct (Z.eqb_spec (bytes mod bs) 0) as [Hz|Hnz].
  - nia.
  - assert (2 <= bs).
    { destruct (Z.eq_dec bs 1) as [->|]; [|lia].
      rewrite Z.mod_1_r in Hnz. lia. }
    assert (bytes / bs + 1 < 2 ^ 32) by nia.
    rewrite wrap32_small by lia. nia.
Qed.

(** [alloc_cont_blocks] either finds no run and changes nothing, or takes
    the first run of [cnt] unused blocks at or after [first_free]. *)
Lemma alloc_cont_blocks_spec h level caps_ bytes al m :
  heap_wf h -> zlookup (maps h) level = Some m -> 0 < bytes < 2 ^ 32 ->
  (alloc_cont_blocks h level caps_ bytes al = Done (NULL, h) /\
   forall s, first_free m <= s ->
             s + blocks_needed bytes (block_size m) <= count m ->
             exists j, s <= j < s + blocks_needed bytes (block_size m) /\
                       is_used (block m) j) \/
  exists start cnt ff' blk',
    cnt = blocks_needed bytes (block_size m) /\
    1 <= cnt /\ bytes <= cnt * block_size m /\
    first_free m <= start /\ start + cnt <= count m /\
    (forall j, start <= j < start + cnt -> is_unused (block m) j) /\
    alloc_cont_blocks h level caps_ bytes al
    = Done (align_up al (block_addr m start),
            set_map h level
              (mk_map (block_size m) (count m) (free_count m - cnt) ff' blk'
                      (base m))
              (mk_info (wrap32 (info_used (info h) + cnt * block_size m))
                       (wrap32 (info_free (info h) - cnt * block_size m))))
    /\
    run_taken m start cnt blk' /\
    ((start = first_free m /\ start + cnt <= ff' <= count m) \/
     (first_free m < start /\ ff' = first_free m /\
      0 < free_count m - cnt)) /\
    heap_wf (set_map h level
               (mk_map (block_size m) (count m) (free_count m - cnt) ff' blk'
                       (base m))
               (mk_info (wrap32 (info_used (info h) + cnt * block_size m))
                        (wrap32 (info_free (info h) - cnt * block_size m)))).
Proof.
  intros Hh Hl Hbytes. pose proof (heap_wf_map h level m Hh Hl) as Hwf.
  pose proof (proj1 (wf_first_free m Hwf)) as Hff.
  pose proof (count_free_range (block m)) as Hcr.
  pose proof (wf_length m Hwf) as Hlen.
  pose proof (wf_count m Hwf) as Hcount.
  pose proof (wf_free_count m Hwf) as Hfceq.
  pose proof (wf_block_size m Hwf) as Hbs.
  pose proof (wf_end m Hwf) as Hend.
  pose proof (wf_base m Hwf) as Hbase.
  unfold alloc_cont_blocks.
  rewrite (at_index_Some _ _ _ Hl). cbn [obind].
  unfold udiv, umod. destruct (Z.eqb_spec (block_size m) 0); [lia|].
  cbn [obind].
  destruct (block_count_spec bytes (block_size m) Hbs Hbytes)
    as [Hc1 [Hc2 Hc3]].
  set (cnt := if bytes mod block_size m =? 0 then bytes / block_size m
              else wrap32 (bytes / block_size m + 1)) in *.
  change (blocks_needed bytes (block_size m)) with cnt.
  destruct (scan_run_spec (block m) cnt
              (Z.to_nat (count m - first_free m)) (first_free m) 0
              (first_free m))
    as [rem' [start [Hscan [Hrem [Hfound Hnone]]]]]; try lia.
  rewrite Hscan. cbn [obind].
  rewrite Z2Nat.id, Z.sub_0_r in Hfound, Hnone by lia.
  destruct ((count m <? cnt) || (rem' <? cnt)) eqn:Efail.
  { left. split; [reflexivity|]. intros s Hs1 Hs2.
    apply orb_true_iff in Efail as [E%Z.ltb_lt | E%Z.ltb_lt]; [lia|].
    apply (Hnone E s); lia. }
  right. apply orb_false_iff in Efail as [E1%Z.ltb_ge E2%Z.ltb_ge].
  destruct Hfound as [Hs1 [Hs2 Hrun]]; [lia | lia |].
  assert (Hstart_free : zlookup (block m) start = Some hdr_free)
    by (apply (unused_is_free m _ Hwf), Hrun; lia).
  set (raw := block_addr m start).
  set (blk1 := zinsert start (mk_hdr cnt false raw) (block m)).
  assert (Hlook1 : forall j, j <> start ->
                             zlookup blk1 j = zlookup (block m) j).
  { intros j Hj. unfold blk1. apply zlookup_zinsert_ne; lia. }
  assert (Hlook1s : zlookup blk1 start = Some (mk_hdr cnt false raw)).
  { unfold blk1. apply zlookup_zinsert_eq. lia. }
  assert (Hlen1 : length blk1 = length (block m))
    by apply length_zinsert.
  assert (Hcf1 : count_free blk1 = count_free (block m)).
  { unfold blk1. rewrite (count_free_zinsert _ _ _ _ Hstart_free).
    simpl. lia. }
  destruct (mark_used_spec raw (Z.to_nat cnt) start blk1)
    as [blk' [Hmark [Hlen' [Hcf' Hlook']]]]; try lia.
  { intros j Hj. destruct (Z.eq_dec j start) as [->|Hne].
    - exists (mk_hdr cnt false raw). now split.
    - unfold is_unused. rewrite Hlook1 by exact Hne. apply Hrun. lia. }
  rewrite Z2Nat.id in Hcf', Hlook' by lia.
  assert (Htaken : run_taken m start cnt blk').
  { split; [congruence|]. intros j. rewrite Hlook'.
    destruct ((start <=? j) && (j <? start + cnt)) eqn:Ein.
    - apply andb_true_iff in Ein as [Ei1%Z.leb_le Ei2%Z.ltb_lt].
      destruct (Z.eqb_spec j start) as [->|Hne].
      + now rewrite Hlook1s.
      + rewrite Hlook1 by exact Hne.
        rewrite (unused_is_free m j Hwf) by (apply Hrun; lia).
        reflexivity.
    - destruct (Z.eq_dec j start) as [->|Hne]; [|now apply Hlook1].
      apply andb_false_iff in Ein as [E%Z.leb_gt | E%Z.ltb_ge]; lia. }
  destruct Htaken as [Htl Htlook].
  assert (Hout : forall j, ~ (start <= j < start + cnt) ->
                           zlookup blk' j = zlookup (block m) j).
  { intros j Hj. rewrite Htlook.
    destruct ((start <=? j) && (j <? start + cnt)) eqn:Ein; [|reflexivity].
    apply andb_true_iff in Ein as [Ei1%Z.leb_le Ei2%Z.ltb_lt]. lia. }
  assert (Hin : forall j, start <= j < start + cnt -> is_used blk' j).
  { intros j Hj. eexists. rewrite Htlook.
    destruct (Z.leb_spec start j), (Z.ltb_spec j (start + cnt)); try lia.
    split; reflexivity. }
  assert (Hbelow : forall j, 0 <= j < first_free m -> is_used blk' j).
  { intros j Hj. unfold is_used. rewrite Hout by lia.
    now apply (wf_below m Hwf). }
  assert (Hff' : exists ff',
    (if first_free m =? start
     then skip_used blk1 (wrap32 (first_free m + cnt))
            (Z.to_nat (count m - wrap32 (first_free m + cnt)))
     else Done (first_free m)) = Done ff' /\
    0 <= ff' <= count m /\
    (forall j, 0 <= j < ff' -> is_used blk' j) /\
    (0 < free_count m - cnt -> ff' < count m /\ is_unused blk' ff') /\
    ((start = first_free m /\ start + cnt <= ff' <= count m) \/
     (first_free m < start /\ ff' = first_free m /\
      0 < free_count m - cnt))).
  { destruct (Z.eqb_spec (first_free m) start) as [Heq|Hne].
    - rewrite wrap32_small by lia.
      destruct (skip_used_spec blk1 (Z.to_nat (count m - (first_free m + cnt)))
                  (first_free m + cnt))
        as [r [Hskip [Hr [Hall Hfree]]]]; try lia.
      rewrite Z2Nat.id in Hr, Hfree by lia.
      assert (Hallu : forall j, 0 <= j < r -> is_used blk' j).
      { intros j Hj. destruct (Z.lt_ge_cases j (first_free m));
          [apply Hbelow; lia|].
        destruct (Z.lt_ge_cases j (start + cnt)); [apply Hin; lia|].
        unfold is_used. rewrite Hout by lia. rewrite <- Hlook1 by lia.
        apply Hall. lia. }
      exists r. split; [exact Hskip|]. split; [lia|].
      split; [exact Hallu|]. split; [|left; split; [congruence | lia]].
      intros Hpos.
      destruct (Z.eq_dec r (count m)) as [->|Hrne].
      + assert (count_free blk' = 0); [|lia].
        apply count_free_all_used. intros j Hj. apply Hallu. lia.
      + split; [lia|]. unfold is_unused. rewrite Hout by lia.
        rewrite <- Hlook1 by lia. apply Hfree. lia.
    - assert (Hpos : 0 < free_count m - cnt).
      { assert (is_unused blk' (first_free m)); [|
          apply count_free_pos in H; lia].
        unfold is_unused. rewrite Hout by lia.
        apply (wf_first_free m Hwf).
        assert (0 < count_free (block m)); [|lia].
        apply (count_free_pos _ start). apply Hrun. lia. }
      exists (first_free m). split; [reflexivity|]. split; [lia|].
      split; [exact Hbelow|]. split; [|right; lia].
      intros _. split.
      + apply (wf_first_free m Hwf). lia.
      + unfold is_unused. rewrite Hout by lia.
        apply (wf_first_free m Hwf). lia. }
  destruct Hff' as [ff' [Hffeq [Hffr [Hffb [Hfff Hffc]]]]].
  assert (Hmwf : map_wf (mk_map (block_size m) (count m)
                                (free_count m - cnt) ff' blk' (base m))).
  { apply (map_wf_alloc_run m start cnt ff' blk' Hwf); try lia;
      assumption. }
  exists start, cnt, ff', blk'. split; [reflexivity|].
  split; [exact Hc1|]. split; [exact Hc2|]. split; [lia|].
  split; [lia|]. split; [exact Hrun|].
  split; [|split; [split; assumption | split; [exact Hffc|]]].
  - rewrite (at_index_Some _ _ _ Hstart_free). cbn [obind].
    rewrite wrap32_block_addr by (exact Hwf || lia). fold raw.
    unfold align_ptr.
    assert (Hw16 : wrap16 cnt = cnt)
      by (unfold wrap16; apply Z.mod_small; lia).
    change (set_hdr_unaligned (set_hdr_size hdr_free (wrap16 cnt)) raw)
      with (mk_hdr (wrap16 cnt) false raw).
    rewrite Hw16. fold blk1. rewrite Hffeq. cbn [obind].
    rewrite (wrap32_small (start + cnt)) by lia.
    replace (start + cnt - start) with cnt by lia.
    rewrite Hmark. cbn [obind].
    pose proof (count_free_range blk') as Hcr'.
    rewrite (wrap32_small (free_count m - cnt)) by lia.
    rewrite (wrap32_small (cnt * block_size m)) by (unfold map_end in Hend; nia).
    reflexivity.
  - apply (heap_wf_set_map h level m); try assumption; try reflexivity;
      apply wrap32_range.
Qed.

(** ** The free path on a well-formed heap *)

Lemma map_end_ge m : map_wf m -> base m <= map_end m.
Proof.
  intros Hwf. pose proof (wf_block_size m Hwf).
  pose proof (wf_count m Hwf). unfold map_end. nia.
Qed.

Lemma wrap32_map_end m :
  map_wf m -> wrap32 (base m + wrap32 (block_size m * count m)) = map_end m.
Proof.
  intros Hwf. pose proof (wf_block_size m Hwf).
  pose proof (wf_count m Hwf). pose proof (wf_base m Hwf).
  pose proof (wf_end m Hwf). unfold map_end in *.
  rewrite (wrap32_small (block_size m * count m)) by nia.
  apply wrap32_small. nia.
Qed.

Lemma chain_base_ge : forall ms b (i : nat) m,
  maps_chain b ms -> Forall map_wf ms -> ms !! i = Some m -> b <= base m.
Proof.
  induction ms as [|m0 ms IH]; intros b i m Hc Hwf Hi; [discriminate|].
  destruct Hc as [Hb Hc]. inversion Hwf; subst.
  destruct i as [|i]; simpl in Hi.
  - inversion Hi; subst. lia.
  - pose proof (IH _ _ _ Hc ltac:(assumption) Hi).
    pose proof (map_end_ge m0 ltac:(assumption)). lia.
Qed.

Lemma chain_order : forall ms b (k i : nat) mk mi,
  maps_chain b ms -> Forall map_wf ms -> (k < i)%nat ->
  ms !! k = Some mk -> ms !! i = Some mi -> map_end mk <= base mi.
Proof.
  induction ms as [|m0 ms IH]; intros b k i mk mi Hc Hwf Hki Hk Hi;
    [discriminate|].
  destruct Hc as [Hb Hc]. inversion Hwf; subst.
  destruct i as [|i]; [lia|]. simpl in Hi.
  destruct k as [|k]; simpl in Hk.
  - inversion Hk; subst. eapply chain_base_ge; eassumption.
  - eapply (IH _ k i); try eassumption. lia.
Qed.

Lemma chain_end_ge : forall ms b,
  maps_chain b ms -> Forall map_wf ms -> b <= maps_end b ms.
Proof.
  induction ms as [|m0 ms IH]; intros b Hc Hwf; simpl; [lia|].
  destruct Hc as [Hb Hc]. inversion Hwf; subst.
  pose proof (IH _ Hc ltac:(assumption)).
  pose proof (map_end_ge m0 ltac:(assumption)). lia.
Qed.

Lemma chain_map_end_le : forall ms b (i : nat) m,
  maps_chain b ms -> Forall map_wf ms -> ms !! i = Some m ->
  map_end m <= maps_end b ms.
Proof.
  induction ms as [|m0 ms IH]; intros b i m Hc Hwf Hi; [discriminate|].
  destruct Hc as [Hb Hc]. inversion Hwf; subst.
  destruct i as [|i]; simpl in *.
  - inversion Hi; subst. now apply chain_end_ge.
  - eapply IH; eassumption.
Qed.

(** The block-map search returns the map whose address range holds the
    pointer, if there is one. *)
Lemma find_block_map_spec ptr : forall suf pre b,
  maps_chain b suf -> Forall map_wf suf -> b <= ptr ->
  (find_block_map (pre ++ suf) (Z.of_nat (length pre)) (length suf) ptr
   = Done None /\ maps_end b suf <= ptr) \/
  exists (k : nat) m,
    find_block_map (pre ++ suf) (Z.of_nat (length pre)) (length suf) ptr
    = Done (Some (Z.of_nat k)) /\
    (pre ++ suf) !! k = Some m /\ base m <= ptr < map_end m.
Proof.
  induction suf as [|m0 suf IH]; intros pre b Hc Hwf Hb;
    [left; now split|].
  destruct Hc as [Hbase Hc]. inversion Hwf as [|? ? Hwf0 Hwfs]; subst.
  cbn [length find_block_map maps_end].
  assert (Hl : (pre ++ m0 :: suf) !! length pre = Some m0)
    by (now rewrite list_lookup_middle).
  unfold at_index. rewrite zlookup_of_nat, Hl. cbn [obind].
  rewrite wrap32_map_end by exact Hwf0.
  destruct (Z.ltb_spec ptr (map_end m0)) as [Hlt|Hge].
  - right. exists (length pre), m0. split; [reflexivity|].
    split; [exact Hl | lia].
  - specialize (IH (pre ++ [m0]) (map_end m0) Hc Hwfs Hge).
    rewrite <- app_assoc in IH. simpl in IH.
    rewrite length_app in IH. simpl in IH.
    replace (Z.of_nat (length pre + 1)) with (Z.of_nat (length pre) + 1)
      in IH by lia.
    exact IH.
Qed.

Lemma find_block_map_heap h ptr :
  heap_wf h -> heap h <= ptr ->
  (find_block_map (maps h) 0 (Z.to_nat (blocks h)) ptr = Done None /\
   maps_end (heap h) (maps h) <= ptr) \/
  exists i m,
    find_block_map (maps h) 0 (Z.to_nat (blocks h)) ptr = Done (Some i) /\
    zlookup (maps h) i = Some m /\ base m <= ptr < map_end m.
Proof.
  intros Hh Hp.
  destruct (find_block_map_spec ptr (maps h) [] (heap h)
              (hwf_chain h Hh) (hwf_maps h Hh) Hp) as [H|[k [m [H1 [H2 H3]]]]];
    simpl in *; rewrite (hwf_blocks h Hh), Nat2Z.id.
  - now left.
  - right. exists (Z.of_nat k), m. split; [exact H1|].
    split; [now rewrite zlookup_of_nat | exact H3].
Qed.

Lemma find_block_map_at h ptr i m :
  heap_wf h -> zlookup (maps h) i = Some m -> base m <= ptr < map_end m ->
  find_block_map (maps h) 0 (Z.to_nat (blocks h)) ptr = Done (Some i).
Proof.
  intros Hh Hi Hp.
  apply zlookup_Some in Hi as [Hi0 Hi].
  assert (Hhp : heap h <= ptr).
  { pose proof (chain_base_ge _ _ _ _ (hwf_chain h Hh) (hwf_maps h Hh) Hi).
    lia. }
  destruct (find_block_map_heap h ptr Hh Hhp)
    as [[_ Hend]|[k [mk [H1 [H2 H3]]]]].
  - pose proof (chain_map_end_le _ _ _ _ (hwf_chain h Hh) (hwf_maps h Hh)
                  Hi). lia.
  - rewrite H1. f_equal. f_equal.
    apply zlookup_Some in H2 as [Hk0 H2].
    destruct (Nat.lt_trichotomy (Z.to_nat k) (Z.to_nat i)) as [Hlt|[Heq|Hgt]].
    + pose proof (chain_order _ _ (Z.to_nat k) (Z.to_nat i) mk m
                    (hwf_chain h Hh) (hwf_maps h Hh) Hlt H2 Hi). lia.
    + lia.
    + pose proof (chain_order _ _ (Z.to_nat i) (Z.to_nat k) m mk
                    (hwf_chain h Hh) (hwf_maps h Hh) Hgt Hi H2). lia.
Qed.

Lemma div_block x bs q :
  0 < bs -> q * bs <= x < q * bs + bs -> x / bs = q.
Proof.
  intros Hbs Hx. symmetry. apply (Z.div_unique x bs q (x - q * bs)); lia.
Qed.

Lemma to_int_small x : 0 <= x < 2 ^ 31 -> to_int x = x.
Proof.
  intros H. unfold to_int. destruct (Z.ltb_spec x (2 ^ 31)); lia.
Qed.

(** Freeing any address inside a block in use releases the whole run the
    block belongs to. *)
Lemma free_block_in_heap_run h i m q hq ptr :
  heap_wf h -> zlookup (maps h) i = Some m ->
  zlookup (block m) q = Some hq -> hdr_used hq = true ->
  block_addr m q <= ptr < block_addr m q + block_size m ->
  exists s hs blk',
    unaligned_ptr hq = block_addr m s /\
    zlookup (block m) s = Some hs /\ 0 < hdr_size hs /\
    s <= q < s + hdr_size hs /\
    free_block_in_heap ptr h
    = Done (Some (freed_heap h i m s (hdr_size hs) blk')) /\
    run_freed m s (hdr_size hs) blk' /\
    heap_wf (freed_heap h i m s (hdr_size hs) blk').
Proof.
  intros Hh Hi Hq Hu Hp. pose proof (heap_wf_map h i m Hh Hi) as Hwf.
  pose proof (wf_block_size m Hwf) as Hbs.
  pose proof (wf_count m Hwf) as Hcount.
  pose proof (wf_length m Hwf) as Hlen.
  pose proof (wf_base m Hwf) as Hbase.
  pose proof (wf_end m Hwf) as Hend.
  pose proof (wf_free_count m Hwf) as Hfc.
  pose proof (count_free_range (block m)) as Hcr.
  pose proof (zlookup_lt _ _ _ Hq) as Hqr.
  destruct (wf_used m Hwf q hq Hq Hu) as [s [hs [Hs [Hun [Hsl [Hqs Hsz]]]]]].
  change (base m + s * block_size m) with (block_addr m s) in Hun.
  assert (Hpos : 0 < hdr_size hs) by lia.
  pose proof (zlookup_lt _ _ _ Hsl) as Hsr.
  assert (Hrun : forall j, s <= j < s + hdr_size hs ->
                           0 <= j < count m /\ is_used (block m) j).
  { intros j Hj. destruct (wf_run m Hwf s hs j Hsl Hpos Hj)
      as [hj [Hj1 [Hj2 _]]].
    split; [apply zlookup_lt in Hj1; lia | exists hj; now split]. }
  assert (Hsend : s + hdr_size hs <= count m).
  { destruct (Hrun (s + hdr_size hs - 1)); lia. }
  destruct (block_addr_range m q Hwf ltac:(lia)) as [Hq1 Hq2].
  destruct (block_addr_range m s Hwf ltac:(lia)) as [Hs1 Hs2].
  destruct (free_loop_spec (block_size m) (Z.to_nat (hdr_size hs)) s
              (block m) (free_count m) (info h))
    as [blk' [Hloop [Hlen' [Hcf' Hlook']]]]; try lia.
  { apply (hwf_info h Hh). }
  { apply (hwf_info h Hh). }
  { intros j Hj. apply Hrun. lia. }
  rewrite Z2Nat.id in Hloop, Hcf', Hlook' by lia.
  pose proof (count_free_range blk') as Hcr'.
  exists s, hs, blk'.
  split; [exact Hun|]. split; [exact Hsl|]. split; [exact Hpos|].
  split; [lia|].
  assert (Hmwf : map_wf (mk_map (block_size m) (count m)
                           (free_count m + hdr_size hs)
                           (if (s <? first_free m) || (free_count m =? 0)
                            then s else first_free m) blk' (base m))).
  { apply (map_wf_free_run m s hs blk' Hwf); assumption. }
  split; [|split; [split; assumption|]].
  - unfold free_block_in_heap.
    rewrite (find_block_map_at h ptr i m Hh Hi)
      by (unfold block_addr, map_end in *; nia).
    cbn [obind]. rewrite (at_index_Some _ _ _ Hi). cbn [obind].
    unfold udiv. destruct (Z.eqb_spec (block_size m) 0); [lia|].
    cbn [obind].
    rewrite (wrap32_small (ptr - base m))
      by (unfold block_addr, map_end in *; nia).
    rewrite (div_block (ptr - base m) (block_size m) q)
      by (unfold block_addr in *; lia).
    rewrite (to_int_small q) by lia.
    rewrite (at_index_Some _ _ _ Hq). cbn [obind].
    match goal with
    | |- context [obind (if ?c then ?a else ?b) _] =>
        assert (Hredir : (if c then a else b) = Done (block_addr m s, s, hs))
    end.
    { rewrite Hun. destruct (Z.eqb_spec (block_addr m s) ptr) as [He|Hne].
      - simpl. assert (q = s) by (unfold block_addr in *; nia). subst q.
        rewrite Hsl in Hq. inversion Hq; subst hq. now rewrite He.
      - destruct (Z.eqb_spec (block_addr m s) NULL) as [H0|_];
          [unfold NULL in H0; lia|].
        simpl.
        rewrite (wrap32_small (block_addr m s - base m))
          by (unfold block_addr, map_end in *; nia).
        rewrite (div_block (block_addr m s - base m) (block_size m) s)
          by (unfold block_addr in *; lia).
        rewrite (to_int_small s) by lia.
        rewrite (at_index_Some _ _ _ Hsl). reflexivity. }
    rewrite Hredir. cbn [obind].
    rewrite (Z.mul_comm (block_size m) s).
    rewrite wrap32_block_addr by (exact Hwf || lia).
    rewrite Z.eqb_refl.
    replace (s + hdr_size hs - s) with (hdr_size hs) by lia.
    rewrite Hloop. cbn [obind].
    rewrite (wrap32_small s) by lia.
    rewrite (wrap32_small (free_count m + hdr_size hs)) by lia.
    reflexivity.
  - unfold freed_heap.
    apply (heap_wf_set_map h i m); try assumption; try reflexivity;
      apply wrap32_range.
Qed.

(** [free_block], once the owning heap is known, keeps the heap well
    formed whatever the pointer: it panics, or finds nothing to free, or
    releases a run. *)
Lemma free_block_in_heap_wf h ptr :
  heap_wf h -> heap h <= ptr ->
  free_block_in_heap ptr h = Panic SOF_IPC_PANIC_MEM \/
  free_block_in_heap ptr h = Done None \/
  exists h', free_block_in_heap ptr h = Done (Some h') /\ heap_wf h' /\
             heap h' = heap h /\ heap_size h' = heap_size h.
Proof.
  intros Hh Hp.
  destruct (find_block_map_heap h ptr Hh Hp)
    as [[Hnone _]|[i [m [Hfind [Hi Hin]]]]].
  { right. left. unfold free_block_in_heap. now rewrite Hnone. }
  pose proof (heap_wf_map h i m Hh Hi) as Hwf.
  pose proof (wf_block_size m Hwf) as Hbs.
  pose proof (wf_count m Hwf) as Hcount.
  pose proof (wf_length m Hwf) as Hlen.
  pose proof (wf_end m Hwf) as Hend.
  pose proof (wf_base m Hwf) as Hbase.
  set (q := (ptr - base m) / block_size m).
  assert (Hq : 0 <= q < count m).
  { unfold q, map_end in *. split.
    - apply Z.div_pos; lia.
    - apply Z.div_lt_upper_bound; lia. }
  assert (Hqp : block_addr m q <= ptr < block_addr m q + block_size m).
  { unfold q, block_addr.
    pose proof (Z.div_mod (ptr - base m) (block_size m) ltac:(lia)).
    pose proof (Z.mod_pos_bound (ptr - base m) (block_size m) Hbs). lia. }
  destruct (zlookup_is_Some (block m) q ltac:(lia)) as [hq Hhq].
  destruct (hdr_used hq) eqn:Hu.
  - destruct (free_block_in_heap_run h i m q hq ptr Hh Hi Hhq Hu Hqp)
      as [s [hs [blk' [_ [_ [_ [_ [Hfree [_ Hwf']]]]]]]]].
    right. right. eexists. split; [exact Hfree|]. split; [exact Hwf'|].
    now split.
  - pose proof (wf_unused m Hwf q hq Hhq Hu) as ->.
    unfold free_block_in_heap. rewrite Hfind. cbn [obind].
    rewrite (at_index_Some _ _ _ Hi). cbn [obind].
    unfold udiv. destruct (Z.eqb_spec (block_size m) 0); [lia|].
    cbn [obind].
    rewrite (wrap32_small (ptr - base m)) by (unfold map_end in *; nia).
    fold q. rewrite (to_int_small q) by lia.
    rewrite (at_index_Some _ _ _ Hhq). cbn [obind].
    change (unaligned_ptr hdr_free =? NULL) with true.
    rewrite andb_false_r. cbn [obind].
    destruct (_ =? ptr); [|now left].
    right. right. cbn [hdr_size hdr_free].
    replace (q + 0 - q) with 0 by lia. cbn [Z.to_nat free_loop obind].
    eexists. split; [reflexivity|]. split; [|now split].
    assert (Hff : (if (wrap32 q <? first_free m) || (free_count m =? 0)
                   then wrap32 q else first_free m) = first_free m).
    { rewrite (wrap32_small q) by lia.
      assert (Hun : is_unused (block m) q)
        by (exists hdr_free; now split).
      destruct (Z.ltb_spec q (first_free m)) as [Hlt|_].
      - exfalso. eapply used_not_unused; [|exact Hun].
        apply (wf_below m Hwf). lia.
      - destruct (Z.eqb_spec (free_count m) 0) as [H0|_]; [|reflexivity].
        apply count_free_pos in Hun.
        rewrite (wf_free_count m Hwf) in H0. lia. }
    rewrite Hff.
    apply (heap_wf_set_map h i m); try assumption; try reflexivity.
    + now destruct m.
    + apply (hwf_info h Hh).
    + apply (hwf_info h Hh).
Qed.

(** ** Memory-map level: finding the heap of a pointer *)

Lemma ptr_in_heap_ge h ptr : ptr_in_heap h ptr = true -> heap h <= ptr.
Proof.
  unfold ptr_in_heap. intros [H _]%andb_true_iff. now apply Z.leb_le.
Qed.

Lemma find_heap_from_ptr_Some ptr : forall hs i,
  find_heap_from_ptr hs ptr = Some i ->
  exists h, hs !! i = Some h /\ ptr_in_heap h ptr = true.
Proof.
  induction hs as [|h hs IH]; intros i H; simpl in H; [discriminate|].
  destruct (ptr_in_heap h ptr) eqn:E.
  - inversion H; subst. exists h. now split.
  - destruct (find_heap_from_ptr hs ptr) as [k|]; simpl in H;
      [|discriminate].
    inversion H; subst. now apply IH.
Qed.

Lemma get_heap_from_ptr_spec P ptr s :
  (exists h, zlookup (system_runtime s) (cpu_get_id P) = Some h) ->
  exists r, get_heap_from_ptr P ptr s = Done r /\
    forall ref, r = Some ref ->
      exists h, heap_at s ref = Some h /\ ptr_in_heap h ptr = true.
Proof.
  intros [h0 H0]. unfold get_heap_from_ptr.
  rewrite (at_index_Some _ _ _ H0). cbn [obind].
  destruct (ptr_in_heap h0 ptr) eqn:E0.
  { eexists. split; [reflexivity|]. intros ref [= <-]. exists h0.
    split; [|exact E0]. simpl. now apply zlookup_Some in H0. }
  destruct (find_heap_from_ptr (runtime s) ptr) as [i|] eqn:E1.
  { eexists. split; [reflexivity|]. intros ref [= <-].
    now apply find_heap_from_ptr_Some. }
  destruct (find_heap_from_ptr (buffer s) ptr) as [i|] eqn:E2.
  { eexists. split; [reflexivity|]. intros ref [= <-].
    now apply find_heap_from_ptr_Some. }
  eexists. split; [reflexivity|]. discriminate.
Qed.

Lemma mm_wf_heap_at P s ref h :
  mm_wf P s -> heap_at s ref = Some h -> heap_wf h.
Proof.
  intros [_ [H1 [H2 H3]]] Hat.
  destruct ref; simpl in Hat.
  - exact (proj1 (Forall_lookup _ _) H1 _ _ Hat).
  - exact (proj1 (Forall_lookup _ _) H2 _ _ Hat).
  - exact (proj1 (Forall_lookup _ _) H3 _ _ Hat).
Qed.

Lemma mm_wf_heap_put P s ref h' :
  mm_wf P s -> heap_wf h' -> mm_wf P (heap_put s ref h').
Proof.
  intros [[h0 H0] [H1 [H2 H3]]] Hwf.
  destruct ref; simpl; (split; [|repeat split]);
    try assumption; try (apply Forall_insert; assumption);
    try (exists h0; exact H0).
  apply zlookup_Some in H0 as [Hc H0]. simpl.
  destruct (decide (i = Z.to_nat (cpu_get_id P))) as [->|Hne].
  - exists h'. apply zlookup_Some. split; [exact Hc|].
    apply list_lookup_insert_eq. now apply lookup_lt_Some in H0.
  - exists h0. apply zlookup_Some. split; [exact Hc|].
    now rewrite list_lookup_insert_ne.
Qed.

(** [free_block] keeps the memory map well formed, whatever the pointer. *)
Lemma free_block_wf P ptr s :
  mm_wf P s ->
  free_block P ptr s = Panic SOF_IPC_PANIC_MEM \/
  exists s', free_block P ptr s = Done s' /\ mm_wf P s'.
Proof.
  intros Hwf. unfold free_block.
  destruct (get_heap_from_ptr_spec P ptr s (proj1 Hwf)) as [r [Hr Href]].
  rewrite Hr. cbn [obind]. destruct r as [ref|].
  - destruct (Href ref eq_refl) as [h [Hat Hin]]. rewrite Hat.
    pose proof (mm_wf_heap_at P s ref h Hwf Hat) as Hh.
    destruct (free_block_in_heap_wf h ptr Hh (ptr_in_heap_ge _ _ Hin))
      as [Hp|[Hn|[h' [Hd [Hh' _]]]]].
    + left. now rewrite Hp.
    + right. exists s. rewrite Hn. now split.
    + right. exists (heap_put s ref h'). rewrite Hd.
      split; [reflexivity|]. now apply mm_wf_heap_put.
  - right. exists s. now split.
Qed.

(** ** Freshly initialised heaps are well formed *)

Lemma count_free_replicate n : count_free (replicate n hdr_free) = Z.of_nat n.
Proof. induction n as [|n IH]; simpl replicate; simpl count_free; lia. Qed.

Lemma zlookup_replicate {A} (x : A) n i y :
  zlookup (replicate n x) i = Some y -> y = x /\ 0 <= i < Z.of_nat n.
Proof.
  intros [Hi H]%zlookup_Some. apply lookup_replicate in H as [-> Hlt].
  split; [reflexivity | lia].
Qed.

Lemma fresh_map_wf bs n b :
  0 < bs -> 0 <= n < 2 ^ 16 -> 0 < b -> b + bs * n < 2 ^ 32 ->
  map_wf (mk_map bs n n 0 (replicate (Z.to_nat n) hdr_free) b).
Proof.
  intros Hbs Hn Hb Hend.
  assert (Hlook : forall i, 0 <= i < n ->
            zlookup (replicate (Z.to_nat n) hdr_free) i = Some hdr_free).
  { intros i Hi. apply zlookup_Some. split; [lia|].
    apply lookup_replicate. split; [reflexivity | lia]. }
  constructor; simpl; try lia.
  - rewrite length_replicate. lia.
  - exact Hend.
  - split; simpl; [lia|]. intros Hpos. split; [lia|].
    exists hdr_free. split; [apply Hlook; lia | reflexivity].
  - rewrite count_free_replicate. lia.
  - intros i hdr H _. now apply zlookup_replicate in H as [-> _].
  - intros i hdr H Hu. apply zlookup_replicate in H as [-> _].
    discriminate.
  - intros s hs j H Hpos. apply zlookup_replicate in H as [-> _].
    simpl in Hpos. lia.
Qed.

Lemma fresh_maps_wf : forall layout b,
  0 < b -> layout_ok layout -> b + layout_size layout < 2 ^ 32 ->
  maps_chain b (fresh_maps b layout) /\
  maps_end b (fresh_maps b layout) = b + layout_size layout /\
  Forall map_wf (fresh_maps b layout) /\
  length (fresh_maps b layout) = length layout.
Proof.
  induction layout as [|[bs n] layout IH]; intros b Hb Hok Hend; simpl.
  - repeat split; [lia | constructor].
  - inversion Hok as [|? ? [Hbs Hn] Hok']; subst. simpl in *.
    assert (0 <= layout_size layout).
    { clear -Hok'. induction Hok' as [|[bs' n'] l [H1 H2] _ IH]; simpl in *;
        [lia | unfold layout_size in *; simpl; nia]. }
    unfold layout_size in Hend. simpl in Hend. fold (layout_size layout) in Hend.
    destruct (IH (b + bs * n)) as [H1 [H2 [H3 H4]]]; try assumption; try nia.
    unfold map_end. simpl. repeat split.
    + exact H1.
    + rewrite H2. unfold layout_size. simpl. lia.
    + constructor; [apply fresh_map_wf; try assumption; nia | exact H3].
    + now rewrite H4.
Qed.

Lemma fresh_heap_wf b caps_ layout :
  0 < b -> layout_ok layout -> b + layout_size layout < 2 ^ 32 ->
  heap_wf (fresh_heap b caps_ layout).
Proof.
  intros Hb Hok Hend.
  destruct (fresh_maps_wf layout b Hb Hok Hend) as [H1 [H2 [H3 H4]]].
  assert (0 <= layout_size layout).
  { clear -Hok. induction Hok as [|[bs' n'] l [Ha Hb] _ IH]; simpl in *;
      [unfold layout_size; simpl; lia | unfold layout_size in *; simpl; nia]. }
  constructor; simpl; try lia; try assumption.
Qed.

Lemma example_mm_wf : mm_wf example_platform example_mm.
Proof.
  split; [eexists; reflexivity|].
  repeat split; repeat (apply Forall_cons_2 || apply Forall_nil_2);
    (apply fresh_heap_wf;
     [lia
     | repeat (apply Forall_cons_2 || apply Forall_nil_2); simpl; lia
     | unfold layout_size; simpl; lia]).
Qed.

(** ** C1: the [first_free] invariant *)

Lemma last_block_heap_wf : heap_wf last_block_heap.
Proof.
  apply fresh_heap_wf;
    [lia
    | repeat (apply Forall_cons_2 || apply Forall_nil_2); simpl; lia
    | unfold layout_size; simpl; lia].
Qed.

(** C1, the claim as stated, fails: when [alloc_block] takes the last free
    block of a map, its "find next free" loop finds nothing and leaves
    [first_free] where it was, on the block just taken, not at [count]. *)
Lemma alloc_block_last_block_first_free :
  heap_wf last_block_heap /\
  Forall first_free_inv_claimed (maps last_block_heap) /\
  exists h' m',
    alloc_block last_block_heap 0 1 8 = Done (24576, h') /\
    maps h' = [m'] /\
    first_free m' = 0 /\ count m' = 1 /\ free_count m' = 0 /\
    is_used (block m') (first_free m') /\
    ~ first_free_inv_claimed m'.
Proof.
  split; [exact last_block_heap_wf|]. split.
  - apply Forall_cons_2; [|apply Forall_nil_2].
    split; simpl; [lia|]. intros _. exists hdr_free. now split.
  - eexists. eexists. split; [vm_compute; reflexivity|].
    split; [reflexivity|]. repeat split.
    + eexists. split; reflexivity.
    + intros [_ H]. destruct H as [hdr [Hl Hu]]; [simpl; lia|].
      vm_compute in Hl. inversion Hl; subst. discriminate.
Qed.

(** C1 (amended): single-block allocation (from a map that has a free
    block), contiguous allocation (of a non-zero size) and free keep every
    block map of a heap well formed, and a well-formed map has
    [first_free] in [0, count] and, while [free_count] is not zero,
    [first_free < count] with [blocks[first_free].used = false].  When
    [alloc_block] takes the last free block of a map, [free_count] becomes
    zero and [first_free] stays where it was. *)
Theorem allocator_keeps_first_free_invariant :
  (forall h level caps_ al m,
      heap_wf h -> zlookup (maps h) level = Some m -> 0 < free_count m ->
      exists p h' m',
        alloc_block h level caps_ al = Done (p, h') /\
        heap_wf h' /\ zlookup (maps h') level = Some m' /\
        (free_count m = 1 ->
         free_count m' = 0 /\ first_free m' = first_free m)) /\
  (forall h level caps_ bytes al m,
      heap_wf h -> zlookup (maps h) level = Some m -> 0 < bytes < 2 ^ 32 ->
      exists p h',
        alloc_cont_blocks h level caps_ bytes al = Done (p, h') /\
        heap_wf h') /\
  (forall P ptr s,
      mm_wf P s ->
      free_block P ptr s = Panic SOF_IPC_PANIC_MEM \/
      exists s', free_block P ptr s = Done s' /\ mm_wf P s') /\
  (forall h, heap_wf h -> Forall first_free_inv (maps h)).
Proof.
  repeat split.
  - intros h level caps_ al m Hh Hl Hfc.
    destruct (alloc_block_spec h level caps_ al m Hh Hl Hfc)
      as [ff' [blk' [Halloc [_ [Hcase Hwf]]]]].
    eexists. eexists. eexists. split; [exact Halloc|].
    split; [exact Hwf|]. split.
    + unfold set_map. simpl. apply zlookup_zinsert_eq.
      apply zlookup_lt in Hl. exact Hl.
    + intros H1. simpl. destruct Hcase as [[_ ->]|[_ Hgt]]; [|lia].
      split; [lia | reflexivity].
  - intros h level caps_ bytes al m Hh Hl Hb.
    destruct (alloc_cont_blocks_spec h level caps_ bytes al m Hh Hl Hb)
      as [[Hfail _]|[start [cnt [ff' [blk' Hok]]]]].
    + eexists. eexists. split; [exact Hfail | exact Hh].
    + eexists. eexists. split; [apply Hok | apply Hok].
  - intros P ptr s Hwf. now apply free_block_wf.
  - intros h Hh. eapply Forall_impl; [apply (hwf_maps h Hh)|].
    intros m Hm. apply (wf_first_free m Hm).
Qed.

Lemma allocator_keeps_first_free_invariant_witness :
  exists p h' m',
    alloc_block last_block_heap 0 1 8 = Done (p, h') /\
    heap_wf h' /\ zlookup (maps h') 0 = Some m' /\
    (free_count (mk_map 64 1 1 0 [hdr_free] 24576) = 1 ->
     free_count m' = 0 /\
     first_free m' = first_free (mk_map 64 1 1 0 [hdr_free] 24576)).
Proof.
  apply (proj1 allocator_keeps_first_free_invariant last_block_heap 0 1 8
           (mk_map 64 1 1 0 [hdr_free] 24576)).
  - exact last_block_heap_wf.
  - reflexivity.
  - simpl. lia.
Defined.

(** ** Taking a run and freeing it again *)

Lemma set_map_set_map h level m1 i1 m2 i2 :
  set_map (set_map h level m1 i1) level m2 i2 = set_map h level m2 i2.
Proof.
  unfold set_map, zinsert. simpl. now rewrite list_insert_insert_eq.
Qed.

Lemma set_map_id h level m :
  zlookup (maps h) level = Some m -> set_map h level m (info h) = h.
Proof.
  intros H. unfold set_map. rewrite (zinsert_id _ _ _ H). now destruct h.
Qed.

Lemma zlookup_set_map h level m' inf m :
  zlookup (maps h) level = Some m ->
  zlookup (maps (set_map h level m' inf)) level = Some m'.
Proof.
  intros H. unfold set_map. simpl. apply zlookup_zinsert_eq.
  now apply zlookup_lt in H.
Qed.

(** Freeing any address inside a run that was just taken gives back the
    heap as it was before the run was taken. *)
Lemma take_free_restores h level m s c ff' blk' ptr :
  heap_wf h -> zlookup (maps h) level = Some m ->
  0 <= s -> 1 <= c -> s + c <= count m ->
  (forall j, s <= j < s + c -> is_unused (block m) j) ->
  run_taken m s c blk' ->
  (if (s <? ff') || (free_count m - c =? 0) then s else ff') = first_free m ->
  heap_wf (set_map h level
             (mk_map (block_size m) (count m) (free_count m - c) ff' blk'
                     (base m))
             (mk_info (wrap32 (info_used (info h) + c * block_size m))
                      (wrap32 (info_free (info h) - c * block_size m)))) ->
  block_addr m s <= ptr < block_addr m s + c * block_size m ->
  free_block_in_heap ptr
    (set_map h level
       (mk_map (block_size m) (count m) (free_count m - c) ff' blk' (base m))
       (mk_info (wrap32 (info_used (info h) + c * block_size m))
                (wrap32 (info_free (info h) - c * block_size m))))
  = Done (Some h).
Proof.
  intros Hh Hl Hs Hc Hsc Hrun [Hlen Hlook] Hff Hh' Hp.
  pose proof (heap_wf_map h level m Hh Hl) as Hwf.
  pose proof (wf_block_size m Hwf) as Hbs.
  set (m' := mk_map (block_size m) (count m) (free_count m - c) ff' blk'
                    (base m)) in *.
  set (inf' := mk_info _ _) in *.
  set (h' := set_map h level m' inf') in *.
  assert (Hl' : zlookup (maps h') level = Some m')
    by (eapply zlookup_set_map; eassumption).
  pose proof (heap_wf_map h' level m' Hh' Hl') as Hwf'.
  set (q := (ptr - base m) / block_size m).
  assert (Hq : s <= q < s + c).
  { unfold q, block_addr in *. split.
    - apply Z.div_le_lower_bound; lia.
    - apply Z.div_lt_upper_bound; lia. }
  assert (Hqp : block_addr m' q <= ptr < block_addr m' q + block_size m').
  { unfold q, block_addr, m'. simpl.
    pose proof (Z.div_mod (ptr - base m) (block_size m) ltac:(lia)).
    pose proof (Z.mod_pos_bound (ptr - base m) (block_size m) Hbs). lia. }
  assert (Hin : forall j, s <= j < s + c ->
            zlookup blk' j
            = Some (mk_hdr (if j =? s then c else 0) true (block_addr m s))).
  { intros j Hj. rewrite Hlook.
    destruct (Z.leb_spec s j), (Z.ltb_spec j (s + c)); simpl;
      try reflexivity; lia. }
  assert (Hhq : zlookup (block m') q
                = Some (mk_hdr (if q =? s then c else 0) true
                               (block_addr m s))) by exact (Hin q Hq).
  destruct (free_block_in_heap_run h' level m' q _ ptr Hh' Hl' Hhq
              eq_refl Hqp)
    as [s' [hs [blk'' [Hun [Hsl [Hpos [Hqs [Hfree [[Hlen'' Hlook''] _]]]]]]]]].
  simpl in Hun.
  assert (s' = s) by (apply (base_inj m s' s Hwf); unfold block_addr in Hun;
                      simpl in Hun; lia).
  subst s'. simpl in Hsl. rewrite (Hin s) in Hsl by lia.
  rewrite Z.eqb_refl in Hsl. inversion Hsl; subst hs; clear Hsl.
  simpl in Hlook'', Hfree, Hlen''.
  rewrite Hfree. f_equal. f_equal.
  unfold freed_heap, h'. rewrite set_map_set_map.
  unfold m', inf'. simpl.
  assert (Hblk : blk'' = block m).
  { apply zlookup_ext. intros j. rewrite Hlook'', Hlook.
    destruct ((s <=? j) && (j <? s + c)) eqn:E; [|reflexivity].
    apply andb_true_iff in E as [E1%Z.leb_le E2%Z.ltb_lt].
    symmetry. apply (unused_is_free m j Hwf), Hrun. lia. }
  rewrite Hblk, Hff.
  replace (free_count m - c + c) with (free_count m) by lia.
  rewrite wrap32_sub_l, wrap32_add_l.
  replace (info_used (info h) + c * block_size m - c * block_size m)
    with (info_used (info h)) by lia.
  replace (info_free (info h) - c * block_size m + c * block_size m)
    with (info_free (info h)) by lia.
  rewrite !wrap32_small by apply (hwf_info h Hh).
  replace (mk_map (block_size m) (count m) (free_count m) (first_free m)
                  (block m) (base m)) with m by (now destruct m).
  replace (mk_info (info_used (info h)) (info_free (info h)))
    with (info h) by (now destruct (info h)).
  now apply set_map_id.
Qed.

(** ** Allocation from one heap *)

Lemma align_up_within al raw lim :
  0 <= al -> 0 <= raw -> lim <= 2 ^ 32 ->
  (if al =? 0 then raw < lim
   else if raw mod al =? 0 then raw < lim else raw + al <= lim) ->
  raw <= align_up al raw < lim.
Proof.
  intros Hal Hraw Hlim Hfit. unfold align_up, align_ptr. simpl.
  destruct (Z.eqb_spec al 0) as [->|Hne].
  - rewrite Z.add_0_r, wrap32_small by lia. lia.
  - destruct (Z.eqb_spec (raw mod al) 0) as [H0|Hn0].
    + rewrite Z.add_0_r, wrap32_small by lia. lia.
    + pose proof (Z.mod_pos_bound raw al ltac:(lia)).
      rewrite wrap32_small by lia. lia.
Qed.

Lemma map_range_in_heap h i m q :
  heap_wf h -> zlookup (maps h) i = Some m ->
  base m <= q < map_end m -> ptr_in_heap h q = true.
Proof.
  intros Hh [_ Hi]%zlookup_Some Hq.
  pose proof (chain_base_ge _ _ _ _ (hwf_chain h Hh) (hwf_maps h Hh) Hi).
  pose proof (chain_map_end_le _ _ _ _ (hwf_chain h Hh) (hwf_maps h Hh) Hi).
  pose proof (hwf_end h Hh). pose proof (hwf_size h Hh).
  pose proof (hwf_heap h Hh).
  unfold ptr_in_heap. rewrite wrap32_small by lia.
  apply andb_true_iff. split; [apply Z.leb_le | apply Z.ltb_lt]; lia.
Qed.

(** A single block that holds the aligned pointer can be given back. *)
Lemma alloc_block_ok h level caps_ al m :
  heap_wf h -> zlookup (maps h) level = Some m -> 0 < free_count m ->
  block_addr m (first_free m)
    <= align_up al (block_addr m (first_free m))
    < block_addr m (first_free m) + block_size m ->
  exists q h', alloc_block h level caps_ al = Done (q, h') /\
               raw_alloc_ok h h' q.
Proof.
  intros Hh Hl Hfc Hfit. pose proof (heap_wf_map h level m Hh Hl) as Hwf.
  destruct (alloc_block_spec h level caps_ al m Hh Hl Hfc)
    as [ff' [blk' [Halloc [Htaken [Hcase Hwf']]]]].
  destruct (proj2 (wf_first_free m Hwf) Hfc) as [Hlt Hun].
  pose proof (proj1 (wf_first_free m Hwf)) as Hff.
  destruct (block_addr_range m (first_free m) Hwf ltac:(lia)) as [Hr1 Hr2].
  eexists. eexists. split; [exact Halloc|].
  split; [unfold NULL; lia|]. split.
  { apply (map_range_in_heap h level m); [assumption..|].
    pose proof (wf_block_size m Hwf). unfold block_addr in *. nia. }
  split; [|split; [exact Hwf' | now split]].
  pose proof (take_free_restores h level m (first_free m) 1 ff' blk'
                (align_up al (block_addr m (first_free m))) Hh Hl) as Hrest.
  rewrite !Z.mul_1_l in Hrest.
  apply Hrest; try assumption; try lia.
  - intros j Hj. now replace j with (first_free m) by lia.
  - destruct Hcase as [[H1 ->]|[Hlt' Hgt]].
    + rewrite H1. simpl. now rewrite orb_true_r.
    + destruct (Z.ltb_spec (first_free m) ff'); [reflexivity | lia].
Qed.

(** A run of blocks that holds the aligned pointer can be given back. *)
Lemma alloc_cont_blocks_ok h level caps_ bytes al m :
  heap_wf h -> zlookup (maps h) level = Some m ->
  0 <= al -> al <= bytes -> 0 < bytes < 2 ^ 32 ->
  alloc_cont_blocks h level caps_ bytes al = Done (NULL, h) \/
  exists q h', alloc_cont_blocks h level caps_ bytes al = Done (q, h') /\
               raw_alloc_ok h h' q.
Proof.
  intros Hh Hl Hal Halb Hb. pose proof (heap_wf_map h level m Hh Hl) as Hwf.
  destruct (alloc_cont_blocks_spec h level caps_ bytes al m Hh Hl Hb)
    as [[Hfail _]|[start [cnt [ff' [blk' [_ [Hc1 [Hc2 [Hs1 [Hs2 [Hrun
         [Halloc [Htaken [Hcase Hwf']]]]]]]]]]]]]]; [now left|].
  right.
  pose proof (proj1 (wf_first_free m Hwf)) as Hff.
  pose proof (wf_block_size m Hwf) as Hbs.
  pose proof (wf_end m Hwf) as Hend.
  destruct (block_addr_range m start Hwf ltac:(lia)) as [Hr1 Hr2].
  assert (Hfit : block_addr m start <= align_up al (block_addr m start)
                 < block_addr m start + cnt * block_size m).
  { apply align_up_within; try lia.
    - unfold block_addr, map_end in *. nia.
    - destruct (al =? 0); [nia|].
      destruct (block_addr m start mod al =? 0); nia. }
  eexists. eexists. split; [exact Halloc|].
  split; [unfold NULL; lia|]. split.
  { apply (map_range_in_heap h level m); [assumption..|].
    unfold block_addr, map_end in *. nia. }
  split; [|split; [exact Hwf' | now split]].
  apply (take_free_restores h level m start cnt ff' blk');
    try assumption; try lia.
  destruct Hcase as [[-> Hlt]|[Hlt [-> Hpos]]].
  - destruct (Z.ltb_spec (first_free m) ff'); [reflexivity | lia].
  - destruct (Z.ltb_spec start (first_free m)); [lia|].
    destruct (Z.eqb_spec (free_count m - cnt) 0); [lia | reflexivity].
Qed.

Lemma first_free_addr m :
  map_wf m -> 0 < free_count m ->
  wrap32 (base m + wrap32 (block_size m * first_free m))
  = block_addr m (first_free m) /\
  0 <= first_free m < count m.
Proof.
  intros Hwf Hfc. destruct (proj2 (wf_first_free m Hwf) Hfc) as [Hlt _].
  pose proof (proj1 (wf_first_free m Hwf)).
  rewrite (Z.mul_comm (block_size m)).
  split; [apply wrap32_block_addr; [exact Hwf | lia] | lia].
Qed.

Lemma free_count_pos m : map_wf m -> free_count m <> 0 -> 0 < free_count m.
Proof.
  intros Hwf Hne. rewrite (wf_free_count m Hwf) in *.
  pose proof (count_free_range (block m)). lia.
Qed.


(** The single-block loop of [alloc_heap_buffer]. *)
Lemma single_block_loop_spec h caps_ bytes al :
  heap_wf h -> 0 <= bytes -> 0 < al -> bytes + al < 2 ^ 32 ->
  forall n i,
    0 <= i -> i + Z.of_nat n = Z.of_nat (length (maps h)) ->
    single_block_loop h caps_ bytes al i n bytes = Done (NULL, h) \/
    exists q h', single_block_loop h caps_ bytes al i n bytes = Done (q, h')
                 /\ raw_alloc_ok h h' q.
Proof.
  intros Hh Hb Hal Hsum. induction n as [|n IH]; intros i Hi Hn;
    [now left|].
  cbn [single_block_loop].
  destruct (zlookup_is_Some (maps h) i ltac:(lia)) as [m Hm].
  rewrite (at_index_Some _ _ _ Hm). cbn [obind].
  pose proof (heap_wf_map h i m Hh Hm) as Hwf.
  unfold umod. destruct (Z.eqb_spec al 0); [lia|]. cbn [obind].
  match goal with
  | |- context [?t <=? block_size m] => set (temp := t)
  end.
  destruct (Z.leb_spec temp (block_size m)) as [Hbig|Hsmall];
    [|apply IH; lia].
  destruct (Z.eqb_spec (free_count m) 0) as [Hz|Hnz]; [apply IH; lia|].
  right. cbn [negb andb].
  pose proof (free_count_pos m Hwf Hnz) as Hfc.
  destruct (first_free_addr m Hwf Hfc) as [Haddr Hffr].
  destruct (block_addr_range m (first_free m) Hwf Hffr) as [Hr1 Hr2].
  pose proof (wf_end m Hwf) as Hend. pose proof (wf_block_size m Hwf).
  apply (alloc_block_ok h i caps_ al m Hh Hm Hfc).
  apply align_up_within; try lia.
  unfold temp in Hbig. rewrite Haddr in Hbig.
  destruct (Z.eqb_spec al 0); [lia|].
  destruct (block_addr m (first_free m) mod al =? 0); [lia|].
  rewrite wrap32_small in Hbig by lia. lia.
Qed.

(** The contiguous loop of [alloc_heap_buffer]. *)
Lemma cont_blocks_loop_spec h caps_ bytes al :
  heap_wf h -> 0 <= al -> al <= bytes -> bytes < 2 ^ 32 ->
  forall n,
    (n <= length (maps h))%nat ->
    cont_blocks_loop h caps_ bytes al n = Done (NULL, h) \/
    exists q h', cont_blocks_loop h caps_ bytes al n = Done (q, h') /\
                 raw_alloc_ok h h' q.
Proof.
  intros Hh Hal Halb Hb. induction n as [|n IH]; intros Hn; [now left|].
  cbn [cont_blocks_loop].
  destruct (zlookup_is_Some (maps h) (Z.of_nat n) ltac:(lia)) as [m Hm].
  rewrite (at_index_Some _ _ _ Hm). cbn [obind].
  pose proof (heap_wf_map h _ m Hh Hm) as Hwf.
  pose proof (wf_block_size m Hwf).
  destruct ((bytes <=? heap_size h) && (block_size m <? bytes)) eqn:E;
    [|apply IH; lia].
  apply andb_true_iff in E as [_ E%Z.ltb_lt].
  destruct (alloc_cont_blocks_ok h (Z.of_nat n) caps_ bytes al m Hh Hm Hal
              Halb ltac:(lia)) as [Hfail|[q [h' [Hok Hraw]]]].
  - rewrite Hfail. cbn [obind]. change (NULL =? NULL) with true. cbn iota.
    apply IH. lia.
  - right. exists q, h'. rewrite Hok. cbn [obind].
    destruct (Z.eqb_spec q NULL) as [->|_]; [now destruct Hraw|].
    now split.
Qed.

Lemma raw_alloc_shared P h h' q flags n :
  heap_platform_ok P h -> raw_alloc_ok h h' q ->
  alloc_ok P h h'
    (if negb (q =? NULL) && negb (Z.land flags (SOF_MEM_FLAG_SHARED P) =? 0)
     then platform_shared_get P q n else q).
Proof.
  intros Hp Hraw. pose proof Hraw as [Hq [Hin _]].
  destruct (Hp q Hin) as [Hid Hsh]. destruct (Hsh n) as [Hnn Hback].
  destruct (Z.eqb_spec q NULL); [contradiction|]. simpl.
  destruct (Z.land flags (SOF_MEM_FLAG_SHARED P) =? 0); simpl.
  - split; [exact Hq | now rewrite Hid].
  - split; [exact Hnn | now rewrite Hback].
Qed.


(** [alloc_heap_buffer]: the same, for the buffer policy. *)
Lemma alloc_heap_buffer_spec P h flags caps_ bytes al p h' :
  heap_wf h -> heap_platform_ok P h ->
  0 <= bytes -> 0 <= al -> bytes + al < 2 ^ 32 ->
  alloc_heap_buffer P h flags caps_ bytes al = Done (p, h') ->
  (p = NULL /\ h' = h) \/ alloc_ok P h h' p.
Proof.
  intros Hh Hp Hb Hal Hsum. unfold alloc_heap_buffer.
  destruct (Z.land al (wrap32 (al - 1)) =? 0); [|discriminate].
  destruct (Z.eq_dec al 0) as [->|Hne].
  { (* alignment 0: only a heap without block maps gets past the modulo *)
    destruct (Z.to_nat (blocks h)) as [|n] eqn:En.
    - cbn [single_block_loop obind]. change (NULL =? NULL) with true.
      cbn iota. rewrite En. cbn [cont_blocks_loop obind]. simpl.
      intros H; inversion H; subst; now left.
    - cbn [single_block_loop].
      destruct (at_index (maps h) 0) as [m| |]; cbn [obind];
        discriminate. }
  destruct (single_block_loop_spec h caps_ bytes al Hh Hb ltac:(lia) Hsum
              (Z.to_nat (blocks h)) 0 ltac:(lia))
    as [Hnone|[q [h1 [Hsome Hraw]]]].
  { rewrite (hwf_blocks h Hh). lia. }
  - rewrite Hnone. cbn [obind]. change (NULL =? NULL) with true. cbn iota.
    rewrite (wrap32_small (bytes + al)) by lia.
    destruct (cont_blocks_loop_spec h caps_ (bytes + al) al Hh Hal
                ltac:(lia) ltac:(lia) (Z.to_nat (blocks h)))
      as [Hnone2|[q [h1 [Hsome Hraw]]]].
    { rewrite (hwf_blocks h Hh). lia. }
    + rewrite Hnone2. cbn [obind]. change (NULL =? NULL) with true. simpl.
      intros H; inversion H; subst; now left.
    + rewrite Hsome. cbn [obind]. intros H. right.
      pose proof (raw_alloc_shared P h h1 q flags (bytes + al) Hp Hraw)
        as Hok.
      destruct (negb (q =? NULL) && _); inversion H; subst; exact Hok.
  - rewrite Hsome. cbn [obind].
    destruct (Z.eqb_spec q NULL) as [->|Hq]; [now destruct Hraw|].
    cbn [obind]. intros H. right.
    pose proof (raw_alloc_shared P h h1 q flags (wrap32 (bytes + al))
                  Hp Hraw) as Hok.
    destruct (Z.eqb_spec q NULL); [contradiction|].
    destruct (negb false && _); inversion H; subst; exact Hok.
Qed.

(** ** Allocation and free on the memory map *)

Lemma heap_at_ext s1 s r : heaps_of s1 = heaps_of s -> heap_at s1 r = heap_at s r.
Proof.
  unfold heaps_of. intros H. inversion H. destruct r; simpl; congruence.
Qed.



Lemma heap_at_heap_put_eq s r h h' :
  heap_at s r = Some h -> heap_at (heap_put s r h') r = Some h'.
Proof.
  intros H. apply lookup_lt_Some in H as Hlt || idtac.
  destruct r; simpl in *; apply list_lookup_insert_eq;
    eapply lookup_lt_Some; eassumption.
Qed.

Lemma heap_at_heap_put_ne s r r' h' :
  r <> r' -> heap_at (heap_put s r h') r' = heap_at s r'.
Proof.
  intros Hne. destruct r, r'; simpl; try reflexivity;
    apply list_lookup_insert_ne; congruence.
Qed.

Lemma heap_put_id s r h : heap_at s r = Some h -> heap_put s r h = s.
Proof.
  intros H. destruct s, r; simpl in *; now rewrite list_insert_id.
Qed.


Lemma ptr_in_heap_same_range h h' q :
  heap h' = heap h -> heap_size h' = heap_size h ->
  ptr_in_heap h' q = ptr_in_heap h q.
Proof. unfold ptr_in_heap. now intros -> ->. Qed.


Lemma find_heap_from_ptr_None q : forall hs,
  find_heap_from_ptr hs q = None ->
  forall i h, hs !! i = Some h -> ptr_in_heap h q = false.
Proof.
  induction hs as [|h0 hs IH]; intros H i h Hi; [discriminate|].
  simpl in H. destruct (ptr_in_heap h0 q) eqn:E; [discriminate|].
  destruct (find_heap_from_ptr hs q) eqn:E'; [discriminate|].
  destruct i as [|i]; simpl in Hi.
  - now inversion Hi; subst.
  - now apply (IH eq_refl i).
Qed.

(** With disjoint heaps, [get_heap_from_ptr] finds the heap that holds the
    address. *)
Lemma get_heap_from_ptr_unique P s ref h q :
  mm_disjoint P s ->
  (exists h0, zlookup (system_runtime s) (cpu_get_id P) = Some h0) ->
  heap_at s ref = Some h -> searched P ref -> ptr_in_heap h q = true ->
  get_heap_from_ptr P q s = Done (Some ref).
Proof.
  intros [Hd _] Hcpu Hat Hs Hq.
  destruct (get_heap_from_ptr_spec P q s Hcpu) as [r [Hr Href]].
  rewrite Hr. destruct r as [ref'|].
  - destruct (Href ref' eq_refl) as [h' [Hat' Hq']].
    now rewrite (Hd ref' ref h' h q Hat' Hat Hq' Hq).
  - exfalso. revert Hr. unfold get_heap_from_ptr.
    destruct Hcpu as [h0 H0]. rewrite (at_index_Some _ _ _ H0). cbn [obind].
    destruct (ptr_in_heap h0 q) eqn:E0; [discriminate|].
    destruct (find_heap_from_ptr (runtime s) q) eqn:E1; [discriminate|].
    destruct (find_heap_from_ptr (buffer s) q) eqn:E2; [discriminate|].
    intros _. destruct ref as [i|i|i]; simpl in Hat, Hs.
    + subst i. apply zlookup_Some in H0 as [_ H0]. congruence.
    + pose proof (find_heap_from_ptr_None q _ E1 i h Hat). congruence.
    + pose proof (find_heap_from_ptr_None q _ E2 i h Hat). congruence.
Qed.





(** ** C2: allocate, then free *)



Lemma ptr_in_heap_range h q :
  0 <= heap h -> 0 <= heap_size h -> heap h + heap_size h < 2 ^ 32 ->
  ptr_in_heap h q = true <-> heap h <= q < heap h + heap_size h.
Proof.
  intros H0 H1 H2. unfold ptr_in_heap. rewrite wrap32_small by lia.
  rewrite andb_true_iff, Z.leb_le, Z.ltb_lt. tauto.
Qed.

Lemma identity_platform_ok cpu dcache master shared s :
  (forall ref h, heap_at s ref = Some h -> 0 < heap h) ->
  platform_ok (mk_platform cpu dcache master shared (fun p _ => p)
                           (fun p => p)) s.
Proof.
  intros Hpos ref h Hat q Hq. simpl. split; [reflexivity|].
  intros n. split; [|reflexivity].
  apply ptr_in_heap_ge in Hq. specialize (Hpos ref h Hat).
  unfold NULL. lia.
Qed.

Lemma example_platform_ok : platform_ok example_platform example_mm.
Proof.
  apply identity_platform_ok. intros ref h Hat.
  apply (hwf_heap h). exact (mm_wf_heap_at _ _ _ _ example_mm_wf Hat).
Qed.

Ltac example_ranges :=
  repeat match goal with
         | H : ptr_in_heap _ _ = true |- _ =>
             apply ptr_in_heap_range in H;
             [|simpl; lia | unfold layout_size; simpl; lia
              | unfold layout_size; simpl; lia]
         end.

Lemma example_mm_disjoint : mm_disjoint example_platform example_mm.
Proof.
  split.
  - intros r1 r2 h1 h2 q H1 H2 Hq1 Hq2.
    destruct r1 as [[|[|?]]|[|?]|[|?]]; simpl in H1; try discriminate;
      destruct r2 as [[|[|?]]|[|?]|[|?]]; simpl in H2; try discriminate;
      try reflexivity; exfalso;
      inversion H1; subst h1; inversion H2; subst h2;
      example_ranges; unfold layout_size in *; simpl in *; lia.
  - exists (fresh_sys_heap 4096 1024). split; [reflexivity|].
    intros r h q H Hq.
    destruct (ptr_in_heap (fresh_sys_heap 4096 1024) q) eqn:E;
      [|reflexivity].
    exfalso.
    destruct r as [[|[|?]]|[|?]|[|?]]; simpl in H; try discriminate;
      inversion H; subst h;
      example_ranges; unfold layout_size in *; simpl in *; lia.
Qed.


(** ** C4: realloc *)

Lemma heap_put_set_lock s ref h b :
  heap_put (set_lock s b) ref h = set_lock (heap_put s ref h) b.
Proof. now destruct ref. Qed.

(** The free path does not look at the lock. *)
Lemma rfree_unlocked_set_lock P ptr s b :
  _rfree_unlocked P ptr (set_lock s b)
  = omap (fun s' => set_lock s' b) (_rfree_unlocked P ptr s).
Proof.
  unfold _rfree_unlocked. destruct (ptr =? NULL); [reflexivity|].
  change (system (set_lock s b)) with (system s).
  destruct (at_index (system s) (cpu_get_id P)) as [hs| |]; cbn [obind omap];
    try reflexivity.
  destruct (_ && _); [reflexivity|].
  unfold free_block.
  change (get_heap_from_ptr P (platform_rfree_prepare P ptr) (set_lock s b))
    with (get_heap_from_ptr P (platform_rfree_prepare P ptr) s).
  destruct (get_heap_from_ptr P (platform_rfree_prepare P ptr) s)
    as [[ref|]| |]; cbn [obind omap]; try reflexivity.
  change (heap_at (set_lock s b) ref) with (heap_at s ref).
  destruct (heap_at s ref) as [h|]; [|reflexivity].
  destruct (free_block_in_heap _ h) as [[h'|]| |]; cbn [obind omap];
    try reflexivity.
  now rewrite heap_put_set_lock.
Qed.

(** The public entry points in terms of the internal functions. *)
Lemma rmalloc_eq P zone flags caps_ bytes w :
  rmalloc P zone flags caps_ bytes w
  = omap (fun r => (fst r, mk_machine (set_lock (snd r) false)
                             (events w ++ [EvLock; EvAllocator; EvUnlock])))
         (_malloc_unlocked P zone flags caps_ bytes
                           (set_lock (memmap w) true)).
Proof.
  unfold rmalloc, internal, spin_lock_irq, spin_unlock_irq, log.
  cbn [memmap events].
  destruct (_malloc_unlocked _ _ _ _ _ _) as [[q s1]| |];
    cbn [obind omap memmap events fst snd]; try reflexivity.
  now rewrite <- !app_assoc.
Qed.

Lemma rballoc_align_eq P flags caps_ bytes al w :
  rballoc_align P flags caps_ bytes al w
  = omap (fun r => (fst r, mk_machine (set_lock (snd r) false)
                             (events w ++ [EvLock; EvAllocator; EvUnlock])))
         (_balloc_unlocked P flags caps_ bytes al
                           (set_lock (memmap w) true)).
Proof.
  unfold rballoc_align, internal, spin_lock_irq, spin_unlock_irq, log.
  cbn [memmap events].
  destruct (_balloc_unlocked _ _ _ _ _ _) as [[q s1]| |];
    cbn [obind omap memmap events fst snd]; try reflexivity.
  now rewrite <- !app_assoc.
Qed.

Lemma rfree_eq P ptr w :
  rfree P ptr w
  = omap (fun s2 => mk_machine (set_lock s2 false)
                      (events w ++ [EvLock; EvAllocator; EvUnlock]))
         (_rfree_unlocked P ptr (set_lock (memmap w) true)).
Proof.
  unfold rfree, internal_, spin_lock_irq, spin_unlock_irq, log.
  cbn [memmap events].
  destruct (_rfree_unlocked _ _ _) as [s2| |];
    cbn [obind omap memmap events]; try reflexivity.
  now rewrite <- !app_assoc.
Qed.

Lemma realloc_tail_eq P ptr bytes w (o : outcome (Z * mm)) :
  (let w := spin_lock_irq w in
   let* (new_ptr, w) := internal (fun _ => o) w in
   let w :=
     if negb (new_ptr =? NULL) && negb (ptr =? NULL)
     then memcpy_s new_ptr bytes ptr bytes w else w in
   let* w :=
     (if new_ptr =? NULL then Done w
      else internal_ (_rfree_unlocked P ptr) w) in
   let w := spin_unlock_irq w in
   Done (new_ptr, w))
  = obind o (realloc_tail P ptr bytes w).
Proof.
  unfold internal, internal_, spin_lock_irq, spin_unlock_irq, memcpy_s, log,
    realloc_tail.
  cbn [memmap events].
  destruct o as [[p s1]| |]; cbn [obind memmap events]; try reflexivity.
  destruct (Z.eqb_spec p NULL) as [->|Hp]; cbn [negb andb obind memmap events].
  - now rewrite <- !app_assoc.
  - destruct (ptr =? NULL); cbn [negb memmap events];
      destruct (_rfree_unlocked P ptr s1) as [s2| |];
      cbn [obind omap memmap events]; try reflexivity;
      now rewrite <- !app_assoc.
Qed.

Lemma rrealloc_eq P ptr zone flags caps_ bytes w :
  bytes <> 0 ->
  rrealloc P ptr zone flags caps_ bytes w
  = obind (_malloc_unlocked P zone flags caps_ bytes
                            (set_lock (memmap w) true))
          (realloc_tail P ptr bytes w).
Proof.
  intros Hne. unfold rrealloc. destruct (Z.eqb_spec bytes 0); [contradiction|].
  rewrite <- realloc_tail_eq. reflexivity.
Qed.

Lemma rbrealloc_align_eq P ptr flags caps_ bytes al w :
  bytes <> 0 ->
  rbrealloc_align P ptr flags caps_ bytes al w
  = obind (_balloc_unlocked P flags caps_ bytes al
                            (set_lock (memmap w) true))
          (realloc_tail P ptr bytes w).
Proof.
  intros Hne. unfold rbrealloc_align.
  destruct (Z.eqb_spec bytes 0); [contradiction|].
  rewrite <- realloc_tail_eq. reflexivity.
Qed.

(** Freeing the old pointer after the allocation, seen from the realloc. *)
Lemma realloc_tail_frees P ptr bytes w p s1 :
  p <> NULL ->
  (forall w2,
      rfree P ptr (mk_machine (set_lock s1 false)
                     (events w ++ [EvLock; EvAllocator; EvUnlock]))
      = Done w2 ->
      exists w', realloc_tail P ptr bytes w (p, s1) = Done (p, w') /\
                 memmap w' = memmap w2) /\
  (forall c,
      rfree P ptr (mk_machine (set_lock s1 false)
                     (events w ++ [EvLock; EvAllocator; EvUnlock]))
      = Panic c ->
      realloc_tail P ptr bytes w (p, s1) = Panic c).
Proof.
  intros Hp. rewrite rfree_eq. cbn [memmap events].
  change (set_lock (set_lock s1 false) true) with (set_lock s1 true).
  rewrite rfree_unlocked_set_lock. unfold realloc_tail.
  destruct (Z.eqb_spec p NULL); [contradiction|].
  destruct (_rfree_unlocked P ptr s1) as [s2|c0|f0]; cbn [omap]; split;
    try discriminate.
  - intros w2 H. inversion H; subst w2. eexists. split; reflexivity.
  - intros c H. now inversion H.
Qed.

(** *** Allocations survive later allocations *)

Lemma keeps_allocations_refl h : heap_wf h -> keeps_allocations h h.
Proof.
  intros Hwf. split; [exact Hwf|]. split; [reflexivity|].
  split; [reflexivity|]. intros level m Hm. exists m.
  split; [exact Hm|]. split; [reflexivity|]. split; [reflexivity|].
  split; [reflexivity|]. intros j hdr Hj _. exact Hj.
Qed.

Lemma keeps_allocations_trans h1 h2 h3 :
  keeps_allocations h1 h2 -> keeps_allocations h2 h3 ->
  keeps_allocations h1 h3.
Proof.
  intros [_ [Hb1 [Hs1 Hm1]]] [Hwf [Hb2 [Hs2 Hm2]]].
  split; [exact Hwf|]. split; [congruence|]. split; [congruence|].
  intros level m Hm.
  destruct (Hm1 level m Hm) as [m2 [Hl2 [Ha [Hbs [Hc Hk]]]]].
  destruct (Hm2 level m2 Hl2) as [m3 [Hl3 [Ha' [Hbs' [Hc' Hk']]]]].
  exists m3. split; [exact Hl3|]. split; [congruence|].
  split; [congruence|]. split; [congruence|].
  intros j hdr Hj Hu. apply Hk'; [|exact Hu]. now apply Hk.
Qed.

(** Taking a run of unused blocks leaves the blocks in use alone. *)
Lemma run_taken_keeps h level m s c fc ff' blk' inf :
  zlookup (maps h) level = Some m ->
  (forall j, s <= j < s + c -> is_unused (block m) j) ->
  run_taken m s c blk' ->
  heap_wf (set_map h level
             (mk_map (block_size m) (count m) fc ff' blk' (base m)) inf) ->
  keeps_allocations h
    (set_map h level
       (mk_map (block_size m) (count m) fc ff' blk' (base m)) inf).
Proof.
  intros Hm Hun [_ Hblk] Hwf. split; [exact Hwf|]. split; [reflexivity|].
  split; [reflexivity|]. intros k mk Hk.
  destruct (Z.eq_dec k level) as [->|Hne].
  - rewrite Hm in Hk. inversion Hk; subst mk. eexists.
    split; [apply (zlookup_set_map h level _ inf m Hm)|]. cbn.
    split; [reflexivity|]. split; [reflexivity|]. split; [reflexivity|].
    intros j hdr Hj Hu. rewrite Hblk.
    destruct (Z.leb_spec s j); destruct (Z.ltb_spec j (s + c));
      cbn [andb]; try exact Hj.
    exfalso. destruct (Hun j ltac:(lia)) as [hdr' [Hj' Hu']]. congruence.
  - exists mk. split.
    + unfold set_map. cbn [maps]. rewrite zlookup_zinsert_ne;
        [exact Hk | apply (zlookup_lt _ _ _ Hm) | congruence].
    + split; [reflexivity|]. split; [reflexivity|]. split; [reflexivity|].
      intros j hdr Hj _. exact Hj.
Qed.

Lemma alloc_block_keeps h level caps_ al m q h1 :
  heap_wf h -> zlookup (maps h) level = Some m -> free_count m <> 0 ->
  alloc_block h level caps_ al = Done (q, h1) -> keeps_allocations h h1.
Proof.
  intros Hwf Hm Hfc H.
  pose proof (heap_wf_map h level m Hwf Hm) as Hmw.
  pose proof (free_count_pos m Hmw Hfc) as Hpos.
  destruct (alloc_block_spec h level caps_ al m Hwf Hm Hpos)
    as [ff' [blk' [Ha [Hrun [_ Hwf']]]]].
  rewrite Ha in H. inversion H; subst q h1; clear H.
  apply (run_taken_keeps h level m (first_free m) 1);
    [exact Hm | | exact Hrun | exact Hwf'].
  intros j Hj. assert (j = first_free m) as -> by lia.
  apply (wf_first_free m Hmw). exact Hpos.
Qed.

Lemma alloc_cont_blocks_keeps h level caps_ bytes al m q h1 :
  heap_wf h -> zlookup (maps h) level = Some m -> 0 < bytes < 2 ^ 32 ->
  alloc_cont_blocks h level caps_ bytes al = Done (q, h1) ->
  keeps_allocations h h1.
Proof.
  intros Hwf Hm Hb H.
  destruct (alloc_cont_blocks_spec h level caps_ bytes al m Hwf Hm Hb)
    as [[Ha _]|(start & cnt & ff' & blk' & _ & _ & _ & _ & _ & Hun & Ha
                & Hrun & _ & Hwf')].
  - rewrite Ha in H. inversion H; subst. now apply keeps_allocations_refl.
  - rewrite Ha in H. inversion H; subst q h1; clear H.
    apply (run_taken_keeps h level m start cnt);
      [exact Hm | exact Hun | exact Hrun | exact Hwf'].
Qed.

Lemma get_ptr_loop_keeps h caps_ bytes al :
  heap_wf h ->
  forall n i tb q h1,
    get_ptr_loop h caps_ bytes al i n tb = Done (q, h1) ->
    keeps_allocations h h1.
Proof.
  intros Hwf. induction n as [|n IH]; intros i tb q h1 H;
    cbn [get_ptr_loop] in H.
  { inversion H; subst. now apply keeps_allocations_refl. }
  destruct (at_index (maps h) i) as [m| |] eqn:Em; cbn [obind] in H;
    try discriminate.
  apply at_index_Done in Em.
  destruct (block_size m <? _); [now apply (IH _ _ _ _ H)|].
  destruct (Z.eqb_spec (free_count m) 0) as [|Hfc];
    [now apply (IH _ _ _ _ H)|].
  now apply (alloc_block_keeps h i caps_ al m q h1).
Qed.

Lemma single_block_loop_keeps h caps_ bytes al :
  heap_wf h ->
  forall n i tb q h1,
    single_block_loop h caps_ bytes al i n tb = Done (q, h1) ->
    keeps_allocations h h1.
Proof.
  intros Hwf. induction n as [|n IH]; intros i tb q h1 H;
    cbn [single_block_loop] in H.
  { inversion H; subst. now apply keeps_allocations_refl. }
  destruct (at_index (maps h) i) as [m| |] eqn:Em; cbn [obind] in H;
    try discriminate.
  apply at_index_Done in Em.
  destruct (umod _ al) as [r| |]; cbn [obind] in H; try discriminate.
  destruct (Z.eqb_spec (free_count m) 0) as [|Hfc].
  - rewrite andb_false_r in H. now apply (IH _ _ _ _ H).
  - destruct (_ <=? block_size m); cbn [andb negb] in H;
      [|now apply (IH _ _ _ _ H)].
    now apply (alloc_block_keeps h i caps_ al m q h1).
Qed.

Lemma cont_blocks_loop_keeps caps_ bytes al :
  0 <= bytes < 2 ^ 32 ->
  forall n h q h1,
    heap_wf h ->
    cont_blocks_loop h caps_ bytes al n = Done (q, h1) ->
    keeps_allocations h h1.
Proof.
  intros Hb. induction n as [|n IH]; intros h q h1 Hwf H;
    cbn [cont_blocks_loop] in H.
  { inversion H; subst. now apply keeps_allocations_refl. }
  destruct (at_index (maps h) (Z.of_nat n)) as [m| |] eqn:Em;
    cbn [obind] in H; try discriminate.
  apply at_index_Done in Em.
  destruct (bytes <=? heap_size h); cbn [andb] in H;
    [|now apply (IH _ _ _ Hwf H)].
  destruct (Z.ltb_spec (block_size m) bytes) as [Hlt|];
    [|now apply (IH _ _ _ Hwf H)].
  pose proof (wf_block_size m (heap_wf_map h _ m Hwf Em)) as Hbs.
  destruct (alloc_cont_blocks h (Z.of_nat n) caps_ bytes al)
    as [[q2 h2]| |] eqn:Ea; cbn [obind] in H; try discriminate.
  pose proof (alloc_cont_blocks_keeps h _ caps_ bytes al m q2 h2 Hwf Em
                ltac:(lia) Ea) as Hk.
  destruct (q2 =? NULL).
  - apply (keeps_allocations_trans h h2 h1 Hk).
    apply (IH h2 q h1); [apply Hk | exact H].
  - inversion H; subst. exact Hk.
Qed.

Lemma get_ptr_from_heap_keeps P h flags caps_ bytes al p h1 :
  heap_wf h ->
  get_ptr_from_heap P h flags caps_ bytes al = Done (p, h1) ->
  keeps_allocations h h1.
Proof.
  intros Hwf H. unfold get_ptr_from_heap in H.
  destruct (Z.land al _ =? 0); [|discriminate].
  destruct (get_ptr_loop h caps_ bytes al 0 _ bytes) as [[q h2]| |] eqn:E;
    cbn [obind] in H; try discriminate.
  pose proof (get_ptr_loop_keeps h caps_ bytes al Hwf _ _ _ _ _ E) as Hk.
  destruct (_ && _); inversion H; subst; exact Hk.
Qed.

Lemma alloc_heap_buffer_keeps P h flags caps_ bytes al p h1 :
  heap_wf h ->
  alloc_heap_buffer P h flags caps_ bytes al = Done (p, h1) ->
  keeps_allocations h h1.
Proof.
  intros Hwf H. unfold alloc_heap_buffer in H.
  destruct (Z.land al _ =? 0); [|discriminate].
  destruct (single_block_loop h caps_ bytes al 0 _ bytes)
    as [[q h2]| |] eqn:E; cbn [obind] in H; try discriminate.
  pose proof (single_block_loop_keeps h caps_ bytes al Hwf _ _ _ _ _ E)
    as Hk.
  assert (Hk' : forall q3 h3,
             (if q =? NULL
              then cont_blocks_loop h2 caps_ (wrap32 (bytes + al)) al
                                    (Z.to_nat (blocks h2))
              else Done (q, h2)) = Done (q3, h3) ->
             keeps_allocations h h3).
  { intros q3 h3 H3. destruct (q =? NULL).
    - apply (keeps_allocations_trans h h2 h3 Hk).
      apply (cont_blocks_loop_keeps caps_ (wrap32 (bytes + al)) al
               (wrap32_range _) (Z.to_nat (blocks h2)) h2 q3 h3);
        [apply Hk | exact H3].
    - inversion H3; subst. exact Hk. }
  destruct (if q =? NULL then _ else _) as [[q3 h3]| |];
    cbn [obind] in H; try discriminate.
  specialize (Hk' q3 h3 eq_refl).
  destruct (_ && _); inversion H; subst; exact Hk'.
Qed.

(** *** The same on the memory map *)

Lemma allocations_kept_refl P s : mm_wf P s -> allocations_kept P s s.
Proof.
  intros Hwf. split; [|split].
  - intros ref h Hat. exists h. split; [exact Hat|].
    apply keeps_allocations_refl, (mm_wf_heap_at P s ref h Hwf Hat).
  - intros ref Hat. exact Hat.
  - intros hs Hs. exists hs. split; [exact Hs|]. now split.
Qed.

Lemma allocations_kept_trans P s1 s2 s3 :
  allocations_kept P s1 s2 -> allocations_kept P s2 s3 ->
  allocations_kept P s1 s3.
Proof.
  intros [Ha [Hn Hs]] [Ha' [Hn' Hs']]. split; [|split].
  - intros ref h Hat. destruct (Ha ref h Hat) as [h2 [Hat2 Hk]].
    destruct (Ha' ref h2 Hat2) as [h3 [Hat3 Hk']]. exists h3.
    split; [exact Hat3|]. now apply (keeps_allocations_trans h h2 h3).
  - intros ref Hat. now apply Hn', Hn.
  - intros hs H. destruct (Hs hs H) as [hs2 [H2 [Hb Hz]]].
    destruct (Hs' hs2 H2) as [hs3 [H3 [Hb' Hz']]]. exists hs3.
    split; [exact H3|]. split; congruence.
Qed.

Lemma allocations_kept_heap_put P s ref h h1 :
  mm_wf P s -> heap_at s ref = Some h -> keeps_allocations h h1 ->
  allocations_kept P s (heap_put s ref h1).
Proof.
  intros Hwf Hat Hk. split; [|split].
  - intros r hr Hr. destruct (decide (ref = r)) as [<-|Hne].
    + rewrite Hat in Hr. inversion Hr; subst hr. exists h1.
      split; [apply (heap_at_heap_put_eq s ref h), Hat | exact Hk].
    + exists hr. split; [now rewrite heap_at_heap_put_ne|].
      apply keeps_allocations_refl, (mm_wf_heap_at P s r hr Hwf Hr).
  - intros r Hr. destruct (decide (ref = r)) as [<-|Hne]; [congruence|].
    now rewrite heap_at_heap_put_ne.
  - intros hs Hs. exists hs. split; [now destruct ref|]. now split.
Qed.

Lemma allocations_kept_ext P s s1 s1' :
  heaps_of s1' = heaps_of s1 ->
  allocations_kept P s s1 -> allocations_kept P s s1'.
Proof.
  intros Hext [Ha [Hn Hs]]. split; [|split].
  - intros ref h Hat. rewrite (heap_at_ext s1' s1 ref Hext). now apply Ha.
  - intros ref Hat. rewrite (heap_at_ext s1' s1 ref Hext). now apply Hn.
  - intros hs H. unfold heaps_of in Hext.
    assert (system s1' = system s1) as -> by congruence. now apply Hs.
Qed.

Lemma allocations_kept_wf P s s1 :
  mm_wf P s -> allocations_kept P s s1 -> mm_wf P s1.
Proof.
  intros Hwf [Ha [Hn _]].
  assert (Hall : forall ref h1, heap_at s1 ref = Some h1 -> heap_wf h1).
  { intros ref h1 H1. destruct (heap_at s ref) as [h|] eqn:E.
    - destruct (Ha ref h E) as [h1' [H1' Hk]].
      assert (h1' = h1) as -> by congruence. apply Hk.
    - rewrite (Hn ref E) in H1. discriminate. }
  split; [|split; [|split]].
  - destruct (proj1 Hwf) as [h Hh]. apply zlookup_Some in Hh as [Hc Hh].
    destruct (Ha (InSystemRuntime (Z.to_nat (cpu_get_id P))) h Hh)
      as [h1 [H1 _]].
    exists h1. apply zlookup_Some. split; [exact Hc | exact H1].
  - apply Forall_lookup. intros i h1 H1.
    apply (Hall (InSystemRuntime i) h1 H1).
  - apply Forall_lookup. intros i h1 H1. apply (Hall (InRuntime i) h1 H1).
  - apply Forall_lookup. intros i h1 H1. apply (Hall (InBuffer i) h1 H1).
Qed.

Lemma allocations_kept_disjoint P s s1 :
  mm_disjoint P s -> allocations_kept P s s1 -> mm_disjoint P s1.
Proof.
  intros [Hd [hs [Hhs Hsys]]] [Ha [Hn Hs]].
  assert (Hview : forall r h1 q,
             heap_at s1 r = Some h1 -> ptr_in_heap h1 q = true ->
             exists h, heap_at s r = Some h /\ ptr_in_heap h q = true).
  { intros r h1 q H1 Hq. destruct (heap_at s r) as [h|] eqn:E.
    - destruct (Ha r h E) as [h1' [H1' [_ [Hb [Hz _]]]]].
      assert (h1' = h1) as -> by congruence. exists h.
      split; [reflexivity|].
      now rewrite <- (ptr_in_heap_same_range h h1 q Hb Hz).
    - rewrite (Hn r E) in H1. discriminate. }
  split.
  - intros r1 r2 h1 h2 q H1 H2 Hq1 Hq2.
    destruct (Hview r1 h1 q H1 Hq1) as [h1' [H1' Hq1']].
    destruct (Hview r2 h2 q H2 Hq2) as [h2' [H2' Hq2']].
    exact (Hd r1 r2 h1' h2' q H1' H2' Hq1' Hq2').
  - destruct (Hs hs Hhs) as [hs1 [Hhs1 [Hb Hz]]]. exists hs1.
    split; [exact Hhs1|]. intros r h1 q H1 Hq.
    destruct (Hview r h1 q H1 Hq) as [h [Hh Hqh]].
    rewrite (ptr_in_heap_same_range hs hs1 q Hb Hz).
    exact (Hsys r h q Hh Hqh).
Qed.

Lemma malloc_unlocked_kept P zone flags caps_ bytes s p s1 :
  mm_wf P s ->
  _malloc_unlocked P zone flags caps_ bytes s = Done (p, s1) ->
  allocations_kept P s s1.
Proof.
  intros Hwf H. unfold _malloc_unlocked in H.
  assert (Hserve : forall ref h q h1,
             heap_at s ref = Some h ->
             get_ptr_from_heap P h flags caps_ bytes (PLATFORM_DCACHE_ALIGN P)
             = Done (q, h1) ->
             allocations_kept P s
               (set_heap_trace_updated (heap_put s ref h1) 1)).
  { intros ref h q h1 Hat Hg.
    apply (allocations_kept_ext P s (heap_put s ref h1));
      [reflexivity|].
    apply (allocations_kept_heap_put P s ref h h1 Hwf Hat).
    apply (get_ptr_from_heap_keeps P h flags caps_ bytes
             (PLATFORM_DCACHE_ALIGN P) q h1);
      [apply (mm_wf_heap_at P s ref h Hwf Hat) | exact Hg]. }
  destruct zone.
  - unfold rmalloc_sys in H.
    destruct (at_index (system s) (cpu_get_id P)) as [hs| |] eqn:Eh;
      cbn [obind] in H; try discriminate.
    apply at_index_Done in Eh.
    destruct (_ =? caps_); [|discriminate].
    destruct (umod _ _) as [r| |]; cbn [obind] in H; try discriminate.
    destruct (_ <? _); [discriminate|]. cbn [obind] in H.
    inversion H; subst p s1; clear H. split; [|split].
    + intros ref h Hat. exists h. split; [now destruct ref|].
      apply keeps_allocations_refl, (mm_wf_heap_at P s ref h Hwf Hat).
    + intros ref Hat. now destruct ref.
    + intros hs0 Hs0. eexists. split.
      * unfold set_heap_trace_updated, set_system. cbn [system].
        apply zlookup_zinsert_eq, (zlookup_lt _ _ _ Eh).
      * assert (hs0 = hs) as -> by congruence. now split.
  - unfold rmalloc_sys_runtime in H.
    destruct (at_index (system_runtime s) (cpu_get_id P)) as [h| |] eqn:Eh;
      cbn [obind] in H; try discriminate.
    apply at_index_Done in Eh. apply zlookup_Some in Eh as [_ Eh].
    destruct (_ =? caps_); [|discriminate].
    destruct (get_ptr_from_heap P h flags caps_ bytes _)
      as [[q h1]| |] eqn:Eg; cbn [obind] in H; try discriminate.
    inversion H; subst.
    apply (Hserve (InSystemRuntime (Z.to_nat (cpu_get_id P))) h p h1 Eh Eg).
  - unfold rmalloc_runtime in H.
    destruct (get_heap_from_caps (runtime s) caps_) as [i|].
    + destruct (heap_at s (InRuntime i)) as [h|] eqn:Eh; [|discriminate].
      destruct (get_ptr_from_heap P h flags caps_ bytes _)
        as [[q h1]| |] eqn:Eg; cbn [obind] in H; try discriminate.
      inversion H; subst. apply (Hserve (InRuntime i) h p h1 Eh Eg).
    + destruct (get_heap_from_caps (buffer s) caps_) as [i|].
      * destruct (heap_at s (InBuffer i)) as [h|] eqn:Eh; [|discriminate].
        destruct (get_ptr_from_heap P h flags caps_ bytes _)
          as [[q h1]| |] eqn:Eg; cbn [obind] in H; try discriminate.
        inversion H; subst. apply (Hserve (InBuffer i) h p h1 Eh Eg).
      * cbn [obind] in H. inversion H; subst.
        apply (allocations_kept_ext P s s); [reflexivity|].
        now apply allocations_kept_refl.
  - discriminate.
Qed.

Lemma balloc_loop_kept P flags caps_ bytes al :
  forall fuel i s p s1,
    mm_wf P s ->
    balloc_loop P fuel flags caps_ bytes al i s = Done (p, s1) ->
    allocations_kept P s s1.
Proof.
  induction fuel as [|fuel IH]; intros i s p s1 Hwf H;
    cbn [balloc_loop] in H.
  { inversion H; subst. now apply allocations_kept_refl. }
  destruct (i <? length (buffer s))%nat;
    [|inversion H; subst; now apply allocations_kept_refl].
  destruct (get_heap_from_caps _ _) as [k|];
    [|inversion H; subst; now apply allocations_kept_refl].
  destruct (buffer s !! (i + k)%nat) as [h|] eqn:Hj; [|discriminate].
  destruct (alloc_heap_buffer P h flags caps_ bytes al)
    as [[q h1]| |] eqn:Ea; cbn [obind] in H; try discriminate.
  assert (Hk : allocations_kept P s (heap_put s (InBuffer (i + k)) h1)).
  { apply (allocations_kept_heap_put P s (InBuffer (i + k)) h h1 Hwf Hj).
    apply (alloc_heap_buffer_keeps P h flags caps_ bytes al q h1);
      [apply (mm_wf_heap_at P s (InBuffer (i + k)) h Hwf Hj) | exact Ea]. }
  destruct (q =? NULL).
  - apply (allocations_kept_trans P s _ s1 Hk).
    apply (IH _ _ _ _ (allocations_kept_wf P s _ Hwf Hk) H).
  - inversion H; subst. exact Hk.
Qed.

(** *** Freeing a live allocation *)

Lemma live_allocation_kept P s s1 ptr ref level start len :
  live_allocation P s ptr ref level start len ->
  allocations_kept P s s1 ->
  live_allocation P s1 ptr ref level start len.
Proof.
  intros [Hp [Hs [h [m [hs [Hat [Hm [Hhs [Hu [Hsz [Hlen Hin]]]]]]]]]]]
         [Ha _].
  destruct (Ha ref h Hat) as [h1 [Hat1 [_ [_ [_ Hmaps]]]]].
  destruct (Hmaps level m Hm) as [m1 [Hm1 [Hb [Hbs [_ Hk]]]]].
  split; [exact Hp|]. split; [exact Hs|]. exists h1, m1, hs.
  split; [exact Hat1|]. split; [exact Hm1|].
  split; [apply (Hk start hs Hhs Hu)|]. split; [exact Hu|].
  split; [exact Hsz|]. split; [exact Hlen|].
  unfold block_addr in *. now rewrite Hb, Hbs.
Qed.

(** [_rfree_unlocked] of the pointer of a live allocation gives the whole
    run back. *)
Lemma rfree_unlocked_live P s ptr ref level start len :
  mm_wf P s -> mm_disjoint P s ->
  live_allocation P s ptr ref level start len ->
  exists h m blk',
    heap_at s ref = Some h /\ zlookup (maps h) level = Some m /\
    (forall j, start <= j < start + len -> is_used (block m) j) /\
    run_freed m start len blk' /\
    _rfree_unlocked P ptr s
    = Done (set_heap_trace_updated
              (heap_put s ref (freed_heap h level m start len blk')) 1).
Proof.
  intros Hwf Hdis
         [Hp [Hs [h [m [hs [Hat [Hm [Hhs [Hu [Hsz [Hlen Hin]]]]]]]]]]].
  set (q := platform_rfree_prepare P ptr) in *.
  pose proof (mm_wf_heap_at P s ref h Hwf Hat) as Hh.
  pose proof (heap_wf_map h level m Hh Hm) as Hmw.
  pose proof (wf_block_size m Hmw) as Hbs.
  pose proof (zlookup_lt _ _ _ Hhs) as Hstart.
  assert (Hrun : forall j, start <= j < start + len ->
             exists hj, zlookup (block m) j = Some hj /\
                        hdr_used hj = true /\
                        unaligned_ptr hj = base m + start * block_size m).
  { intros j Hj. apply (wf_run m Hmw start hs j Hhs); lia. }
  assert (Hend : start + len <= count m).
  { destruct (Hrun (start + len - 1) ltac:(lia)) as [hj [Hj _]].
    apply zlookup_lt in Hj. rewrite (wf_length m Hmw) in Hj. lia. }
  unfold block_addr in Hin.
  set (k := (q - base m) / block_size m).
  assert (Hk : start <= k < start + len /\
               block_addr m k <= q < block_addr m k + block_size m).
  { unfold block_addr, k.
    pose proof (Z.div_mod (q - base m) (block_size m) ltac:(lia)) as Hdm.
    pose proof (Z.mod_pos_bound (q - base m) (block_size m) Hbs) as Hmod.
    split; [|lia]. split.
    - apply Z.div_le_lower_bound; lia.
    - apply Z.div_lt_upper_bound; lia. }
  destruct Hk as [Hk Hkq].
  destruct (Hrun k Hk) as [hk [Hhk [Huk Hptr]]].
  destruct (free_block_in_heap_run h level m k hk q Hh Hm Hhk Huk Hkq)
    as [s0 [hs0 [blk' [Hs0 [Hhs0 [Hpos [_ [Hfree [Hfr _]]]]]]]]].
  assert (s0 = start) as ->.
  { apply (base_inj m s0 start Hmw). unfold block_addr in Hs0. congruence. }
  assert (hs0 = hs) as -> by congruence. rewrite Hsz in Hfree, Hfr.
  exists h, m, blk'. split; [exact Hat|]. split; [exact Hm|].
  split.
  { intros j Hj. destruct (Hrun j Hj) as [hj [Hj1 [Hj2 _]]].
    exists hj. now split. }
  split; [exact Hfr|].
  assert (Hqin : ptr_in_heap h q = true).
  { apply (map_range_in_heap h level m q Hh Hm). unfold map_end. nia. }
  destruct Hdis as [Hd [hsys [Hhsys Hsys]]].
  unfold _rfree_unlocked. destruct (Z.eqb_spec ptr NULL); [contradiction|].
  fold q. rewrite (at_index_Some _ _ _ Hhsys). cbn [obind].
  change ((heap hsys <=? q) && (q <? wrap32 (heap hsys + heap_size hsys)))
    with (ptr_in_heap hsys q).
  rewrite (Hsys ref h q Hat Hqin). unfold free_block.
  rewrite (get_heap_from_ptr_unique P s ref h q); try assumption.
  2:{ split; [exact Hd | exists hsys; now split]. }
  2:{ exact (proj1 Hwf). }
  cbn [obind]. rewrite Hat, Hfree. reflexivity.
Qed.

(** What a realloc does with a live old allocation once its allocation
    has returned the non-null [p] and the memory map [s1]. *)
Lemma realloc_tail_releases P ptr bytes w p s s1 ref level start len :
  mm_wf P s -> mm_disjoint P s -> allocations_kept P s s1 ->
  live_allocation P s ptr ref level start len -> p <> NULL ->
  exists w',
    realloc_tail P ptr bytes w (p, s1) = Done (p, w') /\
    old_run_released
      (mk_machine (set_lock s1 false)
                  (events w ++ [EvLock; EvAllocator; EvUnlock]))
      w' ref level start len.
Proof.
  intros Hwf Hdis Hk Hlive Hp.
  destruct (rfree_unlocked_live P s1 ptr ref level start len
              (allocations_kept_wf P s s1 Hwf Hk)
              (allocations_kept_disjoint P s s1 Hdis Hk)
              (live_allocation_kept P s s1 ptr ref level start len Hlive Hk))
    as [h1 [m1 [blk' [Hat [Hm [Hused [Hfr Hfree]]]]]]].
  unfold realloc_tail. destruct (Z.eqb_spec p NULL); [contradiction|].
  rewrite Hfree. cbn [omap]. eexists. split; [reflexivity|].
  exists h1, m1, blk'. cbn [memmap].
  split; [now destruct ref|]. split; [exact Hm|]. split; [exact Hused|].
  split; [exact Hfr|]. now destruct ref.
Qed.

(** C4: [rrealloc] and [rbrealloc_align] on a well-formed memory map, for
    every old pointer and every request, whatever its size.  When the new
    allocation fails (the allocation entry point, run on the same machine,
    returns null) the realloc returns null and performs no free: every
    block in use before the call is still in use, with its header as it
    was, so the old allocation is untouched, and for a non-zero size the
    memory map is the one the failed allocation left.  When the new
    allocation succeeds (a non-null pointer for a non-zero size; for size
    zero no allocation is attempted) and the old pointer is a live
    allocation of the current core, in a memory map whose heaps do not
    overlap, the realloc returns the new pointer and has given the old
    run back: its blocks are unused again and the counters have moved
    back by its size.  For any other old pointer the realloc does what
    [rfree] does on it after the allocation, panic included. *)
Theorem realloc_keeps_or_frees_old :
  forall (P : platform) (w : machine),
    mm_wf P (memmap w) ->
    (forall ptr zone flags caps_ bytes,
        (forall w1,
            rmalloc P zone flags caps_ bytes w = Done (NULL, w1) ->
            exists w',
              rrealloc P ptr zone flags caps_ bytes w = Done (NULL, w') /\
              allocations_kept P (memmap w) (memmap w') /\
              (bytes <> 0 -> memmap w' = memmap w1)) /\
        (forall p w1,
            rmalloc P zone flags caps_ bytes w = Done (p, w1) ->
            p <> NULL -> bytes <> 0 ->
            (forall ref level start len,
                mm_disjoint P (memmap w) ->
                live_allocation P (memmap w) ptr ref level start len ->
                exists w',
                  rrealloc P ptr zone flags caps_ bytes w = Done (p, w') /\
                  old_run_released w1 w' ref level start len) /\
            (forall w2,
                rfree P ptr w1 = Done w2 ->
                exists w',
                  rrealloc P ptr zone flags caps_ bytes w = Done (p, w') /\
                  memmap w' = memmap w2) /\
            (forall c,
                rfree P ptr w1 = Panic c ->
                rrealloc P ptr zone flags caps_ bytes w = Panic c))) /\
    (forall ptr flags caps_ bytes alignment,
        (forall w1,
            rballoc_align P flags caps_ bytes alignment w = Done (NULL, w1) ->
            exists w',
              rbrealloc_align P ptr flags caps_ bytes alignment w
              = Done (NULL, w') /\
              allocations_kept P (memmap w) (memmap w') /\
              (bytes <> 0 -> memmap w' = memmap w1)) /\
        (forall p w1,
            rballoc_align P flags caps_ bytes alignment w = Done (p, w1) ->
            p <> NULL -> bytes <> 0 ->
            (forall ref level start len,
                mm_disjoint P (memmap w) ->
                live_allocation P (memmap w) ptr ref level start len ->
                exists w',
                  rbrealloc_align P ptr flags caps_ bytes alignment w
                  = Done (p, w') /\
                  old_run_released w1 w' ref level start len) /\
            (forall w2,
                rfree P ptr w1 = Done w2 ->
                exists w',
                  rbrealloc_align P ptr flags caps_ bytes alignment w
                  = Done (p, w') /\
                  memmap w' = memmap w2) /\
            (forall c,
                rfree P ptr w1 = Panic c ->
                rbrealloc_align P ptr flags caps_ bytes alignment w
                = Panic c))).
Proof.
  intros P w Hwf.
  assert (Hwf' : mm_wf P (set_lock (memmap w) true)) by exact Hwf.
  assert (Hunlock : forall s1,
             allocations_kept P (set_lock (memmap w) true) s1 ->
             allocations_kept P (memmap w) (set_lock s1 false)).
  { intros s1 Hk.
    apply (allocations_kept_ext P (memmap w) s1); [reflexivity|].
    destruct Hk as [Ha [Hn Hs]]. split; [|split].
    - intros ref h Hat. apply Ha. now destruct ref.
    - intros ref Hat. apply Hn. now destruct ref.
    - exact Hs. }
  assert (Hlock : forall ptr ref level start len,
             live_allocation P (memmap w) ptr ref level start len ->
             live_allocation P (set_lock (memmap w) true) ptr ref level
                             start len).
  { intros ptr ref level start len
           [Hp [Hs [h [m [hs [Hat H]]]]]].
    split; [exact Hp|]. split; [exact Hs|]. exists h, m, hs.
    split; [now destruct ref | exact H]. }
  split.
  - intros ptr zone flags caps_ bytes. split.
    + intros w1 H.
      destruct (Z.eqb_spec bytes 0) as [->|Hne].
      { exists w. split; [reflexivity|].
        split; [now apply allocations_kept_refl | congruence]. }
      rewrite rrealloc_eq by exact Hne. rewrite rmalloc_eq in H.
      destruct (_malloc_unlocked _ _ _ _ _ _) as [[q s1]| |] eqn:E;
        cbn [obind omap fst snd] in *; try discriminate.
      inversion H; subst q w1; clear H.
      unfold realloc_tail. change (NULL =? NULL) with true. cbn iota.
      eexists. split; [reflexivity|]. cbn [memmap].
      split; [|reflexivity]. apply Hunlock.
      apply (malloc_unlocked_kept P zone flags caps_ bytes _ NULL s1 Hwf' E).
    + intros p w1 H Hp Hne.
      rewrite rrealloc_eq by exact Hne. rewrite rmalloc_eq in H.
      destruct (_malloc_unlocked _ _ _ _ _ _) as [[q s1]| |] eqn:E;
        cbn [obind omap fst snd] in *; try discriminate.
      inversion H; subst q w1; clear H.
      split; [|now apply realloc_tail_frees].
      intros ref level start len Hdis Hlive.
      apply (realloc_tail_releases P ptr bytes w p
               (set_lock (memmap w) true) s1 ref level start len Hwf' Hdis
               (malloc_unlocked_kept P zone flags caps_ bytes _ p s1 Hwf' E)
               (Hlock _ _ _ _ _ Hlive) Hp).
  - intros ptr flags caps_ bytes al. split.
    + intros w1 H.
      destruct (Z.eqb_spec bytes 0) as [->|Hne].
      { exists w. split; [reflexivity|].
        split; [now apply allocations_kept_refl | congruence]. }
      rewrite rbrealloc_align_eq by exact Hne. rewrite rballoc_align_eq in H.
      destruct (_balloc_unlocked _ _ _ _ _ _) as [[q s1]| |] eqn:E;
        cbn [obind omap fst snd] in *; try discriminate.
      inversion H; subst q w1; clear H.
      unfold realloc_tail. change (NULL =? NULL) with true. cbn iota.
      eexists. split; [reflexivity|]. cbn [memmap].
      split; [|reflexivity]. apply Hunlock.
      apply (balloc_loop_kept P flags caps_ bytes al _ _ _ NULL s1 Hwf' E).
    + intros p w1 H Hp Hne.
      rewrite rbrealloc_align_eq by exact Hne. rewrite rballoc_align_eq in H.
      destruct (_balloc_unlocked _ _ _ _ _ _) as [[q s1]| |] eqn:E;
        cbn [obind omap fst snd] in *; try discriminate.
      inversion H; subst q w1; clear H.
      split; [|now apply realloc_tail_frees].
      intros ref level start len Hdis Hlive.
      apply (realloc_tail_releases P ptr bytes w p
               (set_lock (memmap w) true) s1 ref level start len Hwf' Hdis
               (balloc_loop_kept P flags caps_ bytes al _ _ _ p s1 Hwf' E)
               (Hlock _ _ _ _ _ Hlive) Hp).
Qed.

(** The example memory map with one live allocation is what a first
    allocation leaves. *)
Lemma live_mm_kept : allocations_kept example_platform example_mm live_mm.
Proof.
  apply (balloc_loop_kept example_platform 0 1 200 8 1 0 example_mm 24832
           live_mm example_mm_wf).
  vm_compute. reflexivity.
Qed.

Lemma live_mm_wf : mm_wf example_platform live_mm.
Proof.
  exact (allocations_kept_wf _ _ _ example_mm_wf live_mm_kept).
Qed.

Lemma live_mm_disjoint : mm_disjoint example_platform live_mm.
Proof.
  exact (allocations_kept_disjoint _ _ _ example_mm_disjoint live_mm_kept).
Qed.

Lemma live_mm_allocation :
  live_allocation example_platform live_mm 24832 (InBuffer 0) 1 0 1.
Proof.
  split; [discriminate|]. split; [exact I|].
  eexists _, _, _. split; [reflexivity|]. split; [reflexivity|].
  split; [reflexivity|]. split; [reflexivity|]. split; [reflexivity|].
  split; [lia|]. vm_compute. split; [discriminate | reflexivity].
Qed.

Lemma realloc_keeps_or_frees_old_witness :
  (exists w1 w',
      rballoc_align example_platform 0 1 100 8 live_machine
      = Done (25088, w1) /\
      rbrealloc_align example_platform 24832 0 1 100 8 live_machine
      = Done (25088, w') /\
      old_run_released w1 w' (InBuffer 0) 1 0 1) /\
  (exists w1 w',
      rballoc_align example_platform 0 1 100000 8 live_machine
      = Done (NULL, w1) /\
      rbrealloc_align example_platform 24832 0 1 100000 8 live_machine
      = Done (NULL, w') /\
      allocations_kept example_platform live_mm (memmap w')).
Proof.
  pose proof (proj2 (realloc_keeps_or_frees_old example_platform live_machine
                       live_mm_wf)) as T.
  split.
  - assert (E : exists w1,
               rballoc_align example_platform 0 1 100 8 live_machine
               = Done (25088, w1)) by (eexists; vm_compute; reflexivity).
    destruct E as [w1 E].
    destruct (T 24832 0 1 100 8) as [_ Hs].
    destruct (Hs 25088 w1 E ltac:(discriminate) ltac:(discriminate))
      as [Hrel _].
    destruct (Hrel (InBuffer 0) 1 0 1 live_mm_disjoint live_mm_allocation)
      as [w' [Hr Ho]].
    exists w1, w'. split; [exact E|]. split; [exact Hr | exact Ho].
  - assert (E : exists w1,
               rballoc_align example_platform 0 1 100000 8 live_machine
               = Done (NULL, w1)) by (eexists; vm_compute; reflexivity).
    destruct E as [w1 E].
    destruct (T 24832 0 1 100000 8) as [Hf _].
    destruct (Hf w1 E) as [w' [Hr [Hk _]]].
    exists w1, w'. split; [exact E|]. split; [exact Hr | exact Hk].
Defined.

(** ** Heaps that cannot serve a request *)

Lemma single_block_loop_too_small h caps_ bytes al :
  0 < al -> 0 <= bytes -> bytes + al < 2 ^ 32 ->
  (forall i m, zlookup (maps h) i = Some m -> block_size m < bytes) ->
  forall n i,
    0 <= i -> i + Z.of_nat n = Z.of_nat (length (maps h)) ->
    single_block_loop h caps_ bytes al i n bytes = Done (NULL, h).
Proof.
  intros Hal Hb Hsum Hsmall. induction n as [|n IH]; intros i Hi Hn;
    [reflexivity|].
  cbn [single_block_loop].
  destruct (zlookup_is_Some (maps h) i ltac:(lia)) as [m Hm].
  rewrite (at_index_Some _ _ _ Hm). cbn [obind].
  unfold umod. destruct (Z.eqb_spec al 0); [lia|]. cbn [obind].
  specialize (Hsmall i m Hm).
  match goal with
  | |- context [?t <=? block_size m] =>
      assert (Ht : (t <=? block_size m) = false)
  end.
  { apply Z.leb_gt. destruct (_ =? 0); [lia|].
    rewrite wrap32_small by lia. lia. }
  rewrite Ht. cbn [andb]. apply IH; lia.
Qed.

Lemma single_block_loop_full h caps_ bytes al :
  al <> 0 -> heap_full h ->
  forall n i,
    0 <= i -> i + Z.of_nat n = Z.of_nat (length (maps h)) ->
    single_block_loop h caps_ bytes al i n bytes = Done (NULL, h).
Proof.
  intros Hal Hfull. induction n as [|n IH]; intros i Hi Hn; [reflexivity|].
  cbn [single_block_loop].
  destruct (zlookup_is_Some (maps h) i ltac:(lia)) as [m Hm].
  rewrite (at_index_Some _ _ _ Hm). cbn [obind].
  unfold umod. destruct (Z.eqb_spec al 0); [lia|]. cbn [obind].
  rewrite (Hfull i m Hm). change (0 =? 0) with true.
  rewrite andb_false_r. apply IH; lia.
Qed.

Lemma get_ptr_loop_full h caps_ bytes al :
  heap_full h ->
  forall n i,
    0 <= i -> i + Z.of_nat n = Z.of_nat (length (maps h)) ->
    get_ptr_loop h caps_ bytes al i n bytes = Done (NULL, h).
Proof.
  intros Hfull. induction n as [|n IH]; intros i Hi Hn; [reflexivity|].
  cbn [get_ptr_loop].
  destruct (zlookup_is_Some (maps h) i ltac:(lia)) as [m Hm].
  rewrite (at_index_Some _ _ _ Hm). cbn [obind].
  rewrite (Hfull i m Hm). change (0 =? 0) with true.
  destruct (block_size m <? _); apply IH; lia.
Qed.

Lemma cont_blocks_loop_full h caps_ bytes al :
  heap_wf h -> heap_full h -> 0 <= bytes < 2 ^ 32 ->
  forall n,
    (n <= length (maps h))%nat ->
    cont_blocks_loop h caps_ bytes al n = Done (NULL, h).
Proof.
  intros Hh Hfull Hb. induction n as [|n IH]; intros Hn; [reflexivity|].
  cbn [cont_blocks_loop].
  destruct (zlookup_is_Some (maps h) (Z.of_nat n) ltac:(lia)) as [m Hm].
  rewrite (at_index_Some _ _ _ Hm). cbn [obind].
  pose proof (heap_wf_map h _ m Hh Hm) as Hwf.
  pose proof (wf_block_size m Hwf).
  destruct ((bytes <=? heap_size h) && (block_size m <? bytes)) eqn:E;
    [|apply IH; lia].
  apply andb_true_iff in E as [_ E%Z.ltb_lt].
  destruct (alloc_cont_blocks_spec h (Z.of_nat n) caps_ bytes al m Hh Hm
              ltac:(lia))
    as [[Hfail _]|[start [cnt [ff' [blk' [_ [Hc1 [_ [_ [_ [Hrun _]]]]]]]]]]].
  - rewrite Hfail. cbn [obind]. change (NULL =? NULL) with true. cbn iota.
    apply IH. lia.
  - exfalso. pose proof (count_free_pos _ start (Hrun start ltac:(lia))).
    rewrite <- (wf_free_count m Hwf), (Hfull _ m Hm) in H0. lia.
Qed.

Lemma alloc_heap_buffer_full P h flags caps_ bytes al :
  heap_wf h -> heap_full h ->
  al <> 0 -> Z.land al (wrap32 (al - 1)) = 0 ->
  alloc_heap_buffer P h flags caps_ bytes al = Done (NULL, h).
Proof.
  intros Hh Hfull Hal Hpow. unfold alloc_heap_buffer.
  rewrite Hpow. change (0 =? 0) with true. cbn iota.
  rewrite (single_block_loop_full h caps_ bytes al Hal Hfull)
    by (rewrite ?(hwf_blocks h Hh); lia).
  cbn [obind]. change (NULL =? NULL) with true. cbn iota.
  rewrite (cont_blocks_loop_full h caps_ _ al Hh Hfull (wrap32_range _))
    by (rewrite (hwf_blocks h Hh); lia).
  reflexivity.
Qed.

Lemma get_ptr_from_heap_full P h flags caps_ bytes al :
  heap_wf h -> heap_full h -> Z.land al (wrap32 (al - 1)) = 0 ->
  get_ptr_from_heap P h flags caps_ bytes al = Done (NULL, h).
Proof.
  intros Hh Hfull Hpow. unfold get_ptr_from_heap.
  rewrite Hpow. change (0 =? 0) with true. cbn iota.
  rewrite (get_ptr_loop_full h caps_ bytes al Hfull)
    by (rewrite ?(hwf_blocks h Hh); lia).
  reflexivity.
Qed.

(** ** C3: one allocation that spans the whole heap *)

Lemma scenario_heap_wf b hc :
  0 < b -> b + 256 < 2 ^ 32 -> heap_wf (scenario_heap b hc).
Proof.
  intros Hb Hend. apply fresh_heap_wf; [exact Hb | |].
  - repeat (apply Forall_cons_2 || apply Forall_nil_2). simpl. lia.
  - unfold layout_size. simpl. lia.
Qed.

Lemma scenario_blocks b j :
  zlookup [mk_hdr 4 true b; mk_hdr 0 true b; mk_hdr 0 true b;
           mk_hdr 0 true b] j
  = if (0 <=? j) && (j <? 0 + 4)
    then Some (mk_hdr (if j =? 0 then 4 else 0) true b)
    else zlookup (replicate 4 hdr_free) j.
Proof.
  destruct (Z.lt_ge_cases j 0) as [Hneg|Hpos].
  { rewrite !zlookup_neg by lia. destruct (Z.leb_spec 0 j); [lia|].
    reflexivity. }
  destruct (Z.le_gt_cases 4 j) as [Hbig|Hsmall].
  { rewrite !zlookup_ge by (simpl; lia).
    destruct (Z.ltb_spec j (0 + 4)); [lia|]. now rewrite andb_false_r. }
  assert (Hj : j = 0 \/ j = 1 \/ j = 2 \/ j = 3) by lia.
  destruct Hj as [->|[->|[->| ->]]]; reflexivity.
Qed.

(** The contiguous allocation of the scenario. *)
Lemma scenario_alloc_cont b hc caps_ :
  0 < b -> b + 256 < 2 ^ 32 -> b mod 8 = 0 ->
  alloc_cont_blocks (scenario_heap b hc) 0 caps_ 208 8
  = Done (b, scenario_full_heap b hc) /\
  raw_alloc_ok (scenario_heap b hc) (scenario_full_heap b hc) b.
Proof.
  intros Hb Hend Hmod.
  pose proof (scenario_heap_wf b hc Hb Hend) as Hh.
  set (m0 := mk_map 64 4 4 0 (replicate 4 hdr_free) b).
  assert (Hm : zlookup (maps (scenario_heap b hc)) 0 = Some m0)
    by reflexivity.
  assert (Haddr : block_addr m0 0 = b) by (unfold block_addr; simpl; lia).
  assert (Hptr : align_up 8 b = b).
  { unfold align_up, align_ptr. simpl. rewrite Hmod. simpl.
    rewrite Z.add_0_r. apply wrap32_small. lia. }
  assert (Heval : alloc_cont_blocks (scenario_heap b hc) 0 caps_ 208 8
                  = Done (b, scenario_full_heap b hc)).
  { destruct (alloc_cont_blocks_spec (scenario_heap b hc) 0 caps_ 208 8 m0
                Hh Hm ltac:(lia))
      as [[_ Hnone]|[start [cnt [ff' [blk' [Hcnt [_ [_ [Hs1 [Hs2 [_
           [Halloc [[Hlen Hlook] [Hcase _]]]]]]]]]]]]]].
    - exfalso. destruct (Hnone 0) as [j [Hj [hdr [Hl Hu]]]].
      + simpl. lia.
      + vm_compute. discriminate.
      + apply zlookup_replicate in Hl as [-> _]. discriminate.
    - change (blocks_needed 208 (block_size m0)) with 4 in Hcnt. subst cnt.
      simpl in Hs1, Hs2. assert (start = 0) by lia. subst start.
      assert (ff' = 4) by (simpl in Hcase; lia). subst ff'.
      assert (Hblk : blk' = [mk_hdr 4 true b; mk_hdr 0 true b;
                             mk_hdr 0 true b; mk_hdr 0 true b]).
      { apply zlookup_ext. intros j.
        rewrite Hlook, scenario_blocks, Haddr. reflexivity. }
      rewrite Halloc, Haddr, Hptr, Hblk. reflexivity. }
  split; [exact Heval|].
  destruct (alloc_cont_blocks_ok (scenario_heap b hc) 0 caps_ 208 8 m0 Hh Hm
              ltac:(lia) ltac:(lia) ltac:(lia))
    as [Hfail|[q [h' [Hok Hraw]]]].
  - rewrite Heval in Hfail. now inversion Hfail.
  - rewrite Heval in Hok.
    assert (Hpair : (b, scenario_full_heap b hc) = (q, h')) by congruence.
    pose proof (f_equal fst Hpair) as Hq.
    pose proof (f_equal snd Hpair) as Hh'.
    cbn [fst snd] in Hq, Hh'. subst q h'. exact Hraw.
Qed.

Lemma scenario_alloc P b hc caps_ :
  0 < b -> b + 256 < 2 ^ 32 -> b mod 8 = 0 ->
  alloc_heap_buffer P (scenario_heap b hc) 0 caps_ 200 8
  = Done (b, scenario_full_heap b hc).
Proof.
  intros Hb Hend Hmod.
  pose proof (scenario_heap_wf b hc Hb Hend) as Hh.
  unfold alloc_heap_buffer.
  change (Z.land 8 (wrap32 (8 - 1)) =? 0) with true. cbn iota.
  rewrite (single_block_loop_too_small (scenario_heap b hc) caps_ 200 8);
    try lia.
  2:{ intros i m Hi. apply zlookup_Some in Hi as [Hi0 Hi].
      destruct (Z.to_nat i) as [|[|?]]; simpl in Hi; try discriminate.
      inversion Hi; subst. simpl. lia. }
  2:{ simpl. lia. }
  cbn [obind]. change (NULL =? NULL) with true. cbn iota.
  change (wrap32 (200 + 8)) with 208.
  change (Z.to_nat (blocks (scenario_heap b hc))) with 1%nat.
  cbn [cont_blocks_loop].
  change (at_index (maps (scenario_heap b hc)) (Z.of_nat 0))
    with (Done (mk_map 64 4 4 0 (replicate 4 hdr_free) b)).
  cbn [obind].
  change ((208 <=? heap_size (scenario_heap b hc))
          && (block_size (mk_map 64 4 4 0 (replicate 4 hdr_free) b) <? 208))
    with true.
  cbn iota. change (Z.of_nat 0) with 0.
  rewrite (proj1 (scenario_alloc_cont b hc caps_ Hb Hend Hmod)).
  cbn [obind].
  destruct (Z.eqb_spec b NULL) as [H0|_]; [unfold NULL in H0; lia|].
  cbn [obind]. rewrite Z.land_0_l. change (negb (0 =? 0)) with false.
  now rewrite andb_false_r.
Qed.

Lemma scenario_full_heap_wf b hc :
  0 < b -> b + 256 < 2 ^ 32 -> b mod 8 = 0 ->
  heap_wf (scenario_full_heap b hc).
Proof.
  intros Hb Hend Hmod.
  destruct (proj2 (scenario_alloc_cont b hc 0 Hb Hend Hmod))
    as [_ [_ [_ [Hwf _]]]].
  exact Hwf.
Qed.

Lemma scenario_full_heap_full b hc : heap_full (scenario_full_heap b hc).
Proof.
  intros i m Hi. apply zlookup_Some in Hi as [_ Hi].
  destruct (Z.to_nat i) as [|[|?]]; simpl in Hi; try discriminate.
  now inversion Hi.
Qed.

(** The buffer entry point on a memory map whose only buffer heap is [h]. *)
Lemma scenario_balloc P h h' flags caps_ bytes al t p :
  alloc_heap_buffer P h flags caps_ bytes al = Done (p, h') ->
  (p = NULL -> h' = h) ->
  Z.land (caps h) caps_ = caps_ ->
  forall ev,
    rballoc_align P flags caps_ bytes al
                  (mk_machine (scenario_mm_of h t) ev)
    = Done (p, mk_machine (scenario_mm_of h' t)
                 (ev ++ [EvLock; EvAllocator; EvUnlock])).
Proof.
  intros Halloc Hnull Hcaps ev. rewrite rballoc_align_eq.
  cbn [memmap events]. unfold _balloc_unlocked.
  change (length (buffer (set_lock (scenario_mm_of h t) true))) with 1%nat.
  cbn [balloc_loop].
  change (buffer (set_lock (scenario_mm_of h t) true)) with [h].
  cbn [length drop get_heap_from_caps Nat.ltb Nat.leb].
  rewrite Hcaps, Z.eqb_refl. cbn [Nat.add lookup list_lookup].
  rewrite Halloc. cbn [obind].
  destruct (Z.eqb_spec p NULL) as [Hp|Hp]; cbn [omap fst snd].
  - rewrite (Hnull Hp), Hp. reflexivity.
  - reflexivity.
Qed.

(** No heap of the memory map has the capabilities asked for. *)
Lemma scenario_balloc_no_caps P h flags caps_ bytes al t :
  Z.land (caps h) caps_ <> caps_ ->
  forall ev,
    rballoc_align P flags caps_ bytes al
                  (mk_machine (scenario_mm_of h t) ev)
    = Done (NULL, mk_machine (scenario_mm_of h t)
                    (ev ++ [EvLock; EvAllocator; EvUnlock])).
Proof.
  intros Hcaps ev. rewrite rballoc_align_eq.
  cbn [memmap events]. unfold _balloc_unlocked.
  change (length (buffer (set_lock (scenario_mm_of h t) true))) with 1%nat.
  cbn [balloc_loop].
  change (buffer (set_lock (scenario_mm_of h t) true)) with [h].
  cbn [length drop get_heap_from_caps Nat.ltb Nat.leb].
  destruct (Z.eqb_spec (Z.land (caps h) caps_) caps_); [contradiction|].
  reflexivity.
Qed.

(** Freeing a pointer of the only buffer heap. *)
Lemma scenario_rfree P h h' t p :
  cpu_get_id P = 0 -> p <> NULL ->
  ptr_in_heap h' (platform_rfree_prepare P p) = true ->
  free_block_in_heap (platform_rfree_prepare P p) h' = Done (Some h) ->
  forall ev,
    rfree P p (mk_machine (scenario_mm_of h' t) ev)
    = Done (mk_machine (scenario_mm_of h 1)
              (ev ++ [EvLock; EvAllocator; EvUnlock])).
Proof.
  intros Hcpu Hp Hin Hfree ev. rewrite rfree_eq. cbn [memmap events].
  unfold _rfree_unlocked. destruct (Z.eqb_spec p NULL); [contradiction|].
  set (q := platform_rfree_prepare P p) in *.
  rewrite Hcpu.
  change (at_index (system (set_lock (scenario_mm_of h' t) true)) 0)
    with (Done (fresh_sys_heap 1 0)).
  cbn [obind].
  assert (Hout : forall k, ((1 <=? q) && (q <? wrap32 (1 + k * 0))) = false).
  { intros k. rewrite Z.mul_0_r. change (wrap32 (1 + 0)) with 1.
    destruct (Z.leb_spec 1 q), (Z.ltb_spec q 1); try reflexivity; lia. }
  change ((heap (fresh_sys_heap 1 0) <=? q)
          && (q <? wrap32 (heap (fresh_sys_heap 1 0)
                           + heap_size (fresh_sys_heap 1 0))))
    with ((1 <=? q) && (q <? wrap32 (1 + 1 * 0))).
  rewrite Hout.
  unfold free_block, get_heap_from_ptr. rewrite Hcpu.
  change (at_index (system_runtime (set_lock (scenario_mm_of h' t) true)) 0)
    with (Done (fresh_heap 1 0 [])).
  cbn [obind].
  change (ptr_in_heap (fresh_heap 1 0 []) q)
    with ((1 <=? q) && (q <? wrap32 (1 + 1 * 0))).
  rewrite Hout.
  change (runtime (set_lock (scenario_mm_of h' t) true)) with (@nil mm_heap).
  change (buffer (set_lock (scenario_mm_of h' t) true)) with [h'].
  cbn [find_heap_from_ptr]. rewrite Hin. cbn [obind].
  change (heap_at (set_lock (scenario_mm_of h' t) true) (InBuffer 0))
    with (Some h').
  cbn iota. rewrite Hfree. reflexivity.
Qed.

(** A runtime-zone request on a memory map whose only heap is full. *)
Lemma scenario_rmalloc_full P h flags caps_ bytes t :
  heap_wf h -> heap_full h ->
  Z.land (PLATFORM_DCACHE_ALIGN P) (wrap32 (PLATFORM_DCACHE_ALIGN P - 1)) = 0 ->
  forall ev,
    rmalloc P SOF_MEM_ZONE_RUNTIME flags caps_ bytes
            (mk_machine (scenario_mm_of h t) ev)
    = Done (NULL, mk_machine (scenario_mm_of h 1)
                    (ev ++ [EvLock; EvAllocator; EvUnlock])).
Proof.
  intros Hh Hfull Hpow ev. rewrite rmalloc_eq. cbn [memmap events].
  unfold _malloc_unlocked, rmalloc_runtime.
  change (runtime (set_lock (scenario_mm_of h t) true)) with (@nil mm_heap).
  change (buffer (set_lock (scenario_mm_of h t) true)) with [h].
  cbn [get_heap_from_caps].
  destruct (Z.land (caps h) caps_ =? caps_); [|reflexivity].
  change (heap_at (set_lock (scenario_mm_of h t) true) (InBuffer 0))
    with (Some h).
  cbn iota. rewrite (get_ptr_from_heap_full P h flags caps_ bytes _ Hh Hfull).
  - reflexivity.
  - exact Hpow.
Qed.

(** C3.  Take a freshly initialised heap with one block map of four
    64-byte blocks, at a base [b] that is a multiple of 8.
    [alloc_heap_buffer] for 200 bytes aligned to 8 with flags 0 returns the
    heap base [b], and so does the entry point [rballoc_align] when this is
    the only buffer heap and has the capabilities asked for.  Afterwards
    the map has [free_count = 0] and its four block headers are all [used].
    Every further request on this heap, through [alloc_heap_buffer] and
    [rballoc_align] with a power-of-two alignment or through
    [get_ptr_from_heap] and the runtime zone of [rmalloc], returns null
    and changes no heap.  Freeing [b], with [free_block_in_heap] or with
    [rfree] on core 0, gives the fresh heap back, whose map has
    [free_count = 4]. *)
Theorem whole_heap_buffer_allocation P b hc caps_ :
  0 < b -> b + 256 < 2 ^ 32 -> b mod 8 = 0 ->
  let fresh := scenario_heap b hc in
  let full := scenario_full_heap b hc in
  let lk := [EvLock; EvAllocator; EvUnlock] in
  (* the allocation returns the heap base *)
  (alloc_heap_buffer P fresh 0 caps_ 200 8 = Done (b, full) /\
   (Z.land hc caps_ = caps_ ->
    forall t ev,
      rballoc_align P 0 caps_ 200 8 (mk_machine (scenario_mm_of fresh t) ev)
      = Done (b, mk_machine (scenario_mm_of full t) (ev ++ lk)))) /\
  (* all four headers are used and no block is free *)
  (exists m, maps full = [m] /\ free_count m = 0 /\ count m = 4 /\
             length (block m) = 4%nat /\
             Forall (fun hd => hdr_used hd = true) (block m)) /\
  (* further allocations return null *)
  (forall flags caps' bytes al,
     al <> 0 -> Z.land al (wrap32 (al - 1)) = 0 ->
     alloc_heap_buffer P full flags caps' bytes al = Done (NULL, full) /\
     forall t ev,
       rballoc_align P flags caps' bytes al
                     (mk_machine (scenario_mm_of full t) ev)
       = Done (NULL, mk_machine (scenario_mm_of full t) (ev ++ lk))) /\
  (forall flags caps' bytes,
     Z.land (PLATFORM_DCACHE_ALIGN P)
            (wrap32 (PLATFORM_DCACHE_ALIGN P - 1)) = 0 ->
     get_ptr_from_heap P full flags caps' bytes (PLATFORM_DCACHE_ALIGN P)
     = Done (NULL, full) /\
     forall t ev,
       rmalloc P SOF_MEM_ZONE_RUNTIME flags caps' bytes
               (mk_machine (scenario_mm_of full t) ev)
       = Done (NULL, mk_machine (scenario_mm_of full 1) (ev ++ lk))) /\
  (* freeing the pointer restores the four free blocks *)
  (free_block_in_heap b full = Done (Some fresh) /\
   (cpu_get_id P = 0 -> platform_rfree_prepare P b = b ->
    forall t ev,
      rfree P b (mk_machine (scenario_mm_of full t) ev)
      = Done (mk_machine (scenario_mm_of fresh 1) (ev ++ lk)))) /\
  (exists m, maps fresh = [m] /\ free_count m = 4 /\ count m = 4 /\
             Forall (fun hd => hdr_used hd = false) (block m)).
Proof.
  intros Hb Hend Hmod fresh full lk.
  pose proof (scenario_alloc P b hc caps_ Hb Hend Hmod) as Halloc.
  destruct (proj2 (scenario_alloc_cont b hc caps_ Hb Hend Hmod))
    as [Hnn [Hin [Hfree [Hwf [Hbase Hsize]]]]].
  pose proof (scenario_full_heap_full b hc) as Hfull.
  fold fresh full in Halloc, Hnn, Hin, Hfree, Hwf, Hbase, Hsize, Hfull.
  assert (Hin' : ptr_in_heap full b = true)
    by (now rewrite (ptr_in_heap_same_range fresh full b)).
  repeat apply conj.
  - exact Halloc.
  - intros Hcaps t ev.
    apply (scenario_balloc P fresh full 0 caps_ 200 8 t b Halloc);
      [intros ->; now elim Hnn | exact Hcaps].
  - eexists. split; [reflexivity|]. cbn [free_count count block].
    repeat split. repeat constructor.
  - intros flags caps' bytes al Hal Hpow. split.
    + now apply alloc_heap_buffer_full.
    + intros t ev.
      destruct (Z.eq_dec (Z.land (caps full) caps') caps') as [Hc|Hc].
      * apply (scenario_balloc P full full flags caps' bytes al t NULL);
          [now apply alloc_heap_buffer_full | reflexivity | exact Hc].
      * now apply scenario_balloc_no_caps.
  - intros flags caps' bytes Hpow. split.
    + now apply get_ptr_from_heap_full.
    + intros t ev. now apply scenario_rmalloc_full.
  - exact Hfree.
  - intros Hcpu Hprep t ev.
    apply scenario_rfree; rewrite ?Hprep; assumption.
  - eexists. split; [reflexivity|]. cbn [free_count count block].
    repeat split. repeat constructor.
Qed.

Lemma whole_heap_buffer_allocation_witness :
  let fresh := scenario_heap 24576 3 in
  let full := scenario_full_heap 24576 3 in
  alloc_heap_buffer example_platform fresh 0 1 200 8 = Done (24576, full) /\
  rballoc_align example_platform 0 1 200 8
                (mk_machine (scenario_mm 24576 3) [])
  = Done (24576, mk_machine (scenario_mm_of full 0)
                   [EvLock; EvAllocator; EvUnlock]) /\
  alloc_heap_buffer example_platform full 0 1 64 8 = Done (NULL, full) /\
  rmalloc example_platform SOF_MEM_ZONE_RUNTIME 0 1 16
          (mk_machine (scenario_mm_of full 0) [])
  = Done (NULL, mk_machine (scenario_mm_of full 1)
                  [EvLock; EvAllocator; EvUnlock]) /\
  rfree example_platform 24576
        (mk_machine (scenario_mm_of full 0) [EvLock; EvAllocator; EvUnlock])
  = Done (mk_machine (scenario_mm_of fresh 1)
            [EvLock; EvAllocator; EvUnlock; EvLock; EvAllocator; EvUnlock]).
Proof.
  intros fresh full.
  destruct (whole_heap_buffer_allocation example_platform 24576 3 1)
    as [[Ha Hb] [_ [Hnull [Hrt [[_ Hfree] _]]]]];
    try reflexivity; try (vm_compute; lia).
  split; [exact Ha|]. split; [exact (Hb eq_refl 0 [])|].
  split; [apply (Hnull 0 1 64 8); [lia | reflexivity]|].
  split; [exact (proj2 (Hrt 0 1 16 eq_refl) 0 [])|].
  exact (Hfree eq_refl eq_refl 0 [EvLock; EvAllocator; EvUnlock]).
Defined.

(** * Further properties of the allocator *)

(** ** Pointer alignment *)

Lemma align_up_eq al ptr hdr : fst (align_ptr al ptr hdr) = align_up al ptr.
Proof. reflexivity. Qed.

Lemma align_up_bounds al ptr :
  0 < al -> 0 <= ptr -> ptr + al <= 2 ^ 32 ->
  ptr <= align_up al ptr < ptr + al /\ align_up al ptr mod al = 0 /\
  (ptr mod al = 0 -> align_up al ptr = ptr).
Proof.
  intros Hal Hp Hlim. unfold align_up, align_ptr. cbn [fst].
  destruct (Z.eqb_spec al 0) as [|_]; [lia|].
  pose proof (Z.mod_pos_bound ptr al Hal) as Hm.
  destruct (Z.eqb_spec (ptr mod al) 0) as [E|E].
  - rewrite Z.add_0_r, wrap32_small by lia. repeat split; try lia.
  - rewrite wrap32_small by lia. repeat split; try lia.
    rewrite (Z.div_mod ptr al) at 1 by lia.
    replace (al * (ptr / al) + ptr mod al + (al - ptr mod al))
      with ((ptr / al + 1) * al) by lia.
    apply Z.mod_mul. lia.
Qed.

(** X1: [align_ptr] moves a pointer up to the next multiple of a non-zero
    alignment, by less than the alignment, leaves an aligned pointer and
    every pointer under alignment 0 where it is, and records the pointer
    it was given in the header without touching the header's run length
    and [used] flag. *)
Theorem align_ptr_next_multiple al ptr hdr :
  0 <= al -> 0 <= ptr < 2 ^ 32 -> ptr + al <= 2 ^ 32 ->
  let p := fst (align_ptr al ptr hdr) in
  ptr <= p /\
  (al = 0 -> p = ptr) /\
  (0 < al -> p < ptr + al /\ p mod al = 0 /\ (ptr mod al = 0 -> p = ptr)) /\
  snd (align_ptr al ptr hdr) = mk_hdr (hdr_size hdr) (hdr_used hdr) ptr.
Proof.
  intros Hal Hp Hlim p. subst p. rewrite align_up_eq.
  destruct (Z.eq_dec al 0) as [->|Hne].
  - assert (E : align_up 0 ptr = ptr).
    { unfold align_up, align_ptr. cbn [fst]. change (0 =? 0) with true.
      cbn iota. rewrite Z.add_0_r. apply wrap32_small. lia. }
    rewrite E. split; [lia|]. split; [reflexivity|]. split; [lia|].
    reflexivity.
  - destruct (align_up_bounds al ptr) as [Hb [Hm Hid]]; try lia.
    split; [lia|]. split; [lia|]. split; [|reflexivity].
    intros _. split; [lia|]. split; assumption.
Qed.

Lemma align_ptr_next_multiple_witness :
  fst (align_ptr 64 4100 hdr_free) = 4160 /\
  snd (align_ptr 64 4100 hdr_free) = mk_hdr 0 false 4100.
Proof.
  destruct (align_ptr_next_multiple 64 4100 hdr_free) as [_ [_ [_ Hh]]];
    try lia.
  split; [reflexivity | exact Hh].
Defined.

(** ** The system heaps: [rmalloc_sys] and [free_heap] *)

Lemma sys_pad_range d used :
  0 < d -> 0 <= sys_pad d used < d /\ (used + sys_pad d used) mod d = 0.
Proof.
  intros Hd. unfold sys_pad.
  pose proof (Z.mod_pos_bound used d Hd) as Hm.
  destruct (Z.eqb_spec (used mod d) 0) as [E|E].
  - rewrite Z.add_0_r. lia.
  - split; [lia|].
    rewrite (Z.div_mod used d) at 1 by lia.
    replace (d * (used / d) + used mod d + (d - used mod d))
      with ((used / d + 1) * d) by lia.
    apply Z.mod_mul. lia.
Qed.

(** What [rmalloc_sys] does when the request fits. *)
Lemma rmalloc_sys_eval P flags caps_ core bytes s hs :
  zlookup (system s) core = Some hs ->
  Z.land (caps hs) caps_ = caps_ ->
  0 < PLATFORM_DCACHE_ALIGN P -> 0 <= bytes -> sys_heap_ok hs ->
  sys_pad (PLATFORM_DCACHE_ALIGN P) (info_used (info hs)) + bytes
    <= info_free (info hs) ->
  let pad := sys_pad (PLATFORM_DCACHE_ALIGN P) (info_used (info hs)) in
  let q := heap hs + info_used (info hs) + pad in
  rmalloc_sys P flags caps_ core bytes s
  = Done (if Z.land flags (SOF_MEM_FLAG_SHARED P) =? 0 then q
          else platform_shared_get P q bytes,
          set_system s core (sys_take hs (pad + bytes))).
Proof.
  intros Hs Hcaps Hd Hb (Hh & Hend & Hu & Hf & Hsum) Hfit pad q.
  destruct (sys_pad_range (PLATFORM_DCACHE_ALIGN P) (info_used (info hs)) Hd)
    as [Hpad _].
  fold pad in Hpad, Hfit.
  unfold rmalloc_sys. rewrite (at_index_Some _ _ _ Hs). cbn [obind].
  rewrite Hcaps, Z.eqb_refl. unfold umod.
  destruct (Z.eqb_spec (PLATFORM_DCACHE_ALIGN P) 0); [lia|]. cbn [obind].
  change (if info_used (info hs) mod PLATFORM_DCACHE_ALIGN P =? 0
          then 0
          else PLATFORM_DCACHE_ALIGN P
               - info_used (info hs) mod PLATFORM_DCACHE_ALIGN P)
    with pad.
  rewrite (wrap32_small (pad + bytes)) by lia.
  destruct (Z.ltb_spec (info_free (info hs)) (pad + bytes)); [lia|].
  rewrite (wrap32_small (info_used (info hs) + pad)) by lia.
  rewrite (wrap32_small (heap hs + (info_used (info hs) + pad))) by lia.
  rewrite (wrap32_small (info_used (info hs) + pad + bytes)) by lia.
  rewrite (wrap32_small (info_free (info hs) - (pad + bytes))) by lia.
  unfold sys_take, q.
  rewrite !Z.add_assoc. reflexivity.
Qed.

Lemma sys_take_ok hs n :
  sys_heap_ok hs -> 0 <= n <= info_free (info hs) ->
  sys_heap_ok (sys_take hs n).
Proof.
  intros (Hh & Hend & Hu & Hf & Hsum) Hn. unfold sys_heap_ok, sys_take.
  cbn [heap heap_size info info_used info_free]. lia.
Qed.

Lemma zlookup_set_system s core h :
  0 <= core < Z.of_nat (length (system s)) ->
  zlookup (system (set_system s core h)) core = Some h.
Proof.
  intros Hc. unfold set_system. cbn [system].
  apply zlookup_zinsert_eq. lia.
Qed.

(** What a returning [rmalloc_sys] tells about the request. *)
Lemma rmalloc_sys_inv P flags caps_ core bytes s hs p s1 :
  zlookup (system s) core = Some hs ->
  0 < PLATFORM_DCACHE_ALIGN P -> 0 <= bytes ->
  bytes + PLATFORM_DCACHE_ALIGN P < 2 ^ 32 ->
  rmalloc_sys P flags caps_ core bytes s = Done (p, s1) ->
  Z.land (caps hs) caps_ = caps_ /\
  sys_pad (PLATFORM_DCACHE_ALIGN P) (info_used (info hs)) + bytes
    <= info_free (info hs).
Proof.
  intros Hs Hd Hb Hlim. unfold rmalloc_sys.
  rewrite (at_index_Some _ _ _ Hs). cbn [obind].
  destruct (sys_pad_range (PLATFORM_DCACHE_ALIGN P) (info_used (info hs)) Hd)
    as [Hpad _].
  destruct (Z.eqb_spec (Z.land (caps hs) caps_) caps_) as [Hc|Hc];
    [|discriminate].
  unfold umod. destruct (Z.eqb_spec (PLATFORM_DCACHE_ALIGN P) 0); [lia|].
  cbn [obind].
  change (if info_used (info hs) mod PLATFORM_DCACHE_ALIGN P =? 0
          then 0
          else PLATFORM_DCACHE_ALIGN P
               - info_used (info hs) mod PLATFORM_DCACHE_ALIGN P)
    with (sys_pad (PLATFORM_DCACHE_ALIGN P) (info_used (info hs))).
  rewrite wrap32_small by lia.
  destruct (Z.ltb_spec (info_free (info hs))
              (sys_pad (PLATFORM_DCACHE_ALIGN P) (info_used (info hs))
               + bytes)); [discriminate|].
  intros _. split; [exact Hc | lia].
Qed.

(** X2: an allocation from a system heap that fits is placed right after
    the bytes already in use, padded up to the cache line: the block lies
    inside the heap, it is cache-line aligned when the heap base is, the
    bytes up to its end are counted as used, and what the heap gains in
    [used] it loses in [free]. *)
Theorem rmalloc_sys_placement P flags caps_ core bytes s hs :
  zlookup (system s) core = Some hs ->
  Z.land (caps hs) caps_ = caps_ ->
  Z.land flags (SOF_MEM_FLAG_SHARED P) = 0 ->
  0 < PLATFORM_DCACHE_ALIGN P -> 0 <= bytes -> sys_heap_ok hs ->
  sys_pad (PLATFORM_DCACHE_ALIGN P) (info_used (info hs)) + bytes
    <= info_free (info hs) ->
  exists p hs',
    rmalloc_sys P flags caps_ core bytes s
    = Done (p, set_system s core hs') /\
    heap hs + info_used (info hs) <= p /\
    p < heap hs + info_used (info hs) + PLATFORM_DCACHE_ALIGN P /\
    p + bytes <= heap hs + heap_size hs /\
    (heap hs mod PLATFORM_DCACHE_ALIGN P = 0 ->
     p mod PLATFORM_DCACHE_ALIGN P = 0) /\
    heap hs + info_used (info hs') = p + bytes /\
    info_used (info hs') + info_free (info hs')
    = info_used (info hs) + info_free (info hs) /\
    heap hs' = heap hs /\ heap_size hs' = heap_size hs /\
    caps hs' = caps hs /\ sys_heap_ok hs'.
Proof.
  intros Hs Hcaps Hfl Hd Hb Hok Hfit.
  pose proof (rmalloc_sys_eval P flags caps_ core bytes s hs Hs Hcaps Hd Hb
                Hok Hfit) as Hev.
  cbv zeta in Hev. rewrite Hfl in Hev. change (0 =? 0) with true in Hev.
  cbn iota in Hev.
  destruct (sys_pad_range (PLATFORM_DCACHE_ALIGN P) (info_used (info hs)) Hd)
    as [Hpad Hmod].
  pose proof Hok as (Hh & Hend & Hu & Hf & Hsum).
  set (pad := sys_pad (PLATFORM_DCACHE_ALIGN P) (info_used (info hs))) in *.
  exists (heap hs + info_used (info hs) + pad), (sys_take hs (pad + bytes)).
  split; [exact Hev|].
  pose proof (sys_take_ok hs (pad + bytes) Hok ltac:(lia)) as Hok'.
  cbn [sys_take heap heap_size caps info info_used info_free].
  split; [lia|]. split; [lia|]. split; [lia|]. split.
  { intros Hbase. rewrite <- Z.add_assoc, Z.add_mod, Hbase, Hmod by lia.
    reflexivity. }
  split; [lia|]. split; [lia|].
  split; [reflexivity|]. split; [reflexivity|]. split; [reflexivity|].
  exact Hok'.
Qed.

Lemma rmalloc_sys_placement_witness :
  exists hs',
    rmalloc_sys example_platform 0 0 0 100
      (set_system example_mm 0
         (sys_take (fresh_sys_heap 4096 1024) 10))
    = Done (4160,
            set_system
              (set_system example_mm 0
                 (sys_take (fresh_sys_heap 4096 1024) 10)) 0 hs') /\
    info_used (info hs') = 164.
Proof.
  destruct (rmalloc_sys_placement example_platform 0 0 0 100
              (set_system example_mm 0
                 (sys_take (fresh_sys_heap 4096 1024) 10))
              (sys_take (fresh_sys_heap 4096 1024) 10))
    as [p [hs' [Hev [Hlo [Hhi [_ [Hal [Hused _]]]]]]]];
    try reflexivity; try (unfold sys_heap_ok; cbn; lia);
    try (vm_compute; discriminate).
  exists hs'.
  assert (Hp : p = 4160).
  { specialize (Hal eq_refl). cbn in Hlo, Hhi, Hal.
    assert (Hq : p = 64 * (p / 64) + 0) by (rewrite <- Hal; now apply Z.div_mod).
    lia. }
  subst p. split; [exact Hev|]. cbn in Hused. lia.
Defined.

(** A returning [rmalloc_sys], without the shared translation. *)
Lemma rmalloc_sys_done P flags caps_ core bytes s hs p s1 :
  zlookup (system s) core = Some hs -> sys_heap_ok hs ->
  0 < PLATFORM_DCACHE_ALIGN P -> 0 <= bytes ->
  bytes + PLATFORM_DCACHE_ALIGN P < 2 ^ 32 ->
  Z.land flags (SOF_MEM_FLAG_SHARED P) = 0 ->
  rmalloc_sys P flags caps_ core bytes s = Done (p, s1) ->
  let pad := sys_pad (PLATFORM_DCACHE_ALIGN P) (info_used (info hs)) in
  pad + bytes <= info_free (info hs) /\
  p = heap hs + info_used (info hs) + pad /\
  s1 = set_system s core (sys_take hs (pad + bytes)).
Proof.
  intros Hs Hok Hd Hb Hlim Hfl Hrun pad.
  destruct (rmalloc_sys_inv P flags caps_ core bytes s hs p s1 Hs Hd Hb Hlim
              Hrun) as [Hcaps Hfit].
  pose proof (rmalloc_sys_eval P flags caps_ core bytes s hs Hs Hcaps Hd Hb
                Hok Hfit) as Hev.
  cbv zeta in Hev. rewrite Hfl in Hev. change (0 =? 0) with true in Hev.
  cbn iota in Hev. rewrite Hev in Hrun.
  split; [exact Hfit|]. injection Hrun as <- <-. now split.
Qed.

(** X3: two allocations in a row from the same system heap, each of a
    size that stays below 2^32 with the cache line size added, do not
    overlap: the second block starts at or after the end of the first, and
    both lie inside the heap.  Nothing in between can give the first block
    back, system heaps being bump allocators. *)
Theorem rmalloc_sys_no_overlap P core s hs f1 c1 n1 f2 c2 n2 p1 s1 p2 s2 :
  zlookup (system s) core = Some hs -> sys_heap_ok hs ->
  0 < PLATFORM_DCACHE_ALIGN P ->
  0 <= n1 -> n1 + PLATFORM_DCACHE_ALIGN P < 2 ^ 32 ->
  0 <= n2 -> n2 + PLATFORM_DCACHE_ALIGN P < 2 ^ 32 ->
  Z.land f1 (SOF_MEM_FLAG_SHARED P) = 0 ->
  Z.land f2 (SOF_MEM_FLAG_SHARED P) = 0 ->
  rmalloc_sys P f1 c1 core n1 s = Done (p1, s1) ->
  rmalloc_sys P f2 c2 core n2 s1 = Done (p2, s2) ->
  heap hs <= p1 /\ p1 + n1 <= p2 /\ p2 + n2 <= heap hs + heap_size hs.
Proof.
  intros Hs Hok Hd Hn1 Hl1 Hn2 Hl2 Hf1 Hf2 Hrun1 Hrun2.
  destruct (rmalloc_sys_done P f1 c1 core n1 s hs p1 s1 Hs Hok Hd Hn1 Hl1 Hf1
              Hrun1) as (Hfit1 & -> & ->).
  set (pad1 := sys_pad (PLATFORM_DCACHE_ALIGN P) (info_used (info hs))) in *.
  destruct (sys_pad_range (PLATFORM_DCACHE_ALIGN P) (info_used (info hs)) Hd)
    as [Hpad1 _]. fold pad1 in Hpad1.
  pose proof Hok as (Hh & Hend & Hu & Hf & Hsum).
  assert (Hs1 : zlookup (system (set_system s core
                                   (sys_take hs (pad1 + n1)))) core
                = Some (sys_take hs (pad1 + n1)))
    by (apply zlookup_set_system, (zlookup_lt _ _ _ Hs)).
  assert (Hok1 : sys_heap_ok (sys_take hs (pad1 + n1)))
    by (apply sys_take_ok; [exact Hok | lia]).
  destruct (rmalloc_sys_done P f2 c2 core n2 _ _ p2 s2 Hs1 Hok1 Hd Hn2 Hl2
              Hf2 Hrun2) as (Hfit2 & -> & _).
  cbn [sys_take heap info info_used info_free] in Hfit2 |- *.
  match goal with
  | |- context [sys_pad ?d ?u] =>
      destruct (sys_pad_range d u Hd) as [Hpad2 _]
  end.
  lia.
Qed.

Lemma rmalloc_sys_no_overlap_witness :
  exists s1 s2,
    rmalloc_sys example_platform 0 0 0 100 example_mm = Done (4096, s1) /\
    rmalloc_sys example_platform 0 0 0 50 s1 = Done (4224, s2) /\
    4096 + 100 <= 4224.
Proof.
  eexists _, _. split; [reflexivity|]. split; [reflexivity|].
  refine (proj1 (proj2 (rmalloc_sys_no_overlap example_platform 0 example_mm
                          (fresh_sys_heap 4096 1024) 0 0 100 0 0 50 4096 _
                          4224 _ _ _ _ _ _ _ _ _ _ _ _)));
    try reflexivity; try (unfold sys_heap_ok; cbn; lia);
    try (vm_compute; discriminate).
Defined.

(** A request that the heap's capabilities or free space do not cover. *)
Lemma rmalloc_sys_panics P flags caps_ core bytes s hs :
  zlookup (system s) core = Some hs ->
  0 < PLATFORM_DCACHE_ALIGN P -> 0 <= bytes ->
  bytes + PLATFORM_DCACHE_ALIGN P < 2 ^ 32 ->
  ~ (Z.land (caps hs) caps_ = caps_ /\
     sys_pad (PLATFORM_DCACHE_ALIGN P) (info_used (info hs)) + bytes
       <= info_free (info hs)) ->
  rmalloc_sys P flags caps_ core bytes s = Panic SOF_IPC_PANIC_MEM.
Proof.
  intros Hs Hd Hb Hlim Hno. unfold rmalloc_sys.
  rewrite (at_index_Some _ _ _ Hs). cbn [obind].
  destruct (sys_pad_range (PLATFORM_DCACHE_ALIGN P) (info_used (info hs)) Hd)
    as [Hpad _].
  destruct (Z.eqb_spec (Z.land (caps hs) caps_) caps_) as [Hc|Hc];
    [|reflexivity].
  unfold umod. destruct (Z.eqb_spec (PLATFORM_DCACHE_ALIGN P) 0); [lia|].
  cbn [obind].
  change (if info_used (info hs) mod PLATFORM_DCACHE_ALIGN P =? 0
          then 0
          else PLATFORM_DCACHE_ALIGN P
               - info_used (info hs) mod PLATFORM_DCACHE_ALIGN P)
    with (sys_pad (PLATFORM_DCACHE_ALIGN P) (info_used (info hs))).
  rewrite wrap32_small by lia.
  destruct (Z.ltb_spec (info_free (info hs))
              (sys_pad (PLATFORM_DCACHE_ALIGN P) (info_used (info hs))
               + bytes)); [reflexivity|].
  exfalso. apply Hno. split; [exact Hc | lia].
Qed.

(** X4: [rmalloc] in the system zone, for a size that stays below 2^32
    with the cache line size added, always succeeds or panics: when the
    current core's system heap has the capabilities asked for and room for
    the padded request it returns a non-null pointer, with the lock
    released and the heap trace flag set; in every other case it panics
    instead of returning null. *)
Theorem rmalloc_sys_zone_succeeds_or_panics P flags caps_ bytes w hs :
  zlookup (system (memmap w)) (cpu_get_id P) = Some hs ->
  sys_heap_ok hs -> 0 < heap hs ->
  0 < PLATFORM_DCACHE_ALIGN P -> 0 <= bytes ->
  bytes + PLATFORM_DCACHE_ALIGN P < 2 ^ 32 ->
  (Z.land flags (SOF_MEM_FLAG_SHARED P) = 0 \/
   forall q n, heap hs <= q <= heap hs + heap_size hs ->
               platform_shared_get P q n <> NULL) ->
  let fits :=
    Z.land (caps hs) caps_ = caps_ /\
    sys_pad (PLATFORM_DCACHE_ALIGN P) (info_used (info hs)) + bytes
      <= info_free (info hs) in
  (fits ->
   exists p w',
     rmalloc P SOF_MEM_ZONE_SYS flags caps_ bytes w = Done (p, w') /\
     p <> NULL /\ lock (memmap w') = false /\
     heap_trace_updated (memmap w') = 1) /\
  (~ fits ->
   rmalloc P SOF_MEM_ZONE_SYS flags caps_ bytes w
   = Panic SOF_IPC_PANIC_MEM).
Proof.
  intros Hs Hok Hh Hd Hb Hlim Hsh fits.
  assert (Hs' : zlookup (system (set_lock (memmap w) true)) (cpu_get_id P)
                = Some hs) by exact Hs.
  rewrite rmalloc_eq. unfold _malloc_unlocked. split.
  - intros [Hcaps Hfit].
    rewrite (rmalloc_sys_eval P flags caps_ (cpu_get_id P) bytes _ hs Hs'
               Hcaps Hd Hb Hok Hfit).
    cbn [obind omap fst snd]. eexists _, _. split; [reflexivity|].
    split; [|split; reflexivity].
    destruct (sys_pad_range (PLATFORM_DCACHE_ALIGN P) (info_used (info hs))
                Hd) as [Hpad _].
    destruct Hok as (_ & Hend & Hu & Hf & Hsum).
    destruct (Z.eqb_spec (Z.land flags (SOF_MEM_FLAG_SHARED P)) 0) as [E|E].
    + unfold NULL. lia.
    + destruct Hsh as [Hsh|Hsh]; [contradiction|]. apply Hsh. lia.
  - intros Hno.
    now rewrite (rmalloc_sys_panics P flags caps_ (cpu_get_id P) bytes _ hs
                   Hs' Hd Hb Hlim Hno).
Qed.

Lemma rmalloc_sys_zone_succeeds_or_panics_witness :
  (exists w',
     rmalloc example_platform SOF_MEM_ZONE_SYS 0 0 1024 example_machine
     = Done (4096, w')) /\
  rmalloc example_platform SOF_MEM_ZONE_SYS 0 0 1025 example_machine
  = Panic SOF_IPC_PANIC_MEM.
Proof.
  split.
  - eexists. reflexivity.
  - apply (proj2 (rmalloc_sys_zone_succeeds_or_panics example_platform 0 0
                    1025 example_machine (fresh_sys_heap 4096 1024)
                    eq_refl
                    ltac:(unfold sys_heap_ok; cbn; lia) ltac:(cbn; lia)
                    ltac:(cbn; lia) ltac:(lia) ltac:(cbn; lia)
                    (or_introl eq_refl))).
    intros [_ H]. vm_compute in H. now apply H.
Defined.

(** X5: [rzalloc_core_sys] serves the system heap of the core it is given,
    whichever core runs it, and asks for no capability: for a size that
    stays below 2^32 with the cache line size added, it panics exactly
    when the padded request does not fit, and otherwise returns the next
    cache-line padded address of that heap, zeroing the block before the
    lock is released and leaving every other heap alone. *)
Theorem rzalloc_core_sys_serves_core P core bytes w hs :
  zlookup (system (memmap w)) core = Some hs ->
  sys_heap_ok hs -> 0 < heap hs ->
  0 < PLATFORM_DCACHE_ALIGN P -> 0 <= bytes ->
  bytes + PLATFORM_DCACHE_ALIGN P < 2 ^ 32 ->
  let pad := sys_pad (PLATFORM_DCACHE_ALIGN P) (info_used (info hs)) in
  let p := heap hs + info_used (info hs) + pad in
  (pad + bytes <= info_free (info hs) ->
   rzalloc_core_sys P core bytes w
   = Done (p,
           mk_machine
             (set_lock (set_system (memmap w) core
                                   (sys_take hs (pad + bytes))) false)
             (events w ++ [EvLock; EvAllocator; EvBzero p bytes; EvUnlock])))
  /\
  (info_free (info hs) < pad + bytes ->
   rzalloc_core_sys P core bytes w = Panic SOF_IPC_PANIC_MEM).
Proof.
  intros Hs Hok Hh Hd Hb Hlim pad p.
  assert (Hs' : zlookup (system (set_lock (memmap w) true)) core = Some hs)
    by exact Hs.
  assert (Hcaps : Z.land (caps hs) 0 = 0) by apply Z.land_0_r.
  unfold rzalloc_core_sys, internal, spin_lock_irq, spin_unlock_irq, bzero,
    log.
  cbn [memmap events]. split.
  - intros Hfit.
    rewrite (rmalloc_sys_eval P 0 0 core bytes _ hs Hs' Hcaps Hd Hb Hok Hfit).
    rewrite Z.land_0_l. change (0 =? 0) with true. cbn iota.
    cbn [obind memmap events]. fold pad. fold p.
    destruct (sys_pad_range (PLATFORM_DCACHE_ALIGN P) (info_used (info hs))
                Hd) as [Hpad _]. fold pad in Hpad.
    destruct Hok as (_ & _ & Hu & _).
    destruct (Z.eqb_spec p NULL) as [E|_];
      [unfold NULL, p in E; lia|].
    cbn [memmap events]. rewrite <- !app_assoc. reflexivity.
  - intros Hno.
    rewrite (rmalloc_sys_panics P 0 0 core bytes _ hs Hs' Hd Hb Hlim);
      [reflexivity|].
    fold pad. lia.
Qed.

Lemma rzalloc_core_sys_serves_core_witness :
  rzalloc_core_sys example_platform 1 100 example_machine
  = Done (8192,
          mk_machine
            (set_system example_mm 1 (sys_take (fresh_sys_heap 8192 1024) 100))
            [EvLock; EvAllocator; EvBzero 8192 100; EvUnlock]).
Proof.
  apply (proj1 (rzalloc_core_sys_serves_core example_platform 1 100
                  example_machine (fresh_sys_heap 8192 1024) eq_refl
                  ltac:(unfold sys_heap_ok; cbn; lia) ltac:(cbn; lia)
                  ltac:(cbn; lia) ltac:(lia) ltac:(cbn; lia))).
  vm_compute. discriminate.
Defined.

(** X6: on a slave core, [free_heap] of the system zone empties that
    core's system heap, and nothing else: its counters go back to
    [used = 0] and [free = size], every other heap and the lock are left
    as they were, and the next system-zone allocation that fits the heap
    is handed the heap base again, whatever was allocated before. *)
Theorem free_heap_empties_system_heap P w hs :
  cpu_get_id P <> PLATFORM_MASTER_CORE_ID P ->
  zlookup (system (memmap w)) (cpu_get_id P) = Some hs ->
  0 < heap hs -> heap hs + heap_size hs < 2 ^ 32 ->
  exists w',
    free_heap P SOF_MEM_ZONE_SYS w = Done w' /\
    system (memmap w')
    = zinsert (cpu_get_id P)
        (mk_heap (blocks hs) (maps hs) (heap hs) (heap_size hs) (caps hs)
                 (mk_info 0 (heap_size hs)))
        (system (memmap w)) /\
    system_runtime (memmap w') = system_runtime (memmap w) /\
    runtime (memmap w') = runtime (memmap w) /\
    buffer (memmap w') = buffer (memmap w) /\
    lock (memmap w') = lock (memmap w) /\
    forall flags caps_ bytes,
      Z.land (caps hs) caps_ = caps_ ->
      Z.land flags (SOF_MEM_FLAG_SHARED P) = 0 ->
      0 < PLATFORM_DCACHE_ALIGN P -> 0 <= bytes <= heap_size hs ->
      exists w'',
        rmalloc P SOF_MEM_ZONE_SYS flags caps_ bytes w'
        = Done (heap hs, w'').
Proof.
  intros Hcpu Hs Hh Hend.
  unfold free_heap, internal_, free_heap_unlocked.
  destruct (Z.eqb_spec (cpu_get_id P) (PLATFORM_MASTER_CORE_ID P));
    [contradiction|].
  cbn [orb]. rewrite (at_index_Some _ _ _ Hs). cbn [obind].
  eexists. split; [reflexivity|].
  unfold log. cbn [memmap events set_system system system_runtime runtime
                     buffer lock].
  do 5 (split; [reflexivity|]).
  intros flags caps_ bytes Hcaps Hfl Hd Hb.
  set (hs0 := mk_heap (blocks hs) (maps hs) (heap hs) (heap_size hs)
                      (caps hs) (mk_info 0 (heap_size hs))).
  rewrite rmalloc_eq. unfold _malloc_unlocked. cbn [memmap].
  match goal with
  | |- context [rmalloc_sys P flags caps_ (cpu_get_id P) bytes ?s1] =>
      set (s0 := s1);
      assert (Hs0 : zlookup (system s0) (cpu_get_id P) = Some hs0)
        by (apply zlookup_zinsert_eq, (zlookup_lt _ _ _ Hs))
  end.
  assert (Hpad : sys_pad (PLATFORM_DCACHE_ALIGN P) 0 = 0).
  { unfold sys_pad. now rewrite Z.mod_0_l by lia. }
  rewrite (rmalloc_sys_eval P flags caps_ (cpu_get_id P) bytes s0 hs0 Hs0
             Hcaps Hd ltac:(lia)).
  - rewrite Hfl. change (0 =? 0) with true. cbn iota.
    cbn [obind omap fst snd hs0 heap info info_used].
    rewrite Hpad, !Z.add_0_r. eexists. reflexivity.
  - unfold sys_heap_ok, hs0. cbn [heap heap_size info info_used info_free].
    lia.
  - cbn [hs0 info info_used info_free]. rewrite Hpad. lia.
Qed.

Lemma free_heap_empties_system_heap_witness :
  exists w1 w2 w3,
    rmalloc slave_platform SOF_MEM_ZONE_SYS 0 0 100 example_machine
    = Done (8192, w1) /\
    free_heap slave_platform SOF_MEM_ZONE_SYS w1 = Done w2 /\
    rmalloc slave_platform SOF_MEM_ZONE_SYS 0 0 64 w2 = Done (8192, w3).
Proof.
  destruct (free_heap_empties_system_heap slave_platform
              (mk_machine
                 (set_heap_trace_updated
                    (set_system example_mm 1
                       (sys_take (fresh_sys_heap 8192 1024) 100)) 1)
                 [EvLock; EvAllocator; EvUnlock])
              (sys_take (fresh_sys_heap 8192 1024) 100))
    as [w' [Hfree [_ [_ [_ [_ [_ Hre]]]]]]];
    try reflexivity; try (cbn; lia).
  destruct (Hre 0 0 64) as [w'' Hw'']; try reflexivity; try (cbn; lia).
  eexists _, w', w''. split; [reflexivity|]. split; [exact Hfree|exact Hw''].
Defined.

(** X7: [free_heap] is for slave cores and the system zone only: it
    panics exactly when it runs on the master core or is given another
    zone, and then it has touched nothing. *)
Theorem free_heap_panics_iff P zone w hs :
  zlookup (system (memmap w)) (cpu_get_id P) = Some hs ->
  free_heap P zone w = Panic SOF_IPC_PANIC_MEM <->
  cpu_get_id P = PLATFORM_MASTER_CORE_ID P \/ zone <> SOF_MEM_ZONE_SYS.
Proof.
  intros Hs. unfold free_heap, internal_, free_heap_unlocked.
  rewrite (at_index_Some _ _ _ Hs).
  destruct (Z.eqb_spec (cpu_get_id P) (PLATFORM_MASTER_CORE_ID P)) as [E|E];
    cbn [orb obind].
  - split; [now left | reflexivity].
  - destruct zone; cbn [obind]; split; intros H;
      try reflexivity; try discriminate; try (now right);
      destruct H as [H|H]; contradiction.
Qed.

Lemma free_heap_panics_iff_witness :
  free_heap example_platform SOF_MEM_ZONE_SYS example_machine
  = Panic SOF_IPC_PANIC_MEM /\
  free_heap slave_platform SOF_MEM_ZONE_RUNTIME example_machine
  = Panic SOF_IPC_PANIC_MEM.
Proof.
  split.
  - apply (proj2 (free_heap_panics_iff example_platform SOF_MEM_ZONE_SYS
                    example_machine (fresh_sys_heap 4096 1024) eq_refl)).
    now left.
  - apply (proj2 (free_heap_panics_iff slave_platform SOF_MEM_ZONE_RUNTIME
                    example_machine (fresh_sys_heap 8192 1024) eq_refl)).
    now right.
Defined.

(** ** Edge cases of the free path *)

Lemma map_eta m :
  mk_map (block_size m) (count m) (free_count m) (first_free m) (block m)
         (base m) = m.
Proof. now destruct m. Qed.

(** [free_block] on an address of a block that is not in use. *)
Lemma free_block_in_heap_unused h i m q ptr :
  heap_wf h -> zlookup (maps h) i = Some m -> is_unused (block m) q ->
  block_addr m q <= ptr < block_addr m q + block_size m ->
  free_block_in_heap ptr h
  = if ptr =? block_addr m q then Done (Some h)
    else Panic SOF_IPC_PANIC_MEM.
Proof.
  intros Hh Hi Hun Hp. pose proof (heap_wf_map h i m Hh Hi) as Hwf.
  pose proof (wf_block_size m Hwf) as Hbs.
  pose proof (wf_count m Hwf) as Hcount.
  pose proof (wf_length m Hwf) as Hlen.
  pose proof (wf_base m Hwf) as Hbase.
  pose proof (wf_end m Hwf) as Hend.
  pose proof (unused_is_free m q Hwf Hun) as Hq.
  pose proof (zlookup_lt _ _ _ Hq) as Hqr.
  destruct (block_addr_range m q Hwf ltac:(lia)) as [Hq1 Hq2].
  unfold free_block_in_heap.
  rewrite (find_block_map_at h ptr i m Hh Hi)
    by (unfold block_addr, map_end in *; nia).
  cbn [obind]. rewrite (at_index_Some _ _ _ Hi). cbn [obind].
  unfold udiv. destruct (Z.eqb_spec (block_size m) 0); [lia|].
  cbn [obind].
  rewrite (wrap32_small (ptr - base m))
    by (unfold block_addr, map_end in *; nia).
  rewrite (div_block (ptr - base m) (block_size m) q)
    by (unfold block_addr in *; lia).
  rewrite (to_int_small q) by lia.
  rewrite (at_index_Some _ _ _ Hq). cbn [obind].
  change (unaligned_ptr hdr_free) with NULL.
  change (NULL =? NULL) with true. cbn [negb]. rewrite andb_false_r.
  cbn [obind]. rewrite (Z.mul_comm (block_size m) q).
  rewrite wrap32_block_addr by (exact Hwf || lia).
  rewrite (Z.eqb_sym (block_addr m q) ptr).
  destruct (Z.eqb_spec ptr (block_addr m q)) as [_|_]; [|reflexivity].
  change (hdr_size hdr_free) with 0.
  replace (q + 0 - q) with 0 by lia. change (Z.to_nat 0) with 0%nat.
  cbn [free_loop obind].
  rewrite (wrap32_small q) by lia.
  assert (Hff : (q <? first_free m) = false).
  { apply Z.ltb_ge. destruct (Z.lt_ge_cases q (first_free m)) as [Hlt|]; [|lia].
    exfalso. apply (used_not_unused (block m) q); [|exact Hun].
    apply (wf_below m Hwf). lia. }
  assert (Hfc : (free_count m =? 0) = false).
  { apply Z.eqb_neq. pose proof (count_free_pos _ _ Hun).
    rewrite (wf_free_count m Hwf). lia. }
  rewrite Hff, Hfc. cbn [orb]. rewrite map_eta, (set_map_id h i m Hi).
  reflexivity.
Qed.

(** X8: freeing a block that is not in use, through its start address,
    changes nothing at all: a second free of the same allocation, or the
    free of a block that was never handed out, is accepted and leaves the
    heap exactly as it was. *)
Theorem free_block_unused_is_noop h i m q :
  heap_wf h -> zlookup (maps h) i = Some m -> is_unused (block m) q ->
  free_block_in_heap (block_addr m q) h = Done (Some h).
Proof.
  intros Hh Hi Hun.
  pose proof (wf_block_size m (heap_wf_map h i m Hh Hi)).
  rewrite (free_block_in_heap_unused h i m q (block_addr m q) Hh Hi Hun)
    by lia.
  now rewrite Z.eqb_refl.
Qed.

Lemma example_buffer_heap_wf : heap_wf (fresh_heap 24576 3 [(64, 4); (256, 2)]).
Proof.
  apply fresh_heap_wf; [lia | |].
  - repeat (apply Forall_cons_2 || apply Forall_nil_2); simpl; lia.
  - unfold layout_size. simpl. lia.
Qed.

Lemma free_block_unused_is_noop_witness :
  free_block_in_heap 24704 (fresh_heap 24576 3 [(64, 4); (256, 2)])
  = Done (Some (fresh_heap 24576 3 [(64, 4); (256, 2)])).
Proof.
  apply (free_block_unused_is_noop (fresh_heap 24576 3 [(64, 4); (256, 2)]) 0
           (mk_map 64 4 4 0 (replicate 4 hdr_free) 24576) 2
           example_buffer_heap_wf eq_refl).
  exists hdr_free. now split.
Defined.

(** X9: inside the blocks of a heap, [free_block] panics for exactly one
    kind of address: one that lies in a block that is not in use and is
    not the start of that block.  (In a block in use every address is
    accepted, see the next property.) *)
Theorem free_block_panics_iff h i m q ptr :
  heap_wf h -> zlookup (maps h) i = Some m -> 0 <= q < count m ->
  block_addr m q <= ptr < block_addr m q + block_size m ->
  free_block_in_heap ptr h = Panic SOF_IPC_PANIC_MEM <->
  is_unused (block m) q /\ ptr <> block_addr m q.
Proof.
  intros Hh Hi Hq Hp. pose proof (heap_wf_map h i m Hh Hi) as Hwf.
  pose proof (wf_length m Hwf) as Hlen.
  destruct (used_or_unused (block m) q ltac:(lia)) as [[hq [Hl Hu]]|Hun].
  - destruct (free_block_in_heap_run h i m q hq ptr Hh Hi Hl Hu Hp)
      as [s [hs [blk' [_ [_ [_ [_ [Hfree _]]]]]]]].
    rewrite Hfree. split; [discriminate|].
    intros [Hun _]. exfalso.
    apply (used_not_unused (block m) q); [|exact Hun].
    exists hq. now split.
  - rewrite (free_block_in_heap_unused h i m q ptr Hh Hi Hun Hp).
    destruct (Z.eqb_spec ptr (block_addr m q)) as [E|E]; split.
    + discriminate.
    + intros [_ Hne]. contradiction.
    + intros _. now split.
    + reflexivity.
Qed.

Lemma free_block_panics_iff_witness :
  free_block_in_heap 24705 (fresh_heap 24576 3 [(64, 4); (256, 2)])
  = Panic SOF_IPC_PANIC_MEM.
Proof.
  apply (proj2 (free_block_panics_iff
                  (fresh_heap 24576 3 [(64, 4); (256, 2)]) 0
                  (mk_map 64 4 4 0 (replicate 4 hdr_free) 24576) 2 24705
                  example_buffer_heap_wf eq_refl
                  ltac:(cbn; lia) ltac:(unfold block_addr; cbn; lia))).
  split; [exists hdr_free; now split | unfold block_addr; cbn; lia].
Defined.



(** ** Pointers the allocator does not own *)

(** An address of the heap that lies after its last block map is the
    "invalid ptr" case of [free_block]. *)
Lemma free_block_in_heap_past_maps h ptr :
  heap_wf h -> heap h <= ptr -> maps_end (heap h) (maps h) <= ptr ->
  free_block_in_heap ptr h = Done None.
Proof.
  intros Hh Hge Hpast. unfold free_block_in_heap.
  destruct (find_block_map_heap h ptr Hh Hge)
    as [[Hnone _]|[i [m [_ [Hi [_ Hlt]]]]]].
  - now rewrite Hnone.
  - exfalso. apply zlookup_Some in Hi as [_ Hi].
    pose proof (chain_map_end_le (maps h) (heap h) (Z.to_nat i) m
                  (hwf_chain h Hh) (hwf_maps h Hh) Hi).
    lia.
Qed.

(** X11: [rfree] ignores what the allocator does not own.  Null is
    accepted and changes nothing; an address that belongs to no heap, or
    that lies in a heap after its last block map, is refused without a
    panic: every heap is left as it was, and only the heap trace flag is
    set.  The lock is released in all these cases. *)
Theorem rfree_ignores_unowned P p w hs :
  mm_wf P (memmap w) ->
  zlookup (system (memmap w)) (cpu_get_id P) = Some hs ->
  ptr_in_heap hs (platform_rfree_prepare P p) = false ->
  (forall ref h,
      heap_at (memmap w) ref = Some h ->
      ptr_in_heap h (platform_rfree_prepare P p) = true ->
      maps_end (heap h) (maps h) <= platform_rfree_prepare P p) ->
  rfree P p w
  = Done (mk_machine
            (set_lock
               (if p =? NULL then memmap w
                else set_heap_trace_updated (memmap w) 1) false)
            (events w ++ [EvLock; EvAllocator; EvUnlock])).
Proof.
  intros Hwf Hs Hsys Hpast. rewrite rfree_eq. unfold _rfree_unlocked.
  destruct (Z.eqb_spec p NULL) as [|Hp]; [reflexivity|].
  set (q := platform_rfree_prepare P p) in *.
  change (system (set_lock (memmap w) true)) with (system (memmap w)).
  rewrite (at_index_Some _ _ _ Hs). cbn [obind].
  change ((heap hs <=? q) && (q <? wrap32 (heap hs + heap_size hs)))
    with (ptr_in_heap hs q).
  rewrite Hsys.
  assert (Hfree : free_block P q (set_lock (memmap w) true)
                  = Done (set_lock (memmap w) true)).
  { unfold free_block.
    destruct (get_heap_from_ptr_spec P q (set_lock (memmap w) true)
                (proj1 Hwf)) as [r [Hr Href]].
    rewrite Hr. cbn [obind]. destruct r as [ref|]; [|reflexivity].
    destruct (Href ref eq_refl) as [h [Hat Hin]]. rewrite Hat.
    assert (Hat' : heap_at (memmap w) ref = Some h)
      by (destruct ref; exact Hat).
    rewrite (free_block_in_heap_past_maps h q
               (mm_wf_heap_at P (memmap w) ref h Hwf Hat')
               (ptr_in_heap_ge _ _ Hin) (Hpast ref h Hat' Hin)).
    reflexivity. }
  rewrite Hfree. reflexivity.
Qed.

Lemma rfree_ignores_unowned_witness :
  rfree example_platform 100 example_machine
  = Done (mk_machine (set_heap_trace_updated example_mm 1)
            [EvLock; EvAllocator; EvUnlock]) /\
  rfree example_platform NULL example_machine
  = Done (mk_machine example_mm [EvLock; EvAllocator; EvUnlock]).
Proof.
  split.
  - apply (rfree_ignores_unowned example_platform 100 example_machine
             (fresh_sys_heap 4096 1024) example_mm_wf eq_refl eq_refl).
    intros ref h Hat Hin. exfalso.
    destruct ref as [[|[|[|?]]]|[|[|?]]|[|[|?]]]; cbn in Hat;
      try discriminate; inversion Hat; subst h; vm_compute in Hin;
      discriminate.
  - apply (rfree_ignores_unowned example_platform NULL example_machine
             (fresh_sys_heap 4096 1024) example_mm_wf eq_refl eq_refl).
    intros ref h Hat Hin. exfalso.
    destruct ref as [[|[|[|?]]]|[|[|?]]|[|[|?]]]; cbn in Hat;
      try discriminate; inversion Hat; subst h; vm_compute in Hin;
      discriminate.
Defined.

(** ** Where block-map allocations are placed *)

Lemma run_taken_placed h level m s c ff' blk' inf q bytes al :
  heap_wf h -> zlookup (maps h) level = Some m ->
  0 <= s -> 1 <= c -> s + c <= count m ->
  (forall j, s <= j < s + c -> is_unused (block m) j) ->
  run_taken m s c blk' ->
  inf = mk_info (wrap32 (info_used (info h) + c * block_size m))
                (wrap32 (info_free (info h) - c * block_size m)) ->
  heap_wf (set_map h level
             (mk_map (block_size m) (count m) (free_count m - c) ff' blk'
                     (base m)) inf) ->
  block_addr m s <= q -> q + bytes <= block_addr m (s + c) ->
  (0 < al -> q mod al = 0) ->
  placed h (set_map h level
              (mk_map (block_size m) (count m) (free_count m - c) ff' blk'
                      (base m)) inf)
         level s c q bytes al.
Proof.
  intros Hh Hm Hs Hc Hend Hun [Hlen Hlook] Hinf Hwf' Hlo Hhi Hal.
  exists m, (mk_map (block_size m) (count m) (free_count m - c) ff' blk'
                    (base m)).
  split; [exact Hm|]. split; [apply (zlookup_set_map h level _ _ m Hm)|].
  do 3 (split; [assumption|]). split; [exact Hun|].
  cbn [block base block_size count free_count].
  split.
  { intros j Hj. eexists. rewrite Hlook.
    destruct (Z.leb_spec s j), (Z.ltb_spec j (s + c)); try lia.
    split; reflexivity. }
  split.
  { intros j Hj. rewrite Hlook.
    destruct (Z.leb_spec s j), (Z.ltb_spec j (s + c));
      try reflexivity; lia. }
  do 3 (split; [reflexivity|]).
  split.
  { intros k Hk. unfold set_map. cbn [maps].
    apply zlookup_zinsert_ne; [apply (zlookup_lt _ _ _ Hm) | lia]. }
  split; [exact Hlo|]. split; [exact Hhi|]. split; [exact Hal|].
  split; [reflexivity|]. split; [exact Hinf|].
  do 4 (split; [reflexivity|]). exact Hwf'.
Qed.

(** The pointer [alloc_block] and [alloc_cont_blocks] make of the base of
    a run that has room for the alignment. *)
Lemma align_up_placed al raw bytes lim :
  0 <= al -> 0 <= raw < 2 ^ 32 -> 0 <= bytes -> lim <= 2 ^ 32 ->
  (if al =? 0 then raw + bytes <= lim
   else if raw mod al =? 0 then raw + bytes <= lim
        else raw + bytes + al <= lim) ->
  raw <= align_up al raw /\ align_up al raw + bytes <= lim /\
  (0 < al -> align_up al raw mod al = 0).
Proof.
  intros Hal Hraw Hb Hlim.
  destruct (Z.eqb_spec al 0) as [->|Hne]; intros Hfit.
  - assert (E : align_up 0 raw = raw).
    { unfold align_up, align_ptr. cbn [fst]. change (0 =? 0) with true.
      cbn iota. rewrite Z.add_0_r. apply wrap32_small. lia. }
    rewrite E. repeat split; lia.
  - revert Hfit. destruct (Z.eqb_spec (raw mod al) 0) as [E|E]; intros Hfit.
    + assert (Hid : align_up al raw = raw).
      { unfold align_up, align_ptr. cbn [fst].
        destruct (Z.eqb_spec al 0); [lia|]. rewrite E.
        change (0 =? 0) with true. cbn iota.
        rewrite Z.add_0_r. apply wrap32_small. lia. }
      rewrite Hid. split; [lia|]. split; [lia|]. intros _. exact E.
    + assert (Hroom : raw + al <= 2 ^ 32) by lia.
      destruct (align_up_bounds al raw ltac:(lia) ltac:(lia) Hroom)
        as [Hb1 [Hm Hid]].
      split; [lia|]. split; [lia|]. intros _. exact Hm.
Qed.

Lemma block_addr_add m s c :
  block_addr m (s + c) = block_addr m s + c * block_size m.
Proof. unfold block_addr. lia. Qed.

Lemma alloc_block_placed h level caps_ al m bytes :
  heap_wf h -> zlookup (maps h) level = Some m -> 0 < free_count m ->
  0 <= al -> 0 <= bytes ->
  (if al =? 0 then bytes <= block_size m
   else if block_addr m (first_free m) mod al =? 0
        then bytes <= block_size m
        else bytes + al <= block_size m) ->
  exists q h',
    alloc_block h level caps_ al = Done (q, h') /\ q <> NULL /\
    placed h h' level (first_free m) 1 q bytes al.
Proof.
  intros Hh Hl Hfc Hal Hb Hfit.
  pose proof (heap_wf_map h level m Hh Hl) as Hwf.
  destruct (alloc_block_spec h level caps_ al m Hh Hl Hfc)
    as [ff' [blk' [Halloc [Htaken [_ Hwf']]]]].
  destruct (proj2 (wf_first_free m Hwf) Hfc) as [Hlt Hun].
  pose proof (proj1 (wf_first_free m Hwf)) as Hff.
  destruct (block_addr_range m (first_free m) Hwf ltac:(lia)) as [Hr1 Hr2].
  pose proof (wf_end m Hwf) as Hend.
  pose proof (wf_block_size m Hwf) as Hbs.
  destruct (align_up_placed al (block_addr m (first_free m)) bytes
              (block_addr m (first_free m) + block_size m))
    as [Hlo [Hhi Hmod]]; try lia.
  { revert Hfit. destruct (al =? 0); [lia|].
    destruct (block_addr m (first_free m) mod al =? 0); lia. }
  eexists _, _. split; [exact Halloc|]. split; [unfold NULL; lia|].
  apply (run_taken_placed h level m (first_free m) 1 ff' blk');
    try assumption; try lia.
  - intros j Hj. now replace j with (first_free m) by lia.
  - now rewrite !Z.mul_1_l.
  - rewrite block_addr_add. lia.
Qed.

Lemma alloc_cont_blocks_placed h level caps_ total al m bytes :
  heap_wf h -> zlookup (maps h) level = Some m ->
  0 <= al -> 0 <= bytes -> bytes + al <= total -> 0 < total < 2 ^ 32 ->
  alloc_cont_blocks h level caps_ total al = Done (NULL, h) \/
  exists q h' s c,
    alloc_cont_blocks h level caps_ total al = Done (q, h') /\ q <> NULL /\
    placed h h' level s c q bytes al.
Proof.
  intros Hh Hl Hal Hb Hsum Ht.
  pose proof (heap_wf_map h level m Hh Hl) as Hwf.
  destruct (alloc_cont_blocks_spec h level caps_ total al m Hh Hl Ht)
    as [[Hfail _]|[start [cnt [ff' [blk' [_ [Hc1 [Hc2 [Hs1 [Hs2 [Hrun
         [Halloc [Htaken [_ Hwf']]]]]]]]]]]]]]; [now left|].
  right.
  pose proof (proj1 (wf_first_free m Hwf)) as Hff.
  pose proof (wf_block_size m Hwf) as Hbs.
  pose proof (wf_end m Hwf) as Hend.
  destruct (block_addr_range m start Hwf ltac:(lia)) as [Hr1 Hr2].
  assert (Hlim : block_addr m start + cnt * block_size m <= map_end m)
    by (unfold block_addr, map_end in *; nia).
  destruct (align_up_placed al (block_addr m start) bytes
              (block_addr m start + cnt * block_size m))
    as [Hlo [Hhi Hmod]]; try lia.
  { destruct (al =? 0); [lia|].
    destruct (block_addr m start mod al =? 0); lia. }
  eexists _, _, start, cnt. split; [exact Halloc|].
  split; [unfold NULL; lia|].
  apply (run_taken_placed h level m start cnt ff' blk');
    try assumption; try lia; try reflexivity.
  rewrite block_addr_add. lia.
Qed.

Lemma get_ptr_loop_placed h caps_ bytes al :
  heap_wf h -> 0 <= bytes -> 0 <= al -> bytes + al < 2 ^ 32 ->
  forall n i,
    0 <= i -> i + Z.of_nat n = Z.of_nat (length (maps h)) ->
    get_ptr_loop h caps_ bytes al i n bytes = Done (NULL, h) \/
    exists q h' level s,
      get_ptr_loop h caps_ bytes al i n bytes = Done (q, h') /\
      q <> NULL /\ placed h h' level s 1 q bytes al.
Proof.
  intros Hh Hb Hal Hsum. induction n as [|n IH]; intros i Hi Hn;
    [now left|].
  cbn [get_ptr_loop].
  destruct (zlookup_is_Some (maps h) i ltac:(lia)) as [m Hm].
  rewrite (at_index_Some _ _ _ Hm). cbn [obind].
  pose proof (heap_wf_map h i m Hh Hm) as Hwf.
  match goal with
  | |- context [block_size m <? ?t] => set (temp := t)
  end.
  destruct (Z.ltb_spec (block_size m) temp) as [Hsmall|Hbig];
    [apply IH; lia|].
  destruct (Z.eqb_spec (free_count m) 0) as [Hz|Hnz]; [apply IH; lia|].
  right. pose proof (free_count_pos m Hwf Hnz) as Hfc.
  destruct (first_free_addr m Hwf Hfc) as [Haddr Hffr].
  destruct (alloc_block_placed h i caps_ al m bytes Hh Hm Hfc Hal Hb)
    as [q [h' [Hrun [Hq Hpl]]]].
  { unfold temp in Hbig. rewrite Haddr in Hbig.
    destruct (al =? 0); [lia|].
    destruct (block_addr m (first_free m) mod al =? 0); [lia|].
    rewrite wrap32_small in Hbig by lia. lia. }
  now exists q, h', i, (first_free m).
Qed.

Lemma single_block_loop_placed h caps_ bytes al :
  heap_wf h -> 0 <= bytes -> 0 < al -> bytes + al < 2 ^ 32 ->
  forall n i,
    0 <= i -> i + Z.of_nat n = Z.of_nat (length (maps h)) ->
    single_block_loop h caps_ bytes al i n bytes = Done (NULL, h) \/
    exists q h' level s,
      single_block_loop h caps_ bytes al i n bytes = Done (q, h') /\
      q <> NULL /\ placed h h' level s 1 q bytes al.
Proof.
  intros Hh Hb Hal Hsum. induction n as [|n IH]; intros i Hi Hn;
    [now left|].
  cbn [single_block_loop].
  destruct (zlookup_is_Some (maps h) i ltac:(lia)) as [m Hm].
  rewrite (at_index_Some _ _ _ Hm). cbn [obind].
  pose proof (heap_wf_map h i m Hh Hm) as Hwf.
  unfold umod. destruct (Z.eqb_spec al 0); [lia|]. cbn [obind].
  match goal with
  | |- context [?t <=? block_size m] => set (temp := t)
  end.
  destruct (Z.leb_spec temp (block_size m)) as [Hbig|Hsmall];
    [|apply IH; lia].
  destruct (Z.eqb_spec (free_count m) 0) as [Hz|Hnz]; [apply IH; lia|].
  right. cbn [negb andb].
  pose proof (free_count_pos m Hwf Hnz) as Hfc.
  destruct (first_free_addr m Hwf Hfc) as [Haddr Hffr].
  destruct (alloc_block_placed h i caps_ al m bytes Hh Hm Hfc ltac:(lia) Hb)
    as [q [h' [Hrun [Hq Hpl]]]].
  { unfold temp in Hbig. rewrite Haddr in Hbig.
    destruct (Z.eqb_spec al 0); [lia|].
    destruct (block_addr m (first_free m) mod al =? 0); [lia|].
    rewrite wrap32_small in Hbig by lia. lia. }
  now exists q, h', i, (first_free m).
Qed.

Lemma cont_blocks_loop_placed h caps_ total al bytes :
  heap_wf h -> 0 <= al -> 0 <= bytes -> bytes + al <= total ->
  total < 2 ^ 32 ->
  forall n,
    (n <= length (maps h))%nat ->
    cont_blocks_loop h caps_ total al n = Done (NULL, h) \/
    exists q h' level s c,
      cont_blocks_loop h caps_ total al n = Done (q, h') /\
      q <> NULL /\ placed h h' level s c q bytes al.
Proof.
  intros Hh Hal Hb Hsum Ht. induction n as [|n IH]; intros Hn; [now left|].
  cbn [cont_blocks_loop].
  destruct (zlookup_is_Some (maps h) (Z.of_nat n) ltac:(lia)) as [m Hm].
  rewrite (at_index_Some _ _ _ Hm). cbn [obind].
  pose proof (heap_wf_map h _ m Hh Hm) as Hwf.
  pose proof (wf_block_size m Hwf).
  destruct ((total <=? heap_size h) && (block_size m <? total)) eqn:E;
    [|apply IH; lia].
  apply andb_true_iff in E as [_ E%Z.ltb_lt].
  destruct (alloc_cont_blocks_placed h (Z.of_nat n) caps_ total al m bytes
              Hh Hm Hal Hb Hsum ltac:(lia))
    as [Hfail|[q [h' [s [c [Hok [Hq Hpl]]]]]]].
  - rewrite Hfail. cbn [obind]. change (NULL =? NULL) with true. cbn iota.
    apply IH. lia.
  - right. exists q, h', (Z.of_nat n), s, c. rewrite Hok. cbn [obind].
    destruct (Z.eqb_spec q NULL) as [|_]; [contradiction|].
    now split.
Qed.

(** Either policy, without the shared translation, places what it
    returns. *)
Lemma get_ptr_from_heap_placed P h flags caps_ bytes al p h' :
  heap_wf h -> 0 <= bytes -> 0 <= al -> bytes + al < 2 ^ 32 ->
  Z.land flags (SOF_MEM_FLAG_SHARED P) = 0 -> p <> NULL ->
  get_ptr_from_heap P h flags caps_ bytes al = Done (p, h') ->
  exists level s, placed h h' level s 1 p bytes al.
Proof.
  intros Hh Hb Hal Hsum Hfl Hp. unfold get_ptr_from_heap.
  destruct (Z.land al (wrap32 (al - 1)) =? 0); [|discriminate].
  destruct (get_ptr_loop_placed h caps_ bytes al Hh Hb Hal Hsum
              (Z.to_nat (blocks h)) 0 ltac:(lia))
    as [Hnone|[q [h1 [level [s [Hsome [Hq Hpl]]]]]]].
  { rewrite (hwf_blocks h Hh). lia. }
  - rewrite Hnone. cbn [obind]. change (NULL =? NULL) with true.
    cbn [negb andb]. intros H. inversion H. congruence.
  - rewrite Hsome. cbn [obind]. rewrite Hfl. change (0 =? 0) with true.
    cbn [negb]. rewrite andb_false_r. intros H. inversion H; subst.
    now exists level, s.
Qed.

Lemma alloc_heap_buffer_placed P h flags caps_ bytes al p h' :
  heap_wf h -> 0 <= bytes -> 0 <= al -> bytes + al < 2 ^ 32 ->
  Z.land flags (SOF_MEM_FLAG_SHARED P) = 0 -> p <> NULL ->
  alloc_heap_buffer P h flags caps_ bytes al = Done (p, h') ->
  exists level s c, placed h h' level s c p bytes al.
Proof.
  intros Hh Hb Hal Hsum Hfl Hp. unfold alloc_heap_buffer.
  destruct (Z.land al (wrap32 (al - 1)) =? 0); [|discriminate].
  rewrite Hfl. change (0 =? 0) with true. cbn [negb].
  destruct (Z.eq_dec al 0) as [->|Hne].
  { (* alignment 0: only a heap without block maps gets past the modulo *)
    destruct (Z.to_nat (blocks h)) as [|n] eqn:En.
    - cbn [single_block_loop obind]. change (NULL =? NULL) with true.
      cbn iota. rewrite En. cbn [cont_blocks_loop obind].
      change (NULL =? NULL) with true. cbn [negb andb].
      intros H. inversion H. congruence.
    - cbn [single_block_loop].
      destruct (at_index (maps h) 0) as [m| |]; cbn [obind];
        discriminate. }
  destruct (single_block_loop_placed h caps_ bytes al Hh Hb ltac:(lia) Hsum
              (Z.to_nat (blocks h)) 0 ltac:(lia))
    as [Hnone|[q [h1 [level [s [Hsome [Hq Hpl]]]]]]].
  { rewrite (hwf_blocks h Hh). lia. }
  - rewrite Hnone. cbn [obind]. change (NULL =? NULL) with true. cbn iota.
    rewrite (wrap32_small (bytes + al)) by lia.
    destruct (cont_blocks_loop_placed h caps_ (bytes + al) al bytes Hh Hal
                Hb ltac:(lia) Hsum (Z.to_nat (blocks h)))
      as [Hnone2|[q [h1 [level [s [c [Hsome [Hq Hpl]]]]]]]].
    { rewrite (hwf_blocks h Hh). lia. }
    + rewrite Hnone2. cbn [obind]. rewrite andb_false_r.
      intros H. inversion H. congruence.
    + rewrite Hsome. cbn [obind]. rewrite andb_false_r.
      intros H. inversion H; subst. now exists level, s, c.
  - rewrite Hsome. cbn [obind].
    destruct (Z.eqb_spec q NULL) as [|_]; [contradiction|]. cbn [obind].
    rewrite andb_false_r. intros H. inversion H; subst.
    now exists level, s, 1.
Qed.

Lemma placed_in_heap h h' level s c q bytes al :
  heap_wf h -> placed h h' level s c q bytes al ->
  heap h <= q /\ q + bytes <= heap h + heap_size h.
Proof.
  intros Hh (m & m' & Hm & _ & Hs & Hc & Hend & _ & _ & _ & _ & _ & _ & _
             & Hlo & Hhi & _).
  pose proof (heap_wf_map h level m Hh Hm) as Hwf.
  pose proof (wf_block_size m Hwf) as Hbs.
  apply zlookup_Some in Hm as [_ Hm].
  pose proof (chain_base_ge _ _ _ _ (hwf_chain h Hh) (hwf_maps h Hh) Hm).
  pose proof (chain_map_end_le _ _ _ _ (hwf_chain h Hh) (hwf_maps h Hh) Hm).
  pose proof (hwf_end h Hh).
  unfold block_addr, map_end in *. split; nia.
Qed.

(** Two allocations in a row take disjoint memory. *)
Lemma placed_disjoint h h1 h2 l1 s1 c1 q1 n1 a1 l2 s2 c2 q2 n2 a2 :
  heap_wf h ->
  placed h h1 l1 s1 c1 q1 n1 a1 -> placed h1 h2 l2 s2 c2 q2 n2 a2 ->
  q1 + n1 <= q2 \/ q2 + n2 <= q1.
Proof.
  intros Hh (m & m1 & Hm & Hm1 & Hs1 & Hc1 & He1 & _ & Hused1 & _ & Hbase
             & Hbsz & Hcnt & Hframe & Hlo1 & Hhi1 & _)
         (m2 & m2' & Hm2 & _ & Hs2 & Hc2 & He2 & Hun2 & _ & _ & _ & _ & _
          & _ & Hlo2 & Hhi2 & _).
  pose proof (heap_wf_map h l1 m Hh Hm) as Hwf.
  pose proof (wf_block_size m Hwf) as Hbs.
  destruct (Z.eq_dec l2 l1) as [->|Hne].
  - (* the same block map: the second run avoids the blocks of the first *)
    assert (m2 = m1) by congruence. subst m2.
    assert (Hsep : s1 + c1 <= s2 \/ s2 + c2 <= s1).
    { destruct (Z.le_gt_cases (s1 + c1) s2) as [|Hx]; [now left|].
      destruct (Z.le_gt_cases (s2 + c2) s1) as [|Hy]; [now right|].
      exfalso. apply (used_not_unused (block m1) (Z.max s1 s2)).
      - apply Hused1. lia.
      - apply Hun2. lia. }
    unfold block_addr in *. rewrite Hbase, Hbsz in *.
    destruct Hsep; [left | right]; nia.
  - (* two block maps of the heap *)
    rewrite (Hframe l2 Hne) in Hm2.
    pose proof (heap_wf_map h l2 m2 Hh Hm2) as Hwf2.
    pose proof (wf_block_size m2 Hwf2) as Hbs2.
    apply zlookup_Some in Hm as [Hl1 Hm].
    apply zlookup_Some in Hm2 as [Hl2 Hm2].
    assert (Horder : map_end m <= base m2 \/ map_end m2 <= base m).
    { destruct (Z.lt_ge_cases l1 l2).
      - left. apply (chain_order (maps h) (heap h) (Z.to_nat l1)
                       (Z.to_nat l2) m m2 (hwf_chain h Hh) (hwf_maps h Hh));
          [lia | assumption..].
      - right. apply (chain_order (maps h) (heap h) (Z.to_nat l2)
                        (Z.to_nat l1) m2 m (hwf_chain h Hh) (hwf_maps h Hh));
          [lia | assumption..]. }
    unfold block_addr, map_end in *.
    destruct Horder; [left | right]; nia.
Qed.

(** X12: what the two block-map policies hand out for a request whose
    size and alignment add up to less than 2^32, when the result is not
    translated for shared memory.  A non-null result of
    [get_ptr_from_heap] lies in one block, and one of [alloc_heap_buffer]
    in a run of blocks, of one block map of the heap: the blocks were all
    unused, they are in use afterwards, no other header and no other block
    map has changed, the [bytes] bytes from the returned address on lie
    inside the run and inside the heap, and the address is a multiple of
    the alignment asked for. *)
Theorem block_allocation_placement P h flags caps_ bytes al p h' :
  heap_wf h -> 0 <= bytes -> 0 <= al -> bytes + al < 2 ^ 32 ->
  Z.land flags (SOF_MEM_FLAG_SHARED P) = 0 -> p <> NULL ->
  (get_ptr_from_heap P h flags caps_ bytes al = Done (p, h') ->
   (exists level s, placed h h' level s 1 p bytes al) /\
   heap h <= p /\ p + bytes <= heap h + heap_size h) /\
  (alloc_heap_buffer P h flags caps_ bytes al = Done (p, h') ->
   (exists level s c, placed h h' level s c p bytes al) /\
   heap h <= p /\ p + bytes <= heap h + heap_size h).
Proof.
  intros Hh Hb Hal Hsum Hfl Hp. split; intros Hrun.
  - destruct (get_ptr_from_heap_placed P h flags caps_ bytes al p h' Hh Hb
                Hal Hsum Hfl Hp Hrun) as [level [s Hpl]].
    split; [now exists level, s|].
    apply (placed_in_heap h h' level s 1 p bytes al Hh Hpl).
  - destruct (alloc_heap_buffer_placed P h flags caps_ bytes al p h' Hh Hb
                Hal Hsum Hfl Hp Hrun) as [level [s [c Hpl]]].
    split; [now exists level, s, c|].
    apply (placed_in_heap h h' level s c p bytes al Hh Hpl).
Qed.

Lemma block_allocation_placement_witness :
  exists h',
    alloc_heap_buffer example_platform
      (fresh_heap 24576 3 [(64, 4); (256, 2)]) 0 1 100 8
    = Done (24832, h') /\
    (exists level s c,
        placed (fresh_heap 24576 3 [(64, 4); (256, 2)]) h' level s c
               24832 100 8) /\
    heap (fresh_heap 24576 3 [(64, 4); (256, 2)]) <= 24832 /\
    24832 + 100
    <= heap (fresh_heap 24576 3 [(64, 4); (256, 2)])
       + heap_size (fresh_heap 24576 3 [(64, 4); (256, 2)]).
Proof.
  eexists. split; [vm_compute; reflexivity|].
  apply (proj2 (block_allocation_placement example_platform
                  (fresh_heap 24576 3 [(64, 4); (256, 2)]) 0 1 100 8 24832 _
                  example_buffer_heap_wf ltac:(lia) ltac:(lia) ltac:(lia)
                  eq_refl ltac:(discriminate))).
  vm_compute. reflexivity.
Defined.

Lemma allocates_placed P h bytes al p h' :
  heap_wf h -> 0 <= bytes -> 0 <= al -> bytes + al < 2 ^ 32 ->
  allocates P h bytes al p h' ->
  exists level s c, placed h h' level s c p bytes al.
Proof.
  intros Hh Hb Hal Hsum [Hp [flags [caps_ [Hfl [Hrun|Hrun]]]]].
  - destruct (get_ptr_from_heap_placed P h flags caps_ bytes al p h' Hh Hb
                Hal Hsum Hfl Hp Hrun) as [level [s Hpl]].
    now exists level, s, 1.
  - apply (alloc_heap_buffer_placed P h flags caps_ bytes al p h' Hh Hb Hal
             Hsum Hfl Hp Hrun).
Qed.

(** X13: two allocations in a row from the block maps of a heap, by
    either policy, each with size and alignment adding up to less than
    2^32, and with nothing freed in between, never overlap: the second
    takes only blocks that the first has left unused. *)
Theorem block_allocations_do_not_overlap P h n1 a1 p1 h1 n2 a2 p2 h2 :
  heap_wf h ->
  0 <= n1 -> 0 <= a1 -> n1 + a1 < 2 ^ 32 ->
  0 <= n2 -> 0 <= a2 -> n2 + a2 < 2 ^ 32 ->
  allocates P h n1 a1 p1 h1 -> allocates P h1 n2 a2 p2 h2 ->
  p1 + n1 <= p2 \/ p2 + n2 <= p1.
Proof.
  intros Hh Hn1 Ha1 Hs1 Hn2 Ha2 Hs2 Hx Hy.
  destruct (allocates_placed P h n1 a1 p1 h1 Hh Hn1 Ha1 Hs1 Hx)
    as [l1 [s1 [c1 Hpl1]]].
  assert (Hh1 : heap_wf h1).
  { destruct Hpl1 as (m & m' & H). apply H. }
  destruct (allocates_placed P h1 n2 a2 p2 h2 Hh1 Hn2 Ha2 Hs2 Hy)
    as [l2 [s2 [c2 Hpl2]]].
  apply (placed_disjoint h h1 h2 l1 s1 c1 p1 n1 a1 l2 s2 c2 p2 n2 a2 Hh
           Hpl1 Hpl2).
Qed.

Lemma block_allocations_do_not_overlap_witness :
  exists h1 h2,
    alloc_heap_buffer example_platform
      (fresh_heap 24576 3 [(64, 4); (256, 2)]) 0 1 40 8 = Done (24576, h1) /\
    alloc_heap_buffer example_platform h1 0 1 100 8 = Done (24832, h2) /\
    (24576 + 40 <= 24832 \/ 24832 + 100 <= 24576).
Proof.
  eexists _, _. split; [vm_compute; reflexivity|].
  split; [vm_compute; reflexivity|].
  eapply (block_allocations_do_not_overlap example_platform
            (fresh_heap 24576 3 [(64, 4); (256, 2)]) 40 8 24576 _ 100 8 24832
            _ example_buffer_heap_wf);
    try lia.
  - split; [discriminate|]. exists 0, 1. split; [reflexivity|].
    right. vm_compute. reflexivity.
  - split; [discriminate|]. exists 0, 1. split; [reflexivity|].
    right. vm_compute. reflexivity.
Defined.

(** ** Initialisation: [init_heap_map] and [init_heap] *)

Lemma laid_out_length ms : forall b, length (laid_out b ms) = length ms.
Proof. induction ms as [|m ms IH]; intros b; simpl; [|rewrite IH]; lia. Qed.

Lemma laid_out_chain ms : forall b, maps_chain b (laid_out b ms).
Proof.
  induction ms as [|m ms IH]; intros b; simpl; [exact I|].
  split; [reflexivity|]. apply IH.
Qed.

Lemma laid_out_same ms : forall b,
  Forall2 same_but_base ms (laid_out b ms).
Proof.
  induction ms as [|m ms IH]; intros b; simpl; constructor.
  - now repeat split.
  - apply IH.
Qed.

(** Block maps that are laid out already stay where they are. *)
Lemma laid_out_id ms : forall b, maps_chain b ms -> laid_out b ms = ms.
Proof.
  induction ms as [|m ms IH]; intros b; simpl; [reflexivity|].
  intros [Hb Hc]. unfold with_base. rewrite <- Hb.
  change (base m + block_size m * count m) with (map_end m).
  rewrite (IH _ Hc). now destruct m.
Qed.

Lemma maps_size_nonneg ms :
  Forall (fun m => 0 <= block_size m /\ 0 <= count m) ms ->
  0 <= maps_size ms.
Proof.
  induction 1 as [|m ms [Hb Hc] _ IH]; simpl; [lia | nia].
Qed.

(** The inner loop of [init_heap_map], with the maps [pre] done and the
    maps [suf] to do. *)
Lemma init_map_bases_spec : forall suf pre cur,
  0 <= base cur -> 0 <= block_size cur * count cur ->
  Forall (fun m => 0 <= block_size m /\ 0 <= count m) suf ->
  base cur + block_size cur * count cur + maps_size suf < 2 ^ 32 ->
  init_map_bases (pre ++ suf) (Z.of_nat (length pre)) (length suf) cur
  = Done (pre ++ laid_out (base cur + block_size cur * count cur) suf).
Proof.
  induction suf as [|m suf IH]; intros pre cur Hb Hsz Hall Hlim;
    [reflexivity|].
  apply Forall_cons in Hall as [[Hm1 Hm2] Hall].
  pose proof (maps_size_nonneg suf Hall) as Hpos.
  cbn [length init_map_bases laid_out maps_size foldr] in *.
  fold (maps_size suf) in Hlim.
  assert (Hat : zlookup (pre ++ m :: suf) (Z.of_nat (length pre)) = Some m).
  { rewrite zlookup_of_nat. now apply list_lookup_middle. }
  rewrite (at_index_Some _ _ _ Hat). cbn [obind].
  rewrite (wrap32_small (block_size cur * count cur)) by nia.
  rewrite (wrap32_small (base cur + block_size cur * count cur)) by nia.
  set (next := mk_map (block_size m) (count m) (free_count m) (first_free m)
                      (block m) (base cur + block_size cur * count cur)).
  assert (Hins : zinsert (Z.of_nat (length pre)) next (pre ++ m :: suf)
                 = (pre ++ [next]) ++ suf).
  { unfold zinsert. rewrite Nat2Z.id, insert_app_r_alt by lia.
    rewrite Nat.sub_diag. cbn. now rewrite <- app_assoc. }
  rewrite Hins.
  replace (Z.of_nat (length pre) + 1) with (Z.of_nat (length (pre ++ [next])))
    by (rewrite length_app; cbn; lia).
  rewrite (IH (pre ++ [next]) next); cbn [base block_size count next];
    try assumption; try nia.
  now rewrite <- app_assoc.
Qed.

Lemma init_heap_map_one_spec h :
  init_ready h -> init_heap_map_one h = Done (laid_out_heap h).
Proof.
  intros (Hne & Hblocks & Hheap & Hall & Hlim). unfold init_heap_map_one.
  destruct (maps h) as [|m0 rest] eqn:Hmaps; [contradiction|].
  change (at_index (m0 :: rest) 0) with (Done m0). cbn [obind].
  apply Forall_cons in Hall as [[Hm1 Hm2] Hall].
  cbn [maps_size foldr] in Hlim. fold (maps_size rest) in Hlim.
  set (cur := mk_map (block_size m0) (count m0) (free_count m0)
                     (first_free m0) (block m0) (heap h)).
  change (zinsert 0 cur (m0 :: rest)) with ([cur] ++ rest).
  replace (Z.to_nat (blocks h - 1)) with (length rest)
    by (rewrite Hblocks; cbn [length]; lia).
  assert (Hspec : init_map_bases ([cur] ++ rest) 1 (length rest) cur
                  = Done ([cur] ++ laid_out (heap h + block_size m0 * count m0)
                                            rest)).
  { apply (init_map_bases_spec rest [cur] cur);
      cbn [base block_size count cur]; try assumption; nia. }
  rewrite Hspec. cbn [obind]. unfold laid_out_heap. rewrite Hmaps.
  reflexivity.
Qed.

Lemma init_heap_map_loop_spec : forall suf pre,
  Forall init_ready suf ->
  init_heap_map_loop (pre ++ suf) (Z.of_nat (length pre)) (length suf)
  = Done (pre ++ map laid_out_heap suf).
Proof.
  induction suf as [|h suf IH]; intros pre Hall; [reflexivity|].
  apply Forall_cons in Hall as [Hh Hall].
  cbn [length init_heap_map_loop map].
  assert (Hat : zlookup (pre ++ h :: suf) (Z.of_nat (length pre)) = Some h).
  { rewrite zlookup_of_nat. now apply list_lookup_middle. }
  rewrite (at_index_Some _ _ _ Hat). cbn [obind].
  rewrite (init_heap_map_one_spec h Hh). cbn [obind].
  assert (Hins : zinsert (Z.of_nat (length pre)) (laid_out_heap h)
                         (pre ++ h :: suf)
                 = (pre ++ [laid_out_heap h]) ++ suf).
  { unfold zinsert. rewrite Nat2Z.id, insert_app_r_alt by lia.
    rewrite Nat.sub_diag. cbn. now rewrite <- app_assoc. }
  rewrite Hins.
  replace (Z.of_nat (length pre) + 1)
    with (Z.of_nat (length (pre ++ [laid_out_heap h])))
    by (rewrite length_app; cbn; lia).
  rewrite (IH (pre ++ [laid_out_heap h]) Hall).
  now rewrite <- app_assoc.
Qed.

Lemma init_heap_map_spec hs :
  Forall init_ready hs ->
  init_heap_map hs (Z.of_nat (length hs)) = Done (map laid_out_heap hs).
Proof.
  intros Hall. unfold init_heap_map. rewrite Nat2Z.id.
  apply (init_heap_map_loop_spec hs [] Hall).
Qed.

Lemma laid_out_heap_props h :
  blocks (laid_out_heap h) = blocks h /\
  heap (laid_out_heap h) = heap h /\
  heap_size (laid_out_heap h) = heap_size h /\
  caps (laid_out_heap h) = caps h /\
  info (laid_out_heap h) = info h /\
  maps_chain (heap h) (maps (laid_out_heap h)) /\
  Forall2 same_but_base (maps h) (maps (laid_out_heap h)).
Proof.
  unfold laid_out_heap. cbn [blocks heap heap_size caps info maps].
  do 5 (split; [reflexivity|]).
  split; [apply laid_out_chain | apply laid_out_same].
Qed.

(** X14: [init_heap_map] lays the block maps of every heap of the array
    out back to back from the heap base: map 0 starts at the heap base and
    every further map where the blocks of the one before it end.  Nothing
    but the map bases is written: the sizes, counts, counters and headers
    of the maps and the heap's own fields stay as the image has them. *)
Theorem init_heap_map_lays_out hs :
  Forall init_ready hs ->
  exists hs',
    init_heap_map hs (Z.of_nat (length hs)) = Done hs' /\
    Forall2 (fun h h' =>
               blocks h' = blocks h /\ heap h' = heap h /\
               heap_size h' = heap_size h /\ caps h' = caps h /\
               info h' = info h /\
               maps_chain (heap h) (maps h') /\
               Forall2 same_but_base (maps h) (maps h')) hs hs'.
Proof.
  intros Hall. exists (map laid_out_heap hs).
  split; [apply (init_heap_map_spec hs Hall)|].
  clear Hall. induction hs as [|h hs IH]; cbn [map]; constructor.
  - apply laid_out_heap_props.
  - exact IH.
Qed.

Lemma static_heap_ready b0 b caps_ layout :
  0 < b -> layout <> [] -> layout_ok layout ->
  b + layout_size layout < 2 ^ 32 ->
  init_ready (static_heap b0 b caps_ layout) /\
  laid_out_heap (static_heap b0 b caps_ layout) = fresh_heap b caps_ layout.
Proof.
  intros Hb Hne Hok Hlim.
  assert (Hlen : forall l x, length (fresh_maps x l) = length l).
  { induction l as [|[bs n] l IH]; intros x; simpl; [|rewrite IH]; lia. }
  assert (Hsize : forall l x, maps_size (fresh_maps x l) = layout_size l).
  { induction l as [|[bs n] l IH]; intros x; [reflexivity|].
    cbn [fresh_maps maps_size layout_size foldr block_size count fst snd].
    fold (maps_size (fresh_maps (x + bs * n) l)). fold (layout_size l).
    now rewrite IH. }
  assert (Hlay : forall l x y, laid_out y (fresh_maps x l) = fresh_maps y l).
  { induction l as [|[bs n] l IH]; intros x y; [reflexivity|].
    cbn [fresh_maps laid_out with_base block_size count free_count
           first_free block].
    now rewrite IH. }
  assert (Hnn : forall l x, layout_ok l ->
             Forall (fun m => 0 <= block_size m /\ 0 <= count m)
                    (fresh_maps x l)).
  { induction l as [|[bs n] l IH]; intros x Hl; cbn [fresh_maps];
      [constructor|].
    apply Forall_cons in Hl as [[H1 H2] Hl]. cbn [fst snd] in H1, H2.
    constructor; [cbn [block_size count]; lia | now apply IH]. }
  split.
  - unfold init_ready, static_heap. cbn [maps blocks heap].
    split.
    { destruct layout as [|[bs n] l]; [contradiction | discriminate]. }
    rewrite Hlen, Hsize. split; [reflexivity|]. split; [lia|].
    split; [now apply Hnn | exact Hlim].
  - unfold laid_out_heap, static_heap, fresh_heap.
    cbn [maps blocks heap heap_size caps info]. now rewrite Hlay.
Qed.

Lemma init_heap_map_lays_out_witness :
  exists hs',
    init_heap_map [static_heap 0 24576 3 [(64, 4); (256, 2)]]
                  (Z.of_nat (length [static_heap 0 24576 3
                                       [(64, 4); (256, 2)]]))
    = Done hs' /\
    Forall2 (fun h h' =>
               blocks h' = blocks h /\ heap h' = heap h /\
               heap_size h' = heap_size h /\ caps h' = caps h /\
               info h' = info h /\
               maps_chain (heap h) (maps h') /\
               Forall2 same_but_base (maps h) (maps h'))
            [static_heap 0 24576 3 [(64, 4); (256, 2)]] hs'.
Proof.
  apply (init_heap_map_lays_out [static_heap 0 24576 3 [(64, 4); (256, 2)]]).
  constructor; [|constructor].
  apply static_heap_ready; [lia | discriminate | | unfold layout_size; simpl; lia].
  repeat (apply Forall_cons_2 || apply Forall_nil_2); simpl; lia.
Defined.

Lemma chain_maps_end : forall ms b,
  maps_chain b ms -> maps_end b ms = b + maps_size ms.
Proof.
  induction ms as [|m ms IH]; intros b; simpl; [lia|].
  intros [Hb Hc]. rewrite (IH _ Hc). unfold map_end, maps_size. lia.
Qed.

Lemma heap_wf_init_ready h :
  heap_wf h -> maps h <> [] -> init_ready h /\ laid_out_heap h = h.
Proof.
  intros Hh Hne. split.
  - split; [exact Hne|]. split; [apply (hwf_blocks h Hh)|].
    pose proof (hwf_heap h Hh). split; [lia|]. split.
    + eapply Forall_impl; [apply (hwf_maps h Hh)|].
      intros m Hwf. cbn beta.
      pose proof (wf_block_size m Hwf). pose proof (wf_count m Hwf). lia.
    + rewrite <- (chain_maps_end _ _ (hwf_chain h Hh)).
      pose proof (hwf_end h Hh). pose proof (hwf_size h Hh). lia.
  - unfold laid_out_heap. rewrite (laid_out_id _ _ (hwf_chain h Hh)).
    now destruct h.
Qed.

(** X15: [init_heap_map] only computes bases, so on heaps whose block maps
    are laid out already it changes nothing: in particular it does not
    reset headers, [free_count], [first_free] or the heap counters, and
    whatever is allocated stays allocated. *)
Theorem init_heap_map_keeps_laid_out_heaps hs :
  Forall (fun h => heap_wf h /\ maps h <> []) hs ->
  init_heap_map hs (Z.of_nat (length hs)) = Done hs.
Proof.
  intros Hall.
  rewrite (init_heap_map_spec hs).
  - f_equal. induction Hall as [|h hs [Hh Hne] _ IH]; [reflexivity|].
    cbn [map]. now rewrite IH, (proj2 (heap_wf_init_ready h Hh Hne)).
  - eapply Forall_impl; [exact Hall|]. intros h [Hh Hne].
    apply (heap_wf_init_ready h Hh Hne).
Qed.

Lemma init_heap_map_keeps_laid_out_heaps_witness :
  init_heap_map [scenario_full_heap 24576 3] 1
  = Done [scenario_full_heap 24576 3].
Proof.
  apply (init_heap_map_keeps_laid_out_heaps [scenario_full_heap 24576 3]).
  constructor; [|constructor]. split; [|discriminate].
  apply scenario_full_heap_wf; [lia | lia | reflexivity].
Defined.




(** ** Buffer allocation over the heaps of the memory map *)

(** The heap loop of [_balloc_unlocked]: the buffer heaps from [i] on are
    tried in order; the ones before [stop] that have the capabilities
    cannot serve the request; [stop] is the heap that serves it, or the
    end of the array when the result is null. *)
Lemma balloc_loop_served P flags caps_ bytes al :
  0 <= bytes -> 0 <= al -> bytes + al < 2 ^ 32 ->
  forall fuel i s p s1,
    mm_wf P s -> platform_ok P s ->
    (length (buffer s) - i <= fuel)%nat ->
    balloc_loop P fuel flags caps_ bytes al i s = Done (p, s1) ->
    exists stop : nat,
      (i <= stop)%nat /\
      (forall k hk, (i <= k < stop)%nat -> buffer s !! k = Some hk ->
                    Z.land (caps hk) caps_ = caps_ ->
                    alloc_heap_buffer P hk flags caps_ bytes al
                    = Done (NULL, hk)) /\
      ((p = NULL /\ s1 = s /\ (length (buffer s) <= stop)%nat) \/
       exists h h',
         buffer s !! stop = Some h /\ Z.land (caps h) caps_ = caps_ /\
         s1 = heap_put s (InBuffer stop) h' /\ alloc_ok P h h' p /\
         alloc_heap_buffer P h flags caps_ bytes al = Done (p, h')).
Proof.
  intros Hb Hal Hsum. induction fuel as [|fuel IH];
    intros i s p s1 Hwf Hpl Hfuel H; cbn [balloc_loop] in H.
  { inversion H; subst. exists i. split; [lia|].
    split; [intros k hk Hk; lia|]. left. repeat split. lia. }
  destruct (Nat.ltb_spec i (length (buffer s))) as [Hi|Hi].
  2:{ inversion H; subst. exists i. split; [lia|].
      split; [intros k hk Hk; lia|]. left. now repeat split. }
  destruct (get_heap_from_caps (drop i (buffer s)) caps_) as [k|] eqn:Ek.
  2:{ exists (length (buffer s)). inversion H; subst. split; [lia|].
      split; [|left; now repeat split].
      intros j hj Hj Hl Hc. exfalso.
      apply get_heap_from_caps_None in Ek.
      apply (Ek (j - i)%nat hj); [|exact Hc].
      rewrite lookup_drop. now replace (i + (j - i))%nat with j by lia. }
  apply get_heap_from_caps_Some in Ek as [[h [Hk Hcaps]] Hfirst].
  rewrite lookup_drop in Hk. rewrite Hk in H.
  assert (Hskip : forall j hj, (i <= j < i + k)%nat ->
                    buffer s !! j = Some hj ->
                    Z.land (caps hj) caps_ = caps_ -> False).
  { intros j hj Hj Hl Hc. apply (Hfirst (j - i)%nat hj); [lia| |exact Hc].
    rewrite lookup_drop. now replace (i + (j - i))%nat with j by lia. }
  destruct (alloc_heap_buffer P h flags caps_ bytes al)
    as [[q h1]| |] eqn:Ea; cbn [obind] in H; try discriminate.
  assert (Hh : heap_wf h)
    by (apply (mm_wf_heap_at P s (InBuffer (i + k)) h Hwf Hk)).
  destruct (alloc_heap_buffer_spec P h flags caps_ bytes al q h1 Hh
              (Hpl (InBuffer (i + k)%nat) h Hk) Hb Hal Hsum Ea)
    as [[-> ->]|Hok].
  - change (NULL =? NULL) with true in H. cbn iota in H.
    rewrite (heap_put_id s (InBuffer (i + k)) h Hk) in H.
    destruct (IH (S (i + k)) s p s1 Hwf Hpl ltac:(lia) H)
      as [stop [Hstop [Hbefore Hres]]].
    exists stop. split; [lia|]. split; [|exact Hres].
    intros j hj Hj Hl Hc.
    destruct (Nat.lt_ge_cases j (i + k)%nat) as [Hlt|Hge];
      [exfalso; apply (Hskip j hj); [lia | assumption..]|].
    destruct (Nat.eq_dec j (i + k)%nat) as [->|Hne];
      [assert (hj = h) by congruence; now subst hj|].
    apply (Hbefore j hj); [lia | assumption..].
  - destruct (Z.eqb_spec q NULL) as [->|_]; [now destruct Hok|].
    inversion H; subst. exists (i + k)%nat. split; [lia|].
    split; [intros j hj Hj Hl Hc; exfalso; now apply (Hskip j hj)|].
    right. exists h, h1.
    split; [exact Hk|]. split; [exact Hcaps|]. split; [reflexivity|].
    split; [exact Hok | exact Ea].
Qed.

Lemma balloc_loop_all_fail P flags caps_ bytes al :
  forall fuel i s,
    (forall k hk, (i <= k)%nat -> buffer s !! k = Some hk ->
                  Z.land (caps hk) caps_ = caps_ ->
                  alloc_heap_buffer P hk flags caps_ bytes al
                  = Done (NULL, hk)) ->
    balloc_loop P fuel flags caps_ bytes al i s = Done (NULL, s).
Proof.
  induction fuel as [|fuel IH]; intros i s Hfail; cbn [balloc_loop];
    [reflexivity|].
  destruct (i <? length (buffer s))%nat; [|reflexivity].
  destruct (get_heap_from_caps (drop i (buffer s)) caps_) as [k|] eqn:Ek;
    [|reflexivity].
  apply get_heap_from_caps_Some in Ek as [[h [Hk Hcaps]] _].
  rewrite lookup_drop in Hk. rewrite Hk.
  rewrite (Hfail (i + k)%nat h ltac:(lia) Hk Hcaps). cbn [obind].
  change (NULL =? NULL) with true. cbn iota.
  rewrite (heap_put_id s (InBuffer (i + k)) h Hk).
  apply IH. intros j hj Hj. apply Hfail. lia.
Qed.

(** X17: a buffer allocation whose size and alignment add up to less than
    2^32 is served by the first buffer heap, in array order, that has all
    the capabilities asked for and can serve the request: the heaps before
    it either lack a capability or fail on the same request.  Only that heap changes: the other buffer heaps, the
    system, system-runtime and runtime heaps and the heap trace flag are
    left as they were, and the lock is released. *)
Theorem rballoc_align_first_capable_heap P flags caps_ bytes al w p w1 :
  mm_wf P (memmap w) -> platform_ok P (memmap w) ->
  0 <= bytes -> 0 <= al -> bytes + al < 2 ^ 32 ->
  rballoc_align P flags caps_ bytes al w = Done (p, w1) -> p <> NULL ->
  exists (j : nat) h h',
    buffer (memmap w) !! j = Some h /\
    Z.land (caps h) caps_ = caps_ /\
    alloc_heap_buffer P h flags caps_ bytes al = Done (p, h') /\
    (forall k hk, (k < j)%nat -> buffer (memmap w) !! k = Some hk ->
                  Z.land (caps hk) caps_ = caps_ ->
                  alloc_heap_buffer P hk flags caps_ bytes al
                  = Done (NULL, hk)) /\
    buffer (memmap w1) = <[j := h']> (buffer (memmap w)) /\
    system (memmap w1) = system (memmap w) /\
    system_runtime (memmap w1) = system_runtime (memmap w) /\
    runtime (memmap w1) = runtime (memmap w) /\
    heap_trace_updated (memmap w1) = heap_trace_updated (memmap w) /\
    lock (memmap w1) = false.
Proof.
  intros Hwf Hpl Hb Hal Hsum Hrun Hp. rewrite rballoc_align_eq in Hrun.
  unfold _balloc_unlocked in Hrun.
  destruct (balloc_loop P _ flags caps_ bytes al 0 (set_lock (memmap w) true))
    as [[q s1]| |] eqn:El; cbn [omap fst snd] in Hrun; try discriminate.
  injection Hrun as <- <-.
  destruct (balloc_loop_served P flags caps_ bytes al Hb Hal Hsum
              (length (buffer (set_lock (memmap w) true))) 0
              (set_lock (memmap w) true) q s1 Hwf Hpl ltac:(lia) El)
    as [stop [_ [Hbefore [[Hq _]|[h [h' (Hl & Hc & -> & _ & Ha)]]]]]];
    [contradiction|].
  exists stop, h, h'. split; [exact Hl|]. split; [exact Hc|].
  split; [exact Ha|]. split.
  { intros k hk Hk. apply Hbefore. lia. }
  now repeat split.
Qed.

Lemma rballoc_align_first_capable_heap_witness :
  exists p w1,
    rballoc_align example_platform 0 2 200 8 example_machine = Done (p, w1) /\
    p <> NULL /\
    exists (j : nat) h h',
      buffer (memmap example_machine) !! j = Some h /\
      Z.land (caps h) 2 = 2 /\
      alloc_heap_buffer example_platform h 0 2 200 8 = Done (p, h') /\
      (forall k hk, (k < j)%nat ->
                    buffer (memmap example_machine) !! k = Some hk ->
                    Z.land (caps hk) 2 = 2 ->
                    alloc_heap_buffer example_platform hk 0 2 200 8
                    = Done (NULL, hk)) /\
      buffer (memmap w1) = <[j := h']> (buffer (memmap example_machine)) /\
      system (memmap w1) = system (memmap example_machine) /\
      system_runtime (memmap w1) = system_runtime (memmap example_machine) /\
      runtime (memmap w1) = runtime (memmap example_machine) /\
      heap_trace_updated (memmap w1)
      = heap_trace_updated (memmap example_machine) /\
      lock (memmap w1) = false.
Proof.
  eexists. eexists. split; [vm_compute; reflexivity|].
  split; [discriminate|].
  apply (rballoc_align_first_capable_heap example_platform 0 2 200 8
           example_machine _ _ example_mm_wf example_platform_ok);
    try lia.
  - vm_compute. reflexivity.
  - discriminate.
Defined.

(** X18: a buffer allocation whose size and alignment add up to less than
    2^32 returns null only when no buffer heap with the capabilities
    asked for can serve the request, and then no heap has changed; conversely, when every such heap fails, [rballoc_align]
    returns null (it never gives up before the last heap). *)
Theorem rballoc_align_null_iff_no_heap_serves P flags caps_ bytes al w :
  mm_wf P (memmap w) -> platform_ok P (memmap w) ->
  0 <= bytes -> 0 <= al -> bytes + al < 2 ^ 32 ->
  let all_fail :=
    forall k hk, buffer (memmap w) !! k = Some hk ->
                 Z.land (caps hk) caps_ = caps_ ->
                 alloc_heap_buffer P hk flags caps_ bytes al
                 = Done (NULL, hk) in
  (forall w1, rballoc_align P flags caps_ bytes al w = Done (NULL, w1) ->
              all_fail /\ heaps_of (memmap w1) = heaps_of (memmap w)) /\
  (all_fail ->
   rballoc_align P flags caps_ bytes al w
   = Done (NULL, mk_machine (set_lock (memmap w) false)
                   (events w ++ [EvLock; EvAllocator; EvUnlock]))).
Proof.
  intros Hwf Hpl Hb Hal Hsum all_fail. split.
  - intros w1 Hrun. rewrite rballoc_align_eq in Hrun.
    unfold _balloc_unlocked in Hrun.
    destruct (balloc_loop P _ flags caps_ bytes al 0
                (set_lock (memmap w) true))
      as [[q s1]| |] eqn:El; cbn [omap fst snd] in Hrun; try discriminate.
    injection Hrun as -> <-.
    destruct (balloc_loop_served P flags caps_ bytes al Hb Hal Hsum
                (length (buffer (set_lock (memmap w) true))) 0
                (set_lock (memmap w) true) NULL s1 Hwf Hpl ltac:(lia) El)
      as [stop [_ [Hbefore [(_ & -> & Hlen)|[h [h' (_ & _ & _ & Hok & _)]]]]]].
    + split; [|reflexivity]. intros k hk Hl Hc.
      apply (Hbefore k hk); [|exact Hl | exact Hc].
      apply lookup_lt_Some in Hl. cbn [set_lock buffer] in Hlen. lia.
    + now destruct Hok.
  - intros Hall. rewrite rballoc_align_eq. unfold _balloc_unlocked.
    rewrite (balloc_loop_all_fail P flags caps_ bytes al _ 0
               (set_lock (memmap w) true)).
    + reflexivity.
    + intros k hk _. apply Hall.
Qed.

Lemma rballoc_align_null_iff_no_heap_serves_witness :
  exists w1,
    rballoc_align example_platform 0 1 100000 8 example_machine
    = Done (NULL, w1) /\
    (forall k hk, buffer (memmap example_machine) !! k = Some hk ->
                  Z.land (caps hk) 1 = 1 ->
                  alloc_heap_buffer example_platform hk 0 1 100000 8
                  = Done (NULL, hk)) /\
    heaps_of (memmap w1) = heaps_of (memmap example_machine).
Proof.
  eexists. split; [vm_compute; reflexivity|].
  apply (proj1 (rballoc_align_null_iff_no_heap_serves example_platform 0 1
                  100000 8 example_machine example_mm_wf example_platform_ok
                  ltac:(lia) ltac:(lia) ltac:(lia))).
  vm_compute. reflexivity.
Defined.

(** ** Completeness of the contiguous search *)

(** X19: [alloc_cont_blocks], asked for a size that is not smaller than
    the alignment (the caller passes the size with the alignment added),
    finds a run whenever there is one: it returns null, leaving the heap
    untouched, exactly when the block map
    has no run of the needed number of consecutive unused blocks
    anywhere, and a non-null pointer otherwise (free blocks that are
    scattered do not help, and the count of free blocks alone does not
    decide). *)
Theorem alloc_cont_blocks_fails_iff_no_run h level caps_ bytes al m :
  heap_wf h -> zlookup (maps h) level = Some m ->
  0 <= al -> al <= bytes -> 0 < bytes < 2 ^ 32 ->
  let cnt := blocks_needed bytes (block_size m) in
  let run_at s :=
    0 <= s /\ s + cnt <= count m /\
    forall j, s <= j < s + cnt -> is_unused (block m) j in
  (alloc_cont_blocks h level caps_ bytes al = Done (NULL, h) <->
   ~ exists s, run_at s) /\
  ((exists s, run_at s) ->
   exists q h', alloc_cont_blocks h level caps_ bytes al = Done (q, h') /\
                q <> NULL).
Proof.
  intros Hh Hl Hal Halb Hb cnt run_at.
  pose proof (heap_wf_map h level m Hh Hl) as Hwf.
  pose proof (wf_block_size m Hwf) as Hbs.
  pose proof (wf_end m Hwf) as Hend.
  destruct (block_count_spec bytes (block_size m) Hbs Hb) as [Hc1 _].
  change (1 <= cnt) in Hc1.
  assert (Hnone : (forall s, first_free m <= s -> s + cnt <= count m ->
                     exists j, s <= j < s + cnt /\ is_used (block m) j) ->
                  ~ exists s, run_at s).
  { intros Hused [s (Hs0 & Hs1 & Hrun)].
    destruct (Z.le_gt_cases (first_free m) s) as [Hge|Hlt].
    - destruct (Hused s Hge Hs1) as [j [Hj Hu]].
      apply (used_not_unused (block m) j Hu), Hrun, Hj.
    - apply (used_not_unused (block m) s).
      + apply (wf_below m Hwf). lia.
      + apply Hrun. lia. }
  destruct (alloc_cont_blocks_spec h level caps_ bytes al m Hh Hl Hb)
    as [[Hfail Hused]|[start [c [ff' [blk' [Hc [_ [Hc2 [Hs1 [Hs2 [Hrun
         [Halloc _]]]]]]]]]]]].
  - split; [split; [intros _; now apply Hnone | intros _; exact Hfail]|].
    intros Hex. exfalso. now apply (Hnone Hused).
  - fold cnt in Hc. subst c.
    pose proof (proj1 (wf_first_free m Hwf)) as Hff.
    destruct (block_addr_range m start Hwf ltac:(lia)) as [Hr1 Hr2].
    assert (Hfit : block_addr m start <= align_up al (block_addr m start)
                   < block_addr m start + cnt * block_size m).
    { apply align_up_within; try lia.
      - unfold block_addr, map_end in *. nia.
      - destruct (al =? 0); [nia|].
        destruct (block_addr m start mod al =? 0); nia. }
    assert (Hq : align_up al (block_addr m start) <> NULL)
      by (unfold NULL; lia).
    assert (Hex : exists s, run_at s).
    { exists start. split; [lia|]. split; [lia | exact Hrun]. }
    split; [split|].
    + intros Hnull. rewrite Halloc in Hnull. congruence.
    + intros Hno. contradiction.
    + intros _. eexists _, _. split; [exact Halloc | exact Hq].
Qed.

Lemma alloc_cont_blocks_fails_iff_no_run_witness :
  alloc_cont_blocks (fresh_heap 24576 3 [(64, 4); (256, 2)]) 0 0 320 8
  = Done (NULL, fresh_heap 24576 3 [(64, 4); (256, 2)]) /\
  exists q h',
    alloc_cont_blocks (fresh_heap 24576 3 [(64, 4); (256, 2)]) 0 0 200 8
    = Done (q, h') /\ q <> NULL.
Proof.
  split.
  - apply (proj1 (alloc_cont_blocks_fails_iff_no_run
                    (fresh_heap 24576 3 [(64, 4); (256, 2)]) 0 0 320 8
                    (mk_map 64 4 4 0 (replicate 4 hdr_free) 24576)
                    example_buffer_heap_wf eq_refl
                    ltac:(lia) ltac:(lia) ltac:(lia))).
    intros [s (Hs0 & Hs1 & _)].
    change (blocks_needed 320 (block_size
              (mk_map 64 4 4 0 (replicate 4 hdr_free) 24576))) with 5 in Hs1.
    cbn [count] in Hs1. lia.
  - apply (proj2 (alloc_cont_blocks_fails_iff_no_run
                    (fresh_heap 24576 3 [(64, 4); (256, 2)]) 0 0 200 8
                    (mk_map 64 4 4 0 (replicate 4 hdr_free) 24576)
                    example_buffer_heap_wf eq_refl
                    ltac:(lia) ltac:(lia) ltac:(lia))).
    exists 0. split; [lia|]. split; [vm_compute; discriminate|].
    intros j Hj. exists hdr_free. split; [|reflexivity].
    change (blocks_needed 200 (block_size
              (mk_map 64 4 4 0 (replicate 4 hdr_free) 24576))) with 4 in Hj.
    assert (Hc : j = 0 \/ j = 1 \/ j = 2 \/ j = 3) by lia.
    destruct Hc as [->|[->|[->| ->]]]; reflexivity.
Defined.

(** ** First fit over the block maps *)

(** A block map that a single-block request passes over: it has no free
    block, or its blocks are too small for the request and its alignment
    slack. *)
Lemma get_ptr_loop_first_fit h caps_ bytes al :
  heap_wf h -> 0 <= bytes -> 0 <= al -> bytes + al < 2 ^ 32 ->
  forall n i,
    0 <= i -> i + Z.of_nat n = Z.of_nat (length (maps h)) ->
    (get_ptr_loop h caps_ bytes al i n bytes = Done (NULL, h) /\
     forall k mk, i <= k -> zlookup (maps h) k = Some mk ->
                  free_count mk = 0 \/ block_size mk < bytes + al) \/
    exists q h' level m,
      get_ptr_loop h caps_ bytes al i n bytes = Done (q, h') /\
      q <> NULL /\ i <= level /\ zlookup (maps h) level = Some m /\
      0 < free_count m /\ bytes <= block_size m /\
      placed h h' level (first_free m) 1 q bytes al /\
      forall k mk, i <= k < level -> zlookup (maps h) k = Some mk ->
                   free_count mk = 0 \/ block_size mk < bytes + al.
Proof.
  intros Hh Hb Hal Hsum. induction n as [|n IH]; intros i Hi Hn.
  { left. split; [reflexivity|]. intros k mk Hk Hl.
    apply zlookup_lt in Hl. lia. }
  cbn [get_ptr_loop].
  destruct (zlookup_is_Some (maps h) i ltac:(lia)) as [m Hm].
  rewrite (at_index_Some _ _ _ Hm). cbn [obind].
  pose proof (heap_wf_map h i m Hh Hm) as Hwf.
  match goal with
  | |- context [block_size m <? ?t] => set (temp := t)
  end.
  assert (Htemp : bytes <= temp <= bytes + al).
  { unfold temp. destruct (al =? 0); [lia|].
    destruct (_ =? 0); [lia|]. rewrite wrap32_small by lia. lia. }
  assert (Hskip : free_count m = 0 \/ block_size m < bytes + al ->
    (get_ptr_loop h caps_ bytes al (i + 1) n bytes = Done (NULL, h) /\
     forall k mk, i + 1 <= k -> zlookup (maps h) k = Some mk ->
                  free_count mk = 0 \/ block_size mk < bytes + al) \/
    (exists q h' level m0,
        get_ptr_loop h caps_ bytes al (i + 1) n bytes = Done (q, h') /\
        q <> NULL /\ i + 1 <= level /\ zlookup (maps h) level = Some m0 /\
        0 < free_count m0 /\ bytes <= block_size m0 /\
        placed h h' level (first_free m0) 1 q bytes al /\
        forall k mk, i + 1 <= k < level -> zlookup (maps h) k = Some mk ->
                     free_count mk = 0 \/ block_size mk < bytes + al) ->
    (get_ptr_loop h caps_ bytes al (i + 1) n bytes = Done (NULL, h) /\
     forall k mk, i <= k -> zlookup (maps h) k = Some mk ->
                  free_count mk = 0 \/ block_size mk < bytes + al) \/
    (exists q h' level m0,
        get_ptr_loop h caps_ bytes al (i + 1) n bytes = Done (q, h') /\
        q <> NULL /\ i <= level /\ zlookup (maps h) level = Some m0 /\
        0 < free_count m0 /\ bytes <= block_size m0 /\
        placed h h' level (first_free m0) 1 q bytes al /\
        forall k mk, i <= k < level -> zlookup (maps h) k = Some mk ->
                     free_count mk = 0 \/ block_size mk < bytes + al)).
  { intros Hthis [[Hnull Hrest]|[q [h' [level [m0 (Hrun & Hq & Hlv & Hl0 & Hfc
                                              & Hsz & Hpl & Hrest)]]]]].
    - left. split; [exact Hnull|]. intros k mk Hk Hl.
      destruct (Z.eq_dec k i) as [->|Hne];
        [assert (mk = m) by congruence; now subst mk|].
      apply (Hrest k mk); [lia | exact Hl].
    - right. exists q, h', level, m0.
      split; [exact Hrun|]. split; [exact Hq|]. split; [lia|].
      do 4 (split; [assumption|]). intros k mk Hk Hl.
      destruct (Z.eq_dec k i) as [->|Hne];
        [assert (mk = m) by congruence; now subst mk|].
      apply (Hrest k mk); [lia | exact Hl]. }
  destruct (Z.ltb_spec (block_size m) temp) as [Hsmall|Hbig];
    [apply Hskip; [right; lia | apply IH; lia]|].
  destruct (Z.eqb_spec (free_count m) 0) as [Hz|Hnz];
    [apply Hskip; [now left | apply IH; lia]|].
  clear Hskip. right. pose proof (free_count_pos m Hwf Hnz) as Hfc.
  destruct (first_free_addr m Hwf Hfc) as [Haddr Hffr].
  destruct (alloc_block_placed h i caps_ al m bytes Hh Hm Hfc Hal Hb)
    as [q [h' [Hrun [Hq Hpl]]]].
  { unfold temp in Hbig. rewrite Haddr in Hbig.
    destruct (al =? 0); [lia|].
    destruct (block_addr m (first_free m) mod al =? 0); [lia|].
    rewrite wrap32_small in Hbig by lia. lia. }
  exists q, h', i, m. split; [exact Hrun|]. split; [exact Hq|].
  split; [lia|]. split; [exact Hm|]. split; [exact Hfc|].
  split; [lia|]. split; [exact Hpl|]. intros k mk Hk. lia.
Qed.

(** X20: [get_ptr_from_heap] is first fit, for a request whose size and
    alignment add up to less than 2^32.  A non-null result (not
    translated for shared memory) is the lowest free block of the first
    block map, in table order, that has a free block and whose blocks
    hold the request: every header below the block taken is in use, and
    every map before it is full or has blocks smaller than the request
    plus its alignment.  Null means that this holds of all the maps, and
    the heap is then untouched. *)
Theorem get_ptr_from_heap_first_fit P h flags caps_ bytes al p h' :
  heap_wf h -> 0 <= bytes -> 0 <= al -> bytes + al < 2 ^ 32 ->
  Z.land flags (SOF_MEM_FLAG_SHARED P) = 0 ->
  get_ptr_from_heap P h flags caps_ bytes al = Done (p, h') ->
  (p = NULL ->
   h' = h /\
   forall k mk, zlookup (maps h) k = Some mk ->
                free_count mk = 0 \/ block_size mk < bytes + al) /\
  (p <> NULL ->
   exists level m,
     zlookup (maps h) level = Some m /\
     0 < free_count m /\ bytes <= block_size m /\
     placed h h' level (first_free m) 1 p bytes al /\
     (forall j, 0 <= j < first_free m -> is_used (block m) j) /\
     forall k mk, 0 <= k < level -> zlookup (maps h) k = Some mk ->
                  free_count mk = 0 \/ block_size mk < bytes + al).
Proof.
  intros Hh Hb Hal Hsum Hfl. unfold get_ptr_from_heap.
  destruct (Z.land al (wrap32 (al - 1)) =? 0); [|discriminate].
  destruct (get_ptr_loop_first_fit h caps_ bytes al Hh Hb Hal Hsum
              (Z.to_nat (blocks h)) 0 ltac:(lia))
    as [[Hnone Hall]|[q [h1 [level [m (Hsome & Hq & Hlv & Hm & Hfc & Hsz
                                        & Hpl & Hbefore)]]]]].
  { rewrite (hwf_blocks h Hh). lia. }
  - rewrite Hnone. cbn [obind]. change (NULL =? NULL) with true.
    cbn [negb andb]. intros H. injection H as <- <-.
    split; [|intros Hp; now elim Hp]. intros _. split; [reflexivity|].
    intros k mk Hl. apply (Hall k mk); [|exact Hl].
    apply zlookup_lt in Hl. lia.
  - rewrite Hsome. cbn [obind]. rewrite Hfl. change (0 =? 0) with true.
    cbn [negb]. rewrite andb_false_r. intros H. injection H as <- <-.
    split; [intros Hp; contradiction|]. intros _.
    exists level, m. do 4 (split; [assumption|]).
    split; [|exact Hbefore].
    apply (wf_below m (heap_wf_map h level m Hh Hm)).
Qed.

Lemma get_ptr_from_heap_first_fit_witness :
  exists h' level m,
    get_ptr_from_heap example_platform
      (fresh_heap 24576 3 [(64, 4); (256, 2)]) 0 1 100 64
    = Done (24832, h') /\
    zlookup (maps (fresh_heap 24576 3 [(64, 4); (256, 2)])) level = Some m /\
    0 < free_count m /\ 100 <= block_size m /\
    placed (fresh_heap 24576 3 [(64, 4); (256, 2)]) h' level (first_free m)
           1 24832 100 64 /\
    (forall j, 0 <= j < first_free m -> is_used (block m) j) /\
    forall k mk, 0 <= k < level ->
                 zlookup (maps (fresh_heap 24576 3 [(64, 4); (256, 2)])) k
                 = Some mk ->
                 free_count mk = 0 \/ block_size mk < 100 + 64.
Proof.
  eexists.
  assert (Hrun : get_ptr_from_heap example_platform
                   (fresh_heap 24576 3 [(64, 4); (256, 2)]) 0 1 100 64
                 = Done (24832, _)) by (vm_compute; reflexivity).
  destruct (proj2 (get_ptr_from_heap_first_fit example_platform
                     (fresh_heap 24576 3 [(64, 4); (256, 2)]) 0 1 100 64
                     24832 _ example_buffer_heap_wf ltac:(lia) ltac:(lia)
                     ltac:(lia) eq_refl Hrun) ltac:(discriminate))
    as [level [m Hres]].
  exists level, m. split; [exact Hrun | exact Hres].
Defined.

(** The single-block loop of [alloc_heap_buffer] finds nothing only when
    every block map is full or too small. *)
Lemma single_block_loop_null h caps_ bytes al :
  heap_wf h -> 0 <= bytes -> 0 < al -> bytes + al < 2 ^ 32 ->
  forall n i,
    0 <= i -> i + Z.of_nat n = Z.of_nat (length (maps h)) ->
    single_block_loop h caps_ bytes al i n bytes = Done (NULL, h) ->
    forall k mk, i <= k -> zlookup (maps h) k = Some mk ->
                 free_count mk = 0 \/ block_size mk < bytes + al.
Proof.
  intros Hh Hb Hal Hsum. induction n as [|n IH]; intros i Hi Hn Hnull.
  { intros k mk Hk Hl. apply zlookup_lt in Hl. lia. }
  cbn [single_block_loop] in Hnull.
  destruct (zlookup_is_Some (maps h) i ltac:(lia)) as [m Hm].
  rewrite (at_index_Some _ _ _ Hm) in Hnull. cbn [obind] in Hnull.
  pose proof (heap_wf_map h i m Hh Hm) as Hwf.
  unfold umod in Hnull. destruct (Z.eqb_spec al 0); [lia|].
  cbn [obind] in Hnull.
  match type of Hnull with
  | context [?t <=? block_size m] => set (temp := t) in Hnull
  end.
  assert (Htemp : bytes <= temp <= bytes + al).
  { unfold temp. destruct (_ =? 0); [lia|].
    rewrite wrap32_small by lia. lia. }
  assert (Hthis : free_count m = 0 \/ block_size m < bytes + al).
  { destruct (Z.leb_spec temp (block_size m)) as [Hbig|Hsmall];
      [|right; lia].
    destruct (Z.eqb_spec (free_count m) 0) as [Hz|Hnz]; [now left|].
    exfalso. cbn [negb andb] in Hnull.
    pose proof (free_count_pos m Hwf Hnz) as Hfc.
    destruct (first_free_addr m Hwf Hfc) as [Haddr Hffr].
    destruct (alloc_block_placed h i caps_ al m bytes Hh Hm Hfc ltac:(lia)
                Hb) as [q [h' [Hrun [Hq _]]]].
    { unfold temp in Hbig. rewrite Haddr in Hbig.
      destruct (Z.eqb_spec al 0); [lia|].
      destruct (block_addr m (first_free m) mod al =? 0); [lia|].
      rewrite wrap32_small in Hbig by lia. lia. }
    rewrite Hrun in Hnull. congruence. }
  assert (Hnext : single_block_loop h caps_ bytes al (i + 1) n bytes
                  = Done (NULL, h)).
  { destruct Hthis as [Hz|Hsmall].
    - rewrite Hz in Hnull. change (0 =? 0) with true in Hnull.
      cbn [negb] in Hnull. now rewrite andb_false_r in Hnull.
    - destruct (Z.leb_spec temp (block_size m)) as [Hbig|_];
        [|exact Hnull].
      destruct (Z.eqb_spec (free_count m) 0) as [_|Hnz]; [exact Hnull|].
      exfalso. cbn [negb andb] in Hnull.
      pose proof (free_count_pos m Hwf Hnz) as Hfc.
      destruct (first_free_addr m Hwf Hfc) as [Haddr Hffr].
      destruct (alloc_block_placed h i caps_ al m bytes Hh Hm Hfc ltac:(lia)
                  Hb) as [q [h' [Hrun [Hq _]]]].
      { unfold temp in Hbig. rewrite Haddr in Hbig.
        destruct (Z.eqb_spec al 0); [lia|].
        destruct (block_addr m (first_free m) mod al =? 0); [lia|].
        rewrite wrap32_small in Hbig by lia. lia. }
      rewrite Hrun in Hnull. congruence. }
  intros k mk Hk Hl. destruct (Z.eq_dec k i) as [->|Hne];
    [assert (mk = m) by congruence; now subst mk|].
  apply (IH (i + 1) ltac:(lia) ltac:(lia) Hnext k mk); [lia | exact Hl].
Qed.

(** X21: [alloc_heap_buffer] prefers a single block: the run it takes
    spans more than one block only when no block map has a free block
    that holds the request with its alignment slack. *)
Theorem alloc_heap_buffer_prefers_single_block P h flags caps_ bytes al p h' :
  heap_wf h -> 0 <= bytes -> 0 <= al -> bytes + al < 2 ^ 32 ->
  Z.land flags (SOF_MEM_FLAG_SHARED P) = 0 -> p <> NULL ->
  alloc_heap_buffer P h flags caps_ bytes al = Done (p, h') ->
  exists level s c,
    placed h h' level s c p bytes al /\
    (1 < c ->
     forall k mk, zlookup (maps h) k = Some mk ->
                  free_count mk = 0 \/ block_size mk < bytes + al).
Proof.
  intros Hh Hb Hal Hsum Hfl Hp. unfold alloc_heap_buffer.
  destruct (Z.land al (wrap32 (al - 1)) =? 0); [|discriminate].
  rewrite Hfl. change (0 =? 0) with true. cbn [negb].
  destruct (Z.eq_dec al 0) as [->|Hne].
  { destruct (Z.to_nat (blocks h)) as [|n] eqn:En.
    - cbn [single_block_loop obind]. change (NULL =? NULL) with true.
      cbn iota. rewrite En. cbn [cont_blocks_loop obind].
      change (NULL =? NULL) with true. cbn [negb andb].
      intros H. inversion H. congruence.
    - cbn [single_block_loop].
      destruct (at_index (maps h) 0) as [m| |]; cbn [obind];
        discriminate. }
  destruct (single_block_loop_placed h caps_ bytes al Hh Hb ltac:(lia) Hsum
              (Z.to_nat (blocks h)) 0 ltac:(lia))
    as [Hnone|[q [h1 [level [s [Hsome [Hq Hpl]]]]]]].
  { rewrite (hwf_blocks h Hh). lia. }
  - pose proof (single_block_loop_null h caps_ bytes al Hh Hb ltac:(lia)
                  Hsum (Z.to_nat (blocks h)) 0 ltac:(lia)
                  ltac:(rewrite (hwf_blocks h Hh); lia) Hnone) as Hall.
    rewrite Hnone. cbn [obind]. change (NULL =? NULL) with true. cbn iota.
    rewrite (wrap32_small (bytes + al)) by lia.
    destruct (cont_blocks_loop_placed h caps_ (bytes + al) al bytes Hh Hal
                Hb ltac:(lia) Hsum (Z.to_nat (blocks h)))
      as [Hnone2|[q [h1 [level [s [c [Hsome [Hq Hpl]]]]]]]].
    { rewrite (hwf_blocks h Hh). lia. }
    + rewrite Hnone2. cbn [obind]. rewrite andb_false_r.
      intros H. inversion H. congruence.
    + rewrite Hsome. cbn [obind]. rewrite andb_false_r.
      intros H. inversion H; subst. exists level, s, c.
      split; [exact Hpl|]. intros _ k mk Hl.
      apply (Hall k mk); [|exact Hl]. apply zlookup_lt in Hl. lia.
  - rewrite Hsome. cbn [obind].
    destruct (Z.eqb_spec q NULL) as [|_]; [contradiction|]. cbn [obind].
    rewrite andb_false_r. intros H. inversion H; subst.
    exists level, s, 1. split; [exact Hpl | lia].
Qed.

Lemma alloc_heap_buffer_prefers_single_block_witness :
  exists h' level s c,
    alloc_heap_buffer example_platform (scenario_heap 24576 3) 0 1 200 8
    = Done (24576, h') /\
    placed (scenario_heap 24576 3) h' level s c 24576 200 8 /\
    (1 < c ->
     forall k mk, zlookup (maps (scenario_heap 24576 3)) k = Some mk ->
                  free_count mk = 0 \/ block_size mk < 200 + 8).
Proof.
  eexists.
  assert (Hrun : alloc_heap_buffer example_platform (scenario_heap 24576 3)
                   0 1 200 8 = Done (24576, _)) by (vm_compute; reflexivity).
  destruct (alloc_heap_buffer_prefers_single_block example_platform
              (scenario_heap 24576 3) 0 1 200 8 24576 _
              (scenario_heap_wf 24576 3 ltac:(lia) ltac:(lia))
              ltac:(lia) ltac:(lia) ltac:(lia) eq_refl ltac:(discriminate)
              Hrun) as [level [s [c Hres]]].
  exists level, s, c. split; [exact Hrun | exact Hres].
Defined.

(** ** The heap counters follow the block maps *)

Lemma used_bytes_insert m' : forall ms (i : nat) m,
  ms !! i = Some m ->
  used_bytes (<[i := m']> ms)
  = used_bytes ms - (count m - free_count m) * block_size m
    + (count m' - free_count m') * block_size m'.
Proof.
  induction ms as [|m0 ms IH]; intros [|i] m Hl; try discriminate.
  - injection Hl as ->. cbn [used_bytes foldr]. cbn. unfold used_bytes.
    ring.
  - cbn in Hl. specialize (IH i m Hl).
    change (used_bytes (<[S i := m']> (m0 :: ms)))
      with ((count m0 - free_count m0) * block_size m0
            + used_bytes (<[i := m']> ms)).
    change (used_bytes (m0 :: ms))
      with ((count m0 - free_count m0) * block_size m0 + used_bytes ms).
    rewrite IH. ring.
Qed.

Lemma used_bytes_bounds ms :
  Forall map_wf ms -> 0 <= used_bytes ms <= maps_size ms.
Proof.
  induction 1 as [|m ms Hwf _ IH]; cbn [used_bytes maps_size foldr];
    [lia|].
  fold (used_bytes ms). fold (maps_size ms).
  pose proof (wf_block_size m Hwf). pose proof (wf_count m Hwf).
  pose proof (wf_length m Hwf). pose proof (count_free_range (block m)).
  rewrite (wf_free_count m Hwf). nia.
Qed.

Lemma heap_wf_used_bytes h :
  heap_wf h -> 0 <= used_bytes (maps h) <= heap_size h.
Proof.
  intros Hh. pose proof (used_bytes_bounds _ (hwf_maps h Hh)).
  pose proof (chain_maps_end _ _ (hwf_chain h Hh)).
  pose proof (hwf_end h Hh). lia.
Qed.

(** The block maps of [h'] are those of [h] with map [level] replaced. *)
Lemma maps_replaced h h' level m m' :
  zlookup (maps h) level = Some m -> zlookup (maps h') level = Some m' ->
  (forall k, k <> level -> zlookup (maps h') k = zlookup (maps h) k) ->
  maps h' = <[Z.to_nat level := m']> (maps h).
Proof.
  intros Hm Hm' Hframe. apply zlookup_ext. intros k.
  change (<[Z.to_nat level := m']> (maps h))
    with (zinsert level m' (maps h)).
  destruct (Z.eq_dec k level) as [->|Hne].
  - rewrite Hm'. symmetry. apply zlookup_zinsert_eq, (zlookup_lt _ _ _ Hm).
  - rewrite (Hframe k Hne). symmetry.
    apply zlookup_zinsert_ne; [apply (zlookup_lt _ _ _ Hm) | lia].
Qed.

Lemma placed_counters h h' level s c q bytes al :
  heap_wf h -> counters_ok h -> placed h h' level s c q bytes al ->
  counters_ok h'.
Proof.
  intros Hh [Hused Hsum]
         (m & m' & Hm & Hm' & _ & _ & _ & _ & _ & _ & _ & Hbs & Hcnt & Hframe
          & _ & _ & _ & Hfc & Hinfo & _ & Hsize & _ & _ & Hh').
  pose proof (maps_replaced h h' level m m' Hm Hm' Hframe) as Hmaps.
  apply zlookup_Some in Hm as [_ Hm].
  pose proof (used_bytes_insert m' (maps h) (Z.to_nat level) m Hm) as Hub.
  rewrite <- Hmaps, Hbs, Hcnt, Hfc in Hub.
  pose proof (heap_wf_used_bytes h' Hh') as Hb'.
  pose proof (hwf_size h' Hh') as Hsz'.
  pose proof (hwf_heap h' Hh') as Hpos'.
  assert (Heq : used_bytes (maps h')
                = info_used (info h) + c * block_size m)
    by (rewrite Hub, Hused; ring).
  unfold counters_ok. rewrite Hinfo, Hsize. cbn [info_used info_free].
  set (x := c * block_size m) in *.
  rewrite !wrap32_small by lia. lia.
Qed.

(** What [free_block] can make of a heap, for an address of the heap. *)
Lemma free_block_in_heap_cases h ptr h' :
  heap_wf h -> heap h <= ptr ->
  free_block_in_heap ptr h = Done (Some h') ->
  h' = h \/
  exists i m s hs blk',
    zlookup (maps h) i = Some m /\ zlookup (block m) s = Some hs /\
    0 < hdr_size hs /\ h' = freed_heap h i m s (hdr_size hs) blk' /\
    heap_wf h'.
Proof.
  intros Hh Hge Hfree.
  destruct (find_block_map_heap h ptr Hh Hge)
    as [[_ Hpast]|[i [m [_ [Hi Hin]]]]].
  { rewrite (free_block_in_heap_past_maps h ptr Hh Hge Hpast) in Hfree.
    discriminate. }
  pose proof (heap_wf_map h i m Hh Hi) as Hwf.
  pose proof (wf_block_size m Hwf) as Hbs.
  pose proof (wf_length m Hwf) as Hlen.
  set (q := (ptr - base m) / block_size m).
  assert (Hq : block_addr m q <= ptr < block_addr m q + block_size m).
  { unfold block_addr, q.
    pose proof (Z.div_mod (ptr - base m) (block_size m) ltac:(lia)).
    pose proof (Z.mod_pos_bound (ptr - base m) (block_size m) Hbs). lia. }
  assert (Hqr : 0 <= q < count m).
  { unfold map_end, block_addr in *. split.
    - apply Z.div_pos; lia.
    - apply Z.div_lt_upper_bound; [lia|]. lia. }
  destruct (used_or_unused (block m) q ltac:(lia)) as [[hq [Hl Hu]]|Hun].
  - destruct (free_block_in_heap_run h i m q hq ptr Hh Hi Hl Hu Hq)
      as [s [hs [blk' [_ [Hs [Hpos [_ [Hrun [_ Hwf']]]]]]]]].
    right. exists i, m, s, hs, blk'.
    rewrite Hrun in Hfree. injection Hfree as <-.
    split; [exact Hi|]. split; [exact Hs|]. split; [exact Hpos|].
    split; [reflexivity | exact Hwf'].
  - rewrite (free_block_in_heap_unused h i m q ptr Hh Hi Hun Hq) in Hfree.
    destruct (ptr =? block_addr m q); [|discriminate].
    left. congruence.
Qed.

Lemma freed_counters h i m s hs blk' :
  heap_wf h -> counters_ok h ->
  zlookup (maps h) i = Some m ->
  heap_wf (freed_heap h i m s (hdr_size hs) blk') ->
  counters_ok (freed_heap h i m s (hdr_size hs) blk').
Proof.
  intros Hh [Hused Hsum] Hm Hh'.
  pose proof (heap_wf_used_bytes _ Hh') as Hb'.
  pose proof (hwf_size _ Hh') as Hsz'.
  pose proof (heap_wf_used_bytes h Hh) as Hb.
  apply zlookup_Some in Hm as [_ Hm].
  unfold counters_ok, freed_heap, set_map in *.
  cbn [maps info info_used info_free heap_size heap] in *.
  unfold zinsert in *.
  pose proof (hwf_heap _ Hh') as Hpos'.
  cbn [heap] in Hpos'.
  rewrite (used_bytes_insert _ (maps h) (Z.to_nat i) m Hm) in Hb' |- *.
  cbn [count free_count block_size] in Hb' |- *.
  assert (Heq : used_bytes (maps h)
                - (count m - free_count m) * block_size m
                + (count m - (free_count m + hdr_size hs)) * block_size m
                = info_used (info h) - hdr_size hs * block_size m)
    by (rewrite Hused; ring).
  rewrite Heq in Hb' |- *.
  set (x := hdr_size hs * block_size m) in *.
  rewrite !wrap32_small by lia. lia.
Qed.

(** The heap a block-map policy leaves does not depend on the
    shared-memory translation of the pointer. *)
Lemma get_ptr_from_heap_state P h flags caps_ bytes al p h' :
  heap_wf h -> 0 <= bytes -> 0 <= al -> bytes + al < 2 ^ 32 ->
  get_ptr_from_heap P h flags caps_ bytes al = Done (p, h') ->
  h' = h \/ exists level s q, placed h h' level s 1 q bytes al.
Proof.
  intros Hh Hb Hal Hsum. unfold get_ptr_from_heap.
  destruct (Z.land al (wrap32 (al - 1)) =? 0); [|discriminate].
  destruct (get_ptr_loop_placed h caps_ bytes al Hh Hb Hal Hsum
              (Z.to_nat (blocks h)) 0 ltac:(lia))
    as [Hnone|[q [h1 [level [s [Hsome [Hq Hpl]]]]]]].
  { rewrite (hwf_blocks h Hh). lia. }
  - rewrite Hnone. cbn [obind]. change (NULL =? NULL) with true.
    cbn [negb andb]. intros H. injection H as _ <-. now left.
  - rewrite Hsome. cbn [obind]. intros H. right. exists level, s, q.
    destruct (negb (q =? NULL) && _); injection H as _ <-; exact Hpl.
Qed.

Lemma alloc_heap_buffer_state P h flags caps_ bytes al p h' :
  heap_wf h -> 0 <= bytes -> 0 <= al -> bytes + al < 2 ^ 32 ->
  alloc_heap_buffer P h flags caps_ bytes al = Done (p, h') ->
  h' = h \/ exists level s c q, placed h h' level s c q bytes al.
Proof.
  intros Hh Hb Hal Hsum. unfold alloc_heap_buffer.
  destruct (Z.land al (wrap32 (al - 1)) =? 0); [|discriminate].
  destruct (Z.eq_dec al 0) as [->|Hne].
  { destruct (Z.to_nat (blocks h)) as [|n] eqn:En.
    - cbn [single_block_loop obind]. change (NULL =? NULL) with true.
      cbn iota. rewrite En. cbn [cont_blocks_loop obind].
      change (NULL =? NULL) with true. cbn [negb andb].
      intros H. injection H as _ <-. now left.
    - cbn [single_block_loop].
      destruct (at_index (maps h) 0) as [m| |]; cbn [obind];
        discriminate. }
  destruct (single_block_loop_placed h caps_ bytes al Hh Hb ltac:(lia) Hsum
              (Z.to_nat (blocks h)) 0 ltac:(lia))
    as [Hnone|[q [h1 [level [s [Hsome [Hq Hpl]]]]]]].
  { rewrite (hwf_blocks h Hh). lia. }
  - rewrite Hnone. cbn [obind]. change (NULL =? NULL) with true. cbn iota.
    rewrite (wrap32_small (bytes + al)) by lia.
    destruct (cont_blocks_loop_placed h caps_ (bytes + al) al bytes Hh Hal
                Hb ltac:(lia) Hsum (Z.to_nat (blocks h)))
      as [Hnone2|[q [h1 [level [s [c [Hsome [Hq Hpl]]]]]]]].
    { rewrite (hwf_blocks h Hh). lia. }
    + rewrite Hnone2. cbn [obind]. change (NULL =? NULL) with true.
      cbn [negb andb]. intros H. injection H as _ <-. now left.
    + rewrite Hsome. cbn [obind]. intros H. right. exists level, s, c, q.
      destruct (negb (q =? NULL) && _); injection H as _ <-; exact Hpl.
  - rewrite Hsome. cbn [obind].
    destruct (Z.eqb_spec q NULL) as [|_]; [contradiction|]. cbn [obind].
    intros H. right. exists level, s, 1, q.
    destruct (negb (q =? NULL) && _); injection H as _ <-; exact Hpl.
Qed.

Lemma fresh_heap_counters_ok b caps_ layout :
  counters_ok (fresh_heap b caps_ layout).
Proof.
  unfold counters_ok, fresh_heap. cbn [info maps info_used info_free heap_size].
  split; [|lia]. generalize b. clear b.
  induction layout as [|[bs n] layout IH]; intros b; [reflexivity|].
  cbn [fresh_maps used_bytes foldr count free_count block_size].
  fold (used_bytes (fresh_maps (b + bs * n) layout)).
  rewrite <- IH. lia.
Qed.

(** X22: the heap counters follow the block maps.  On a heap where
    [info.used] is the number of bytes in blocks in use and [info.free]
    the rest of the heap size (as on a fresh heap), this still holds
    after every allocation from the block maps and after every free: the
    two counters always add up to the heap size, and their 32-bit
    arithmetic never wraps around. *)
Theorem heap_counters_track_blocks P h :
  heap_wf h -> counters_ok h ->
  (forall flags caps_ bytes al p h',
      0 <= bytes -> 0 <= al -> bytes + al < 2 ^ 32 ->
      get_ptr_from_heap P h flags caps_ bytes al = Done (p, h') \/
      alloc_heap_buffer P h flags caps_ bytes al = Done (p, h') ->
      counters_ok h' /\ heap_wf h') /\
  (forall ptr h',
      heap h <= ptr -> free_block_in_heap ptr h = Done (Some h') ->
      counters_ok h' /\ heap_wf h').
Proof.
  intros Hh Hc. split.
  - intros flags caps_ bytes al p h' Hb Hal Hsum [Hrun|Hrun].
    + destruct (get_ptr_from_heap_state P h flags caps_ bytes al p h' Hh Hb
                  Hal Hsum Hrun) as [->|[level [s [q Hpl]]]];
        [now split|].
      split; [apply (placed_counters h h' level s 1 q bytes al Hh Hc Hpl)|].
      destruct Hpl as (m & m' & H). apply H.
    + destruct (alloc_heap_buffer_state P h flags caps_ bytes al p h' Hh Hb
                  Hal Hsum Hrun) as [->|[level [s [c [q Hpl]]]]];
        [now split|].
      split; [apply (placed_counters h h' level s c q bytes al Hh Hc Hpl)|].
      destruct Hpl as (m & m' & H). apply H.
  - intros ptr h' Hge Hfree.
    destruct (free_block_in_heap_cases h ptr h' Hh Hge Hfree)
      as [->|[i [m [s [hs [blk' (Hi & _ & _ & -> & Hwf')]]]]]];
      [now split|].
    split; [now apply freed_counters | exact Hwf'].
Qed.

Lemma heap_counters_track_blocks_witness :
  exists p h',
    alloc_heap_buffer example_platform
      (fresh_heap 24576 3 [(64, 4); (256, 2)]) 0 1 100 8 = Done (p, h') /\
    counters_ok h' /\ heap_wf h'.
Proof.
  eexists. eexists. split; [vm_compute; reflexivity|].
  apply (proj1 (heap_counters_track_blocks example_platform
                  (fresh_heap 24576 3 [(64, 4); (256, 2)])
                  example_buffer_heap_wf
                  (fresh_heap_counters_ok 24576 3 [(64, 4); (256, 2)]))
           0 1 100 8 24832); try lia.
  right. vm_compute. reflexivity.
Defined.

(** ** The entry points keep the memory map well formed *)

Lemma mm_wf_same_heaps P s s' :
  system_runtime s' = system_runtime s -> runtime s' = runtime s ->
  buffer s' = buffer s -> mm_wf P s -> mm_wf P s'.
Proof. unfold mm_wf. now intros -> -> ->. Qed.

Lemma rfree_unlocked_wf P ptr s s' :
  mm_wf P s -> _rfree_unlocked P ptr s = Done s' -> mm_wf P s'.
Proof.
  intros Hwf. unfold _rfree_unlocked.
  destruct (ptr =? NULL); [now intros [= <-]|].
  destruct (at_index (system s) (cpu_get_id P)) as [hs| |];
    cbn [obind]; try discriminate.
  destruct (_ && _); [discriminate|].
  destruct (free_block_wf P (platform_rfree_prepare P ptr) s Hwf)
    as [Hp|[s1 [Hd Hwf1]]].
  - rewrite Hp. discriminate.
  - rewrite Hd. cbn [obind]. intros [= <-].
    now apply (mm_wf_same_heaps P s1).
Qed.

Lemma rmalloc_sys_wf P flags caps_ core bytes s p s' :
  mm_wf P s -> rmalloc_sys P flags caps_ core bytes s = Done (p, s') ->
  mm_wf P s'.
Proof.
  intros Hwf. unfold rmalloc_sys.
  destruct (at_index (system s) core) as [hs| |]; cbn [obind];
    try discriminate.
  destruct (_ =? caps_); [|discriminate].
  destruct (umod _ _) as [r| |]; cbn [obind]; try discriminate.
  destruct (_ <? _); [discriminate|]. intros [= _ <-].
  now apply (mm_wf_same_heaps P s).
Qed.

Lemma malloc_unlocked_wf P zone flags caps_ bytes s p s' :
  mm_wf P s -> 0 <= bytes -> 0 <= PLATFORM_DCACHE_ALIGN P ->
  bytes + PLATFORM_DCACHE_ALIGN P < 2 ^ 32 ->
  _malloc_unlocked P zone flags caps_ bytes s = Done (p, s') -> mm_wf P s'.
Proof.
  intros Hwf Hb Hal Hsum. unfold _malloc_unlocked.
  assert (Hserve : forall ref h q h1,
    heap_at s ref = Some h ->
    get_ptr_from_heap P h flags caps_ bytes (PLATFORM_DCACHE_ALIGN P)
    = Done (q, h1) ->
    mm_wf P (set_heap_trace_updated (heap_put s ref h1) 1)).
  { intros ref h q h1 Hat Hg.
    apply (mm_wf_same_heaps P (heap_put s ref h1)); try reflexivity.
    apply mm_wf_heap_put; [exact Hwf|].
    pose proof (mm_wf_heap_at P s ref h Hwf Hat) as Hh.
    destruct (get_ptr_from_heap_state P h flags caps_ bytes _ q h1 Hh Hb Hal
                Hsum Hg) as [->|[level [s0 [q0 Hpl]]]]; [exact Hh|].
    destruct Hpl as (m & m' & H). apply H. }
  destruct zone.
  - destruct (rmalloc_sys P flags caps_ (cpu_get_id P) bytes s)
      as [[q s1]| |] eqn:E; cbn [obind]; try discriminate.
    intros [= _ <-].
    apply (mm_wf_same_heaps P s1); try reflexivity.
    apply (rmalloc_sys_wf P flags caps_ _ bytes s q s1 Hwf E).
  - unfold rmalloc_sys_runtime.
    destruct (at_index (system_runtime s) (cpu_get_id P)) as [h| |] eqn:Eh;
      cbn [obind]; try discriminate.
    apply at_index_Done in Eh. apply zlookup_Some in Eh as [Hc Eh].
    destruct (Z.land (caps h) caps_ =? caps_); [|discriminate].
    destruct (get_ptr_from_heap P h flags caps_ bytes _)
      as [[q h1]| |] eqn:Eg; cbn [obind]; try discriminate.
    intros [= _ <-].
    apply (Hserve (InSystemRuntime (Z.to_nat (cpu_get_id P))) h q h1 Eh Eg).
  - unfold rmalloc_runtime.
    destruct (get_heap_from_caps (runtime s) caps_) as [i|].
    + destruct (heap_at s (InRuntime i)) as [h|] eqn:Eh; [|discriminate].
      destruct (get_ptr_from_heap P h flags caps_ bytes _)
        as [[q h1]| |] eqn:Eg; cbn [obind]; try discriminate.
      intros [= _ <-]. apply (Hserve (InRuntime i) h q h1 Eh Eg).
    + destruct (get_heap_from_caps (buffer s) caps_) as [i|].
      * destruct (heap_at s (InBuffer i)) as [h|] eqn:Eh; [|discriminate].
        destruct (get_ptr_from_heap P h flags caps_ bytes _)
          as [[q h1]| |] eqn:Eg; cbn [obind]; try discriminate.
        intros [= _ <-]. apply (Hserve (InBuffer i) h q h1 Eh Eg).
      * cbn [obind]. intros [= _ <-].
        now apply (mm_wf_same_heaps P s).
  - discriminate.
Qed.

Lemma balloc_loop_wf P flags caps_ bytes al :
  0 <= bytes -> 0 <= al -> bytes + al < 2 ^ 32 ->
  forall fuel i s p s',
    mm_wf P s ->
    balloc_loop P fuel flags caps_ bytes al i s = Done (p, s') ->
    mm_wf P s'.
Proof.
  intros Hb Hal Hsum. induction fuel as [|fuel IH];
    intros i s p s' Hwf H; cbn [balloc_loop] in H.
  { now injection H as _ <-. }
  destruct (i <? length (buffer s))%nat; [|now injection H as _ <-].
  destruct (get_heap_from_caps _ _) as [k|]; [|now injection H as _ <-].
  destruct (buffer s !! (i + k)%nat) as [h|] eqn:Hj; [|discriminate].
  destruct (alloc_heap_buffer P h flags caps_ bytes al)
    as [[q h1]| |] eqn:Ea; cbn [obind] in H; try discriminate.
  assert (Hwf1 : mm_wf P (heap_put s (InBuffer (i + k)) h1)).
  { apply mm_wf_heap_put; [exact Hwf|].
    pose proof (mm_wf_heap_at P s (InBuffer (i + k)) h Hwf Hj) as Hh.
    destruct (alloc_heap_buffer_state P h flags caps_ bytes al q h1 Hh Hb
                Hal Hsum Ea) as [->|[level [s0 [c [q0 Hpl]]]]]; [exact Hh|].
    destruct Hpl as (m & m' & Hx). apply Hx. }
  destruct (q =? NULL).
  - apply (IH _ _ _ _ Hwf1 H).
  - now injection H as _ <-.
Qed.

Lemma realloc_tail_wf P ptr bytes w r p w' :
  mm_wf P (snd r) -> realloc_tail P ptr bytes w r = Done (p, w') ->
  mm_wf P (memmap w').
Proof.
  destruct r as [q s1]. cbn [snd]. intros Hwf. unfold realloc_tail.
  destruct (q =? NULL).
  - intros [= _ <-]. now apply (mm_wf_same_heaps P s1).
  - destruct (_rfree_unlocked P ptr s1) as [s2| |] eqn:E; cbn [omap];
      try discriminate.
    intros [= _ <-]. apply (mm_wf_same_heaps P s2); try reflexivity.
    apply (rfree_unlocked_wf P ptr s1 s2 Hwf E).
Qed.

(** X23: every public entry point that returns leaves the block-map heaps
    of the memory map well formed, whatever the request, the pointer
    freed and the platform's shared-memory translation: the requests
    only have to fit 32 bits together with their alignment. *)
Theorem entry_points_keep_memory_map_well_formed P w :
  mm_wf P (memmap w) -> 0 <= PLATFORM_DCACHE_ALIGN P ->
  (forall zone flags caps_ bytes p w',
      0 <= bytes -> bytes + PLATFORM_DCACHE_ALIGN P < 2 ^ 32 ->
      rmalloc P zone flags caps_ bytes w = Done (p, w') \/
      rzalloc P zone flags caps_ bytes w = Done (p, w') ->
      mm_wf P (memmap w')) /\
  (forall core bytes p w',
      rzalloc_core_sys P core bytes w = Done (p, w') ->
      mm_wf P (memmap w')) /\
  (forall flags caps_ bytes al p w',
      0 <= bytes -> 0 <= al -> bytes + al < 2 ^ 32 ->
      rballoc_align P flags caps_ bytes al w = Done (p, w') ->
      mm_wf P (memmap w')) /\
  (forall ptr w', rfree P ptr w = Done w' -> mm_wf P (memmap w')) /\
  (forall ptr zone flags caps_ bytes p w',
      0 <= bytes -> bytes + PLATFORM_DCACHE_ALIGN P < 2 ^ 32 ->
      rrealloc P ptr zone flags caps_ bytes w = Done (p, w') ->
      mm_wf P (memmap w')) /\
  (forall ptr flags caps_ bytes al p w',
      0 <= bytes -> 0 <= al -> bytes + al < 2 ^ 32 ->
      rbrealloc_align P ptr flags caps_ bytes al w = Done (p, w') ->
      mm_wf P (memmap w')) /\
  (forall zone w', free_heap P zone w = Done w' -> mm_wf P (memmap w')).
Proof.
  intros Hwf Hd.
  assert (Hwf' : mm_wf P (set_lock (memmap w) true)) by exact Hwf.
  assert (Hrm : forall zone flags caps_ bytes p w',
             0 <= bytes -> bytes + PLATFORM_DCACHE_ALIGN P < 2 ^ 32 ->
             rmalloc P zone flags caps_ bytes w = Done (p, w') ->
             mm_wf P (memmap w')).
  { intros zone flags caps_ bytes p w' Hb Hsum Hrun.
    rewrite rmalloc_eq in Hrun.
    destruct (_malloc_unlocked P zone flags caps_ bytes _)
      as [[q s1]| |] eqn:E; cbn [omap fst snd] in Hrun; try discriminate.
    injection Hrun as _ <-.
    apply (mm_wf_same_heaps P s1); try reflexivity.
    apply (malloc_unlocked_wf P zone flags caps_ bytes _ q s1 Hwf' Hb Hd
             Hsum E). }
  split.
  { intros zone flags caps_ bytes p w' Hb Hsum [Hrun|Hrun];
      [now apply (Hrm zone flags caps_ bytes p w')|].
    unfold rzalloc in Hrun.
    destruct (rmalloc P zone flags caps_ bytes w) as [[q w1]| |] eqn:E;
      cbn [obind] in Hrun; try discriminate.
    injection Hrun as _ <-.
    pose proof (Hrm zone flags caps_ bytes q w1 Hb Hsum E) as Hw1.
    destruct (q =? NULL); exact Hw1. }
  split.
  { intros core bytes p w'. unfold rzalloc_core_sys, internal.
    cbn [spin_lock_irq log memmap events].
    destruct (rmalloc_sys P 0 0 core bytes (set_lock (memmap w) true))
      as [[q s1]| |] eqn:E; cbn [obind]; try discriminate.
    intros [= _ <-].
    pose proof (rmalloc_sys_wf P 0 0 core bytes _ q s1 Hwf' E) as Hw1.
    destruct (q =? NULL); exact Hw1. }
  split.
  { intros flags caps_ bytes al p w' Hb Hal Hsum Hrun.
    rewrite rballoc_align_eq in Hrun. unfold _balloc_unlocked in Hrun.
    destruct (balloc_loop P _ flags caps_ bytes al 0 _)
      as [[q s1]| |] eqn:E; cbn [omap fst snd] in Hrun; try discriminate.
    injection Hrun as _ <-.
    apply (mm_wf_same_heaps P s1); try reflexivity.
    apply (balloc_loop_wf P flags caps_ bytes al Hb Hal Hsum _ _ _ q s1 Hwf'
             E). }
  split.
  { intros ptr w' Hrun. rewrite rfree_eq in Hrun.
    destruct (_rfree_unlocked P ptr _) as [s1| |] eqn:E; cbn [omap] in Hrun;
      try discriminate.
    injection Hrun as <-.
    apply (mm_wf_same_heaps P s1); try reflexivity.
    apply (rfree_unlocked_wf P ptr _ s1 Hwf' E). }
  split.
  { intros ptr zone flags caps_ bytes p w' Hb Hsum Hrun.
    destruct (Z.eq_dec bytes 0) as [->|Hne].
    { unfold rrealloc in Hrun. change (0 =? 0) with true in Hrun.
      now injection Hrun as _ <-. }
    rewrite (rrealloc_eq P ptr zone flags caps_ bytes w Hne) in Hrun.
    destruct (_malloc_unlocked P zone flags caps_ bytes _)
      as [[q s1]| |] eqn:E; cbn [obind] in Hrun; try discriminate.
    apply (realloc_tail_wf P ptr bytes w (q, s1) p w'); [|exact Hrun].
    apply (malloc_unlocked_wf P zone flags caps_ bytes _ q s1 Hwf' Hb Hd
             Hsum E). }
  split.
  { intros ptr flags caps_ bytes al p w' Hb Hal Hsum Hrun.
    destruct (Z.eq_dec bytes 0) as [->|Hne].
    { unfold rbrealloc_align in Hrun. change (0 =? 0) with true in Hrun.
      now injection Hrun as _ <-. }
    rewrite (rbrealloc_align_eq P ptr flags caps_ bytes al w Hne) in Hrun.
    unfold _balloc_unlocked in Hrun.
    destruct (balloc_loop P _ flags caps_ bytes al 0 _)
      as [[q s1]| |] eqn:E; cbn [obind] in Hrun; try discriminate.
    apply (realloc_tail_wf P ptr bytes w (q, s1) p w'); [|exact Hrun].
    apply (balloc_loop_wf P flags caps_ bytes al Hb Hal Hsum _ _ _ q s1 Hwf'
             E). }
  intros zone w'. unfold free_heap, internal_, free_heap_unlocked.
  destruct (_ || _); [discriminate|].
  destruct (at_index (system (memmap w)) (cpu_get_id P)) as [hs| |];
    cbn [obind]; try discriminate.
  intros [= <-]. now apply (mm_wf_same_heaps P (memmap w)).
Qed.

Lemma entry_points_keep_memory_map_well_formed_witness :
  exists p w1 w2,
    rballoc_align example_platform 0 1 200 8 example_machine = Done (p, w1) /\
    mm_wf example_platform (memmap w1) /\
    rfree example_platform p w1 = Done w2.
Proof.
  eexists _, _, _. split; [vm_compute; reflexivity|].
  split; [|vm_compute; reflexivity].
  apply (proj1 (proj2 (proj2 (entry_points_keep_memory_map_well_formed
                                example_platform example_machine
                                example_mm_wf ltac:(cbn; lia)))) 0 1 200 8
           24832); try lia.
  vm_compute. reflexivity.
Defined.

(** ** No undefined behaviour on a well-formed memory map *)

Lemma get_ptr_from_heap_returns P h flags caps_ bytes al :
  heap_wf h -> 0 <= bytes -> 0 <= al -> bytes + al < 2 ^ 32 ->
  (exists p h', get_ptr_from_heap P h flags caps_ bytes al = Done (p, h')) \/
  get_ptr_from_heap P h flags caps_ bytes al = Panic SOF_IPC_PANIC_MEM.
Proof.
  intros Hh Hb Hal Hsum. unfold get_ptr_from_heap.
  destruct (Z.land al (wrap32 (al - 1)) =? 0); [left | now right].
  destruct (get_ptr_loop_placed h caps_ bytes al Hh Hb Hal Hsum
              (Z.to_nat (blocks h)) 0 ltac:(lia))
    as [Hnone|[q [h1 [level [s [Hsome _]]]]]].
  { rewrite (hwf_blocks h Hh). lia. }
  - rewrite Hnone. cbn [obind]. destruct (_ && _); eexists _, _; reflexivity.
  - rewrite Hsome. cbn [obind]. destruct (_ && _); eexists _, _; reflexivity.
Qed.

Lemma alloc_heap_buffer_returns P h flags caps_ bytes al :
  heap_wf h -> 0 <= bytes -> 0 < al -> bytes + al < 2 ^ 32 ->
  (exists p h', alloc_heap_buffer P h flags caps_ bytes al = Done (p, h')) \/
  alloc_heap_buffer P h flags caps_ bytes al = Panic SOF_IPC_PANIC_MEM.
Proof.
  intros Hh Hb Hal Hsum. unfold alloc_heap_buffer.
  destruct (Z.land al (wrap32 (al - 1)) =? 0); [left | now right].
  destruct (single_block_loop_placed h caps_ bytes al Hh Hb Hal Hsum
              (Z.to_nat (blocks h)) 0 ltac:(lia))
    as [Hnone|[q [h1 [level [s [Hsome [Hq _]]]]]]].
  { rewrite (hwf_blocks h Hh). lia. }
  - rewrite Hnone. cbn [obind]. change (NULL =? NULL) with true. cbn iota.
    rewrite (wrap32_small (bytes + al)) by lia.
    destruct (cont_blocks_loop_placed h caps_ (bytes + al) al bytes Hh
                ltac:(lia) Hb ltac:(lia) Hsum (Z.to_nat (blocks h)))
      as [Hnone2|[q [h1 [level [s [c [Hsome _]]]]]]].
    { rewrite (hwf_blocks h Hh). lia. }
    + rewrite Hnone2. cbn [obind].
      destruct (_ && _); eexists _, _; reflexivity.
    + rewrite Hsome. cbn [obind].
      destruct (_ && _); eexists _, _; reflexivity.
  - rewrite Hsome. cbn [obind].
    destruct (Z.eqb_spec q NULL) as [|_]; [contradiction|]. cbn [obind].
    destruct (_ && _); eexists _, _; reflexivity.
Qed.

Lemma no_fault_omap {A B} (f : A -> B) (o : outcome A) :
  no_fault o -> no_fault (omap f o).
Proof. now destruct o. Qed.

Lemma rmalloc_sys_no_fault P flags caps_ bytes s :
  has_system_heap P s -> 0 < PLATFORM_DCACHE_ALIGN P ->
  no_fault (rmalloc_sys P flags caps_ (cpu_get_id P) bytes s) /\
  forall p s', rmalloc_sys P flags caps_ (cpu_get_id P) bytes s = Done (p, s')
               -> has_system_heap P s'.
Proof.
  intros [hs Hs] Hd. unfold rmalloc_sys.
  rewrite (at_index_Some _ _ _ Hs). cbn [obind].
  destruct (_ =? caps_); [|split; [exact I | discriminate]].
  unfold umod. destruct (Z.eqb_spec (PLATFORM_DCACHE_ALIGN P) 0); [lia|].
  cbn [obind].
  destruct (_ <? _); [split; [exact I | discriminate]|].
  split; [exact I|]. intros p s' [= _ <-]. eexists.
  apply zlookup_set_system, (zlookup_lt _ _ _ Hs).
Qed.

Lemma malloc_unlocked_no_fault P zone flags caps_ bytes s :
  mm_wf P s -> has_system_heap P s ->
  0 < PLATFORM_DCACHE_ALIGN P -> 0 <= bytes ->
  bytes + PLATFORM_DCACHE_ALIGN P < 2 ^ 32 ->
  no_fault (_malloc_unlocked P zone flags caps_ bytes s) /\
  forall p s', _malloc_unlocked P zone flags caps_ bytes s = Done (p, s') ->
               has_system_heap P s'.
Proof.
  intros Hwf Hsys Hd Hb Hsum. unfold _malloc_unlocked.
  assert (Hserve : forall ref h,
    heap_at s ref = Some h ->
    no_fault
      (let* (ptr, s0) :=
         (let* (ptr, h0) :=
            get_ptr_from_heap P h flags caps_ bytes (PLATFORM_DCACHE_ALIGN P)
          in Done (ptr, heap_put s ref h0)) in
       Done (ptr, set_heap_trace_updated s0 1)) /\
    forall p s',
      (let* (ptr, s0) :=
         (let* (ptr, h0) :=
            get_ptr_from_heap P h flags caps_ bytes (PLATFORM_DCACHE_ALIGN P)
          in Done (ptr, heap_put s ref h0)) in
       Done (ptr, set_heap_trace_updated s0 1)) = Done (p, s') ->
      has_system_heap P s').
  { intros ref h Hat.
    destruct (get_ptr_from_heap_returns P h flags caps_ bytes
                (PLATFORM_DCACHE_ALIGN P)
                (mm_wf_heap_at P s ref h Hwf Hat) Hb ltac:(lia) Hsum)
      as [[q [h1 Hg]]|Hg]; rewrite Hg; cbn [obind].
    - split; [exact I|]. intros p s' [= _ <-].
      destruct ref; exact Hsys.
    - split; [exact I | discriminate]. }
  destruct zone.
  - destruct (rmalloc_sys_no_fault P flags caps_ bytes s Hsys Hd)
      as [Hnf Hkeep].
    destruct (rmalloc_sys P flags caps_ (cpu_get_id P) bytes s)
      as [[q s1]| |]; cbn [obind]; try (split; [exact I | discriminate]);
      [|contradiction].
    split; [exact I|]. intros p s' [= _ <-]. apply (Hkeep q s1 eq_refl).
  - unfold rmalloc_sys_runtime. destruct (proj1 Hwf) as [h Hh].
    rewrite (at_index_Some _ _ _ Hh). cbn [obind].
    destruct (_ =? caps_); [|split; [exact I | discriminate]].
    apply zlookup_Some in Hh as [_ Hh].
    apply (Hserve (InSystemRuntime (Z.to_nat (cpu_get_id P))) h Hh).
  - unfold rmalloc_runtime.
    destruct (get_heap_from_caps (runtime s) caps_) as [i|] eqn:Er.
    + apply get_heap_from_caps_Some in Er as [[h [Hl _]] _].
      change (heap_at s (InRuntime i)) with (runtime s !! i). rewrite Hl.
      apply (Hserve (InRuntime i) h Hl).
    + destruct (get_heap_from_caps (buffer s) caps_) as [i|] eqn:Eb.
      * apply get_heap_from_caps_Some in Eb as [[h [Hl _]] _].
        change (heap_at s (InBuffer i)) with (buffer s !! i). rewrite Hl.
        apply (Hserve (InBuffer i) h Hl).
      * cbn [obind]. split; [exact I|]. intros p s' [= _ <-]. exact Hsys.
  - cbn [obind]. split; [exact I | discriminate].
Qed.

Lemma balloc_loop_no_fault P flags caps_ bytes al :
  0 <= bytes -> 0 < al -> bytes + al < 2 ^ 32 ->
  forall fuel i s,
    mm_wf P s -> no_fault (balloc_loop P fuel flags caps_ bytes al i s).
Proof.
  intros Hb Hal Hsum. induction fuel as [|fuel IH]; intros i s Hwf;
    cbn [balloc_loop]; [exact I|].
  destruct (i <? length (buffer s))%nat; [|exact I].
  destruct (get_heap_from_caps (drop i (buffer s)) caps_) as [k|] eqn:Ek;
    [|exact I].
  apply get_heap_from_caps_Some in Ek as [[h [Hk _]] _].
  rewrite lookup_drop in Hk. rewrite Hk.
  pose proof (mm_wf_heap_at P s (InBuffer (i + k)) h Hwf Hk) as Hh.
  destruct (alloc_heap_buffer_returns P h flags caps_ bytes al Hh Hb Hal Hsum)
    as [[q [h1 Ha]]|Ha]; rewrite Ha; cbn [obind]; [|exact I].
  destruct (q =? NULL); [|exact I].
  apply IH. apply mm_wf_heap_put; [exact Hwf|].
  destruct (alloc_heap_buffer_state P h flags caps_ bytes al q h1 Hh Hb
              ltac:(lia) Hsum Ha) as [->|[level [s0 [c [q0 Hpl]]]]];
    [exact Hh|].
  destruct Hpl as (m & m' & Hx). apply Hx.
Qed.

Lemma rfree_unlocked_no_fault P ptr s :
  mm_wf P s -> has_system_heap P s -> no_fault (_rfree_unlocked P ptr s).
Proof.
  intros Hwf [hs Hs]. unfold _rfree_unlocked.
  destruct (ptr =? NULL); [exact I|].
  rewrite (at_index_Some _ _ _ Hs). cbn [obind].
  destruct (_ && _); [exact I|].
  destruct (free_block_wf P (platform_rfree_prepare P ptr) s Hwf)
    as [Hp|[s1 [Hd _]]]; [rewrite Hp | rewrite Hd]; exact I.
Qed.

Lemma realloc_tail_no_fault P ptr bytes w r :
  mm_wf P (snd r) -> has_system_heap P (snd r) ->
  no_fault (realloc_tail P ptr bytes w r).
Proof.
  destruct r as [q s1]. cbn [snd]. intros Hwf Hsys. unfold realloc_tail.
  destruct (q =? NULL); [exact I|].
  apply no_fault_omap, (rfree_unlocked_no_fault P ptr s1 Hwf Hsys).
Qed.

(** X24: on a well-formed memory map the entry points never run into
    undefined behaviour: whatever the zone, flags, capabilities, size and
    pointer, [rmalloc], [rzalloc], [rballoc_align], [rfree], [rrealloc],
    [rbrealloc_align] and [free_heap] end with a result or with a panic,
    never with an index outside a heap table or block map or with a
    division by zero.  The cache line size and the buffer alignment must
    not be zero, and the request must fit 32 bits. *)
Theorem entry_points_never_fault P w :
  mm_wf P (memmap w) -> has_system_heap P (memmap w) ->
  0 < PLATFORM_DCACHE_ALIGN P ->
  (forall zone flags caps_ bytes,
      0 <= bytes -> bytes + PLATFORM_DCACHE_ALIGN P < 2 ^ 32 ->
      no_fault (rmalloc P zone flags caps_ bytes w) /\
      no_fault (rzalloc P zone flags caps_ bytes w) /\
      forall ptr, no_fault (rrealloc P ptr zone flags caps_ bytes w)) /\
  (forall flags caps_ bytes al,
      0 <= bytes -> 0 < al -> bytes + al < 2 ^ 32 ->
      no_fault (rballoc_align P flags caps_ bytes al w) /\
      forall ptr, no_fault (rbrealloc_align P ptr flags caps_ bytes al w)) /\
  (forall ptr, no_fault (rfree P ptr w)) /\
  (forall zone, no_fault (free_heap P zone w)).
Proof.
  intros Hwf Hsys Hd.
  assert (Hwf' : mm_wf P (set_lock (memmap w) true)) by exact Hwf.
  assert (Hsys' : has_system_heap P (set_lock (memmap w) true))
    by exact Hsys.
  split; [|split; [|split]].
  - intros zone flags caps_ bytes Hb Hsum.
    destruct (malloc_unlocked_no_fault P zone flags caps_ bytes _ Hwf' Hsys'
                Hd Hb Hsum) as [Hnf Hkeep].
    assert (Hrm : no_fault (rmalloc P zone flags caps_ bytes w))
      by (rewrite rmalloc_eq; now apply no_fault_omap).
    split; [exact Hrm|]. split.
    + unfold rzalloc.
      destruct (rmalloc P zone flags caps_ bytes w) as [[q w1]| |];
        cbn [obind]; [exact I | exact I | contradiction].
    + intros ptr. destruct (Z.eq_dec bytes 0) as [->|Hne].
      { unfold rrealloc. change (0 =? 0) with true. exact I. }
      rewrite (rrealloc_eq P ptr zone flags caps_ bytes w Hne).
      destruct (_malloc_unlocked P zone flags caps_ bytes _)
        as [[q s1]| |] eqn:E; cbn [obind]; [|exact I | contradiction].
      apply realloc_tail_no_fault; cbn [snd].
      * apply (malloc_unlocked_wf P zone flags caps_ bytes _ q s1 Hwf' Hb
                 ltac:(lia) Hsum E).
      * apply (Hkeep q s1 eq_refl).
  - intros flags caps_ bytes al Hb Hal Hsum.
    pose proof (balloc_loop_no_fault P flags caps_ bytes al Hb Hal Hsum
                  (length (buffer (set_lock (memmap w) true))) 0 _ Hwf')
      as Hnf.
    split.
    + rewrite rballoc_align_eq. now apply no_fault_omap.
    + intros ptr. destruct (Z.eq_dec bytes 0) as [->|Hne].
      { unfold rbrealloc_align. change (0 =? 0) with true. exact I. }
      rewrite (rbrealloc_align_eq P ptr flags caps_ bytes al w Hne).
      unfold _balloc_unlocked.
      destruct (balloc_loop P _ flags caps_ bytes al 0 _)
        as [[q s1]| |] eqn:E; cbn [obind]; [|exact I | contradiction].
      apply realloc_tail_no_fault; cbn [snd].
      * apply (balloc_loop_wf P flags caps_ bytes al Hb ltac:(lia) Hsum _ _ _
                 q s1 Hwf' E).
      * destruct (balloc_loop_frame P _ flags caps_ bytes al _ _ _ _ E)
          as [Hs _].
        unfold has_system_heap. rewrite Hs. exact Hsys'.
  - intros ptr. rewrite rfree_eq.
    apply no_fault_omap, (rfree_unlocked_no_fault P ptr _ Hwf' Hsys').
  - intros zone. unfold free_heap, internal_, free_heap_unlocked.
    destruct (_ || _); [exact I|]. destruct Hsys as [hs Hs].
    rewrite (at_index_Some _ _ _ Hs). exact I.
Qed.

Lemma entry_points_never_fault_witness :
  no_fault (rballoc_align example_platform 0 1 100000 24 example_machine) /\
  no_fault (rfree example_platform 24577 example_machine).
Proof.
  destruct (entry_points_never_fault example_platform example_machine
              example_mm_wf
              (ex_intro _ (fresh_sys_heap 4096 1024) eq_refl)
              eq_refl) as (_ & Hb & Hf & _).
  split.
  - destruct (Hb 0 1 100000 24) as [Hr _]; [lia | lia | lia | exact Hr].
  - apply Hf.
Defined.
